(** * MindMap layout engine: a shallow embedding and its verified properties

    The development follows the TypeScript sources of the repository:

    - [engine/layoutEngine.ts] in its refined revision (tangential radial
      push, greedy left/right split, per-axis collision sweep): node sizing,
      [buildLayoutTree], [collectNodes], [collectEdges], the five layout
      strategies, [resolveCollisions], [computeBounds], [computeLayout];
    - [components/canvas/Edge.tsx] (anchor selection and marker gaps);
    - [App.tsx] (drag handling guarded by [wouldCrossEdges], the layout
      memo with its manual positions, [toggleCollapse], [countNodes]);
    - [components/input/DataInput.tsx] (the tree editing helpers) and
      [parseTextToMindMap], which it calls;
    - [components/canvas/MindMapCanvas.tsx] (the view box: dragging and
      zooming; [rectBoundaryPoint]);
    - the text utilities ([wrapText]).

    Modelling conventions.

    - A JavaScript [number] is a rational ([Q]); rounding, NaN and signed
      zeros are not modelled.  [Infinity], which [computeBounds] uses as the
      neutral element of min/max, is modelled by the type [Ext].
    - [LayoutNode] objects are mutable and shared (the node list, the
      children arrays and the edges all alias the same objects).  An object
      is therefore split in two: an immutable handle ([LayoutNode]: object
      identity [n_ref], [id], [children]) and a record of its scalar fields
      ([Geom]) kept in a heap indexed by object identity.  Every function
      that mutates nodes is a heap transformer.
    - [Math.cos], [Math.sin], [Math.PI], [Math.atan2], the canvas based
      text measurement and the string functions that depend on the
      Unicode tables ([trim], the regular expressions of
      [parseTextToMindMap]) are parameters of the development. *)

From Stdlib Require Import QArith Qminmax Qabs Qround Lqa Lia ZArith List Permutation Sorted.
From stdpp Require Import base option list gmap strings pretty.

#[local] Set Warnings "-register-all".

#[local] Open Scope Q_scope.

(** ** Numbers *)

Definition Qgtb (a b : Q) : bool :=
  match a ?= b with Gt => true | _ => false end.
Definition Qltb (a b : Q) : bool := Qgtb b a.

(** [let s = 0; for (const c of l) s += f(c)] *)
Definition sumOver {A : Type} (f : A -> Q) (l : list A) : Q :=
  fold_left (fun acc c => acc + f c) l 0.

Definition ofNat (n : nat) : Q := inject_Z (Z.of_nat n).

(** ** Source tree ([MindMapNode]) and configuration *)

Inductive MindMapNode : Type :=
  MMNode (id : string) (text : string) (icon : option string)
         (collapsed : option bool) (children : list MindMapNode).

Definition mm_id (n : MindMapNode) : string :=
  match n with MMNode i _ _ _ _ => i end.
Definition mm_text (n : MindMapNode) : string :=
  match n with MMNode _ t _ _ _ => t end.
Definition mm_icon (n : MindMapNode) : option string :=
  match n with MMNode _ _ ic _ _ => ic end.
Definition mm_collapsed (n : MindMapNode) : option bool :=
  match n with MMNode _ _ _ c _ => c end.
Definition mm_children (n : MindMapNode) : list MindMapNode :=
  match n with MMNode _ _ _ _ cs => cs end.

(** JavaScript truthiness of the two optional fields. *)
Definition truthyFlag (c : option bool) : bool :=
  match c with Some true => true | _ => false end.
Definition truthyString (s : option string) : bool :=
  match s with Some EmptyString | None => false | Some _ => true end.

Inductive LayoutType : Type :=
  | Radial | HorizontalRight | HorizontalLeft | Vertical | Tree.

Inductive MarkerShape : Type :=
  | MNone | MArrow | MTriangle | MSquare | MDiamond | MCircle | MDot.

Inductive LinkStyle : Type := Bezier | Straight | Angular | Organic.

Record StyleConfig : Type := {
  rootFontSize : Q;
  nodePaddingX : Q;
  nodePaddingY : Q
}.

Record TypographyConfig : Type := {
  fontFamily : string;
  levelFontSizes : list Q;
  fontWeight : string
}.

Record StructureConfig : Type := {
  layout : LayoutType;
  horizontalSpacing : Q;
  verticalSpacing : Q;
  maxDepth : nat
}.

Record LinkConfig : Type := {
  linkStyle : LinkStyle;
  markerStart : MarkerShape;
  markerEnd : MarkerShape;
  markerSize : Q
}.

Record ExportConfig : Type := {
  padding : Q
}.

Record MindMapConfig : Type := {
  style : StyleConfig;
  typography : TypographyConfig;
  structure : StructureConfig;
  link : LinkConfig;
  export : ExportConfig
}.

(** ** Layout nodes: handles and heap *)

Inductive LayoutNode : Type :=
  LNode (ref : nat) (id : string) (children : list LayoutNode).

Definition n_ref (n : LayoutNode) : nat :=
  match n with LNode r _ _ => r end.
Definition n_id (n : LayoutNode) : string :=
  match n with LNode _ i _ => i end.
Definition n_children (n : LayoutNode) : list LayoutNode :=
  match n with LNode _ _ cs => cs end.

Record Geom : Type := {
  n_x : Q;
  n_y : Q;
  n_width : Q;
  n_height : Q;
  n_depth : nat;
  n_angle : option Q
}.

Definition Heap : Type := nat -> Geom.

Definition emptyGeom : Geom :=
  {| n_x := 0; n_y := 0; n_width := 0; n_height := 0; n_depth := 0%nat;
     n_angle := None |}.
Definition emptyHeap : Heap := fun _ => emptyGeom.

Definition upd (h : Heap) (r : nat) (g : Geom) : Heap :=
  fun r' => if Nat.eqb r' r then g else h r'.

Definition setX (v : Q) (g : Geom) : Geom :=
  {| n_x := v; n_y := n_y g; n_width := n_width g; n_height := n_height g;
     n_depth := n_depth g; n_angle := n_angle g |}.
Definition setY (v : Q) (g : Geom) : Geom :=
  {| n_x := n_x g; n_y := v; n_width := n_width g; n_height := n_height g;
     n_depth := n_depth g; n_angle := n_angle g |}.
Definition setAngle (v : Q) (g : Geom) : Geom :=
  {| n_x := n_x g; n_y := n_y g; n_width := n_width g; n_height := n_height g;
     n_depth := n_depth g; n_angle := Some v |}.

(** [n.x = v], [n.y = v], [n.angle = v] on the object behind a handle. *)
Definition writeX (n : LayoutNode) (v : Q) (h : Heap) : Heap :=
  upd h (n_ref n) (setX v (h (n_ref n))).
Definition writeY (n : LayoutNode) (v : Q) (h : Heap) : Heap :=
  upd h (n_ref n) (setY v (h (n_ref n))).
Definition writeAngle (n : LayoutNode) (v : Q) (h : Heap) : Heap :=
  upd h (n_ref n) (setAngle v (h (n_ref n))).

Definition nodeX (h : Heap) (n : LayoutNode) : Q := n_x (h (n_ref n)).
Definition nodeY (h : Heap) (n : LayoutNode) : Q := n_y (h (n_ref n)).
Definition nodeW (h : Heap) (n : LayoutNode) : Q := n_width (h (n_ref n)).
Definition nodeH (h : Heap) (n : LayoutNode) : Q := n_height (h (n_ref n)).
Definition nodeD (h : Heap) (n : LayoutNode) : nat := n_depth (h (n_ref n)).
Definition nodeA (h : Heap) (n : LayoutNode) : option Q := n_angle (h (n_ref n)).

Record LayoutEdge : Type := {
  e_id : string;
  e_source : LayoutNode;
  e_target : LayoutNode;
  e_depth : nat
}.

(** ** Node sizing and tree building *)

Section Build.

(** The canvas based text measurement; the font size is [None] when the
    per-level list is empty (an out-of-range array read). *)
Variable measureText : string -> option Q -> string -> string -> Q * Q.

Definition calcNodeSize (node : MindMapNode) (depth : nat)
    (config : MindMapConfig) : Q * Q :=
  let fontSize :=
    if Nat.eqb depth 0 then Some (rootFontSize (style config))
    else nth_error (levelFontSizes (typography config))
           (Nat.min depth (length (levelFontSizes (typography config)) - 1)) in
  let fontWeight :=
    if Nat.eqb depth 0 then "bold"%string else fontWeight (typography config) in
  let measured :=
    measureText (mm_text node) fontSize (fontFamily (typography config))
      fontWeight in
  let textWidth := fst measured in
  let textHeight := snd measured in
  let paddingX := nodePaddingX (style config) in
  let paddingY := nodePaddingY (style config) in
  let iconSpace := if truthyString (mm_icon node) then 24 else 0 in
  (textWidth + paddingX * 2 + iconSpace, textHeight + paddingY * 2).

(** Allocation state: the next fresh object identity and the heap. *)
Definition BuildState : Type := nat * Heap.

Fixpoint buildLayoutTree (node : MindMapNode) (depth : nat)
    (config : MindMapConfig) (st : BuildState) : LayoutNode * BuildState :=
  let '(w, hgt) := calcNodeSize node depth config in
  let r := fst st in
  let g := {| n_x := 0; n_y := 0; n_width := w; n_height := hgt;
              n_depth := depth; n_angle := None |} in
  let st1 : BuildState := (S r, upd (snd st) r g) in
  if negb (truthyFlag (mm_collapsed node)) && Nat.ltb depth (maxDepth (structure config))
  then
    let '(cs, st2) :=
      (fix mapChildren (l : list MindMapNode) (s : BuildState)
         : list LayoutNode * BuildState :=
         match l with
         | [] => ([], s)
         | child :: l' =>
             let '(c, s1) := buildLayoutTree child (S depth) config s in
             let '(cs, s2) := mapChildren l' s1 in
             (c :: cs, s2)
         end) (mm_children node) st1 in
    (LNode r (mm_id node) cs, st2)
  else (LNode r (mm_id node) [], st1).

End Build.

(** ** Collecting nodes and edges *)

Fixpoint collectNodes (root : LayoutNode) : list LayoutNode :=
  root :: flat_map collectNodes (n_children root).

Definition edgeId (s t : string) : string := (s ++ "->" ++ t)%string.

Fixpoint collectEdges (h : Heap) (root : LayoutNode) : list LayoutEdge :=
  flat_map (fun child =>
    {| e_id := edgeId (n_id root) (n_id child); e_source := root;
       e_target := child; e_depth := nodeD h child |} :: collectEdges h child)
    (n_children root).

(** ** Tidy layouts: horizontal right, horizontal left, vertical *)

(** [subtreeHeight] of [layoutHorizontalRight] and [layoutTree]; the two
    closures differ only in the value of [vSpacing]. *)
Fixpoint subtreeHeight (vSpacing : Q) (h : Heap) (node : LayoutNode) : Q :=
  match node with
  | LNode _ _ [] => nodeH h node + vSpacing
  | LNode _ _ cs =>
      Qmax (sumOver (subtreeHeight vSpacing h) cs) (nodeH h node + vSpacing)
  end.

(** [assign] of [layoutHorizontalRight], also [assignRight] of [layoutTree]. *)
Fixpoint assignRight (hSpacing vSpacing : Q) (node : LayoutNode)
    (x yStart : Q) (h : Heap) : Heap :=
  let h1 := writeX node x h in
  let totalH := subtreeHeight vSpacing h1 node in
  let h2 := writeY node (yStart + totalH / 2 - nodeH h1 node / 2) h1 in
  (fix loop (cs : list LayoutNode) (childY : Q) (h : Heap) : Heap :=
     match cs with
     | [] => h
     | child :: cs' =>
         let childH := subtreeHeight vSpacing h child in
         loop cs' (childY + childH)
           (assignRight hSpacing vSpacing child (x + hSpacing) childY h)
     end) (n_children node) yStart h2.

Definition layoutHorizontalRight (root : LayoutNode) (config : MindMapConfig)
    (h : Heap) : Heap :=
  let hSpacing := horizontalSpacing (structure config) + 80 in
  let vSpacing := verticalSpacing (structure config) + 8 in
  let totalH := subtreeHeight vSpacing h root in
  assignRight hSpacing vSpacing root 0 (- totalH / 2) h.

Definition layoutHorizontalLeft (root : LayoutNode) (config : MindMapConfig)
    (h : Heap) : Heap :=
  let h1 := layoutHorizontalRight root config h in
  let nodes := collectNodes root in
  fold_left (fun h n => writeX n (- nodeX h n - nodeW h n) h) nodes h1.

Fixpoint subtreeWidth (hSpacing : Q) (h : Heap) (node : LayoutNode) : Q :=
  match node with
  | LNode _ _ [] => nodeW h node + hSpacing
  | LNode _ _ cs =>
      Qmax (sumOver (subtreeWidth hSpacing h) cs) (nodeW h node + hSpacing)
  end.

(** [assign] of [layoutVertical]. *)
Fixpoint assignDown (hSpacing vSpacing : Q) (node : LayoutNode)
    (xStart y : Q) (h : Heap) : Heap :=
  let totalW := subtreeWidth hSpacing h node in
  let h1 := writeX node (xStart + totalW / 2 - nodeW h node / 2) h in
  let h2 := writeY node y h1 in
  (fix loop (cs : list LayoutNode) (childX : Q) (h : Heap) : Heap :=
     match cs with
     | [] => h
     | child :: cs' =>
         let childW := subtreeWidth hSpacing h child in
         loop cs' (childX + childW)
           (assignDown hSpacing vSpacing child childX (y + vSpacing) h)
     end) (n_children node) xStart h2.

Definition layoutVertical (root : LayoutNode) (config : MindMapConfig)
    (h : Heap) : Heap :=
  let hSpacing := horizontalSpacing (structure config) + 10 in
  let vSpacing := verticalSpacing (structure config) + 40 in
  let totalW := subtreeWidth hSpacing h root in
  assignDown hSpacing vSpacing root (- totalW / 2) 0 h.

(** ** Balanced tree layout *)

(** The search loop of [layoutTree]: [bestDiff] starts at [Infinity]
    ([None]); [i] is the index of the head of [ws]. *)
Fixpoint splitLoop (totalWeight : Q) (ws : list Q) (i : nat)
    (cumulative : Q) (bestSplit : nat) (bestDiff : option Q) : nat :=
  match ws with
  | [] => bestSplit
  | w :: ws' =>
      let cumulative := cumulative + w in
      let rightW := cumulative in
      let leftW := totalWeight - cumulative in
      let diff := Qabs (rightW - leftW) in
      let better :=
        match bestDiff with None => true | Some b => Qltb diff b end in
      if better then splitLoop totalWeight ws' (S i) cumulative (S i) (Some diff)
      else splitLoop totalWeight ws' (S i) cumulative bestSplit bestDiff
  end.

(** [Math.ceil(n / 2)] for an array length [n]. *)
Definition ceilHalf (n : nat) : nat := Nat.div2 (S n).

Definition bestSplit (weights : list Q) : nat :=
  let n := length weights in
  let totalWeight := fold_left Qplus weights 0 in
  splitLoop totalWeight weights 0 0 (ceilHalf n) None.

Fixpoint assignLeft (hSpacing vSpacing : Q) (node : LayoutNode)
    (x yStart : Q) (h : Heap) : Heap :=
  let h1 := writeX node (x - nodeW h node) h in
  let totalH := subtreeHeight vSpacing h1 node in
  let h2 := writeY node (yStart + totalH / 2 - nodeH h1 node / 2) h1 in
  (fix loop (cs : list LayoutNode) (childY : Q) (h : Heap) : Heap :=
     match cs with
     | [] => h
     | child :: cs' =>
         let childH := subtreeHeight vSpacing h child in
         loop cs' (childY + childH)
           (assignLeft hSpacing vSpacing child (x - hSpacing) childY h)
     end) (n_children node) yStart h2.

(** The two groups chosen by [layoutTree]. *)
Definition treeGroups (vSpacing : Q) (h : Heap) (root : LayoutNode)
    : list LayoutNode * list LayoutNode :=
  let weights := map (subtreeHeight vSpacing h) (n_children root) in
  let best := bestSplit weights in
  (take best (n_children root), drop best (n_children root)).

(** One of the two "position children centered vertically" loops; [xOf]
    is the expression over [root] that the loop re-evaluates for each child. *)
Fixpoint placeGroup (assignSide : LayoutNode -> Q -> Q -> Heap -> Heap)
    (vSpacing : Q) (xOf : Heap -> Q) (group : list LayoutNode) (y : Q)
    (h : Heap) : Heap :=
  match group with
  | [] => h
  | child :: group' =>
      let h1 := assignSide child (xOf h) y h in
      placeGroup assignSide vSpacing xOf group'
        (y + subtreeHeight vSpacing h1 child) h1
  end.

Definition layoutTree (root : LayoutNode) (config : MindMapConfig)
    (h : Heap) : Heap :=
  let hSpacing := horizontalSpacing (structure config) + 80 in
  let vSpacing := verticalSpacing (structure config) + 12 in
  let h1 := writeX root (- nodeW h root / 2) h in
  let h2 := writeY root (- nodeH h1 root / 2) h1 in
  let '(rightChildren, leftChildren) := treeGroups vSpacing h2 root in
  let rightTotalH := sumOver (subtreeHeight vSpacing h2) rightChildren in
  let h3 :=
    placeGroup (assignRight hSpacing vSpacing) vSpacing
      (fun h => nodeX h root + nodeW h root + hSpacing * (1 # 2))
      rightChildren (- rightTotalH / 2) h2 in
  let leftTotalH := sumOver (subtreeHeight vSpacing h3) leftChildren in
  placeGroup (assignLeft hSpacing vSpacing) vSpacing
    (fun h => nodeX h root - hSpacing * (1 # 2))
    leftChildren (- leftTotalH / 2) h3.

(** ** Radial layout *)

Fixpoint computeSubtreeLeaves (node : LayoutNode) : nat :=
  match node with
  | LNode _ _ [] => 1%nat
  | LNode _ _ cs => fold_left (fun total c => (total + computeSubtreeLeaves c)%nat) cs 0%nat
  end.

Definition radiusForDepth (baseRing : Q) (depth : nat) : Q :=
  ofNat depth * baseRing
  + (if Nat.ltb 1 depth then (ofNat depth - 1) * 40 else 0).

(** The arc a node needs by itself: [nodeArc] in [minSubtreeAngle]. *)
Definition nodeArc (baseRing : Q) (h : Heap) (node : LayoutNode) : Q :=
  let r := radiusForDepth baseRing (nodeD h node) in
  if Qgtb r 0 then (Qmax (nodeW h node) (nodeH h node) + 20) / r else 3 # 10.

Fixpoint minSubtreeAngle (baseRing : Q) (h : Heap) (node : LayoutNode) : Q :=
  match node with
  | LNode _ _ [] => nodeArc baseRing h node
  | LNode _ _ cs =>
      Qmax (nodeArc baseRing h node) (sumOver (minSubtreeAngle baseRing h) cs)
  end.

(** The array [allocated] before normalisation: the proportional share of
    each child, raised to the child's minimum. *)
Definition flooredAngles (baseRing : Q) (h : Heap) (cs : list LayoutNode)
    (angleSpan : Q) : list Q :=
  let childInfos :=
    map (fun child => (computeSubtreeLeaves child, minSubtreeAngle baseRing h child)) cs in
  let totalLeaves := fold_left (fun s c => (s + fst c)%nat) childInfos 0%nat in
  map (fun info =>
         let proportional := (ofNat (fst info) / ofNat totalLeaves) * angleSpan in
         Qmax proportional (snd info)) childInfos.

(** The array [allocated] after "normalize if total exceeds available
    span". *)
Definition allocateAngles (baseRing : Q) (h : Heap) (cs : list LayoutNode)
    (angleSpan : Q) : list Q :=
  let allocated := flooredAngles baseRing h cs angleSpan in
  let totalAllocated := fold_left Qplus allocated 0 in
  if Qgtb totalAllocated angleSpan then
    let scale := angleSpan / totalAllocated in
    map (fun a => a * scale) allocated
  else allocated.

Section Radial.

(** [Math.cos], [Math.sin], [Math.PI]. *)
Variables (cos sin : Q -> Q) (PI : Q).

Fixpoint positionChildren (baseRing : Q) (parent : LayoutNode)
    (startAngle endAngle : Q) (h : Heap) : Heap :=
  let angleSpan := endAngle - startAngle in
  let allocated := allocateAngles baseRing h (n_children parent) angleSpan in
  (fix loop (cs : list LayoutNode) (angles : list Q) (currentAngle : Q)
       (h : Heap) : Heap :=
     match cs, angles with
     | child :: cs', angle :: angles' =>
         let childStart := currentAngle in
         let childEnd := currentAngle + angle in
         let midAngle := (childStart + childEnd) / 2 in
         let r := radiusForDepth baseRing (nodeD h child) in
         let h1 := writeX child (cos midAngle * r - nodeW h child / 2) h in
         let h2 := writeY child (sin midAngle * r - nodeH h1 child / 2) h1 in
         let h3 := writeAngle child midAngle h2 in
         loop cs' angles' childEnd
           (positionChildren baseRing child childStart childEnd h3)
     | _, _ => h
     end) (n_children parent) allocated startAngle h.

Definition layoutRadial (root : LayoutNode) (config : MindMapConfig)
    (h : Heap) : Heap :=
  let h1 := writeX root (- nodeW h root / 2) h in
  let h2 := writeY root (- nodeH h1 root / 2) h1 in
  let baseRing := horizontalSpacing (structure config) + 120 in
  positionChildren baseRing root 0 (PI * 2) h2.

End Radial.

(** ** Collision resolution *)

Definition shiftNode (n : LayoutNode) (dx dy : Q) (h : Heap) : Heap :=
  let h1 := writeX n (nodeX h n + dx) h in
  writeY n (nodeY h1 n + dy) h1.

(** [shiftSubtreeXY], and [shiftSubtree] whose second argument is unused. *)
Fixpoint shiftSubtreeXY (node : LayoutNode) (dx dy : Q) (h : Heap) : Heap :=
  match node with
  | LNode _ _ cs =>
      fold_left (fun h child => shiftSubtreeXY child dx dy (shiftNode child dx dy h)) cs h
  end.

Definition shiftSubtree (node : LayoutNode) (_dy dx dy : Q) (h : Heap) : Heap :=
  shiftSubtreeXY node dx dy h.

(** [byDepth]: a [Map] iterates its keys in insertion order. *)
Fixpoint groupPush (d : nat) (n : LayoutNode)
    (m : list (nat * list LayoutNode)) : list (nat * list LayoutNode) :=
  match m with
  | [] => [(d, [n])]
  | (d', arr) :: m' =>
      if Nat.eqb d' d then (d', arr ++ [n]) :: m'
      else (d', arr) :: groupPush d n m'
  end.

Definition groupByDepth (skipRoot : bool) (h : Heap) (nodes : list LayoutNode)
    : list (nat * list LayoutNode) :=
  fold_left (fun m n =>
    if skipRoot && Nat.eqb (nodeD h n) 0 then m else groupPush (nodeD h n) n m)
    nodes [].

(** [Array.prototype.sort] with the comparator [(a, b) => key(a) - key(b)]:
    the sort is stable, so its result is the stable sorted arrangement,
    computed here by insertion. *)
Fixpoint insertBy {A : Type} (key : A -> Q) (a : A) (l : list A) : list A :=
  match l with
  | [] => [a]
  | b :: l' => if Qgtb (key a) (key b) then b :: insertBy key a l' else a :: l
  end.

Definition sortBy {A : Type} (key : A -> Q) (l : list A) : list A :=
  fold_right (insertBy key) [] l.

Inductive Axis : Type := AxisX | AxisY.

Definition coord (ax : Axis) (h : Heap) (n : LayoutNode) : Q :=
  match ax with AxisX => nodeX h n | AxisY => nodeY h n end.
Definition extent (ax : Axis) (h : Heap) (n : LayoutNode) : Q :=
  match ax with AxisX => nodeW h n | AxisY => nodeH h n end.

(** [curr.x += overlap; shiftSubtreeXY(curr, overlap, 0)] on the x axis,
    [curr.y += overlap; shiftSubtreeXY(curr, 0, overlap)] on the y axis. *)
Definition pushForward (ax : Axis) (curr : LayoutNode) (overlap : Q)
    (h : Heap) : Heap :=
  match ax with
  | AxisX => shiftSubtreeXY curr overlap 0 (writeX curr (nodeX h curr + overlap) h)
  | AxisY => shiftSubtreeXY curr 0 overlap (writeY curr (nodeY h curr + overlap) h)
  end.

Definition collisionPadding : Q := 14.

(** The loop [for (let i = 1; i < depthNodes.length; i++)], entered with
    [prev = depthNodes[i - 1]] and the remaining elements. *)
Fixpoint sweepFrom (ax : Axis) (prev : LayoutNode) (rest : list LayoutNode)
    (h : Heap) : Heap :=
  match rest with
  | [] => h
  | curr :: rest' =>
      let overlap :=
        coord ax h prev + extent ax h prev + collisionPadding - coord ax h curr in
      sweepFrom ax curr rest'
        (if Qgtb overlap 0 then pushForward ax curr overlap h else h)
  end.

(** Sort one depth level along the packing axis and sweep it. *)
Definition sweepLevel (ax : Axis) (depthNodes : list LayoutNode) (h : Heap)
    : Heap :=
  match sortBy (coord ax h) depthNodes with
  | [] => h
  | first :: rest => sweepFrom ax first rest h
  end.

Section RadialCollisions.

Variables (cos sin : Q -> Q).

Definition angleOrZero (h : Heap) (n : LayoutNode) : Q :=
  match nodeA h n with Some a => a | None => 0 end.

(** One comparison of the adjacent pair [(a, b)]. *)
Definition pushPair (a b : LayoutNode) (h : Heap) : Heap :=
  let padding := collisionPadding in
  let overlapX :=
    Qmin (nodeX h a + nodeW h a + padding) (nodeX h b + nodeW h b + padding)
    - Qmax (nodeX h a) (nodeX h b) in
  let overlapY :=
    Qmin (nodeY h a + nodeH h a + padding) (nodeY h b + nodeH h b + padding)
    - Qmax (nodeY h a) (nodeY h b) in
  if Qgtb overlapX 0 && Qgtb overlapY 0 then
    let aAngle := angleOrZero h a in
    let bAngle := angleOrZero h b in
    let midAngle := (aAngle + bAngle) / 2 in
    let tangentX := - sin midAngle in
    let tangentY := cos midAngle in
    let push := Qmin overlapX overlapY / 2 + padding / 2 in
    let h1 := writeX a (nodeX h a - tangentX * push) h in
    let h2 := writeY a (nodeY h1 a - tangentY * push) h1 in
    let h3 := shiftSubtree a 0 (- tangentX * push) (- tangentY * push) h2 in
    let h4 := writeX b (nodeX h3 b + tangentX * push) h3 in
    let h5 := writeY b (nodeY h4 b + tangentY * push) h4 in
    shiftSubtree b 0 (tangentX * push) (tangentY * push) h5
  else h.

(** [for (let i = 0; i < depthNodes.length - 1; i++)] *)
Fixpoint adjacentPass (depthNodes : list LayoutNode) (h : Heap) : Heap :=
  match depthNodes with
  | a :: ((b :: _) as rest) => adjacentPass rest (pushPair a b h)
  | _ => h
  end.

Definition radialLevel (depthNodes : list LayoutNode) (h : Heap) : Heap :=
  let sorted := sortBy (angleOrZero h) depthNodes in
  adjacentPass sorted (adjacentPass sorted (adjacentPass sorted h)).

Definition resolveCollisions (nodes : list LayoutNode) (layout : LayoutType)
    (h : Heap) : Heap :=
  match layout with
  | Radial =>
      fold_left (fun h grp => radialLevel (snd grp) h)
        (groupByDepth true h nodes) h
  | Vertical =>
      fold_left (fun h grp => sweepLevel AxisX (snd grp) h)
        (groupByDepth false h nodes) h
  | _ =>
      fold_left (fun h grp => sweepLevel AxisY (snd grp) h)
        (groupByDepth false h nodes) h
  end.

End RadialCollisions.

(** ** Bounding box and the main layout function *)

(** Numbers extended with the infinities that [computeBounds] starts from;
    [NaN] only arises from [Infinity - Infinity]. *)
Inductive Ext : Type := NegInf | Fin (q : Q) | PosInf | NaN.

Definition extMin (a b : Ext) : Ext :=
  match a, b with
  | NaN, _ | _, NaN => NaN
  | NegInf, _ | _, NegInf => NegInf
  | PosInf, e | e, PosInf => e
  | Fin p, Fin q => Fin (Qmin p q)
  end.

Definition extMax (a b : Ext) : Ext :=
  match a, b with
  | NaN, _ | _, NaN => NaN
  | PosInf, _ | _, PosInf => PosInf
  | NegInf, e | e, NegInf => e
  | Fin p, Fin q => Fin (Qmax p q)
  end.

Definition extNeg (a : Ext) : Ext :=
  match a with
  | NaN => NaN | NegInf => PosInf | PosInf => NegInf | Fin p => Fin (- p)
  end.

Definition extAdd (a b : Ext) : Ext :=
  match a, b with
  | NaN, _ | _, NaN => NaN
  | PosInf, NegInf | NegInf, PosInf => NaN
  | PosInf, _ | _, PosInf => PosInf
  | NegInf, _ | _, NegInf => NegInf
  | Fin p, Fin q => Fin (p + q)
  end.

Definition extSub (a b : Ext) : Ext := extAdd a (extNeg b).

Record Bounds : Type := {
  minX : Ext; minY : Ext; maxX : Ext; maxY : Ext
}.

Definition computeBounds (h : Heap) (nodes : list LayoutNode) : Bounds :=
  fold_left (fun b n =>
    {| minX := extMin (minX b) (Fin (nodeX h n));
       minY := extMin (minY b) (Fin (nodeY h n));
       maxX := extMax (maxX b) (Fin (nodeX h n + nodeW h n));
       maxY := extMax (maxY b) (Fin (nodeY h n + nodeH h n)) |})
    nodes
    {| minX := PosInf; minY := PosInf; maxX := NegInf; maxY := NegInf |}.

(** A [LayoutResult]; [heap] holds the fields of the node objects that
    [nodes] and [edges] refer to. *)
Record LayoutResult : Type := {
  nodes : list LayoutNode;
  edges : list LayoutEdge;
  width : Ext;
  height : Ext;
  offsetX : Ext;
  offsetY : Ext;
  heap : Heap
}.

Section ComputeLayout.

Variable measureText : string -> option Q -> string -> string -> Q * Q.
Variables (cos sin : Q -> Q) (PI : Q).

Definition computeLayout (rootNode : MindMapNode) (config : MindMapConfig)
    : LayoutResult :=
  let '(root, (_, h0)) :=
    buildLayoutTree measureText rootNode 0 config (0%nat, emptyHeap) in
  let h1 :=
    match layout (structure config) with
    | Radial => layoutRadial cos sin PI root config h0
    | HorizontalRight => layoutHorizontalRight root config h0
    | HorizontalLeft => layoutHorizontalLeft root config h0
    | Vertical => layoutVertical root config h0
    | Tree => layoutTree root config h0
    end in
  let nodes := collectNodes root in
  let h2 := resolveCollisions cos sin nodes (layout (structure config)) h1 in
  let edges := collectEdges h2 root in
  let bounds := computeBounds h2 nodes in
  let pad := padding (export config) in
  let width := extAdd (extSub (maxX bounds) (minX bounds)) (Fin (pad * 2)) in
  let height := extAdd (extSub (maxY bounds) (minY bounds)) (Fin (pad * 2)) in
  let offsetX := extAdd (extNeg (minX bounds)) (Fin pad) in
  let offsetY := extAdd (extNeg (minY bounds)) (Fin pad) in
  {| nodes := nodes; edges := edges; width := width; height := height;
     offsetX := offsetX; offsetY := offsetY; heap := h2 |}.

End ComputeLayout.

(** ** Edge routing ([Edge.tsx]): anchors and marker gaps *)

Inductive Anchor : Type := ATop | ABottom | ALeft | ARight.

Record Point : Type := { pt_x : Q; pt_y : Q }.
Record Dir : Type := { dx : Q; dy : Q }.

(** The result of [rectBoundaryPoint]: boundary point and face normal. *)
Record BoundaryPoint : Type := { bp_x : Q; bp_y : Q; bp_dx : Q; bp_dy : Q }.

Definition getFixedAnchorPoint (node : Geom) (anchor : Anchor)
    (offsetX offsetY : Q) : Point :=
  let nx := n_x node + offsetX in
  let ny := n_y node + offsetY in
  let cx := nx + n_width node / 2 in
  let cy := ny + n_height node / 2 in
  match anchor with
  | ATop => {| pt_x := cx; pt_y := ny |}
  | ABottom => {| pt_x := cx; pt_y := ny + n_height node |}
  | ALeft => {| pt_x := nx; pt_y := cy |}
  | ARight => {| pt_x := nx + n_width node; pt_y := cy |}
  end.

(** One of the four "does the ray hit this edge first" tests; [best] is
    [None] while [t] is still [Infinity]. *)
Definition hitTest (applies : bool) (tt : Q) (edge : Anchor)
    (best : option (Q * Anchor)) : option (Q * Anchor) :=
  if applies then
    match best with
    | None => Some (tt, edge)
    | Some (t, _) => if Qltb tt t then Some (tt, edge) else best
    end
  else best.

Definition rectBoundaryPoint (node : Geom) (targetX targetY : Q)
    (offsetX offsetY : Q) : BoundaryPoint :=
  let nx := n_x node + offsetX in
  let ny := n_y node + offsetY in
  let cx := nx + n_width node / 2 in
  let cy := ny + n_height node / 2 in
  let dirX := targetX - cx in
  let dirY := targetY - cy in
  if Qltb (Qabs dirX) (1 # 100) && Qltb (Qabs dirY) (1 # 100) then
    {| bp_x := cx; bp_y := ny; bp_dx := 0; bp_dy := - 1 |}
  else
    let halfW := n_width node / 2 in
    let halfH := n_height node / 2 in
    let s0 : option (Q * Anchor) := None in
    let s1 := hitTest (Qgtb dirX 0) (halfW / dirX) ARight s0 in
    let s2 := hitTest (Qltb dirX 0) (- halfW / dirX) ALeft s1 in
    let s3 := hitTest (Qgtb dirY 0) (halfH / dirY) ABottom s2 in
    let s4 := hitTest (Qltb dirY 0) (- halfH / dirY) ATop s3 in
    match s4 with
    | Some (t, hitEdge) =>
        let bx := cx + dirX * t in
        let by_ := cy + dirY * t in
        match hitEdge with
        | ARight => {| bp_x := bx; bp_y := by_; bp_dx := 1; bp_dy := 0 |}
        | ALeft => {| bp_x := bx; bp_y := by_; bp_dx := - 1; bp_dy := 0 |}
        | ABottom => {| bp_x := bx; bp_y := by_; bp_dx := 0; bp_dy := 1 |}
        | ATop => {| bp_x := bx; bp_y := by_; bp_dx := 0; bp_dy := - 1 |}
        end
    | None =>
        (* not reached: one of [dirX], [dirY] is non-zero here *)
        {| bp_x := cx; bp_y := cy; bp_dx := 1; bp_dy := 0 |}
    end.

Definition chooseFixedAnchors (source target : Geom) (layout : LayoutType)
    (offsetX _offsetY : Q) : Anchor * Anchor :=
  match layout with
  | Vertical => (ABottom, ATop)
  | _ =>
      let sx := n_x source + offsetX + n_width source / 2 in
      let tx := n_x target + offsetX + n_width target / 2 in
      if Qgtb tx sx then (ARight, ALeft) else (ALeft, ARight)
  end.

Definition anchorDirection (anchor : Anchor) : Dir :=
  match anchor with
  | ATop => {| dx := 0; dy := - 1 |}
  | ABottom => {| dx := 0; dy := 1 |}
  | ALeft => {| dx := - 1; dy := 0 |}
  | ARight => {| dx := 1; dy := 0 |}
  end.

Definition hasMarker (m : MarkerShape) : bool :=
  match m with MNone => false | _ => true end.

Definition endGap (link : LinkConfig) : Q :=
  if hasMarker (markerEnd link) then markerSize link + 3 else 4.
Definition startGap (link : LinkConfig) : Q :=
  if hasMarker (markerStart link) then markerSize link + 3 else 4.

(** The endpoints and tangent directions that [Edge] computes before it
    builds the path string. *)
Record EdgeGeometry : Type := {
  x1 : Q; y1 : Q; x2 : Q; y2 : Q;
  startDirX : Q; startDirY : Q; endDirX : Q; endDirY : Q
}.

Definition edgeGeometry (source target : Geom) (config : MindMapConfig)
    (offsetX offsetY : Q) : EdgeGeometry :=
  let endGap := endGap (link config) in
  let startGap := startGap (link config) in
  match layout (structure config) with
  | Radial =>
      let srcCenterX := n_x source + offsetX + n_width source / 2 in
      let srcCenterY := n_y source + offsetY + n_height source / 2 in
      let tgtCenterX := n_x target + offsetX + n_width target / 2 in
      let tgtCenterY := n_y target + offsetY + n_height target / 2 in
      let srcBP := rectBoundaryPoint source tgtCenterX tgtCenterY offsetX offsetY in
      let tgtBP := rectBoundaryPoint target srcCenterX srcCenterY offsetX offsetY in
      {| x1 := bp_x srcBP + bp_dx srcBP * startGap;
         y1 := bp_y srcBP + bp_dy srcBP * startGap;
         x2 := bp_x tgtBP + bp_dx tgtBP * endGap;
         y2 := bp_y tgtBP + bp_dy tgtBP * endGap;
         startDirX := bp_dx srcBP; startDirY := bp_dy srcBP;
         endDirX := bp_dx tgtBP; endDirY := bp_dy tgtBP |}
  | _ =>
      let '(sourceAnchor, targetAnchor) :=
        chooseFixedAnchors source target (layout (structure config)) offsetX offsetY in
      let p1 := getFixedAnchorPoint source sourceAnchor offsetX offsetY in
      let p2 := getFixedAnchorPoint target targetAnchor offsetX offsetY in
      let sDir := anchorDirection sourceAnchor in
      let eDir := anchorDirection targetAnchor in
      {| x1 := pt_x p1 + dx sDir * startGap;
         y1 := pt_y p1 + dy sDir * startGap;
         x2 := pt_x p2 + dx eDir * endGap;
         y2 := pt_y p2 + dy eDir * endGap;
         startDirX := dx sDir; startDirY := dy sDir;
         endDirX := dx eDir; endDirY := dy eDir |}
  end.

(** The anchor (point on the node boundary and outward direction) that
    [Edge] resolves for each end before any gap is applied. *)
Definition sourceAnchorOf (source target : Geom) (config : MindMapConfig)
    (offsetX offsetY : Q) : Point * Dir :=
  match layout (structure config) with
  | Radial =>
      let bp :=
        rectBoundaryPoint source
          (n_x target + offsetX + n_width target / 2)
          (n_y target + offsetY + n_height target / 2) offsetX offsetY in
      ({| pt_x := bp_x bp; pt_y := bp_y bp |}, {| dx := bp_dx bp; dy := bp_dy bp |})
  | l =>
      let a := fst (chooseFixedAnchors source target l offsetX offsetY) in
      (getFixedAnchorPoint source a offsetX offsetY, anchorDirection a)
  end.

Definition targetAnchorOf (source target : Geom) (config : MindMapConfig)
    (offsetX offsetY : Q) : Point * Dir :=
  match layout (structure config) with
  | Radial =>
      let bp :=
        rectBoundaryPoint target
          (n_x source + offsetX + n_width source / 2)
          (n_y source + offsetY + n_height source / 2) offsetX offsetY in
      ({| pt_x := bp_x bp; pt_y := bp_y bp |}, {| dx := bp_dx bp; dy := bp_dy bp |})
  | l =>
      let a := snd (chooseFixedAnchors source target l offsetX offsetY) in
      (getFixedAnchorPoint target a offsetX offsetY, anchorDirection a)
  end.

(** ** Interactive drag ([App.tsx]) *)

(** [NodePositions = Record<string, { x, y }>] *)
Record XY : Type := { ov_x : Q; ov_y : Q }.

(** The values of [nodeMap]. *)
Record NodeInfo : Type := {
  ni_x : Q; ni_y : Q; ni_w : Q; ni_h : Q; ni_children : list string
}.


Definition buildNodeMap (nodes : list LayoutNode) (h : Heap)
    : gmap string NodeInfo :=
  fold_left (fun m n =>
    <[ n_id n := {| ni_x := nodeX h n; ni_y := nodeY h n; ni_w := nodeW h n;
                    ni_h := nodeH h n; ni_children := map n_id (n_children n) |} ]> m)
    nodes ∅.

(** [collectDescendants] recurses through identifier lookups, so its call
    depth is bounded by [fuel]; [None] stands for exhausting the stack. *)
Fixpoint collectDescendants (fuel : nat) (nodes : list LayoutNode)
    (nodeId : string) : option (list string) :=
  match fuel with
  | O => None
  | S fuel' =>
      match find (fun n => String.eqb (n_id n) nodeId) nodes with
      | None => Some []
      | Some node =>
          (fix loop (cs : list LayoutNode) : option (list string) :=
             match cs with
             | [] => Some []
             | child :: cs' =>
                 match collectDescendants fuel' nodes (n_id child) with
                 | None => None
                 | Some ds =>
                     match loop cs' with
                     | None => None
                     | Some rest => Some (n_id child :: ds ++ rest)
                     end
                 end
             end) (n_children node)
      end
  end.

Fixpoint buildDescendantsMap (fuel : nat) (allNodes nodes : list LayoutNode)
    (m : gmap string (list string)) : option (gmap string (list string)) :=
  match nodes with
  | [] => Some m
  | node :: nodes' =>
      match collectDescendants fuel allNodes (n_id node) with
      | None => None
      | Some ds => buildDescendantsMap fuel allNodes nodes' (<[ n_id node := ds ]> m)
      end
  end.

Definition descendantsMap (nodes : list LayoutNode)
    : option (gmap string (list string)) :=
  buildDescendantsMap (S (length nodes)) nodes nodes ∅.

Section Drag.

(** [Math.atan2(y, x)] and [Math.PI]. *)
Variable atan2 : Q -> Q -> Q.
Variable PI : Q.

(** [while (a > Math.PI) a -= 2 * Math.PI] *)
Fixpoint normalizeDown (fuel : nat) (a : Q) : Q :=
  match fuel with
  | O => a
  | S fuel' => if Qgtb a PI then normalizeDown fuel' (a - 2 * PI) else a
  end.

(** [while (a < -Math.PI) a += 2 * Math.PI] *)
Fixpoint normalizeUp (fuel : nat) (a : Q) : Q :=
  match fuel with
  | O => a
  | S fuel' => if Qltb a (- PI) then normalizeUp fuel' (a + 2 * PI) else a
  end.

(** A number of iterations that suffices for either loop when [PI] is
    positive. *)
Definition turns (a : Q) : nat :=
  S (Z.to_nat (Qceiling (Qabs a / (2 * PI)))).

Definition normalizeAngle (a : Q) : Q :=
  let a1 := normalizeDown (turns a) a in
  normalizeUp (turns a1) a1.

Definition originalSiblingOrder (baseNodes : list LayoutNode) (base : Heap)
    : gmap string (gmap string Q) :=
  fold_left (fun orderMap node =>
    if Nat.ltb (length (n_children node)) 2 then orderMap
    else
      let pcx := nodeX base node + nodeW base node / 2 in
      let pcy := nodeY base node + nodeH base node / 2 in
      let childOrders :=
        fold_left (fun (co : gmap string Q) child =>
          let ccx := nodeX base child + nodeW base child / 2 in
          let ccy := nodeY base child + nodeH base child / 2 in
          <[ n_id child := atan2 (ccy - pcy) (ccx - pcx) ]> co)
          (n_children node) (∅ : gmap string Q) in
      <[ n_id node := childOrders ]> orderMap)
    baseNodes (∅ : gmap string (gmap string Q)).

(** What the drag callbacks close over. *)
Record DragContext : Type := {
  ctx_nodes : list LayoutNode;                      (* layout.nodes *)
  ctx_nodeMap : gmap string NodeInfo;
  ctx_descendants : gmap string (list string);
  ctx_orig : gmap string (gmap string Q)
}.

Definition posX (proposed : gmap string XY) (k : string) (fallback : Q) : Q :=
  match proposed !! k with Some o => ov_x o | None => fallback end.
Definition posY (proposed : gmap string XY) (k : string) (fallback : Q) : Q :=
  match proposed !! k with Some o => ov_y o | None => fallback end.

(** The [newAngles] array built for one parent. *)
Definition newAnglesOf (ctx : DragContext) (proposed : gmap string XY)
    (px py : Q) (children : list LayoutNode) : list (string * Q) :=
  flat_map (fun child =>
    match ctx_nodeMap ctx !! n_id child with
    | None => []
    | Some cm =>
        let cx := posX proposed (n_id child) (ni_x cm) + ni_w cm / 2 in
        let cy := posY proposed (n_id child) (ni_y cm) + ni_h cm / 2 in
        [(n_id child, atan2 (cy - py) (cx - px))]
    end) children.

(** The test on one sibling pair; [true] when the loop returns. *)
Definition pairReversed (origOrders : gmap string Q)
    (a b : string * Q) : bool :=
  match origOrders !! fst a, origOrders !! fst b with
  | Some origA, Some origB =>
      let origDiff := normalizeAngle (origB - origA) in
      let newDiff := normalizeAngle (snd b - snd a) in
      negb (Bool.eqb (Qgtb origDiff 0) (Qgtb newDiff 0))
  | _, _ => false
  end.

(** [for i ... for j = i + 1 ...] over [newAngles]. *)
Fixpoint anyPairReversed (origOrders : gmap string Q)
    (newAngles : list (string * Q)) : bool :=
  match newAngles with
  | [] => false
  | a :: rest =>
      existsb (pairReversed origOrders a) rest
      || anyPairReversed origOrders rest
  end.

(** The body of the loop over [layout.nodes] in [wouldCrossEdges]. *)
Definition parentCrossed (ctx : DragContext) (proposed : gmap string XY)
    (node : LayoutNode) : bool :=
  if Nat.ltb (length (n_children node)) 2 then false
  else
    match ctx_orig ctx !! n_id node with
    | None => false
    | Some origOrders =>
        match ctx_nodeMap ctx !! n_id node with
        | None => false (* not reached: [nodeMap] has every layout id *)
        | Some nm =>
            let px := posX proposed (n_id node) (ni_x nm) + ni_w nm / 2 in
            let py := posY proposed (n_id node) (ni_y nm) + ni_h nm / 2 in
            anyPairReversed origOrders
              (newAnglesOf ctx proposed px py (n_children node))
        end
    end.

Definition wouldCrossEdges (ctx : DragContext) (proposed : gmap string XY)
    : bool :=
  existsb (parentCrossed ctx proposed) (ctx_nodes ctx).

(** The candidate map [next] that [handleNodeDrag] builds. *)
Definition dragNext (ctx : DragContext) (nm : NodeInfo) (nodeId : string)
    (x y : Q) (prev : gmap string XY) : gmap string XY :=
  let currentX := posX prev nodeId (ni_x nm) in
  let currentY := posY prev nodeId (ni_y nm) in
  let deltaX := x - currentX in
  let deltaY := y - currentY in
  let next := <[ nodeId := {| ov_x := x; ov_y := y |} ]> prev in
  let descendants := default [] (ctx_descendants ctx !! nodeId) in
  fold_left (fun (next : gmap string XY) childId =>
    match ctx_nodeMap ctx !! childId with
    | None => next
    | Some cm =>
        let childCurrentX := posX prev childId (ni_x cm) in
        let childCurrentY := posY prev childId (ni_y cm) in
        <[ childId := {| ov_x := childCurrentX + deltaX;
                         ov_y := childCurrentY + deltaY |} ]> next
    end) descendants next.

(** What the state updater returns: the very object [prev], or the fresh
    object [next]. *)
Inductive Update : Type :=
  | ReturnPrev
  | ReturnNext (next : gmap string XY).

Definition handleNodeDrag (ctx : DragContext) (nodeId : string) (x y : Q)
    (prev : gmap string XY) : Update :=
  match ctx_nodeMap ctx !! nodeId with
  | None => ReturnPrev
  | Some nm =>
      let next := dragNext ctx nm nodeId x y prev in
      if wouldCrossEdges ctx next then ReturnPrev else ReturnNext next
  end.

Definition newState (prev : gmap string XY) (u : Update) : gmap string XY :=
  match u with ReturnPrev => prev | ReturnNext next => next end.

(** The context of a render whose layout is [(root, h)] and whose
    baseline layout is [(root, base)]. *)
Definition dragContext (root : LayoutNode) (h base : Heap)
    : option DragContext :=
  let nodes := collectNodes root in
  match descendantsMap nodes with
  | None => None
  | Some dm =>
      Some {| ctx_nodes := nodes;
              ctx_nodeMap := buildNodeMap nodes h;
              ctx_descendants := dm;
              ctx_orig := originalSiblingOrder nodes base |}
  end.

End Drag.

(** ** Notions used to state the properties *)

(** The [map] over [node.children] inside [buildLayoutTree]. *)
Definition buildChildren (measureText : string -> option Q -> string -> string -> Q * Q)
    (depth : nat) (config : MindMapConfig)
    : list MindMapNode -> BuildState -> list LayoutNode * BuildState :=
  fix mapChildren (l : list MindMapNode) (s : BuildState) :=
    match l with
    | [] => ([], s)
    | child :: l' =>
        let '(c, s1) := buildLayoutTree measureText child (S depth) config s in
        let '(cs, s2) := mapChildren l' s1 in
        (c :: cs, s2)
    end.

(** The guard of [buildLayoutTree]. *)
Definition expands (config : MindMapConfig) (node : MindMapNode)
    (depth : nat) : bool :=
  negb (truthyFlag (mm_collapsed node))
  && Nat.ltb depth (maxDepth (structure config)).

(** Identifiers of a source tree, in pre-order. *)
Fixpoint mmIds (n : MindMapNode) : list string :=
  match n with
  | MMNode i _ _ _ cs => i :: flat_map mmIds cs
  end.

(** [occursAt root d s ds]: [s] is a node of the tree [root], at depth [ds]
    when [root] is at depth [d]. *)
Inductive occursAt : MindMapNode -> nat -> MindMapNode -> nat -> Prop :=
  | occ_here (n : MindMapNode) (d : nat) : occursAt n d n d
  | occ_child (n : MindMapNode) (d : nat) (c s : MindMapNode) (ds : nat) :
      In c (mm_children n) -> occursAt c (S d) s ds -> occursAt n d s ds.

(** Identifiers of the source nodes that are laid out, and of those that
    are cut off below a collapsed or depth-capped node. *)
Fixpoint visibleIds (config : MindMapConfig) (n : MindMapNode) (depth : nat)
    : list string :=
  match n with
  | MMNode i _ _ _ cs =>
      i :: (if expands config n depth
            then flat_map (fun c => visibleIds config c (S depth)) cs
            else [])
  end.

Fixpoint hiddenIds (config : MindMapConfig) (n : MindMapNode) (depth : nat)
    : list string :=
  match n with
  | MMNode _ _ _ _ cs =>
      if expands config n depth
      then flat_map (fun c => hiddenIds config c (S depth)) cs
      else flat_map mmIds cs
  end.

(** Object identities of a layout subtree, in pre-order. *)
Definition refsOf (n : LayoutNode) : list nat := map n_ref (collectNodes n).

(** The horizontal-left layout as the specification words it: the right
    variant with the x of every node of the tree mirrored. *)
Definition mirrorX (g : Geom) : Geom := setX (- n_x g - n_width g) g.

Definition mirroredRightLayout (root : LayoutNode) (config : MindMapConfig)
    (h : Heap) : Heap :=
  fun r =>
    if bool_decide (r ∈ refsOf root)
    then mirrorX (layoutHorizontalRight root config h r)
    else layoutHorizontalRight root config h r.

(** The imbalance of splitting a list of weights after its first [j]
    elements, as the specification words it: the absolute difference of
    the two sides' cumulative weights. *)
Definition sumQ (l : list Q) : Q := fold_left Qplus l 0.

Definition imbalance (ws : list Q) (j : nat) : Q :=
  Qabs (sumQ (take j ws) - sumQ (drop j ws)).

(** The quantity [diff] that the search loop of [layoutTree] computes when
    its cumulative sum covers the first [j] weights. *)
Definition diffAt (ws : list Q) (j : nat) : Q :=
  Qabs (sumQ (take j ws) - (sumQ ws - sumQ (take j ws))).

(** [movedForward ax g g']: the fields [g'] keep everything of [g] except
    the coordinate along [ax], which did not decrease. *)
Definition movedForward (ax : Axis) (g g' : Geom) : Prop :=
  match ax with
  | AxisX => n_x g <= n_x g' /\ n_y g' == n_y g
  | AxisY => n_y g <= n_y g' /\ n_x g' == n_x g
  end
  /\ n_width g' = n_width g /\ n_height g' = n_height g
  /\ n_depth g' = n_depth g /\ n_angle g' = n_angle g.

Definition heapForward (ax : Axis) (h h' : Heap) : Prop :=
  forall r, movedForward ax (h r) (h' r).

(** Orders induced by a sort key. *)
Definition keyLe {A : Type} (key : A -> Q) (a b : A) : Prop := key a <= key b.
Definition keyLt {A : Type} (key : A -> Q) (a b : A) : Prop := key a < key b.

(** The four outward unit directions of a rectangle's sides. *)
Definition unitAxis (d : Dir) : Prop :=
  d = {| dx := 1; dy := 0 |} \/ d = {| dx := - 1; dy := 0 |}
  \/ d = {| dx := 0; dy := 1 |} \/ d = {| dx := 0; dy := - 1 |}.

(** The placement loop of [positionChildren]. *)
Definition positionLoop (cos sin : Q -> Q) (baseRing : Q)
    : list LayoutNode -> list Q -> Q -> Heap -> Heap :=
  fix loop (cs : list LayoutNode) (angles : list Q) (currentAngle : Q)
      (h : Heap) : Heap :=
    match cs, angles with
    | child :: cs', angle :: angles' =>
        let childStart := currentAngle in
        let childEnd := currentAngle + angle in
        let midAngle := (childStart + childEnd) / 2 in
        let r := radiusForDepth baseRing (nodeD h child) in
        let h1 := writeX child (cos midAngle * r - nodeW h child / 2) h in
        let h2 := writeY child (sin midAngle * r - nodeH h1 child / 2) h1 in
        let h3 := writeAngle child midAngle h2 in
        loop cs' angles' childEnd
          (positionChildren cos sin baseRing child childStart childEnd h3)
    | _, _ => h
    end.

(** The sectors [(childStart, childEnd)] that the placement loop walks
    through, given the first [currentAngle] and the allocated angles. *)
Fixpoint sectorsOf (currentAngle : Q) (angles : list Q) : list (Q * Q) :=
  match angles with
  | [] => []
  | angle :: angles' =>
      (currentAngle, currentAngle + angle)
        :: sectorsOf (currentAngle + angle) angles'
  end.

(** Every node of [ns] has been given an angle, inside [[lo, hi]]. *)
Definition anglesWithin (h : Heap) (ns : list LayoutNode) (lo hi : Q) : Prop :=
  forall m, In m ns -> exists a, nodeA h m = Some a /\ lo <= a <= hi.

(** Identifiers of a layout subtree, in pre-order, and of its proper
    descendants. *)
Definition idsOf (n : LayoutNode) : list string := map n_id (collectNodes n).
Definition descendantIds (n : LayoutNode) : list string :=
  map n_id (flat_map collectNodes (n_children n)).

(** The drag guard in geometric terms.  [candX], [candY]: where a node
    would sit under the override map [proposed]. *)
Definition candX (h : Heap) (proposed : gmap string XY) (n : LayoutNode) : Q :=
  posX proposed (n_id n) (nodeX h n).
Definition candY (h : Heap) (proposed : gmap string XY) (n : LayoutNode) : Q :=
  posY proposed (n_id n) (nodeY h n).

Section DragSpec.

Variable atan2 : Q -> Q -> Q.
Variable PI : Q.

(** Angle of child [c] seen from its parent [p] in the baseline layout. *)
Definition baselineAngle (base : Heap) (p c : LayoutNode) : Q :=
  atan2 ((nodeY base c + nodeH base c / 2) - (nodeY base p + nodeH base p / 2))
        ((nodeX base c + nodeW base c / 2) - (nodeX base p + nodeW base p / 2)).

(** The same angle under the candidate positions. *)
Definition candidateAngle (h : Heap) (proposed : gmap string XY)
    (p c : LayoutNode) : Q :=
  atan2 ((candY h proposed c + nodeH h c / 2) - (candY h proposed p + nodeH h p / 2))
        ((candX h proposed c + nodeW h c / 2) - (candX h proposed p + nodeW h p / 2)).

(** The sign test on the siblings [a], [b] of parent [p]: the normalised
    angular difference is positive in exactly one of the two layouts. *)
Definition pairFlips (h base : Heap) (proposed : gmap string XY)
    (p a b : LayoutNode) : Prop :=
  Qgtb (normalizeAngle PI (baselineAngle base p b - baselineAngle base p a)) 0
  <> Qgtb (normalizeAngle PI (candidateAngle h proposed p b
                              - candidateAngle h proposed p a)) 0.

(** Some parent with at least two children has a sibling pair whose sign
    flips. *)
Definition crosses (nodes : list LayoutNode) (h base : Heap)
    (proposed : gmap string XY) : Prop :=
  exists p a b i j,
    In p nodes /\ (2 <= length (n_children p))%nat /\ (i < j)%nat
    /\ n_children p !! i = Some a /\ n_children p !! j = Some b
    /\ pairFlips h base proposed p a b.

End DragSpec.

(** [fullMove h n x y prev next]: [next] is [prev] with the node [n] put at
    [(x, y)] and every proper descendant of [n] moved by the same delta from
    its current position (override if present, laid-out position otherwise);
    all other entries are those of [prev]. *)
Definition fullMove (h : Heap) (n : LayoutNode) (x y : Q)
    (prev next : gmap string XY) : Prop :=
  let deltaX := x - candX h prev n in
  let deltaY := y - candY h prev n in
  next !! n_id n = Some {| ov_x := x; ov_y := y |}
  /\ (forall m, In m (flat_map collectNodes (n_children n)) ->
        next !! n_id m
        = Some {| ov_x := candX h prev m + deltaX; ov_y := candY h prev m + deltaY |})
  /\ (forall k, k <> n_id n -> ~ In k (descendantIds n) -> next !! k = prev !! k).

(** The state of the search after [i] iterations. *)
Definition splitInv (ws : list Q) (i best : nat) (bestDiff : option Q) : Prop :=
  match bestDiff with
  | None => i = 0%nat
  | Some b =>
      b = diffAt ws best /\ (1 <= best <= i)%nat
      /\ (forall j, (1 <= j <= i)%nat -> b <= diffAt ws j)
      /\ (forall j, (1 <= j < best)%nat -> b < diffAt ws j)
  end.

(** A shift that only moves forward along [ax]. *)
Definition axisDelta (ax : Axis) (dx dy : Q) : Prop :=
  match ax with
  | AxisX => 0 <= dx /\ dy == 0
  | AxisY => 0 <= dy /\ dx == 0
  end.

(** The box [[mnx, mxx] x [mny, mxy]] contains the rectangles of [seen]. *)
Definition boundsCover (h : Heap) (seen : list LayoutNode)
    (mnx mny mxx mxy : Q) : Prop :=
  forall n, In n seen ->
    mnx <= nodeX h n /\ mny <= nodeY h n
    /\ nodeX h n + nodeW h n <= mxx /\ nodeY h n + nodeH h n <= mxy.

(** What one call establishes for the subtree below [parent]. *)
Definition placedWithin (cos sin : Q -> Q) (baseRing : Q)
    (parent : LayoutNode) : Prop :=
  forall startAngle endAngle h,
    startAngle <= endAngle ->
    NoDup (flat_map refsOf (n_children parent)) ->
    let h' := positionChildren cos sin baseRing parent startAngle endAngle h in
    (forall r, ~ In r (flat_map refsOf (n_children parent)) -> h' r = h r)
    /\ anglesWithin h' (flat_map collectNodes (n_children parent))
         startAngle endAngle.

(** What the placement loop establishes for each child and its sector. *)
Definition childPlaced (h' : Heap) (child : LayoutNode) (sector : Q * Q) : Prop :=
  nodeA h' child = Some ((fst sector + snd sector) / 2)
  /\ anglesWithin h' (collectNodes child) (fst sector) (snd sector).

(** The [nodeMap] entry of a node. *)
Definition infoOf (h : Heap) (n : LayoutNode) : NodeInfo :=
  {| ni_x := nodeX h n; ni_y := nodeY h n; ni_w := nodeW h n;
     ni_h := nodeH h n; ni_children := map n_id (n_children n) |}.

(** The inner loop of [collectDescendants]. *)
Definition descendantsLoop (fuel : nat) (nodes : list LayoutNode)
    : list LayoutNode -> option (list string) :=
  fix loop (cs : list LayoutNode) : option (list string) :=
    match cs with
    | [] => Some []
    | child :: cs' =>
        match collectDescendants fuel nodes (n_id child) with
        | None => None
        | Some ds =>
            match loop cs' with
            | None => None
            | Some rest => Some (n_id child :: ds ++ rest)
            end
        end
    end.

(** The nodes of one depth level in the order of their packing-axis
    coordinate, as the specification's order-preservation property reads
    them off a layout. *)
Definition levelOrder (ax : Axis) (h : Heap) (nodes : list LayoutNode)
    (d : nat) : list LayoutNode :=
  sortBy (coord ax h) (List.filter (fun n => Nat.eqb (nodeD h n) d) nodes).

(** The floor of the radial allocation as the specification words it, for
    a given margin. *)
Definition claimedFloor (margin baseRing : Q) (h : Heap) (n : LayoutNode) : Q :=
  Qmax (Qmax (nodeW h n) (nodeH h n) + margin) (3 # 10)
  / radiusForDepth baseRing (nodeD h n).

(** ** Sample inputs *)

(** A text measure of 8 units per character and one 20 unit line, and
    rational stand-ins for the trigonometric functions. *)
Definition sampleMeasure (text : string) (fontSize : option Q)
    (fontFamily fontWeight : string) : Q * Q :=
  (ofNat (String.length text) * 8, 20).

Definition samplePI : Q := 355 # 113.
Definition sampleCos (a : Q) : Q := 1 - a * a / 2.
Definition sampleSin (a : Q) : Q := a - a * a * a / 6.

(** The "diamond angle" of a vector, scaled to [(-PI, PI]]. *)
Definition sampleAtan2 (y x : Q) : Q :=
  let ax := Qabs x in
  let ay := Qabs y in
  if Qeq_bool (ax + ay) 0 then 0
  else
    let t :=
      if Qle_bool 0 y
      then (if Qle_bool 0 x then ay / (ax + ay) else 1 + ax / (ax + ay))
      else (if Qle_bool 0 x then - (ay / (ax + ay)) else - 1 - ax / (ax + ay)) in
    t * (samplePI / 2).

(** The default configuration of the application, for a given paradigm. *)
Definition sampleConfig (l : LayoutType) : MindMapConfig :=
  {| style := {| rootFontSize := 20; nodePaddingX := 20; nodePaddingY := 10 |};
     typography := {| fontFamily := "Inter";
                      levelFontSizes := [20; 15; 13; 12; 11; 10];
                      fontWeight := "normal" |};
     structure := {| layout := l; horizontalSpacing := 60;
                     verticalSpacing := 30; maxDepth := 8 |};
     link := {| linkStyle := Organic; markerStart := MNone;
                markerEnd := MArrow; markerSize := 8 |};
     export := {| padding := 40 |} |}.

Definition leaf (i : string) : MindMapNode := MMNode i i None None [].
Definition branch (i : string) (cs : list MindMapNode) : MindMapNode :=
  MMNode i i None None cs.

(** r -> a (a1, a2), b (b1), c (c1, c2, c3), d *)
Definition sampleTree : MindMapNode :=
  branch "r" [ branch "a" [leaf "a1"; leaf "a2"];
               branch "b" [leaf "b1"];
               branch "c" [leaf "c1"; leaf "c2"; leaf "c3"];
               leaf "d" ].

Definition sampleRoot : LayoutNode :=
  fst (buildLayoutTree sampleMeasure sampleTree 0 (sampleConfig Tree)
         (0%nat, emptyHeap)).
Definition sampleBuilt : Heap :=
  snd (snd (buildLayoutTree sampleMeasure sampleTree 0 (sampleConfig Tree)
              (0%nat, emptyHeap))).
Definition sampleLaidOut : Heap :=
  layoutTree sampleRoot (sampleConfig Tree) sampleBuilt.
Definition sampleResolved : Heap :=
  resolveCollisions sampleCos sampleSin (collectNodes sampleRoot) Tree
    sampleLaidOut.

(** r -> a (collapsed; a1, a2), b *)
Definition collapsedA : MindMapNode :=
  MMNode "a" "a" None (Some true) [leaf "a1"; leaf "a2"].
Definition collapsedTree : MindMapNode :=
  branch "r" [collapsedA; leaf "b"].

(** r -> a (two leaves with long labels), b: [a] and [b] have the same
    size and lie on the same ring. *)
Definition wideTree : MindMapNode :=
  branch "r" [ branch "a" [ MMNode "a1" "a label of thirty characters.." None None [];
                            MMNode "a2" "another label of that length.." None None [] ];
               leaf "b" ].
Definition wideRoot : LayoutNode :=
  fst (buildLayoutTree sampleMeasure wideTree 0 (sampleConfig Radial)
         (0%nat, emptyHeap)).
Definition wideBuilt : Heap :=
  snd (snd (buildLayoutTree sampleMeasure wideTree 0 (sampleConfig Radial)
              (0%nat, emptyHeap))).

(** The child loops of [assignRight] and [assignLeft]. *)
Definition assignRightLoop (hSpacing vSpacing x : Q)
    : list LayoutNode -> Q -> Heap -> Heap :=
  fix loop (cs : list LayoutNode) (childY : Q) (h : Heap) : Heap :=
    match cs with
    | [] => h
    | child :: cs' =>
        let childH := subtreeHeight vSpacing h child in
        loop cs' (childY + childH)
          (assignRight hSpacing vSpacing child (x + hSpacing) childY h)
    end.

Definition assignLeftLoop (hSpacing vSpacing x : Q)
    : list LayoutNode -> Q -> Heap -> Heap :=
  fix loop (cs : list LayoutNode) (childY : Q) (h : Heap) : Heap :=
    match cs with
    | [] => h
    | child :: cs' =>
        let childH := subtreeHeight vSpacing h child in
        loop cs' (childY + childH)
          (assignLeft hSpacing vSpacing child (x - hSpacing) childY h)
    end.

(** Two heaps that agree on the size and depth of every object. *)
Definition sameShape (h h' : Heap) : Prop :=
  forall r,
    n_width (h' r) = n_width (h r) /\ n_height (h' r) = n_height (h r)
    /\ n_depth (h' r) = n_depth (h r).

(** A placement step in the sense of [assignRight] and [assignLeft]: it
    keeps sizes and depths, and touches only the objects of the subtree it
    is given. *)
Definition placesSubtree (assignSide : LayoutNode -> Q -> Q -> Heap -> Heap)
    : Prop :=
  forall node x y h,
    sameShape h (assignSide node x y h)
    /\ forall r, ~ In r (refsOf node) -> assignSide node x y h r = h r.

(** The depth fields below [root] follow the tree: every child is one
    level deeper than its parent. *)
Definition depthsOK (h : Heap) (root : LayoutNode) : Prop :=
  forall n, In n (collectNodes root) ->
    forall c, In c (n_children n) -> nodeD h c = S (nodeD h n).

(** The array stored in [byDepth] under the key [d]. *)
Fixpoint groupOf (d : nat) (m : list (nat * list LayoutNode)) : list LayoutNode :=
  match m with
  | [] => []
  | (d', arr) :: m' => if Nat.eqb d' d then arr else groupOf d m'
  end.

(** The packing axis of a non-radial paradigm. *)
Definition packingAxis (layout : LayoutType) : Axis :=
  match layout with Vertical => AxisX | _ => AxisY end.

(** The heap after the sweeps of the first [k] depth levels. *)
Definition sweptLevels (ax : Axis) (groups : list (nat * list LayoutNode))
    (k : nat) (h : Heap) : Heap :=
  fold_left (fun h grp => sweepLevel ax (snd grp) h) (take k groups) h.

(** ** Editing the source tree ([App.tsx], [DataInput.tsx]) *)

Fixpoint toggleCollapse (node : MindMapNode) (targetId : string) : MindMapNode :=
  match node with
  | MMNode i t ic c cs =>
      if String.eqb i targetId then MMNode i t ic (Some (negb (truthyFlag c))) cs
      else MMNode i t ic c (map (fun c => toggleCollapse c targetId) cs)
  end.

Fixpoint countNodes (node : MindMapNode) : nat :=
  match node with
  | MMNode _ _ _ _ cs =>
      (1 + fold_left (fun sum c => (sum + countNodes c)%nat) cs 0)%nat
  end.

Fixpoint addChildToNode (tree : MindMapNode) (parentId : string)
    (newChild : MindMapNode) : MindMapNode :=
  match tree with
  | MMNode i t ic c cs =>
      if String.eqb i parentId then MMNode i t ic c (cs ++ [newChild])
      else MMNode i t ic c (map (fun c => addChildToNode c parentId newChild) cs)
  end.

Fixpoint removeNode (tree : MindMapNode) (nodeId : string) : option MindMapNode :=
  match tree with
  | MMNode i t ic c cs =>
      if String.eqb i nodeId then None
      else Some (MMNode i t ic c (omap (fun c => removeNode c nodeId) cs))
  end.

Fixpoint updateNodeText (tree : MindMapNode) (nodeId : string) (text : string)
    : MindMapNode :=
  match tree with
  | MMNode i t ic c cs =>
      if String.eqb i nodeId then MMNode i text ic c cs
      else MMNode i t ic c (map (fun c => updateNodeText c nodeId text) cs)
  end.

(** The tree with the text and the collapsed flag of every node replaced by
    what [f] gives for them; identifiers, icons and shape are kept. *)
Fixpoint mapNodes (f : string -> string * option bool -> string * option bool)
    (n : MindMapNode) : MindMapNode :=
  match n with
  | MMNode i t ic c cs =>
      MMNode i (fst (f i (t, c))) ic (snd (f i (t, c))) (map (mapNodes f) cs)
  end.

(** Negate the flag of the node [targetId]; replace the text of the node
    [nodeId]. *)
Definition flipAt (targetId : string) (i : string) (d : string * option bool)
    : string * option bool :=
  if String.eqb i targetId then (fst d, Some (negb (truthyFlag (snd d)))) else d.

Definition retextAt (nodeId text : string) (i : string) (d : string * option bool)
    : string * option bool :=
  if String.eqb i nodeId then (text, snd d) else d.

(** The node [s] with [c] appended to its children. *)
Definition withChild (s c : MindMapNode) : MindMapNode :=
  MMNode (mm_id s) (mm_text s) (mm_icon s) (mm_collapsed s) (mm_children s ++ [c]).

(** The [deleteNode] handler of [DataInput]: the tree passed to
    [onDataChange], or the present tree when the handler returns without
    calling it. *)
Definition deleteNode (data : MindMapNode) (nodeId : string) : MindMapNode :=
  if String.eqb nodeId (mm_id data) then data
  else match removeNode data nodeId with
       | Some updated => updated
       | None => data
       end.

(** Two source trees that differ at most in how a flag that is not set is
    written: absent or [false]. *)
Inductive sameView : MindMapNode -> MindMapNode -> Prop :=
  sameView_node (i t : string) (ic : option string) (c c' : option bool)
      (cs cs' : list MindMapNode) :
    truthyFlag c = truthyFlag c' -> Forall2 sameView cs cs' ->
    sameView (MMNode i t ic c cs) (MMNode i t ic c' cs').

(** What [buildLayoutTree] records for the source node [s] met at depth
    [ds]: the object behind [n] carries the identifier of [s], the size
    [calcNodeSize] gives [s] at that depth, the depth itself, the position
    [(0, 0)] and no angle. *)
Definition builtFrom (measureText : string -> option Q -> string -> string -> Q * Q)
    (config : MindMapConfig) (h : Heap) (n : LayoutNode) (s : MindMapNode)
    (ds : nat) : Prop :=
  n_id n = mm_id s
  /\ h (n_ref n)
     = {| n_x := 0; n_y := 0;
          n_width := fst (calcNodeSize measureText s ds config);
          n_height := snd (calcNodeSize measureText s ds config);
          n_depth := ds; n_angle := None |}
  /\ map n_id (n_children n)
     = (if expands config s ds then map mm_id (mm_children s) else []).

(** What one call of [buildLayoutTree] establishes. *)
Definition buildInv (measureText : string -> option Q -> string -> string -> Q * Q)
    (config : MindMapConfig) (node : MindMapNode) : Prop :=
  forall depth st,
    let t := fst (buildLayoutTree measureText node depth config st) in
    let h' := snd (snd (buildLayoutTree measureText node depth config st)) in
    (forall r, (r < fst st)%nat -> h' r = snd st r)
    /\ (forall n, In n (collectNodes t) ->
          exists s ds,
            occursAt node depth s ds /\ builtFrom measureText config h' n s ds
            /\ (ds <= Nat.max depth (maxDepth (structure config)))%nat)
    /\ depthsOK h' t /\ nodeD h' t = depth /\ n_id t = mm_id node.

(** The child loop of [assign] in [layoutVertical]. *)
Definition assignDownLoop (hSpacing vSpacing y : Q)
    : list LayoutNode -> Q -> Heap -> Heap :=
  fix loop (cs : list LayoutNode) (childX : Q) (h : Heap) : Heap :=
    match cs with
    | [] => h
    | child :: cs' =>
        let childW := subtreeWidth hSpacing h child in
        loop cs' (childX + childW)
          (assignDown hSpacing vSpacing child childX (y + vSpacing) h)
    end.

(** The strategy that [computeLayout] dispatches to. *)
Definition layoutStep (cos sin : Q -> Q) (PI : Q) (root : LayoutNode)
    (config : MindMapConfig) (h : Heap) : Heap :=
  match layout (structure config) with
  | Radial => layoutRadial cos sin PI root config h
  | HorizontalRight => layoutHorizontalRight root config h
  | HorizontalLeft => layoutHorizontalLeft root config h
  | Vertical => layoutVertical root config h
  | Tree => layoutTree root config h
  end.

(** The four sides of the box are each touched by a node of [seen]. *)
Definition boundsAttained (h : Heap) (seen : list LayoutNode)
    (mnx mny mxx mxy : Q) : Prop :=
  (exists n, In n seen /\ nodeX h n = mnx)
  /\ (exists n, In n seen /\ nodeY h n = mny)
  /\ (exists n, In n seen /\ nodeX h n + nodeW h n = mxx)
  /\ (exists n, In n seen /\ nodeY h n + nodeH h n = mxy).

(** [a] ends at least [gap] before [b] starts, along [ax]. *)
Definition gapBefore (ax : Axis) (gap : Q) (h : Heap) (a b : LayoutNode) : Prop :=
  coord ax h a + extent ax h a + gap <= coord ax h b.

(** Two nodes are [gap] apart along [ax]. *)
Definition apart (ax : Axis) (gap : Q) (h : Heap) (a b : LayoutNode) : Prop :=
  gapBefore ax gap h a b \/ gapBefore ax gap h b a.

(** Any two different nodes of the same depth are [gap] apart along [ax]. *)
Definition levelsApart (ax : Axis) (gap : Q) (h : Heap) (root : LayoutNode)
    : Prop :=
  forall a b,
    In a (collectNodes root) -> In b (collectNodes root) ->
    n_ref a <> n_ref b -> nodeD h a = nodeD h b ->
    apart ax gap h a b.

(** Neither node lies in the subtree of the other. *)
Definition unrelated (a b : LayoutNode) : Prop :=
  ~ In a (collectNodes b) /\ ~ In b (collectNodes a).

(** [x / 2] as the product [x * (1 # 2)], which linear arithmetic reads. *)
Ltac halves :=
  repeat match goal with
         | |- context [?x / 2] => change (x / 2) with (x * (1 # 2))
         | H : context [?x / 2] |- _ => change (x / 2) with (x * (1 # 2)) in H
         end.

(** The node [m] lies in the band [[lo, hi]] of the axis [ax], half a
    spacing away from both ends; its extent is read in [h], its position in
    [h']. *)
Definition inBand (ax : Axis) (spacing : Q) (h h' : Heap) (lo hi : Q)
    (m : LayoutNode) : Prop :=
  lo + spacing * (1 # 2) <= coord ax h' m
  /\ coord ax h' m + extent ax h m + spacing * (1 # 2) <= hi.

(** What one call of [assign] in [layoutHorizontalRight] (and of
    [assignRight] in [layoutTree]) establishes. *)
Definition tidyRight (hSpacing vSpacing : Q) (node : LayoutNode) : Prop :=
  forall x yStart h,
    NoDup (refsOf node) ->
    0 <= vSpacing ->
    (forall m, In m (collectNodes node) -> 0 <= nodeH h m) ->
    let h' := assignRight hSpacing vSpacing node x yStart h in
    (forall m, In m (collectNodes node) ->
       inBand AxisY vSpacing h h' yStart (yStart + subtreeHeight vSpacing h node) m)
    /\ (forall a b, In a (collectNodes node) -> In b (collectNodes node) ->
          unrelated a b -> apart AxisY vSpacing h' a b).

(** Every node of the subtree is put in the column of its depth: one
    [hSpacing] to the right per level below [node]. *)
Definition inColumns (hSpacing vSpacing : Q) (node : LayoutNode) : Prop :=
  forall x yStart h,
    NoDup (refsOf node) ->
    depthsOK h node ->
    forall m, In m (collectNodes node) ->
      nodeX (assignRight hSpacing vSpacing node x yStart h) m
      == x + ofNat (nodeD h m - nodeD h node) * hSpacing.

(** What one call of [assign] in [layoutVertical] establishes. *)
Definition tidyDown (hSpacing vSpacing : Q) (node : LayoutNode) : Prop :=
  forall xStart y h,
    NoDup (refsOf node) ->
    0 <= hSpacing ->
    (forall m, In m (collectNodes node) -> 0 <= nodeW h m) ->
    let h' := assignDown hSpacing vSpacing node xStart y h in
    (forall m, In m (collectNodes node) ->
       inBand AxisX hSpacing h h' xStart (xStart + subtreeWidth hSpacing h node) m)
    /\ (forall a b, In a (collectNodes node) -> In b (collectNodes node) ->
          unrelated a b -> apart AxisX hSpacing h' a b).

(** Every node of the subtree is put in the row of its depth: one
    [vSpacing] down per level below [node]. *)
Definition inRows (hSpacing vSpacing : Q) (node : LayoutNode) : Prop :=
  forall xStart y h,
    NoDup (refsOf node) ->
    depthsOK h node ->
    forall m, In m (collectNodes node) ->
      nodeY (assignDown hSpacing vSpacing node xStart y h) m
      == y + ofNat (nodeD h m - nodeD h node) * vSpacing.

(** [gapBefore] between two nodes whose extents are not negative. *)
Definition solidGap (ax : Axis) (gap : Q) (h : Heap) (a b : LayoutNode) : Prop :=
  gapBefore ax gap h a b /\ 0 <= extent ax h a /\ 0 <= extent ax h b.

(** The node [m] sits on the ring of its depth, centred on the direction
    of its angle; sizes and depth are read in [h], the placement in [h']. *)
Definition onRing (cos sin : Q -> Q) (baseRing : Q) (h h' : Heap)
    (m : LayoutNode) : Prop :=
  exists a,
    nodeA h' m = Some a
    /\ nodeX h' m = cos a * radiusForDepth baseRing (nodeD h m) - nodeW h m / 2
    /\ nodeY h' m = sin a * radiusForDepth baseRing (nodeD h m) - nodeH h m / 2.

(** Two heaps that differ at most in the positions of their objects. *)
Definition onlyMoves (h h' : Heap) : Prop :=
  forall r,
    n_width (h' r) = n_width (h r) /\ n_height (h' r) = n_height (h r)
    /\ n_depth (h' r) = n_depth (h r) /\ n_angle (h' r) = n_angle (h r).

(** What one call of [positionChildren] establishes for the nodes below
    [parent]. *)
Definition ringsBelow (cos sin : Q -> Q) (baseRing : Q) (parent : LayoutNode)
    : Prop :=
  forall startAngle endAngle h,
    NoDup (flat_map refsOf (n_children parent)) ->
    forall m, In m (flat_map collectNodes (n_children parent)) ->
      onRing cos sin baseRing h
        (positionChildren cos sin baseRing parent startAngle endAngle h) m.

(** ** The canvas view ([MindMapCanvas.tsx]) *)

Record ViewBox : Type := { vb_x : Q; vb_y : Q; vb_w : Q; vb_h : Q }.

(** The result of [getBoundingClientRect()]. *)
Record DOMRect : Type := {
  rect_left : Q; rect_top : Q; rect_width : Q; rect_height : Q
}.

(** [rect] is [None] when [containerRef.current] is not set. *)
Definition screenToSvg (viewBox : ViewBox) (rect : option DOMRect)
    (clientX clientY : Q) : Point :=
  match rect with
  | None => {| pt_x := 0; pt_y := 0 |}
  | Some rect =>
      let ratioX := vb_w viewBox / rect_width rect in
      let ratioY := vb_h viewBox / rect_height rect in
      {| pt_x := vb_x viewBox + (clientX - rect_left rect) * ratioX;
         pt_y := vb_y viewBox + (clientY - rect_top rect) * ratioY |}
  end.

(** The drag state of the canvas: [dragNodeId] and [dragOffset]. *)
Record DragState : Type := {
  dragNodeId : option string;
  dragOffset : Point
}.

Definition handleNodeDragStart (viewBox : ViewBox) (rect : option DOMRect)
    (nodes : list LayoutNode) (h : Heap) (offsetX offsetY : Q)
    (nodeId : string) (clientX clientY : Q) (st : DragState) : DragState :=
  let svgPt := screenToSvg viewBox rect clientX clientY in
  match find (fun n => String.eqb (n_id n) nodeId) nodes with
  | None => st
  | Some node =>
      let nodeX := nodeX h node + offsetX in
      let nodeY := nodeY h node + offsetY in
      {| dragNodeId := Some nodeId;
         dragOffset := {| pt_x := pt_x svgPt - nodeX; pt_y := pt_y svgPt - nodeY |} |}
  end.

(** The node-dragging branch of [handleMouseMove]: the arguments of the
    call [onNodeDrag(dragNodeId, newX, newY)], or [None] when the branch is
    not taken. *)
Definition dragMove (viewBox : ViewBox) (rect : option DOMRect)
    (offsetX offsetY : Q) (st : DragState) (clientX clientY : Q)
    : option (string * Q * Q) :=
  match dragNodeId st with
  | Some id =>
      if truthyString (Some id) then
        let svgPt := screenToSvg viewBox rect clientX clientY in
        let newX := pt_x svgPt - pt_x (dragOffset st) - offsetX in
        let newY := pt_y svgPt - pt_y (dragOffset st) - offsetY in
        Some (id, newX, newY)
      else None
  | None => None
  end.

(** [handleWheel]: the new view box and zoom; both are kept when the
    container has no rectangle. *)
Definition handleWheel (zoom : Q) (viewBox : ViewBox)
    (layoutWidth layoutHeight : Q) (rect : option DOMRect)
    (deltaY clientX clientY : Q) : ViewBox * Q :=
  let scaleFactor := if Qgtb deltaY 0 then 11 # 10 else 9 # 10 in
  let newZoom := Qmax (1 # 10) (Qmin 5 (zoom * scaleFactor)) in
  match rect with
  | None => (viewBox, zoom)
  | Some rect =>
      let mouseX := clientX - rect_left rect in
      let mouseY := clientY - rect_top rect in
      let svgX := vb_x viewBox + (mouseX / rect_width rect) * vb_w viewBox in
      let svgY := vb_y viewBox + (mouseY / rect_height rect) * vb_h viewBox in
      let newW := layoutWidth * (zoom * scaleFactor) in
      let newH := layoutHeight * (zoom * scaleFactor) in
      let newX := svgX - (mouseX / rect_width rect) * newW in
      let newY := svgY - (mouseY / rect_height rect) * newH in
      ({| vb_x := newX; vb_y := newY; vb_w := newW; vb_h := newH |}, newZoom)
  end.

(** The two zoom buttons: [s] is 0.8 for "+" and 1.2 for "-". *)
Definition zoomButton (s : Q) (v : ViewBox) (z : Q) : ViewBox * Q :=
  ({| vb_x := vb_x v + (vb_w v * (1 - s)) / 2;
      vb_y := vb_y v + (vb_h v * (1 - s)) / 2;
      vb_w := vb_w v * s;
      vb_h := vb_h v * s |}, z * s).

Definition zoomIn : ViewBox -> Q -> ViewBox * Q := zoomButton (8 # 10).
Definition zoomOut : ViewBox -> Q -> ViewBox * Q := zoomButton (12 # 10).

Definition handleFitToScreen (layoutWidth layoutHeight : Q) : ViewBox * Q :=
  ({| vb_x := 0; vb_y := 0; vb_w := layoutWidth; vb_h := layoutHeight |}, 1).

(** The point [(x, y)] lies on the side of the rectangle [[nx, nx + w] x
    [ny, ny + h]] whose outward normal is [(ndx, ndy)]. *)
Definition onSide (nx ny w h x y ndx ndy : Q) : Prop :=
  nx <= x <= nx + w /\ ny <= y <= ny + h
  /\ ((ndx = 1 /\ ndy = 0 /\ x == nx + w)
      \/ (ndx = - 1 /\ ndy = 0 /\ x == nx)
      \/ (ndx = 0 /\ ndy = 1 /\ y == ny + h)
      \/ (ndx = 0 /\ ndy = - 1 /\ y == ny)).

(** The test at the head of [rectBoundaryPoint]: the target is at the
    centre, up to 0.01 on both axes. *)
Definition atCentre (dirX dirY : Q) : bool :=
  Qltb (Qabs dirX) (1 # 100) && Qltb (Qabs dirY) (1 # 100).


(** ** Further sample inputs *)

(** A view of 800 by 600 user units shown in a container of 400 by 300
    pixels. *)
Definition sampleViewBox : ViewBox :=
  {| vb_x := 0; vb_y := 0; vb_w := 800; vb_h := 600 |}.
Definition sampleRect : DOMRect :=
  {| rect_left := 10; rect_top := 20; rect_width := 400; rect_height := 300 |}.
Definition idleDrag : DragState :=
  {| dragNodeId := None; dragOffset := {| pt_x := 0; pt_y := 0 |} |}.

(** A node of 100 by 40 at the origin. *)
Definition sampleGeom : Geom :=
  {| n_x := 0; n_y := 0; n_width := 100; n_height := 40;
     n_depth := 1; n_angle := None |}.


(** A node without children. *)
Definition isLeaf (n : LayoutNode) : bool :=
  match n_children n with [] => true | _ :: _ => false end.

(** The proportional shares of [positionChildren], before they are raised
    to the children's minimum angles. *)
Definition proportionalShares (cs : list LayoutNode) (angleSpan : Q) : list Q :=
  let leaves := map computeSubtreeLeaves cs in
  let totalLeaves := fold_left (fun s c => (s + c)%nat) leaves 0%nat in
  map (fun l => (ofNat l / ofNat totalLeaves) * angleSpan) leaves.

(** ** Wrapping text ([wrapText]) *)

(** [text.split(' ')] *)
Fixpoint splitSpaces (text : string) : list string :=
  match text with
  | EmptyString => [EmptyString]
  | String c rest =>
      if String.eqb (String c EmptyString) " " then EmptyString :: splitSpaces rest
      else
        match splitSpaces rest with
        | word :: words => String c word :: words
        | [] => [String c EmptyString]
        end
  end.

(** One turn of the loop over [words]: [lines] and [currentLine] after it. *)
Definition wrapStep (lineWidth : string -> Q) (maxWidth : Q)
    (st : list string * string) (word : string) : list string * string :=
  let '(lines, currentLine) := st in
  let testLine :=
    if truthyString (Some currentLine)
    then (currentLine ++ " " ++ word)%string else word in
  if Qgtb (lineWidth testLine) maxWidth && truthyString (Some currentLine)
  then (lines ++ [currentLine], word)
  else (lines, testLine).

(** [canvasWidth text fontSize fontFamily fontWeight] stands for
    [ctx.measureText(text).width] under the font set from the three
    arguments. *)
Definition wrapText (canvasWidth : string -> Q -> string -> string -> Q)
    (text : string) (maxWidth fontSize : Q) (fontFamily fontWeight : string)
    : list string :=
  let lineWidth := fun line => canvasWidth line fontSize fontFamily fontWeight in
  let words := splitSpaces text in
  let '(lines, currentLine) :=
    fold_left (wrapStep lineWidth maxWidth) words ([], EmptyString) in
  if truthyString (Some currentLine) then lines ++ [currentLine] else lines.

(** The words of a group put on one line, a space between two. *)
Definition joinSpaces (ws : list string) : string :=
  match ws with
  | [] => EmptyString
  | w :: ws' => fold_left (fun acc w => (acc ++ " " ++ w)%string) ws' w
  end.

(** No line break could have been left out: the line of each group, with
    the first word of the next group added, is wider than [maxWidth]. *)
Fixpoint breaksNeeded (lineWidth : string -> Q) (maxWidth : Q)
    (groups : list (list string)) : Prop :=
  match groups with
  | [] => True
  | g :: rest =>
      match rest with
      | (w :: _) :: _ => maxWidth < lineWidth (joinSpaces g ++ " " ++ w)%string
      | _ => True
      end
      /\ breaksNeeded lineWidth maxWidth rest
  end.

(** What [wrapText] promises of a line by itself: it is not empty, and it
    fits, unless it is a single word of the text. *)
Definition lineOK (lineWidth : string -> Q) (maxWidth : Q) (words : list string)
    (line : string) : Prop :=
  line <> EmptyString /\ (lineWidth line <= maxWidth \/ In line words).

(** ** The two sides of the balanced tree *)

(** Two heaps that differ at most in the x of their objects. *)
Definition sameButX (h h' : Heap) : Prop :=
  forall r, setX 0 (h r) = setX 0 (h' r).

(** Where [assignRight] and [assignLeft], called with [x], put the left
    side of a node [k] levels further down. *)
Definition columnRight (hSpacing : Q) (h : Heap) (m : LayoutNode) (x : Q)
    (k : nat) : Q :=
  x + ofNat k * hSpacing.
Definition columnLeft (hSpacing : Q) (h : Heap) (m : LayoutNode) (x : Q)
    (k : nat) : Q :=
  x - ofNat k * hSpacing - nodeW h m.

(** Every node of the subtree is put in the column of its depth. *)
Definition inColumnsOf (assignSide : LayoutNode -> Q -> Q -> Heap -> Heap)
    (col : Heap -> LayoutNode -> Q -> nat -> Q) (node : LayoutNode) : Prop :=
  forall x yStart h,
    NoDup (refsOf node) ->
    depthsOK h node ->
    forall m, In m (collectNodes node) ->
      nodeX (assignSide node x yStart h) m
      == col h m x (nodeD h m - nodeD h node)%nat.

(** ** Importing an outline ([parseTextToMindMap]) *)

(** [text.split('\n')] *)
Definition newline : Ascii.ascii := Ascii.ascii_of_nat 10.

Fixpoint splitLines (text : string) : list string :=
  match text with
  | EmptyString => [EmptyString]
  | String c rest =>
      if Ascii.eqb c newline then EmptyString :: splitLines rest
      else
        match splitLines rest with
        | line :: lines => String c line :: lines
        | [] => [String c EmptyString]
        end
  end.

(** [`node-${idCounter++}`] for the counter value [counter]. *)
Definition genId (counter : nat) : string := ("node-" ++ pretty counter)%string.

(** The node objects made so far, in the order of their creation: the text
    and the [children] array of each, an array of references to nodes.  A
    reference is the index of creation, which is also the counter value of
    the node's id. *)
Abbreviation Store := (list (string * list nat)) (only parsing).

(** [parent.children.push(child)] *)
Definition pushChild (store : Store) (parent child : nat) : Store :=
  match store !! parent with
  | Some (t, cs) => <[parent := (t, cs ++ [child])]> store
  | None => store
  end.

(** [while (stack.length > 1 && stack[stack.length - 1].indent >= indent)
    stack.pop()]; the top of the stack comes first. *)
Fixpoint popStack (indent : Z) (stack : list (nat * Z)) : list (nat * Z) :=
  match stack with
  | top :: ((_ :: _) as rest) =>
      if (indent <=? snd top)%Z then popStack indent rest else stack
  | _ => stack
  end.

(** The object a reference stands for, read as a value; [fuel] bounds the
    depth that is followed. *)
Fixpoint readNode (store : Store) (fuel : nat) (r : nat) : MindMapNode :=
  match fuel, store !! r with
  | S fuel', Some (t, cs) =>
      MMNode (genId r) t None None (map (readNode store fuel') cs)
  | _, _ => MMNode (genId r) EmptyString None None []
  end.

Section Parse.

(** [s.trim()], [line.replace(/^[\s\t]*[-*•]\s*/, '')] and
    [line.search(/\S/)]. *)
Variable trim : string -> string.
Variable stripBullet : string -> string.
Variable indentOf : string -> Z.

(** One turn of the loop over the lines after the first. *)
Definition parseLine (st : Store * list (nat * Z)) (line : string)
    : Store * list (nat * Z) :=
  let '(store, stack) := st in
  let stripped := stripBullet line in
  let indent := indentOf line in
  let newNode := length store in
  let store1 := store ++ [(trim stripped, [])] in
  let stack1 := popStack indent stack in
  match stack1 with
  | (parent, _) :: _ =>
      (pushChild store1 parent newNode, (newNode, indent) :: stack1)
  | [] => (store1, [(newNode, indent)])  (* not reached: the root stays *)
  end.

Definition nonBlankLines (text : string) : list string :=
  List.filter (fun l => truthyString (Some (trim l))) (splitLines text).

Definition parseTextToMindMap (text : string) : MindMapNode :=
  match nonBlankLines text with
  | [] => MMNode "root" "Empty" None None []
  | first :: rest =>
      let root : Store := [(trim first, [])] in
      let stack := [(0%nat, (-1)%Z)] in
      let '(store, _) := fold_left parseLine rest (root, stack) in
      readNode store (length store) 0
  end.

End Parse.

(** The texts of a source tree, in pre-order. *)
Fixpoint mmTexts (n : MindMapNode) : list string :=
  match n with
  | MMNode _ t _ _ cs => t :: flat_map mmTexts cs
  end.

(** The node [cid] is a child of the node [pid]. *)
Definition childOf (t : MindMapNode) (pid cid : string) : Prop :=
  exists s d c,
    occursAt t 0 s d /\ mm_id s = pid /\ In c (mm_children s) /\ mm_id c = cid.

(** The line a new line is nested under: the latest of the lines before it
    ([history], the latest first, each with its reference) whose indent is
    smaller; the first line of the text when there is none. *)
Fixpoint nearestSmaller (indent : Z) (history : list (nat * Z)) : nat :=
  match history with
  | [] => 0%nat
  | (r, d) :: history' =>
      if (d <? indent)%Z then r else nearestSmaller indent history'
  end.

(** The parents of the lines with the indents [indents], the first of
    which has the reference [next]. *)
Fixpoint parentsFrom (history : list (nat * Z)) (next : nat) (indents : list Z)
    : list nat :=
  match indents with
  | [] => []
  | d :: indents' =>
      nearestSmaller d history
      :: parentsFrom ((next, d) :: history) (S next) indents'
  end.

(** A tree of references, and the stack of [parseTextToMindMap] with, for
    each node on it, the subtrees of the children it has got apart from the
    next node on the stack. *)
Inductive RTree : Type := RNode (r : nat) (cs : list RTree).

Definition rootRef (t : RTree) : nat := match t with RNode r _ => r end.

Fixpoint refsPre (t : RTree) : list nat :=
  match t with RNode r cs => r :: flat_map refsPre cs end.

Fixpoint nodesPre (t : RTree) : list (nat * list nat) :=
  match t with RNode r cs => (r, map rootRef cs) :: flat_map nodesPre cs end.

Definition textAt (store : Store) (r : nat) : string :=
  match store !! r with Some (t, _) => t | None => EmptyString end.

Fixpoint toTree (store : Store) (t : RTree) : MindMapNode :=
  match t with
  | RNode r cs => MMNode (genId r) (textAt store r) None None (map (toTree store) cs)
  end.

Definition Frame : Type := nat * Z * list RTree.

Fixpoint plug (t : RTree) (below : list Frame) : RTree :=
  match below with
  | [] => t
  | (r, _, done) :: below' => plug (RNode r (done ++ [t])) below'
  end.

Definition stackOf (top : Frame) (below : list Frame) : list (nat * Z) :=
  map (fun f : Frame => (fst (fst f), snd (fst f))) (top :: below).

(** [popStack] on the stack with its subtrees: a node that is popped is
    complete. *)
Fixpoint popFrames (indent : Z) (top : Frame) (below : list Frame)
    : Frame * list Frame :=
  match below with
  | [] => (top, [])
  | (r', d', done') :: below' =>
      if (indent <=? snd (fst top))%Z
      then popFrames indent (r', d', done' ++ [RNode (fst (fst top)) (snd top)]) below'
      else (top, below)
  end.

(** The tree a stack with its subtrees stands for. *)
Definition plugFrames (top : Frame) (below : list Frame) : RTree :=
  plug (RNode (fst (fst top)) (snd top)) below.

(** Every node of the tree of references is an object of the store, with
    the children the tree gives it. *)
Definition storedIn (store : Store) (t : RTree) : Prop :=
  Forall (fun n : nat * list nat =>
            exists text, store !! fst n = Some (text, snd n)) (nodesPre t).

(** The references and nodes of the frames below a subtree whose root is
    [above]. *)
Fixpoint belowRefs (below : list Frame) : list nat :=
  match below with
  | [] => []
  | (r, _, done) :: below' => belowRefs below' ++ r :: flat_map refsPre done
  end.

Fixpoint belowNodes (above : nat) (below : list Frame) : list (nat * list nat) :=
  match below with
  | [] => []
  | (r, _, done) :: below' =>
      belowNodes r below'
      ++ (r, map rootRef done ++ [above]) :: flat_map nodesPre done
  end.

(** What the loop of [parseTextToMindMap] keeps: the stack is a path of
    the tree the store holds; the nodes of that tree are the objects made
    so far, in pre-order; popping the stack for an indent leaves the
    nearest line with a smaller indent on top; and the children arrays hold
    every line after the first, under its parent. *)
Definition parseInv (store : Store) (stack : list (nat * Z)) (top : Frame)
    (below : list Frame) (history : list (nat * Z)) (parents : list nat)
    : Prop :=
  stack = stackOf top below
  /\ storedIn store (plugFrames top below)
  /\ refsPre (plugFrames top below) = seq 0 (length store)
  /\ (forall d, fst (hd (0%nat, 0%Z) (popStack d stack)) = nearestSmaller d history)
  /\ (forall e c, In e (nodesPre (plugFrames top below)) -> In c (snd e) ->
        parents !! (c - 1)%nat = Some (fst e) /\ (1 <= c)%nat)
  /\ (forall k, (k < length parents)%nat ->
        exists e, In e (nodesPre (plugFrames top below)) /\ In (S k) (snd e))
  /\ S (length parents) = length store.

(** ** Rigid moves *)

(** The object behind [m] is moved by [(dx, dy)] from [h] to [h'], and is
    otherwise the same. *)
Definition translated (dx dy : Q) (h h' : Heap) (m : LayoutNode) : Prop :=
  nodeX h' m == nodeX h m + dx
  /\ nodeY h' m == nodeY h m + dy
  /\ setY 0 (setX 0 (h' (n_ref m))) = setY 0 (setX 0 (h (n_ref m))).

(** What [shiftSubtreeXY] does below [node]. *)
Definition shiftsBelow (dx dy : Q) (node : LayoutNode) : Prop :=
  forall h,
    NoDup (flat_map refsOf (n_children node)) ->
    forall m, In m (flat_map collectNodes (n_children node)) ->
      translated dx dy h (shiftSubtreeXY node dx dy h) m.

(** * Properties *)

(** ** Numbers and lists *)

Lemma Qgtb_lt (a b : Q) : Qgtb a b = true <-> b < a.
Proof.
  unfold Qgtb. rewrite (Qgt_alt a b).
  destruct (a ?= b); split; congruence.
Qed.

Lemma Qgtb_le (a b : Q) : Qgtb a b = false <-> a <= b.
Proof.
  unfold Qgtb. rewrite (Qle_alt a b).
  destruct (a ?= b); split; congruence.
Qed.

Lemma Qltb_lt (a b : Q) : Qltb a b = true <-> a < b.
Proof. apply Qgtb_lt. Qed.

Lemma Qltb_le (a b : Q) : Qltb a b = false <-> b <= a.
Proof. apply Qgtb_le. Qed.

Lemma MindMapNode_nested_ind (P : MindMapNode -> Prop) :
  (forall i t ic c cs, Forall P cs -> P (MMNode i t ic c cs)) ->
  forall n, P n.
Proof.
  intros Hstep. fix IH 1. intros [i t ic c cs]. apply Hstep.
  induction cs as [|a cs IHcs]; constructor; [apply IH | exact IHcs].
Qed.

Lemma LayoutNode_nested_ind (P : LayoutNode -> Prop) :
  (forall r i cs, Forall P cs -> P (LNode r i cs)) ->
  forall n, P n.
Proof.
  intros Hstep. fix IH 1. intros [r i cs]. apply Hstep.
  induction cs as [|a cs IHcs]; constructor; [apply IH | exact IHcs].
Qed.

(** ** Tree building *)

Section BuildFacts.

Variable measureText : string -> option Q -> string -> string -> Q * Q.
Variable config : MindMapConfig.

Lemma buildLayoutTree_eq (node : MindMapNode) (depth : nat) (st : BuildState) :
  buildLayoutTree measureText node depth config st =
  let '(w, hgt) := calcNodeSize measureText node depth config in
  let r := fst st in
  let g := {| n_x := 0; n_y := 0; n_width := w; n_height := hgt;
              n_depth := depth; n_angle := None |} in
  let st1 : BuildState := (S r, upd (snd st) r g) in
  if expands config node depth then
    let '(cs, st2) :=
      buildChildren measureText depth config (mm_children node) st1 in
    (LNode r (mm_id node) cs, st2)
  else (LNode r (mm_id node) [], st1).
Proof. destruct node; reflexivity. Qed.

Lemma buildLayoutTree_unfold (node : MindMapNode) (depth : nat) (st : BuildState) :
  buildLayoutTree measureText node depth config st =
  let r := fst st in
  let g := {| n_x := 0; n_y := 0;
              n_width := fst (calcNodeSize measureText node depth config);
              n_height := snd (calcNodeSize measureText node depth config);
              n_depth := depth; n_angle := None |} in
  let st1 : BuildState := (S r, upd (snd st) r g) in
  if expands config node depth then
    (LNode r (mm_id node)
       (fst (buildChildren measureText depth config (mm_children node) st1)),
     snd (buildChildren measureText depth config (mm_children node) st1))
  else (LNode r (mm_id node) [], st1).
Proof.
  rewrite buildLayoutTree_eq.
  destruct (calcNodeSize measureText node depth config) as [w hgt].
  cbv zeta. cbn [fst snd].
  destruct (expands config node depth); [|reflexivity].
  destruct (buildChildren measureText depth config (mm_children node) _).
  reflexivity.
Qed.

Lemma buildChildren_cons (depth : nat) (c : MindMapNode) (l : list MindMapNode)
    (s : BuildState) :
  buildChildren measureText depth config (c :: l) s =
  (fst (buildLayoutTree measureText c (S depth) config s)
     :: fst (buildChildren measureText depth config l
               (snd (buildLayoutTree measureText c (S depth) config s))),
   snd (buildChildren measureText depth config l
          (snd (buildLayoutTree measureText c (S depth) config s)))).
Proof.
  change (buildChildren measureText depth config (c :: l) s) with
    (let '(c0, s1) := buildLayoutTree measureText c (S depth) config s in
     let '(cs0, s2) := buildChildren measureText depth config l s1 in
     (c0 :: cs0, s2)).
  destruct (buildLayoutTree measureText c (S depth) config s) as [c' s1].
  cbn [fst snd].
  destruct (buildChildren measureText depth config l s1) as [cs' s2].
  reflexivity.
Qed.

Lemma buildChildren_ids (depth : nat) (l : list MindMapNode) :
  Forall (fun c => forall d st,
    map n_id (collectNodes (fst (buildLayoutTree measureText c d config st)))
    = visibleIds config c d) l ->
  forall s,
    map n_id (flat_map collectNodes (fst (buildChildren measureText depth config l s)))
    = flat_map (fun c => visibleIds config c (S depth)) l.
Proof.
  induction 1 as [|a l Ha _ IHl]; intros s; [reflexivity|].
  rewrite buildChildren_cons.
  cbn [fst snd flat_map]. rewrite map_app, Ha, IHl. reflexivity.
Qed.

Lemma build_ids (node : MindMapNode) :
  forall depth st,
    map n_id (collectNodes (fst (buildLayoutTree measureText node depth config st)))
    = visibleIds config node depth.
Proof.
  induction node as [i t ic c cs IH] using MindMapNode_nested_ind.
  intros depth st. rewrite buildLayoutTree_unfold. cbv zeta.
  cbn [visibleIds].
  destruct (expands config (MMNode i t ic c cs) depth);
    cbn [fst snd collectNodes map n_id n_children mm_id mm_children flat_map];
    [|reflexivity].
  f_equal. apply buildChildren_ids, IH.
Qed.

Lemma flat_map_perm_app {A B : Type} (f g k : A -> list B) (l : list A) :
  Forall (fun a => Permutation (f a) (g a ++ k a)) l ->
  Permutation (flat_map f l) (flat_map g l ++ flat_map k l).
Proof.
  induction 1 as [|a l Ha _ IHl]; [reflexivity|].
  cbn [flat_map]. rewrite Ha, IHl.
  rewrite <- !app_assoc. apply Permutation_app_head.
  rewrite !app_assoc. apply Permutation_app_tail, Permutation_app_comm.
Qed.

Lemma mmIds_split (node : MindMapNode) :
  forall depth,
    Permutation (mmIds node)
      (visibleIds config node depth ++ hiddenIds config node depth).
Proof.
  induction node as [i t ic c cs IH] using MindMapNode_nested_ind.
  intros depth. cbn [mmIds visibleIds hiddenIds].
  destruct (expands config (MMNode i t ic c cs) depth).
  - cbn [app]. apply perm_skip.
    apply (flat_map_perm_app mmIds
             (fun c => visibleIds config c (S depth))
             (fun c => hiddenIds config c (S depth))).
    eapply Forall_impl; [exact IH|]. intros a Ha. apply Ha.
  - reflexivity.
Qed.

Lemma occursAt_mmIds (root s : MindMapNode) (d ds : nat) :
  occursAt root d s ds -> In (mm_id s) (mmIds root).
Proof.
  induction 1 as [n d|n d c s ds Hc _ IH].
  - destruct n; left; reflexivity.
  - destruct n as [i t ic col cs]. right.
    apply in_flat_map. exists c. split; [exact Hc | exact IH].
Qed.

Lemma hidden_below (root s t : MindMapNode) (d ds dt : nat) (c : MindMapNode) :
  occursAt root d s ds ->
  expands config s ds = false ->
  In c (mm_children s) ->
  occursAt c (S ds) t dt ->
  In (mm_id t) (hiddenIds config root d).
Proof.
  intros Hocc Hexp Hc Ht.
  induction Hocc as [n d|n d c' s ds Hc' Hocc IH].
  - destruct n as [i tx ic col cs]. cbn [hiddenIds]. rewrite Hexp.
    apply in_flat_map. exists c. split; [exact Hc|].
    eapply occursAt_mmIds, Ht.
  - specialize (IH Hexp Hc Ht).
    destruct n as [i tx ic col cs]. cbn [hiddenIds].
    destruct (expands config (MMNode i tx ic col cs) d);
      apply in_flat_map; exists c'; (split; [exact Hc'|]).
    + exact IH.
    + eapply Permutation_in; [symmetry; apply (mmIds_split c' (S d))|].
      apply in_or_app. right. exact IH.
Qed.

Lemma hidden_not_laid_out (root : MindMapNode) (d : nat) (x : string) :
  NoDup (mmIds root) ->
  In x (hiddenIds config root d) ->
  ~ In x (visibleIds config root d).
Proof.
  intros Hnd Hh Hv.
  rewrite (mmIds_split root d) in Hnd.
  apply NoDup_app in Hnd as (_ & Hdisj & _).
  apply (Hdisj x); apply list_elem_of_In; assumption.
Qed.

Lemma build_refs (node : MindMapNode) :
  forall depth st,
    let t := fst (buildLayoutTree measureText node depth config st) in
    refsOf t = seq (fst st) (length (collectNodes t))
    /\ fst (snd (buildLayoutTree measureText node depth config st))
       = (fst st + length (collectNodes t))%nat.
Proof.
  induction node as [i t ic c cs IH] using MindMapNode_nested_ind.
  intros depth st. cbv zeta. rewrite buildLayoutTree_unfold. cbv zeta.
  destruct (expands config (MMNode i t ic c cs) depth);
    cbn [fst snd mm_children mm_id]; unfold refsOf;
    cbn [collectNodes n_children map n_ref flat_map length seq];
    [|split; [reflexivity | lia]].
  set (g := {| n_x := 0; n_y := 0; n_width := _; n_height := _;
               n_depth := depth; n_angle := None |}).
  generalize (upd (snd st) (fst st) g). intros h0.
  assert (Hcs : forall k h,
    map n_ref (flat_map collectNodes
      (fst (buildChildren measureText depth config cs (k, h))))
    = seq k (length (flat_map collectNodes
               (fst (buildChildren measureText depth config cs (k, h)))))
    /\ fst (snd (buildChildren measureText depth config cs (k, h)))
       = (k + length (flat_map collectNodes
               (fst (buildChildren measureText depth config cs (k, h)))))%nat).
  { clear h0 g. induction IH as [|a l Ha _ IHl]; intros k h.
    - cbn. split; [reflexivity | lia].
    - rewrite buildChildren_cons. cbn [fst snd flat_map].
      destruct (Ha (S depth) (k, h)) as [Ha1 Ha2]. cbv zeta in Ha1, Ha2.
      unfold refsOf in Ha1. cbn [fst] in Ha1, Ha2.
      destruct (buildLayoutTree measureText a (S depth) config (k, h))
        as [ta [k1 h1]] eqn:Ea.
      cbn [fst snd] in *. subst k1.
      destruct (IHl (k + length (collectNodes ta))%nat h1) as [Hl1 Hl2].
      rewrite map_app, length_app, seq_app, Ha1, Hl1, Hl2.
      split; [reflexivity | lia]. }
  destruct (Hcs (S (fst st)) h0) as [H1 H2].
  rewrite H1, H2. split; [reflexivity | lia].
Qed.

Lemma build_NoDup_refs (node : MindMapNode) (depth : nat) (st : BuildState) :
  NoDup (refsOf (fst (buildLayoutTree measureText node depth config st))).
Proof.
  destruct (build_refs node depth st) as [-> _]. apply NoDup_seq.
Qed.

End BuildFacts.

(** ** Edges *)

Lemma collectNodes_self (n : LayoutNode) : In n (collectNodes n).
Proof. destruct n; left; reflexivity. Qed.

Lemma collectNodes_child (n c m : LayoutNode) :
  In c (n_children n) -> In m (collectNodes c) -> In m (collectNodes n).
Proof.
  intros Hc Hm. destruct n as [r i cs]. right.
  apply in_flat_map. exists c. split; assumption.
Qed.

Lemma collectNodes_unfold (n : LayoutNode) :
  collectNodes n = n :: flat_map collectNodes (n_children n).
Proof. destruct n; reflexivity. Qed.

Lemma collectNodes_trans (root n m : LayoutNode) :
  In n (collectNodes root) -> In m (collectNodes n) -> In m (collectNodes root).
Proof.
  revert n m. induction root as [r i cs IH] using LayoutNode_nested_ind.
  intros n m Hn Hm. rewrite collectNodes_unfold in Hn. destruct Hn as [<- | Hn].
  - exact Hm.
  - cbn [n_children] in Hn. apply in_flat_map in Hn as (c & Hc & Hn).
    rewrite List.Forall_forall in IH.
    eapply collectNodes_child; [exact Hc | eapply IH; eauto].
Qed.

Lemma collectEdges_leaf (h : Heap) (n : LayoutNode) :
  n_children n = [] -> collectEdges h n = [].
Proof. destruct n as [r i cs]. cbn. intros ->. reflexivity. Qed.

Lemma collectEdges_endpoints (h : Heap) (root : LayoutNode) :
  forall e, In e (collectEdges h root) ->
    In (e_source e) (collectNodes root) /\ In (e_target e) (collectNodes root).
Proof.
  induction root as [r i cs IH] using LayoutNode_nested_ind.
  intros e He. cbn [collectEdges n_children] in He.
  apply in_flat_map in He as (c & Hc & He).
  destruct He as [<- | He].
  - cbn [e_source e_target]. split.
    + apply collectNodes_self.
    + eapply collectNodes_child; [exact Hc | apply collectNodes_self].
  - rewrite List.Forall_forall in IH. destruct (IH c Hc e He) as [Hs Ht].
    split; eapply collectNodes_child; eauto.
Qed.

(** C7.  A source node that is collapsed, or whose depth has reached
    [maxDepth], is built into a layout node without children, whatever the
    source node's own children are, and no edge comes out of it; moreover
    (identifiers being unique, as the data model requires) no edge of the
    whole layout starts or ends at any of that node's descendants. *)
Theorem collapsed_or_capped_node_is_laid_out_childless
    (measureText : string -> option Q -> string -> string -> Q * Q)
    (config : MindMapConfig) (root s : MindMapNode) (ds : nat) :
  occursAt root 0 s ds ->
  truthyFlag (mm_collapsed s) = true \/ (maxDepth (structure config) <= ds)%nat ->
  (forall st h,
      let n := fst (buildLayoutTree measureText s ds config st) in
      n_children n = [] /\ collectNodes n = [n] /\ collectEdges h n = [])
  /\
  (NoDup (mmIds root) ->
   forall c t dt st h e,
     In c (mm_children s) -> occursAt c (S ds) t dt ->
     In e (collectEdges h (fst (buildLayoutTree measureText root 0 config st))) ->
     n_id (e_source e) <> mm_id t /\ n_id (e_target e) <> mm_id t).
Proof.
  intros Hocc Hcut.
  assert (Hexp : expands config s ds = false).
  { unfold expands. destruct Hcut as [-> | Hle]; [reflexivity|].
    apply andb_false_iff. right. apply Nat.ltb_ge. exact Hle. }
  split.
  - intros st h. rewrite buildLayoutTree_unfold. cbv zeta. rewrite Hexp.
    cbn. auto.
  - intros Hnd c t dt st h e Hc Ht He.
    pose proof (hidden_below config root s t 0 ds dt c Hocc Hexp Hc Ht) as Hhid.
    pose proof (hidden_not_laid_out config root 0 (mm_id t) Hnd Hhid) as Hnot.
    rewrite <- (build_ids measureText config root 0 st) in Hnot.
    destruct (collectEdges_endpoints h _ e He) as [Hs Htg].
    split; intros Heq; apply Hnot; rewrite <- Heq; apply in_map; assumption.
Qed.

(** ** Horizontal-left layout *)

Lemma upd_same (h : Heap) (r : nat) (g : Geom) : upd h r g r = g.
Proof. unfold upd. rewrite Nat.eqb_refl. reflexivity. Qed.

Lemma upd_other (h : Heap) (r r' : nat) (g : Geom) :
  r' <> r -> upd h r g r' = h r'.
Proof. intros Hne. unfold upd. apply Nat.eqb_neq in Hne. rewrite Hne. reflexivity. Qed.

Lemma fold_update_each (f : Geom -> Geom) (l : list LayoutNode) :
  NoDup (map n_ref l) ->
  forall (h : Heap) (r : nat),
    fold_left (fun h n => upd h (n_ref n) (f (h (n_ref n)))) l h r
    = if bool_decide (r ∈ map n_ref l) then f (h r) else h r.
Proof.
  induction l as [|a l IH]; intros Hnd h r.
  - cbn [fold_left map]. rewrite bool_decide_eq_false_2; [reflexivity|].
    apply not_elem_of_nil.
  - cbn [fold_left map] in *. apply NoDup_cons in Hnd as [Ha Hnd].
    rewrite (IH Hnd).
    destruct (Nat.eq_dec r (n_ref a)) as [-> | Hne].
    + rewrite (bool_decide_eq_false_2 _ Ha), upd_same.
      rewrite bool_decide_eq_true_2; [reflexivity | left].
    + rewrite (upd_other _ _ _ _ Hne).
      destruct (decide (r ∈ map n_ref l)) as [Hin | Hnin].
      * rewrite !bool_decide_eq_true_2; [reflexivity | right; exact Hin | exact Hin].
      * rewrite !bool_decide_eq_false_2; [reflexivity | | exact Hnin].
        intros Hin. apply elem_of_cons in Hin as [? | ?]; [lia | contradiction].
Qed.

Lemma layoutHorizontalLeft_mirrors (root : LayoutNode) (config : MindMapConfig)
    (h : Heap) :
  NoDup (refsOf root) ->
  forall r, layoutHorizontalLeft root config h r = mirroredRightLayout root config h r.
Proof.
  intros Hnd r. unfold layoutHorizontalLeft, mirroredRightLayout. cbv zeta.
  exact (fold_update_each mirrorX (collectNodes root) Hnd _ r).
Qed.

(** C8.  For every input tree and configuration, the horizontal-left
    strategy yields the horizontal-right layout with the x of every node
    replaced by [-x - width]; y, width, height, depth and angle of every
    node are those of the right variant (the children lists are those of
    the shared tree). *)
Theorem horizontal_left_is_mirrored_horizontal_right
    (measureText : string -> option Q -> string -> string -> Q * Q)
    (config : MindMapConfig) (rootNode : MindMapNode) (st : BuildState) :
  let root := fst (buildLayoutTree measureText rootNode 0 config st) in
  let h0 := snd (snd (buildLayoutTree measureText rootNode 0 config st)) in
  let left := layoutHorizontalLeft root config h0 in
  let right := layoutHorizontalRight root config h0 in
  (forall r, left r = mirroredRightLayout root config h0 r)
  /\ (forall n, In n (collectNodes root) ->
        nodeX left n = - nodeX right n - nodeW right n
        /\ nodeY left n = nodeY right n
        /\ nodeW left n = nodeW right n
        /\ nodeH left n = nodeH right n
        /\ nodeD left n = nodeD right n
        /\ nodeA left n = nodeA right n).
Proof.
  cbv zeta.
  pose proof (build_NoDup_refs measureText config rootNode 0 st) as Hnd.
  split.
  - apply layoutHorizontalLeft_mirrors, Hnd.
  - intros n Hn.
    unfold nodeX, nodeY, nodeW, nodeH, nodeD, nodeA.
    rewrite (layoutHorizontalLeft_mirrors _ config _ Hnd (n_ref n)).
    unfold mirroredRightLayout.
    rewrite bool_decide_eq_true_2.
    + cbn. repeat split; reflexivity.
    + apply list_elem_of_In. unfold refsOf. apply in_map. exact Hn.
Qed.

(** ** Balanced tree: the left/right split *)

Lemma fold_left_Qplus_acc (l : list Q) (a : Q) :
  fold_left Qplus l a == a + sumQ l.
Proof.
  unfold sumQ. revert a. induction l as [|x l IH]; intros a; cbn [fold_left].
  - lra.
  - rewrite IH, (IH (0 + x)). lra.
Qed.

Lemma sumQ_app (l1 l2 : list Q) : sumQ (l1 ++ l2) == sumQ l1 + sumQ l2.
Proof.
  unfold sumQ at 1. rewrite fold_left_app. apply fold_left_Qplus_acc.
Qed.

Lemma sumQ_snoc (l : list Q) (x : Q) : sumQ (l ++ [x]) = sumQ l + x.
Proof. unfold sumQ. rewrite fold_left_app. reflexivity. Qed.

Lemma diffAt_imbalance (ws : list Q) (j : nat) : diffAt ws j == imbalance ws j.
Proof.
  unfold diffAt, imbalance. apply Qabs_wd.
  rewrite <- (take_drop j ws) at 2. rewrite sumQ_app. lra.
Qed.

Lemma splitLoop_spec (ws : list Q) :
  forall (rest done : list Q) (best : nat) (bestDiff : option Q),
    ws = done ++ rest ->
    splitInv ws (length done) best bestDiff ->
    let k := splitLoop (sumQ ws) rest (length done) (sumQ done) best bestDiff in
    (rest = [] /\ bestDiff = None /\ k = best)
    \/ splitInv ws (length ws) k (Some (diffAt ws k)).
Proof.
  induction rest as [|x rest IH]; intros done best bestDiff Hws Hinv; cbv zeta.
  - cbn [splitLoop]. destruct bestDiff as [b|]; [right | left; auto].
    rewrite Hws, app_nil_r. rewrite Hws, app_nil_r in Hinv.
    destruct Hinv as (Hb & Hinv). rewrite <- Hb. split; [exact Hb | exact Hinv].
  - cbn [splitLoop].
    assert (Hlen : length (done ++ [x]) = S (length done))
      by (rewrite length_app; cbn; lia).
    assert (Hws' : ws = (done ++ [x]) ++ rest)
      by (rewrite <- app_assoc; exact Hws).
    assert (Hdiff : Qabs (sumQ done + x - (sumQ ws - (sumQ done + x)))
                    = diffAt ws (S (length done))).
    { assert (Htake : take (S (length done)) ws = done ++ [x])
        by (rewrite Hws', <- Hlen; apply take_app_length).
      unfold diffAt. rewrite Htake, sumQ_snoc. reflexivity. }
    rewrite Hdiff.
    assert (Hstep : forall best' bd',
      splitInv ws (S (length done)) best' bd' ->
      bd' <> None ->
      splitInv ws (length ws)
        (splitLoop (sumQ ws) rest (S (length done)) (sumQ done + x) best' bd')
        (Some (diffAt ws
           (splitLoop (sumQ ws) rest (S (length done)) (sumQ done + x) best' bd')))).
    { intros best' bd' Hinv' Hsome.
      pose proof (IH (done ++ [x]) best' bd' Hws') as IH'.
      rewrite Hlen, sumQ_snoc in IH'.
      destruct (IH' Hinv') as [(_ & Habs & _) | Hr]; [contradiction | exact Hr]. }
    right.
    match goal with |- context [if ?c then _ else _] => destruct c eqn:Hbetter end.
    + apply Hstep; [|discriminate].
      repeat split; try lia.
      * intros j Hj. destruct (Nat.eq_dec j (S (length done))) as [-> | Hne]; [lra|].
        destruct bestDiff as [b|].
        -- destruct Hinv as (_ & _ & Hmin & _).
           apply Qltb_lt in Hbetter. specialize (Hmin j ltac:(lia)). lra.
        -- cbn in Hinv. lia.
      * intros j Hj.
        destruct bestDiff as [b|].
        -- destruct Hinv as (_ & _ & Hmin & _).
           apply Qltb_lt in Hbetter. specialize (Hmin j ltac:(lia)). lra.
        -- cbn in Hinv. lia.
    + destruct bestDiff as [b|]; [|discriminate].
      apply Qltb_le in Hbetter.
      destruct Hinv as (Hb & Hrange & Hmin & Hfirst).
      apply Hstep; [|discriminate].
      repeat split; try lia; try assumption.
      intros j Hj. destruct (Nat.eq_dec j (S (length done))) as [-> | Hne]; [lra|].
      apply Hmin. lia.
Qed.

Lemma bestSplit_spec (ws : list Q) :
  ws <> [] ->
  (1 <= bestSplit ws <= length ws)%nat
  /\ (forall j, (1 <= j <= length ws)%nat -> diffAt ws (bestSplit ws) <= diffAt ws j)
  /\ (forall j, (1 <= j < bestSplit ws)%nat -> diffAt ws (bestSplit ws) < diffAt ws j).
Proof.
  intros Hne.
  destruct (splitLoop_spec ws ws [] (ceilHalf (length ws)) None eq_refl eq_refl)
    as [(Hnil & _) | Hinv].
  - contradiction.
  - destruct Hinv as (_ & Hrange & Hmin & Hfirst).
    split; [exact Hrange | split; [exact Hmin | exact Hfirst]].
Qed.

(** ** Collision resolution only moves nodes forward *)

Lemma movedForward_refl (ax : Axis) (g : Geom) : movedForward ax g g.
Proof. unfold movedForward. destruct ax; repeat split; lra. Qed.

Lemma movedForward_trans (ax : Axis) (g1 g2 g3 : Geom) :
  movedForward ax g1 g2 -> movedForward ax g2 g3 -> movedForward ax g1 g3.
Proof.
  unfold movedForward.
  intros (H1 & Hw1 & Hh1 & Hd1 & Ha1) (H2 & Hw2 & Hh2 & Hd2 & Ha2).
  repeat split; try congruence.
  destruct ax; destruct H1 as [H1 H1']; destruct H2 as [H2 H2'];
    split; try lra; rewrite H2'; exact H1'.
Qed.

Lemma heapForward_refl (ax : Axis) (h : Heap) : heapForward ax h h.
Proof. intros r. apply movedForward_refl. Qed.

Lemma heapForward_trans (ax : Axis) (h1 h2 h3 : Heap) :
  heapForward ax h1 h2 -> heapForward ax h2 h3 -> heapForward ax h1 h3.
Proof. intros H12 H23 r. eapply movedForward_trans; [apply H12 | apply H23]. Qed.

Lemma heapForward_upd (ax : Axis) (h : Heap) (r : nat) (g : Geom) :
  movedForward ax (h r) g -> heapForward ax h (upd h r g).
Proof.
  intros Hg r'. destruct (Nat.eq_dec r' r) as [-> | Hne].
  - rewrite upd_same. exact Hg.
  - rewrite upd_other by exact Hne. apply movedForward_refl.
Qed.

Lemma shiftNode_forward (ax : Axis) (n : LayoutNode) (dx dy : Q) (h : Heap) :
  axisDelta ax dx dy -> heapForward ax h (shiftNode n dx dy h).
Proof.
  intros Hd. unfold shiftNode. cbv zeta.
  eapply heapForward_trans; apply heapForward_upd;
    unfold nodeX, nodeY, writeX, movedForward; rewrite ?upd_same; cbn;
    destruct ax; destruct Hd as [Hd1 Hd2]; repeat split; try lra.
Qed.

Lemma shiftSubtreeXY_forward (ax : Axis) (dx dy : Q) :
  axisDelta ax dx dy ->
  forall node h, heapForward ax h (shiftSubtreeXY node dx dy h).
Proof.
  intros Hd.
  induction node as [r i cs IH] using LayoutNode_nested_ind.
  cbn [shiftSubtreeXY].
  induction IH as [|c cs Hc _ IHcs]; intros h; cbn [fold_left].
  - apply heapForward_refl.
  - eapply heapForward_trans; [|apply IHcs].
    eapply heapForward_trans; [apply shiftNode_forward, Hd | apply Hc].
Qed.

Lemma pushForward_forward (ax : Axis) (curr : LayoutNode) (overlap : Q) (h : Heap) :
  0 <= overlap -> heapForward ax h (pushForward ax curr overlap h).
Proof.
  intros Ho. unfold pushForward.
  destruct ax.
  - eapply heapForward_trans; [|apply shiftSubtreeXY_forward; cbn; split; lra].
    apply heapForward_upd. unfold nodeX, movedForward. cbn. repeat split; lra.
  - eapply heapForward_trans; [|apply shiftSubtreeXY_forward; cbn; split; lra].
    apply heapForward_upd. unfold nodeY, movedForward. cbn. repeat split; lra.
Qed.

Lemma sweepFrom_forward (ax : Axis) (rest : list LayoutNode) :
  forall prev h, heapForward ax h (sweepFrom ax prev rest h).
Proof.
  induction rest as [|curr rest IH]; intros prev h; cbn [sweepFrom].
  - apply heapForward_refl.
  - eapply heapForward_trans; [|apply IH].
    match goal with |- context [Qgtb ?o 0] => destruct (Qgtb o 0) eqn:Ho end.
    + apply pushForward_forward. apply Qgtb_lt in Ho. lra.
    + apply heapForward_refl.
Qed.

Lemma sweepLevel_forward (ax : Axis) (depthNodes : list LayoutNode) (h : Heap) :
  heapForward ax h (sweepLevel ax depthNodes h).
Proof.
  unfold sweepLevel. destruct (sortBy (coord ax h) depthNodes).
  - apply heapForward_refl.
  - apply sweepFrom_forward.
Qed.

Lemma sweepLevels_forward (ax : Axis) (groups : list (nat * list LayoutNode)) :
  forall h,
    heapForward ax h
      (fold_left (fun h grp => sweepLevel ax (snd grp) h) groups h).
Proof.
  induction groups as [|g groups IH]; intros h; cbn [fold_left].
  - apply heapForward_refl.
  - eapply heapForward_trans; [apply sweepLevel_forward | apply IH].
Qed.

(** C10.  Outside the radial paradigm, collision resolution only moves
    nodes forward along the packing axis: under the vertical paradigm no
    node's y, width, height or depth changes and x never decreases; under
    the horizontal and tree paradigms no node's x, width, height or depth
    changes and y never decreases.  This covers every object of the heap,
    hence the pushed nodes and all their descendants. *)
Theorem resolveCollisions_moves_forward_only
    (cos sin : Q -> Q) (nodes : list LayoutNode) (layout : LayoutType)
    (h : Heap) (r : nat) :
  let h' := resolveCollisions cos sin nodes layout h in
  match layout with
  | Radial => True
  | Vertical =>
      n_x (h r) <= n_x (h' r) /\ n_y (h' r) == n_y (h r)
      /\ n_width (h' r) = n_width (h r) /\ n_height (h' r) = n_height (h r)
      /\ n_depth (h' r) = n_depth (h r)
  | HorizontalRight | HorizontalLeft | Tree =>
      n_y (h r) <= n_y (h' r) /\ n_x (h' r) == n_x (h r)
      /\ n_width (h' r) = n_width (h r) /\ n_height (h' r) = n_height (h r)
      /\ n_depth (h' r) = n_depth (h r)
  end.
Proof.
  cbv zeta. destruct layout; [exact I | | | |]; unfold resolveCollisions.
  1, 2, 4:
    destruct (sweepLevels_forward AxisY (groupByDepth false h nodes) h r)
      as ((Hy & Hx) & Hw & Hh & Hd & _); auto.
  destruct (sweepLevels_forward AxisX (groupByDepth false h nodes) h r)
    as ((Hx & Hy) & Hw & Hh & Hd & _); auto.
Qed.

(** ** Sorting *)

Section SortFacts.

Context {A : Type} (key : A -> Q).

Lemma insertBy_perm (a : A) (l : list A) : Permutation (insertBy key a l) (a :: l).
Proof.
  induction l as [|b l IH]; cbn [insertBy]; [reflexivity|].
  destruct (Qgtb (key a) (key b)); [|reflexivity].
  rewrite IH. apply perm_swap.
Qed.

Lemma sortBy_perm (l : list A) : Permutation (sortBy key l) l.
Proof.
  induction l as [|a l IH]; cbn [sortBy fold_right]; [reflexivity|].
  fold (sortBy key l). rewrite insertBy_perm, IH. reflexivity.
Qed.

Lemma insertBy_sorted (a : A) (l : list A) :
  Sorted (keyLe key) l -> Sorted (keyLe key) (insertBy key a l).
Proof.
  induction 1 as [|b l Hs IH Hhd]; cbn [insertBy].
  - repeat constructor.
  - destruct (Qgtb (key a) (key b)) eqn:E.
    + constructor; [exact IH|].
      apply Qgtb_lt in E.
      destruct l as [|c l]; cbn [insertBy].
      * constructor. unfold keyLe. lra.
      * destruct (Qgtb (key a) (key c)).
        -- constructor. inversion Hhd; assumption.
        -- constructor. unfold keyLe. lra.
    + apply Qgtb_le in E. constructor; [constructor; assumption|].
      constructor. exact E.
Qed.

Lemma sortBy_sorted (l : list A) : Sorted (keyLe key) (sortBy key l).
Proof.
  induction l as [|a l IH]; cbn [sortBy fold_right]; [constructor|].
  apply insertBy_sorted, IH.
Qed.

Lemma keyLe_trans : Relations_1.Transitive (keyLe key).
Proof. intros a b c. unfold keyLe. lra. Qed.

Lemma keyLt_trans : Relations_1.Transitive (keyLt key).
Proof. intros a b c. unfold keyLt. lra. Qed.

(** A strictly increasing arrangement is the only sorted one. *)
Lemma strictly_sorted_unique (l1 : list A) :
  StronglySorted (keyLt key) l1 ->
  forall l2, Sorted (keyLe key) l2 -> Permutation l1 l2 -> l1 = l2.
Proof.
  induction 1 as [|a l1 Hs IH Hall]; intros l2 Hs2 Hperm.
  - apply Permutation_nil in Hperm. symmetry. exact Hperm.
  - destruct l2 as [|b l2].
    + symmetry in Hperm. apply Permutation_nil in Hperm. discriminate.
    + apply Sorted_StronglySorted in Hs2; [|exact keyLe_trans].
      inversion Hs2 as [|? ? Hs2' Hall2]; subst.
      assert (Hab : a = b).
      { assert (Ha : In a (b :: l2))
          by (eapply Permutation_in; [exact Hperm | left; reflexivity]).
        assert (Hb : In b (a :: l1))
          by (eapply Permutation_in; [symmetry; exact Hperm | left; reflexivity]).
        destruct Ha as [Ha | Ha]; [congruence|].
        destruct Hb as [Hb | Hb]; [congruence|].
        rewrite List.Forall_forall in Hall, Hall2.
        specialize (Hall b Hb). specialize (Hall2 a Ha).
        unfold keyLt, keyLe in *. lra. }
      subst b. f_equal. apply IH.
      * apply StronglySorted_Sorted. exact Hs2'.
      * eapply Permutation_cons_inv. exact Hperm.
Qed.

End SortFacts.

(** ** The sweep of one depth level keeps its order *)

Lemma refsOf_unfold (r : nat) (i : string) (cs : list LayoutNode) :
  refsOf (LNode r i cs) = r :: flat_map refsOf cs.
Proof.
  unfold refsOf. cbn [collectNodes n_children map n_ref]. f_equal.
  induction cs as [|c cs IH]; [reflexivity|].
  cbn [flat_map]. rewrite map_app, IH. reflexivity.
Qed.

Lemma refsOf_head (n : LayoutNode) : In (n_ref n) (refsOf n).
Proof. destruct n as [r i cs]. rewrite refsOf_unfold. left. reflexivity. Qed.

Lemma refsOf_children (n : LayoutNode) :
  refsOf n = n_ref n :: flat_map refsOf (n_children n).
Proof. destruct n. apply refsOf_unfold. Qed.

Lemma in_refs_of_descendant (cs : list LayoutNode) (m : LayoutNode) :
  In m (flat_map collectNodes cs) -> In (n_ref m) (flat_map refsOf cs).
Proof.
  intros Hm. apply in_flat_map in Hm as (c & Hc & Hm).
  apply in_flat_map. exists c. split; [exact Hc|].
  unfold refsOf. apply in_map. exact Hm.
Qed.

Lemma shiftNode_frame (n : LayoutNode) (dx dy : Q) (h : Heap) (r : nat) :
  r <> n_ref n -> shiftNode n dx dy h r = h r.
Proof.
  intros Hne. unfold shiftNode, writeX, writeY. cbv zeta.
  rewrite !upd_other by exact Hne. reflexivity.
Qed.

Lemma shiftSubtreeXY_frame (dx dy : Q) (r : nat) :
  forall node h,
    ~ In r (flat_map refsOf (n_children node)) ->
    shiftSubtreeXY node dx dy h r = h r.
Proof.
  induction node as [r0 i cs IH] using LayoutNode_nested_ind.
  cbn [shiftSubtreeXY n_children].
  induction IH as [|c cs Hc _ IHcs]; intros h Hnin; cbn [fold_left]; [reflexivity|].
  cbn [flat_map] in Hnin. rewrite in_app_iff in Hnin.
  rewrite IHcs by tauto.
  destruct c as [rc ic ccs]. rewrite refsOf_unfold in Hnin. cbn [In] in Hnin.
  rewrite Hc by (cbn [n_children]; tauto).
  apply shiftNode_frame. cbn [n_ref]. intros ->. tauto.
Qed.

Lemma pushForward_frame (ax : Axis) (curr : LayoutNode) (o : Q) (h : Heap) (r : nat) :
  ~ In r (refsOf curr) -> pushForward ax curr o h r = h r.
Proof.
  destruct curr as [rc ic cs]. rewrite refsOf_unfold. cbn [In]. intros Hnin.
  unfold pushForward, writeX, writeY.
  destruct ax; (rewrite shiftSubtreeXY_frame by (cbn [n_children]; tauto));
    apply upd_other; cbn [n_ref]; intros ->; tauto.
Qed.

Lemma pushForward_self (ax : Axis) (curr : LayoutNode) (o : Q) (h : Heap) :
  NoDup (refsOf curr) ->
  coord ax (pushForward ax curr o h) curr = coord ax h curr + o.
Proof.
  destruct curr as [rc ic cs]. rewrite refsOf_unfold. intros Hnd.
  apply NoDup_cons in Hnd as [Hnin _]. rewrite list_elem_of_In in Hnin.
  unfold pushForward, coord, nodeX, nodeY, writeX, writeY.
  destruct ax; (rewrite shiftSubtreeXY_frame by exact Hnin);
    rewrite upd_same; reflexivity.
Qed.

Lemma extent_forward (ax ax' : Axis) (h h' : Heap) (n : LayoutNode) :
  heapForward ax' h h' -> extent ax h' n = extent ax h n.
Proof.
  intros Hf. destruct (Hf (n_ref n)) as (_ & Hw & Hh & _).
  unfold extent, nodeW, nodeH. destruct ax; assumption.
Qed.

Lemma NoDup_flat_map_cons (n : LayoutNode) (l : list LayoutNode) :
  NoDup (flat_map refsOf (n :: l)) ->
  NoDup (refsOf n) /\ NoDup (flat_map refsOf l)
  /\ (forall r, In r (refsOf n) -> ~ In r (flat_map refsOf l)).
Proof.
  cbn [flat_map]. intros Hnd. apply NoDup_app in Hnd as (H1 & H2 & H3).
  repeat split; try assumption.
  intros r Hr Hr'. apply (H2 r); apply list_elem_of_In; assumption.
Qed.

Lemma NoDup_flat_map_app (l1 l2 : list LayoutNode) :
  NoDup (flat_map refsOf (l1 ++ l2)) ->
  NoDup (flat_map refsOf l1) /\ NoDup (flat_map refsOf l2)
  /\ (forall r, In r (flat_map refsOf l1) -> ~ In r (flat_map refsOf l2)).
Proof.
  rewrite flat_map_app. intros Hnd. apply NoDup_app in Hnd as (H1 & H2 & H3).
  repeat split; try assumption.
  intros r Hr Hr'. apply (H2 r); apply list_elem_of_In; assumption.
Qed.

Lemma in_refs_of_member (l : list LayoutNode) (c : LayoutNode) :
  In c l -> In (n_ref c) (flat_map refsOf l).
Proof.
  intros Hc. apply in_flat_map. exists c. split; [exact Hc | apply refsOf_head].
Qed.

Lemma sweepFrom_sorts (ax : Axis) (rest : list LayoutNode) :
  forall prev h,
    NoDup (flat_map refsOf (prev :: rest)) ->
    (forall n, In n (prev :: rest) -> 0 <= extent ax h n) ->
    (forall r, ~ In r (flat_map refsOf rest) -> sweepFrom ax prev rest h r = h r)
    /\ Sorted (keyLt (coord ax (sweepFrom ax prev rest h))) (prev :: rest).
Proof.
  induction rest as [|curr rest IH]; intros prev h Hnd Hext; cbn [sweepFrom].
  - split; [reflexivity | repeat constructor].
  - set (overlap := coord ax h prev + extent ax h prev + collisionPadding
                    - coord ax h curr).
    set (h1 := if Qgtb overlap 0 then pushForward ax curr overlap h else h).
    destruct (NoDup_flat_map_cons _ _ Hnd) as (Hprev & Hnd' & Hdisj).
    destruct (NoDup_flat_map_cons _ _ Hnd') as (Hcurr & Hnd'' & Hdisj').
    assert (Hfw : heapForward ax h h1).
    { unfold h1. destruct (Qgtb overlap 0) eqn:E.
      - apply pushForward_forward. apply Qgtb_lt in E. lra.
      - apply heapForward_refl. }
    assert (Hfr1 : forall r, ~ In r (refsOf curr) -> h1 r = h r).
    { intros r Hr. unfold h1. destruct (Qgtb overlap 0); [|reflexivity].
      apply pushForward_frame, Hr. }
    assert (Hgap : coord ax h1 prev + extent ax h prev + collisionPadding
                   <= coord ax h1 curr).
    { assert (Hp : coord ax h1 prev = coord ax h prev).
      { unfold coord, nodeX, nodeY. rewrite Hfr1; [reflexivity|].
        intros Hin. apply (Hdisj (n_ref prev)); [apply refsOf_head|].
        cbn [flat_map]. apply in_or_app. left. exact Hin. }
      rewrite Hp. unfold h1. destruct (Qgtb overlap 0) eqn:E.
      - rewrite pushForward_self by exact Hcurr. unfold overlap. lra.
      - apply Qgtb_le in E. unfold overlap in E. lra. }
    destruct (IH curr h1 Hnd') as [Hfr Hsorted].
    { intros n Hn. rewrite (extent_forward ax ax h h1 n Hfw).
      apply Hext. right. exact Hn. }
    split.
    + intros r Hr. cbn [flat_map] in Hr. rewrite in_app_iff in Hr.
      rewrite Hfr by tauto. apply Hfr1. tauto.
    + constructor; [exact Hsorted|]. constructor. unfold keyLt.
      assert (Hp' : coord ax (sweepFrom ax curr rest h1) prev = coord ax h1 prev).
      { unfold coord, nodeX, nodeY. rewrite Hfr; [reflexivity|].
        intros Hin. apply (Hdisj (n_ref prev)); [apply refsOf_head|].
        cbn [flat_map]. apply in_or_app. right. exact Hin. }
      assert (Hc' : coord ax (sweepFrom ax curr rest h1) curr = coord ax h1 curr).
      { unfold coord, nodeX, nodeY. rewrite Hfr; [reflexivity|].
        intros Hin. apply (Hdisj' (n_ref curr)); [apply refsOf_head | exact Hin]. }
      rewrite Hp', Hc'.
      assert (0 <= extent ax h prev) by (apply Hext; left; reflexivity).
      unfold collisionPadding in Hgap. lra.
Qed.

(** The sweep of one depth level leaves the level in the order in which it
    was sorted when the sweep began, provided the level's nodes are distinct
    objects with disjoint subtrees and their extent along the axis is not
    negative. *)
Lemma sweepLevel_keeps_sorted_order
    (ax : Axis) (depthNodes : list LayoutNode) (h : Heap) :
  NoDup (flat_map refsOf depthNodes) ->
  (forall n, In n depthNodes -> 0 <= extent ax h n) ->
  sortBy (coord ax (sweepLevel ax depthNodes h)) depthNodes
  = sortBy (coord ax h) depthNodes.
Proof.
  intros Hnd Hext. unfold sweepLevel.
  pose proof (sortBy_perm (coord ax h) depthNodes) as Hperm.
  destruct (sortBy (coord ax h) depthNodes) as [|first rest] eqn:Es.
  - apply Permutation_nil in Hperm. subst depthNodes. reflexivity.
  - destruct (sweepFrom_sorts ax rest first h) as [_ Hsorted].
    + rewrite (Permutation_flat_map refsOf Hperm). exact Hnd.
    + intros n Hn. apply Hext. eapply Permutation_in; [exact Hperm | exact Hn].
    + symmetry. apply (strictly_sorted_unique (coord ax (sweepFrom ax first rest h))).
      * apply Sorted_StronglySorted; [apply keyLt_trans | exact Hsorted].
      * apply sortBy_sorted.
      * rewrite sortBy_perm. exact Hperm.
Qed.

(** ** Depth levels of a tree *)

Lemma groupPush_keys (d : nat) (n : LayoutNode) (m : list (nat * list LayoutNode)) :
  (In d (map fst m) -> map fst (groupPush d n m) = map fst m)
  /\ (~ In d (map fst m) -> map fst (groupPush d n m) = map fst m ++ [d]).
Proof.
  induction m as [|[d' arr] m [IH1 IH2]]; cbn [groupPush map fst].
  - split; [intros [] | reflexivity].
  - destruct (Nat.eqb d' d) eqn:E; cbn [map fst In app].
    + apply Nat.eqb_eq in E. split; [reflexivity | intros Hn; tauto].
    + apply Nat.eqb_neq in E. split.
      * intros [? | Hin]; [contradiction|]. rewrite IH1 by exact Hin. reflexivity.
      * intros Hn. rewrite IH2 by tauto. reflexivity.
Qed.

Lemma groupOf_push (d d' : nat) (n : LayoutNode) (m : list (nat * list LayoutNode)) :
  groupOf d (groupPush d' n m)
  = if Nat.eqb d' d then groupOf d m ++ [n] else groupOf d m.
Proof.
  induction m as [|[d2 arr] m IH]; cbn [groupPush groupOf].
  - destruct (Nat.eqb d' d); reflexivity.
  - destruct (Nat.eqb d2 d') eqn:E2; cbn [groupOf].
    + apply Nat.eqb_eq in E2. subst d2. destruct (Nat.eqb d' d); reflexivity.
    + rewrite IH. destruct (Nat.eqb d2 d) eqn:E; [|reflexivity].
      apply Nat.eqb_eq in E. subst d2. rewrite Nat.eqb_sym, E2. reflexivity.
Qed.

Lemma groupOf_fold (h : Heap) (d : nat) (l : list LayoutNode) :
  forall m,
    groupOf d (fold_left (fun m n => groupPush (nodeD h n) n m) l m)
    = groupOf d m ++ List.filter (fun n => Nat.eqb (nodeD h n) d) l.
Proof.
  induction l as [|a l IH]; intros m; cbn [fold_left List.filter].
  - rewrite app_nil_r. reflexivity.
  - rewrite IH, groupOf_push.
    destruct (Nat.eqb (nodeD h a) d); [rewrite <- app_assoc|]; reflexivity.
Qed.

Lemma groupByDepth_all (h : Heap) (l : list LayoutNode) :
  groupByDepth false h l = fold_left (fun m n => groupPush (nodeD h n) n m) l [].
Proof. reflexivity. Qed.

Lemma groupOf_member (m : list (nat * list LayoutNode)) (d : nat) (arr : list LayoutNode) :
  NoDup (map fst m) -> In (d, arr) m -> groupOf d m = arr.
Proof.
  induction m as [|[d' arr'] m IH]; intros Hnd Hin; [destruct Hin|].
  cbn [map fst] in Hnd. apply NoDup_cons in Hnd as [Hd' Hnd]. cbn [groupOf].
  destruct Hin as [Heq | Hin].
  - inversion Heq; subst. rewrite Nat.eqb_refl. reflexivity.
  - destruct (Nat.eqb d' d) eqn:E; [|apply IH; assumption].
    apply Nat.eqb_eq in E. subst d'. exfalso. apply Hd'.
    apply list_elem_of_In. change d with (fst (d, arr)). apply in_map, Hin.
Qed.

Lemma depth_of_descendant (h : Heap) (root : LayoutNode) :
  depthsOK h root ->
  forall n, In n (collectNodes root) ->
    forall x, In x (collectNodes n) ->
      x = n \/ (nodeD h n < nodeD h x)%nat.
Proof.
  intros Hok. induction n as [r i cs IH] using LayoutNode_nested_ind.
  intros Hn x Hx. rewrite collectNodes_unfold in Hx. destruct Hx as [<- | Hx]; [left; reflexivity|].
  right. cbn [n_children] in Hx. apply in_flat_map in Hx as (c & Hc & Hx).
  pose proof (Hok _ Hn c Hc) as Hdc.
  rewrite List.Forall_forall in IH.
  assert (Hcr : In c (collectNodes root)).
  { eapply collectNodes_trans; [exact Hn|].
    eapply (collectNodes_child (LNode r i cs)); [exact Hc | apply collectNodes_self]. }
  destruct (IH c Hc Hcr x Hx) as [-> | Hlt]; lia.
Qed.

(** In pre-order, the depths of a tree are first met in increasing order:
    the keys of [byDepth] are consecutive numbers. *)
Lemma group_keys_subtree (h : Heap) (root : LayoutNode) (d0 : nat) :
  depthsOK h root ->
  forall t, In t (collectNodes root) ->
    forall m k,
      map fst m = seq d0 k ->
      (d0 <= nodeD h t <= d0 + k)%nat ->
      exists k',
        (k <= k')%nat /\ (nodeD h t < d0 + k')%nat
        /\ map fst (fold_left (fun m n => groupPush (nodeD h n) n m) (collectNodes t) m)
           = seq d0 k'.
Proof.
  intros Hok. induction t as [r i cs IH] using LayoutNode_nested_ind.
  intros Ht m k Hkeys Hrange.
  rewrite collectNodes_unfold. cbn [fold_left n_children].
  set (e := nodeD h (LNode r i cs)) in *.
  set (m1 := groupPush e (LNode r i cs) m).
  assert (H1 : exists k1, (k <= k1)%nat /\ (e < d0 + k1)%nat /\ map fst m1 = seq d0 k1).
  { destruct (groupPush_keys e (LNode r i cs) m) as [Hin Hout].
    destruct (Nat.eq_dec e (d0 + k)%nat) as [Heq | Hne].
    - exists (S k). split; [lia|]. split; [lia|].
      unfold m1. rewrite Hout.
      + rewrite Hkeys, seq_S, Heq. reflexivity.
      + rewrite Hkeys, in_seq. lia.
    - exists k. split; [lia|]. split; [lia|].
      unfold m1. rewrite Hin; [exact Hkeys|]. rewrite Hkeys, in_seq. lia. }
  destruct H1 as (k1 & Hk1 & He1 & Hkeys1).
  assert (Hcs : forall c, In c cs -> In c (collectNodes root) /\ nodeD h c = S e).
  { intros c Hc. split.
    - eapply collectNodes_trans; [exact Ht|].
      eapply collectNodes_child; [exact Hc | apply collectNodes_self].
    - apply (Hok _ Ht c Hc). }
  assert (Hd0 : (d0 <= e)%nat) by lia.
  clearbody m1 e. clear Hkeys Hrange m Ht.
  revert m1 k1 Hk1 He1 Hkeys1.
  induction IH as [|c cs Hc _ IHcs]; intros m1 k1 Hk1 He1 Hkeys1.
  - exists k1. cbn. auto.
  - cbn [flat_map]. rewrite fold_left_app.
    destruct (Hcs c ltac:(left; reflexivity)) as [Hcroot Hdc].
    destruct (Hc Hcroot m1 k1 Hkeys1 ltac:(lia)) as (k2 & Hk2 & He2 & Hkeys2).
    destruct (IHcs (fun c' Hc' => Hcs c' (or_intror Hc')) _ k2 ltac:(lia) ltac:(lia) Hkeys2)
      as (k3 & Hk3 & He3 & Hkeys3).
    exists k3. split; [lia|]. split; [lia | exact Hkeys3].
Qed.

Lemma groupByDepth_keys (h : Heap) (root : LayoutNode) :
  depthsOK h root ->
  exists len,
    map fst (groupByDepth false h (collectNodes root)) = seq (nodeD h root) len.
Proof.
  intros Hok. rewrite groupByDepth_all.
  destruct (group_keys_subtree h root (nodeD h root) Hok root
              (collectNodes_self root) [] 0%nat eq_refl ltac:(lia))
    as (k' & _ & _ & Hkeys).
  exists k'. exact Hkeys.
Qed.

Lemma filter_none {A : Type} (f : A -> bool) (l : list A) :
  (forall x, In x l -> f x = false) -> List.filter f l = [].
Proof.
  induction l as [|a l IH]; intros Hall; [reflexivity|].
  cbn [List.filter]. rewrite (Hall a (or_introl eq_refl)).
  apply IH. intros x Hx. apply Hall. right. exact Hx.
Qed.

Lemma filter_flat_map {A B : Type} (f : B -> bool) (g : A -> list B) (l : list A) :
  List.filter f (flat_map g l) = flat_map (fun a => List.filter f (g a)) l.
Proof.
  induction l as [|a l IH]; [reflexivity|].
  cbn [flat_map]. rewrite List.filter_app, IH. reflexivity.
Qed.

Lemma flat_map_flat_map {A B C : Type} (f : B -> list C) (g : A -> list B) (l : list A) :
  flat_map f (flat_map g l) = flat_map (fun a => flat_map f (g a)) l.
Proof.
  induction l as [|a l IH]; [reflexivity|].
  cbn [flat_map]. rewrite flat_map_app, IH. reflexivity.
Qed.

Lemma NoDup_flat_map_sub {A : Type} (f g : A -> list nat) (l : list A) :
  NoDup (flat_map f l) ->
  (forall a, In a l -> NoDup (g a) /\ (forall r, In r (g a) -> In r (f a))) ->
  NoDup (flat_map g l) /\ (forall r, In r (flat_map g l) -> In r (flat_map f l)).
Proof.
  induction l as [|a l IH]; intros Hnd Hsub; cbn [flat_map].
  - split; [constructor | intros r []].
  - cbn [flat_map] in Hnd. apply NoDup_app in Hnd as (Hfa & Hdisj & Hfl).
    destruct (Hsub a (or_introl eq_refl)) as [Hga Hin].
    destruct (IH Hfl (fun a' Ha' => Hsub a' (or_intror Ha'))) as [Hgl Hinl].
    split.
    + apply NoDup_app. split; [exact Hga|]. split; [|exact Hgl].
      intros r Hr Hr'. rewrite list_elem_of_In in Hr, Hr'.
      apply (Hdisj r); apply list_elem_of_In; auto.
    + intros r Hr. rewrite in_app_iff in *. destruct Hr; auto.
Qed.

(** The nodes of one depth are distinct objects with disjoint subtrees. *)
Lemma level_subtrees_disjoint (h : Heap) (root : LayoutNode) (d : nat) :
  depthsOK h root ->
  forall t, In t (collectNodes root) ->
    NoDup (refsOf t) ->
    let level := List.filter (fun n => Nat.eqb (nodeD h n) d) (collectNodes t) in
    NoDup (flat_map refsOf level)
    /\ (forall r, In r (flat_map refsOf level) -> In r (refsOf t)).
Proof.
  intros Hok. induction t as [r i cs IH] using LayoutNode_nested_ind.
  intros Ht Hnd. cbv zeta.
  rewrite collectNodes_unfold. cbn [List.filter n_children].
  pose proof Hnd as Hnd'. rewrite refsOf_unfold in Hnd'.
  apply NoDup_cons in Hnd' as [Hself Hndcs]. rewrite list_elem_of_In in Hself.
  destruct (Nat.eqb (nodeD h (LNode r i cs)) d) eqn:E.
  - apply Nat.eqb_eq in E.
    rewrite filter_none.
    + cbn [flat_map]. rewrite app_nil_r. split; [exact Hnd | auto].
    + intros x Hx.
      destruct (depth_of_descendant h root Hok _ Ht x) as [-> | Hlt].
      * rewrite collectNodes_unfold. right. exact Hx.
      * exfalso. apply Hself. apply (in_refs_of_descendant cs _ Hx).
      * apply Nat.eqb_neq. lia.
  - rewrite filter_flat_map, flat_map_flat_map.
    destruct (NoDup_flat_map_sub refsOf
                (fun c => flat_map refsOf
                   (List.filter (fun n => Nat.eqb (nodeD h n) d) (collectNodes c)))
                cs Hndcs) as [H1 H2].
    + intros c Hc. rewrite List.Forall_forall in IH. apply (IH c Hc).
      * eapply collectNodes_trans; [exact Ht|].
        eapply (collectNodes_child (LNode r i cs)); [exact Hc | apply collectNodes_self].
      * apply (NoDup_flat_map_cons c []).
        apply in_split in Hc as (l1 & l2 & ->).
        apply NoDup_flat_map_app in Hndcs as (_ & Hc2 & _).
        apply (NoDup_flat_map_app [c] l2) in Hc2 as (Hc2 & _ & _). exact Hc2.
    + split; [exact H1|]. intros r0 Hr0. rewrite refsOf_unfold. right. apply H2, Hr0.
Qed.

Lemma sweepFrom_frame (ax : Axis) (rest : list LayoutNode) :
  forall prev h r,
    ~ In r (flat_map refsOf rest) -> sweepFrom ax prev rest h r = h r.
Proof.
  induction rest as [|curr rest IH]; intros prev h r Hr; cbn [sweepFrom]; [reflexivity|].
  cbn [flat_map] in Hr. rewrite in_app_iff in Hr.
  rewrite IH by tauto.
  match goal with |- context [Qgtb ?o 0] => destruct (Qgtb o 0) end; [|reflexivity].
  apply pushForward_frame. tauto.
Qed.

Lemma sweepLevel_frame (ax : Axis) (depthNodes : list LayoutNode) (h : Heap) (r : nat) :
  ~ In r (flat_map refsOf depthNodes) -> sweepLevel ax depthNodes h r = h r.
Proof.
  intros Hr. unfold sweepLevel.
  pose proof (sortBy_perm (coord ax h) depthNodes) as Hperm.
  destruct (sortBy (coord ax h) depthNodes) as [|first rest]; [reflexivity|].
  apply sweepFrom_frame. intros Hin. apply Hr.
  eapply Permutation_in; [apply (Permutation_flat_map refsOf Hperm)|].
  cbn [flat_map]. apply in_or_app. right. exact Hin.
Qed.

Lemma sweepLevels_frame (ax : Axis) (groups : list (nat * list LayoutNode)) (r : nat) :
  (forall grp, In grp groups -> ~ In r (flat_map refsOf (snd grp))) ->
  forall h, fold_left (fun h grp => sweepLevel ax (snd grp) h) groups h r = h r.
Proof.
  induction groups as [|g groups IH]; intros Hall h; cbn [fold_left]; [reflexivity|].
  rewrite IH by (intros grp Hg; apply Hall; right; exact Hg).
  apply sweepLevel_frame, Hall. left. reflexivity.
Qed.

Lemma insertBy_ext {A : Type} (key key' : A -> Q) (a : A) (l : list A) :
  key a = key' a -> (forall b, In b l -> key b = key' b) ->
  insertBy key a l = insertBy key' a l.
Proof.
  intros Ha. induction l as [|b l IH]; intros Hl; [reflexivity|].
  cbn [insertBy]. rewrite Ha, (Hl b (or_introl eq_refl)).
  rewrite IH by (intros c Hc; apply Hl; right; exact Hc). reflexivity.
Qed.

Lemma sortBy_ext {A : Type} (key key' : A -> Q) (l : list A) :
  (forall a, In a l -> key a = key' a) -> sortBy key l = sortBy key' l.
Proof.
  induction l as [|a l IH]; intros Hl; [reflexivity|].
  cbn [sortBy fold_right]. fold (sortBy key l) (sortBy key' l).
  rewrite IH by (intros b Hb; apply Hl; right; exact Hb).
  apply insertBy_ext.
  - apply Hl. left. reflexivity.
  - intros b Hb. apply Hl. right.
    eapply Permutation_in; [apply sortBy_perm | exact Hb].
Qed.

Lemma same_ref_same_node (l : list LayoutNode) (a b : LayoutNode) :
  NoDup (map n_ref l) -> In a l -> In b l -> n_ref a = n_ref b -> a = b.
Proof.
  induction l as [|c l IH]; intros Hnd Ha Hb Heq; [destruct Ha|].
  cbn [map] in Hnd. apply NoDup_cons in Hnd as [Hc Hnd].
  destruct Ha as [<- | Ha], Hb as [<- | Hb]; try reflexivity.
  - exfalso. apply Hc. rewrite Heq. apply list_elem_of_In, in_map, Hb.
  - exfalso. apply Hc. rewrite <- Heq. apply list_elem_of_In, in_map, Ha.
  - apply IH; assumption.
Qed.

Lemma resolveCollisions_sweeps (cos sin : Q -> Q) (nodes : list LayoutNode)
    (layout : LayoutType) (h : Heap) :
  layout <> Radial ->
  resolveCollisions cos sin nodes layout h
  = fold_left (fun h grp => sweepLevel (packingAxis layout) (snd grp) h)
      (groupByDepth false h nodes) h.
Proof. destruct layout; [contradiction | reflexivity ..]. Qed.

Lemma root_level_alone (h : Heap) (root : LayoutNode) :
  depthsOK h root -> NoDup (refsOf root) ->
  List.filter (fun n => Nat.eqb (nodeD h n) (nodeD h root)) (collectNodes root) = [root].
Proof.
  intros Hok Hnd. rewrite collectNodes_unfold. cbn [List.filter].
  rewrite Nat.eqb_refl. f_equal. apply filter_none. intros x Hx.
  rewrite refsOf_children in Hnd. apply NoDup_cons in Hnd as [Hself _].
  rewrite list_elem_of_In in Hself.
  destruct (depth_of_descendant h root Hok root (collectNodes_self root) x) as [-> | Hlt].
  - rewrite collectNodes_unfold. right. exact Hx.
  - exfalso. apply Hself, (in_refs_of_descendant _ _ Hx).
  - apply Nat.eqb_neq. lia.
Qed.

(** C2 (as amended).  For a tree of distinct node objects whose depth
    fields follow the tree and whose extents along the packing axis are not
    negative, under any non-radial paradigm: every entry of [byDepth] holds
    the nodes of one depth, and the order of these nodes sorted by the
    packing-axis coordinate is the same after collision resolution as it
    was when the sweep of that level began, that is after the sweeps of the
    shallower levels; for the root level and the level below it this is the
    order before collision resolution. *)
Theorem resolveCollisions_keeps_each_level_in_its_swept_order
    (cos sin : Q -> Q) (layout : LayoutType) (root : LayoutNode) (h : Heap) :
  layout <> Radial ->
  NoDup (refsOf root) ->
  depthsOK h root ->
  (forall n, In n (collectNodes root) -> 0 <= extent (packingAxis layout) h n) ->
  let ax := packingAxis layout in
  let nodes := collectNodes root in
  let groups := groupByDepth false h nodes in
  let final := resolveCollisions cos sin nodes layout h in
  (forall k d level,
      groups !! k = Some (d, level) ->
      level = List.filter (fun n => Nat.eqb (nodeD h n) d) nodes
      /\ sortBy (coord ax final) level
         = sortBy (coord ax (sweptLevels ax groups k h)) level)
  /\ (forall k d level,
        (k <= 1)%nat ->
        groups !! k = Some (d, level) ->
        sortBy (coord ax final) level = sortBy (coord ax h) level).
Proof.
  intros Hlayout Hnd Hok Hext. cbv zeta.
  set (ax := packingAxis layout).
  set (nodes := collectNodes root).
  set (groups := groupByDepth false h nodes).
  rewrite (resolveCollisions_sweeps cos sin nodes layout h Hlayout).
  fold ax groups.
  destruct (groupByDepth_keys h root Hok) as (len & Hkeys). fold nodes groups in Hkeys.
  assert (Hkeys_nd : NoDup (map fst groups)) by (rewrite Hkeys; apply NoDup_seq).
  assert (Hcontent : forall k d level, groups !! k = Some (d, level) ->
            level = List.filter (fun n => Nat.eqb (nodeD h n) d) nodes
            /\ d = (nodeD h root + k)%nat).
  { intros k d level Hk. split.
    - rewrite <- (groupOf_member groups d level Hkeys_nd).
      + unfold groups. rewrite groupByDepth_all, groupOf_fold. reflexivity.
      + apply list_elem_of_In. eapply list_elem_of_lookup_2. exact Hk.
    - assert (Hd : map fst groups !! k = Some d)
        by (rewrite list_lookup_fmap, Hk; reflexivity).
      rewrite Hkeys in Hd. apply lookup_seq in Hd as [Hd _]. lia. }
  assert (Hmain : forall k d level, groups !! k = Some (d, level) ->
            sortBy (coord ax
                      (fold_left (fun h grp => sweepLevel ax (snd grp) h) groups h))
              level
            = sortBy (coord ax (sweptLevels ax groups k h)) level).
  { intros k d level Hk.
    destruct (Hcontent k d level Hk) as [Hlevel Hd].
    assert (Hsub : forall n, In n level -> In n nodes /\ nodeD h n = d).
    { intros n Hn. rewrite Hlevel in Hn. apply List.filter_In in Hn as [Hn Hdn].
      apply Nat.eqb_eq in Hdn. auto. }
    rewrite <- (take_drop_middle groups k (d, level) Hk) at 1.
    rewrite fold_left_app. cbn [fold_left snd].
    fold (sweptLevels ax groups k h).
    set (before := sweptLevels ax groups k h).
    assert (Hfw : heapForward ax h before) by apply sweepLevels_forward.
    rewrite <- (sweepLevel_keeps_sorted_order ax level before).
    - apply sortBy_ext. intros n Hn.
      destruct (Hsub n Hn) as [Hnn Hdn].
      unfold coord, nodeX, nodeY.
      rewrite sweepLevels_frame; [reflexivity|].
      intros [d' level'] Hg Hin. cbn [snd] in Hin.
      apply list_elem_of_In, list_elem_of_lookup_1 in Hg as (j & Hj).
      rewrite lookup_drop in Hj.
      destruct (Hcontent _ _ _ Hj) as [Hlevel' Hd'].
      apply in_flat_map in Hin as (m & Hm & Hin).
      rewrite Hlevel' in Hm. apply List.filter_In in Hm as [Hm Hdm].
      apply Nat.eqb_eq in Hdm.
      unfold refsOf in Hin. apply in_map_iff in Hin as (x & Hrx & Hx).
      assert (Hxn : x = n).
      { apply (same_ref_same_node nodes); try assumption.
        eapply collectNodes_trans; [exact Hm | exact Hx]. }
      subst x.
      destruct (depth_of_descendant h root Hok m Hm n Hx) as [-> | Hlt]; lia.
    - rewrite Hlevel.
      apply (level_subtrees_disjoint h root d Hok root (collectNodes_self root) Hnd).
    - intros n Hn. rewrite (extent_forward ax ax h before n Hfw).
      apply Hext, Hsub, Hn. }
  split.
  - intros k d level Hk. split; [apply (Hcontent k d level Hk) | apply (Hmain k d level Hk)].
  - intros k d level Hk1 Hk. rewrite (Hmain k d level Hk).
    apply sortBy_ext. intros n _. f_equal.
    unfold sweptLevels.
    destruct k as [|[|k]]; [reflexivity | | lia].
    destruct (groups !! 0%nat) as [[d0 level0]|] eqn:E0.
    + rewrite (take_S_r groups 0 (d0, level0) E0). cbn [take app fold_left snd].
      destruct (Hcontent 0%nat d0 level0 E0) as [Hl0 Hd0].
      rewrite Nat.add_0_r in Hd0. subst d0.
      unfold nodes in Hl0. rewrite (root_level_alone h root Hok Hnd) in Hl0.
      subst level0. reflexivity.
    + apply lookup_ge_None in E0. destruct groups; [reflexivity | cbn in E0; lia].
Qed.

(** ** Balanced tree: where the two groups are placed *)

Lemma sameShape_refl (h : Heap) : sameShape h h.
Proof. intros r. auto. Qed.

Lemma sameShape_trans (h1 h2 h3 : Heap) :
  sameShape h1 h2 -> sameShape h2 h3 -> sameShape h1 h3.
Proof.
  intros H12 H23 r. destruct (H12 r) as (? & ? & ?), (H23 r) as (? & ? & ?).
  repeat split; congruence.
Qed.

Lemma writeX_shape (n : LayoutNode) (v : Q) (h : Heap) : sameShape h (writeX n v h).
Proof.
  intros r. unfold writeX. destruct (Nat.eq_dec r (n_ref n)) as [-> | Hne].
  - rewrite upd_same. cbn. auto.
  - rewrite upd_other by exact Hne. auto.
Qed.

Lemma writeY_shape (n : LayoutNode) (v : Q) (h : Heap) : sameShape h (writeY n v h).
Proof.
  intros r. unfold writeY. destruct (Nat.eq_dec r (n_ref n)) as [-> | Hne].
  - rewrite upd_same. cbn. auto.
  - rewrite upd_other by exact Hne. auto.
Qed.

Lemma sumOver_ext {A : Type} (f g : A -> Q) (l : list A) :
  Forall (fun a => f a = g a) l -> sumOver f l = sumOver g l.
Proof.
  intros HF. unfold sumOver. generalize 0.
  induction HF as [|a l Ha _ IH]; intros acc.
  - reflexivity.
  - cbn [fold_left]. rewrite Ha. apply IH.
Qed.

Lemma subtreeHeight_shape (vSpacing : Q) (h h' : Heap) :
  sameShape h h' ->
  forall node, subtreeHeight vSpacing h' node = subtreeHeight vSpacing h node.
Proof.
  intros Hs. induction node as [r i cs IH] using LayoutNode_nested_ind.
  assert (Hh : nodeH h' (LNode r i cs) = nodeH h (LNode r i cs)).
  { unfold nodeH. apply (Hs r). }
  destruct cs as [|c cs]; cbn [subtreeHeight]; rewrite Hh; [reflexivity|].
  f_equal. apply sumOver_ext. exact IH.
Qed.

Section PlacementFacts.

Variables (hSpacing vSpacing : Q).

Lemma assignRight_eq (node : LayoutNode) (x yStart : Q) (h : Heap) :
  assignRight hSpacing vSpacing node x yStart h
  = let h1 := writeX node x h in
    let totalH := subtreeHeight vSpacing h1 node in
    let h2 := writeY node (yStart + totalH / 2 - nodeH h1 node / 2) h1 in
    assignRightLoop hSpacing vSpacing x (n_children node) yStart h2.
Proof. destruct node; reflexivity. Qed.

Lemma assignLeft_eq (node : LayoutNode) (x yStart : Q) (h : Heap) :
  assignLeft hSpacing vSpacing node x yStart h
  = let h1 := writeX node (x - nodeW h node) h in
    let totalH := subtreeHeight vSpacing h1 node in
    let h2 := writeY node (yStart + totalH / 2 - nodeH h1 node / 2) h1 in
    assignLeftLoop hSpacing vSpacing x (n_children node) yStart h2.
Proof. destruct node; reflexivity. Qed.

Lemma writes_frame (n : LayoutNode) (vx vy : Q) (h : Heap) (r : nat) :
  r <> n_ref n -> writeY n vy (writeX n vx h) r = h r.
Proof.
  intros Hne. unfold writeX, writeY. rewrite !upd_other by exact Hne. reflexivity.
Qed.

Lemma assignRight_places : placesSubtree (assignRight hSpacing vSpacing).
Proof.
  intros node. induction node as [r i cs IH] using LayoutNode_nested_ind.
  intros x y h. rewrite assignRight_eq. cbv zeta. cbn [n_children].
  set (h2 := writeY _ _ (writeX _ _ h)).
  assert (Hs2 : sameShape h h2).
  { eapply sameShape_trans; [apply writeX_shape | apply writeY_shape]. }
  assert (Hf2 : forall r', r' <> r -> h2 r' = h r').
  { intros r' Hr'. apply writes_frame. exact Hr'. }
  rewrite refsOf_unfold.
  assert (Hloop : forall childY h0,
    sameShape h0 (assignRightLoop hSpacing vSpacing x cs childY h0)
    /\ forall r', ~ In r' (flat_map refsOf cs) ->
         assignRightLoop hSpacing vSpacing x cs childY h0 r' = h0 r').
  { clear h2 Hs2 Hf2. induction IH as [|c cs Hc _ IHcs]; intros childY h0.
    - split; [apply sameShape_refl | reflexivity].
    - cbn [assignRightLoop flat_map].
      destruct (Hc (x + hSpacing) childY h0) as [Hsc Hfc].
      destruct (IHcs (childY + subtreeHeight vSpacing h0 c)
                  (assignRight hSpacing vSpacing c (x + hSpacing) childY h0))
        as [Hsl Hfl].
      split; [eapply sameShape_trans; eauto|].
      intros r' Hr'. rewrite in_app_iff in Hr'.
      rewrite Hfl by tauto. apply Hfc. tauto. }
  destruct (Hloop y h2) as [Hsl Hfl].
  split; [eapply sameShape_trans; eauto|].
  intros r' Hr'. cbn [In] in Hr'. rewrite Hfl by tauto. apply Hf2. intros ->. tauto.
Qed.

Lemma assignLeft_places : placesSubtree (assignLeft hSpacing vSpacing).
Proof.
  intros node. induction node as [r i cs IH] using LayoutNode_nested_ind.
  intros x y h. rewrite assignLeft_eq. cbv zeta. cbn [n_children].
  set (h2 := writeY _ _ (writeX _ _ h)).
  assert (Hs2 : sameShape h h2).
  { eapply sameShape_trans; [apply writeX_shape | apply writeY_shape]. }
  assert (Hf2 : forall r', r' <> r -> h2 r' = h r').
  { intros r' Hr'. apply writes_frame. exact Hr'. }
  rewrite refsOf_unfold.
  assert (Hloop : forall childY h0,
    sameShape h0 (assignLeftLoop hSpacing vSpacing x cs childY h0)
    /\ forall r', ~ In r' (flat_map refsOf cs) ->
         assignLeftLoop hSpacing vSpacing x cs childY h0 r' = h0 r').
  { clear h2 Hs2 Hf2. induction IH as [|c cs Hc _ IHcs]; intros childY h0.
    - split; [apply sameShape_refl | reflexivity].
    - cbn [assignLeftLoop flat_map].
      destruct (Hc (x - hSpacing) childY h0) as [Hsc Hfc].
      destruct (IHcs (childY + subtreeHeight vSpacing h0 c)
                  (assignLeft hSpacing vSpacing c (x - hSpacing) childY h0))
        as [Hsl Hfl].
      split; [eapply sameShape_trans; eauto|].
      intros r' Hr'. rewrite in_app_iff in Hr'.
      rewrite Hfl by tauto. apply Hfc. tauto. }
  destruct (Hloop y h2) as [Hsl Hfl].
  split; [eapply sameShape_trans; eauto|].
  intros r' Hr'. cbn [In] in Hr'. rewrite Hfl by tauto. apply Hf2. intros ->. tauto.
Qed.

Lemma assignRight_x (node : LayoutNode) (x y : Q) (h : Heap) :
  NoDup (refsOf node) ->
  nodeX (assignRight hSpacing vSpacing node x y h) node = x.
Proof.
  intros Hnd. rewrite refsOf_children in Hnd. apply NoDup_cons in Hnd as [Hself _].
  rewrite list_elem_of_In in Hself.
  rewrite assignRight_eq. cbv zeta.
  set (h2 := writeY _ _ (writeX _ _ h)).
  assert (Hloop : forall cs childY h0,
    ~ In (n_ref node) (flat_map refsOf cs) ->
    assignRightLoop hSpacing vSpacing x cs childY h0 (n_ref node) = h0 (n_ref node)).
  { induction cs as [|c cs IHcs]; intros childY h0 Hnin; [reflexivity|].
    cbn [assignRightLoop flat_map] in *. rewrite in_app_iff in Hnin.
    rewrite IHcs by tauto. apply assignRight_places. tauto. }
  unfold nodeX. rewrite Hloop by exact Hself.
  unfold h2, writeY, writeX. rewrite !upd_same. reflexivity.
Qed.

Lemma assignLeft_x (node : LayoutNode) (x y : Q) (h : Heap) :
  NoDup (refsOf node) ->
  nodeX (assignLeft hSpacing vSpacing node x y h) node = x - nodeW h node.
Proof.
  intros Hnd. rewrite refsOf_children in Hnd. apply NoDup_cons in Hnd as [Hself _].
  rewrite list_elem_of_In in Hself.
  rewrite assignLeft_eq. cbv zeta.
  set (h2 := writeY _ _ (writeX _ _ h)).
  assert (Hloop : forall cs childY h0,
    ~ In (n_ref node) (flat_map refsOf cs) ->
    assignLeftLoop hSpacing vSpacing x cs childY h0 (n_ref node) = h0 (n_ref node)).
  { induction cs as [|c cs IHcs]; intros childY h0 Hnin; [reflexivity|].
    cbn [assignLeftLoop flat_map] in *. rewrite in_app_iff in Hnin.
    rewrite IHcs by tauto. apply assignLeft_places. tauto. }
  unfold nodeX. rewrite Hloop by exact Hself.
  unfold h2, writeY, writeX. rewrite !upd_same. reflexivity.
Qed.

End PlacementFacts.

Lemma placeGroup_places (assignSide : LayoutNode -> Q -> Q -> Heap -> Heap)
    (vSpacing : Q) (xOf : Heap -> Q) :
  placesSubtree assignSide ->
  forall group y h,
    sameShape h (placeGroup assignSide vSpacing xOf group y h)
    /\ forall r, ~ In r (flat_map refsOf group) ->
         placeGroup assignSide vSpacing xOf group y h r = h r.
Proof.
  intros Hp. induction group as [|c group IH]; intros y h; cbn [placeGroup flat_map].
  - split; [apply sameShape_refl | reflexivity].
  - cbv zeta. destruct (Hp c (xOf h) y h) as [Hsc Hfc].
    match goal with |- context [placeGroup _ _ _ group ?y' ?h'] =>
      destruct (IH y' h') as [Hsl Hfl] end.
    split; [eapply sameShape_trans; eauto|].
    intros r Hr. rewrite in_app_iff in Hr. rewrite Hfl by tauto. apply Hfc. tauto.
Qed.

Lemma placeGroup_x (assignSide : LayoutNode -> Q -> Q -> Heap -> Heap)
    (vSpacing : Q) (xOf : Heap -> Q) (g : Q -> Q -> Q) :
  placesSubtree assignSide ->
  (forall node x y h, NoDup (refsOf node) ->
     nodeX (assignSide node x y h) node = g (nodeW h node) x) ->
  forall group y h,
    NoDup (flat_map refsOf group) ->
    (forall h', (forall r, ~ In r (flat_map refsOf group) -> h' r = h r) ->
       xOf h' = xOf h) ->
    forall c, In c group ->
      nodeX (placeGroup assignSide vSpacing xOf group y h) c = g (nodeW h c) (xOf h).
Proof.
  intros Hp Hx. induction group as [|c0 group IH]; intros y h Hnd HxOf c Hc;
    [destruct Hc|].
  cbn [placeGroup]. cbv zeta.
  destruct (NoDup_flat_map_cons _ _ Hnd) as (Hnd0 & Hndg & Hdisj).
  destruct (Hp c0 (xOf h) y h) as [Hs0 Hf0].
  set (h1 := assignSide c0 (xOf h) y h) in *.
  destruct Hc as [<- | Hc].
  - destruct (placeGroup_places assignSide vSpacing xOf Hp group
                (y + subtreeHeight vSpacing h1 c0) h1) as [_ Hfl].
    unfold nodeX. rewrite Hfl by (apply Hdisj, refsOf_head).
    apply (Hx c0 (xOf h) y h Hnd0).
  - assert (HxOf1 : xOf h1 = xOf h).
    { apply HxOf. intros r Hr. cbn [flat_map] in Hr. rewrite in_app_iff in Hr.
      apply Hf0. tauto. }
    rewrite (IH (y + subtreeHeight vSpacing h1 c0) h1 Hndg).
    + rewrite HxOf1. f_equal. unfold nodeW. apply (Hs0 (n_ref c)).
    + intros h' Hh'. rewrite HxOf1. apply HxOf.
      intros r Hr. cbn [flat_map] in Hr. rewrite in_app_iff in Hr.
      rewrite Hh' by tauto. apply Hf0. tauto.
    + exact Hc.
Qed.

Lemma imbalance_zero_full (ws : list Q) :
  imbalance ws 0 == imbalance ws (length ws).
Proof.
  unfold imbalance. rewrite take_0, drop_0, firstn_all, drop_all.
  unfold sumQ at 1 4. cbn [fold_left].
  rewrite <- (Qabs_opp (0 - sumQ ws)). apply Qabs_wd. lra.
Qed.

Lemma treeGroups_spec (vSpacing : Q) (h : Heap) (root : LayoutNode) :
  n_children root <> [] ->
  let weights := map (subtreeHeight vSpacing h) (n_children root) in
  let k := bestSplit weights in
  treeGroups vSpacing h root = (take k (n_children root), drop k (n_children root))
  /\ (1 <= k <= length (n_children root))%nat
  /\ (forall j, (j <= length (n_children root))%nat ->
        imbalance weights k <= imbalance weights j)
  /\ (forall j, (1 <= j < k)%nat -> imbalance weights k < imbalance weights j).
Proof.
  intros Hne. cbv zeta.
  set (weights := map (subtreeHeight vSpacing h) (n_children root)).
  assert (Hw : weights <> []).
  { unfold weights. destruct (n_children root); [contradiction | discriminate]. }
  assert (Hlen : length weights = length (n_children root))
    by apply length_map.
  destruct (bestSplit_spec weights Hw) as (Hrange & Hmin & Hfirst).
  split; [reflexivity|]. split; [lia|]. split.
  - intros j Hj. rewrite <- !diffAt_imbalance.
    destruct j as [|j].
    + rewrite (diffAt_imbalance weights 0), imbalance_zero_full,
        <- diffAt_imbalance.
      apply Hmin. lia.
    + apply Hmin. lia.
  - intros j Hj. rewrite <- !diffAt_imbalance. apply Hfirst. exact Hj.
Qed.

(** C1.  Under the balanced-tree paradigm, for a root with at least one
    child (node objects being distinct): the right group is the prefix and
    the left group the suffix of the children at the split index chosen by
    the search loop, so the original order is kept inside each group; that
    index lies between 1 and the number of children, it minimises the
    absolute difference of the two sides' cumulative subtree heights over
    all split positions, and it is the first position that does; in the
    resulting layout the root is centred on x = 0, every child of the
    prefix has its left side half a horizontal step to the right of the
    root's right side, and every child of the suffix has its right side
    half a horizontal step to the left of the root's left side. *)
Theorem tree_groups_split_where_imbalance_is_least
    (config : MindMapConfig) (h : Heap) (root : LayoutNode) :
  n_children root <> [] ->
  NoDup (refsOf root) ->
  let hSpacing := horizontalSpacing (structure config) + 80 in
  let vSpacing := verticalSpacing (structure config) + 12 in
  let weights := map (subtreeHeight vSpacing h) (n_children root) in
  let k := bestSplit weights in
  let rightChildren := take k (n_children root) in
  let leftChildren := drop k (n_children root) in
  let laidOut := layoutTree root config h in
  rightChildren ++ leftChildren = n_children root
  /\ (1 <= k <= length (n_children root))%nat
  /\ (forall j, (j <= length (n_children root))%nat ->
        imbalance weights k <= imbalance weights j)
  /\ (forall j, (1 <= j < k)%nat -> imbalance weights k < imbalance weights j)
  /\ nodeX laidOut root = - nodeW h root / 2
  /\ (forall c, In c rightChildren ->
        nodeX laidOut c = - nodeW h root / 2 + nodeW h root + hSpacing * (1 # 2))
  /\ (forall c, In c leftChildren ->
        nodeX laidOut c = - nodeW h root / 2 - hSpacing * (1 # 2) - nodeW h c).
Proof.
  intros Hne Hnd. cbv zeta.
  set (hSpacing := horizontalSpacing (structure config) + 80).
  set (vSpacing := verticalSpacing (structure config) + 12).
  destruct (treeGroups_spec vSpacing h root Hne) as (_ & Hrange & Hmin & Hfirst).
  split; [apply take_drop|]. split; [exact Hrange|].
  split; [exact Hmin|]. split; [exact Hfirst|].
  set (k := bestSplit (map (subtreeHeight vSpacing h) (n_children root))) in *.
  (* the heap after the root has been centred *)
  unfold layoutTree. cbv zeta. fold hSpacing vSpacing.
  set (h1 := writeX root (- nodeW h root / 2) h).
  set (h2 := writeY root (- nodeH h1 root / 2) h1).
  assert (Hs2 : sameShape h h2).
  { eapply sameShape_trans; [apply writeX_shape | apply writeY_shape]. }
  assert (Hgroups : treeGroups vSpacing h2 root
                    = (take k (n_children root), drop k (n_children root))).
  { unfold treeGroups. cbv zeta.
    assert (Hmap : map (subtreeHeight vSpacing h2) (n_children root)
                   = map (subtreeHeight vSpacing h) (n_children root)).
    { apply map_ext. intros c. apply subtreeHeight_shape, Hs2. }
    rewrite Hmap. reflexivity. }
  rewrite Hgroups.
  set (rightC := take k (n_children root)).
  set (leftC := drop k (n_children root)).
  rewrite refsOf_children in Hnd. apply NoDup_cons in Hnd as [Hroot Hnd].
  rewrite list_elem_of_In in Hroot.
  rewrite <- (take_drop k (n_children root)) in Hnd, Hroot. fold rightC leftC in Hnd, Hroot.
  destruct (NoDup_flat_map_app _ _ Hnd) as (HndR & HndL & Hdisj).
  rewrite flat_map_app, in_app_iff in Hroot.
  set (xR := fun h0 : Heap => nodeX h0 root + nodeW h0 root + hSpacing * (1 # 2)).
  set (xL := fun h0 : Heap => nodeX h0 root - hSpacing * (1 # 2)).
  set (h3 := placeGroup (assignRight hSpacing vSpacing) vSpacing xR rightC _ h2).
  destruct (placeGroup_places (assignRight hSpacing vSpacing) vSpacing xR
              (assignRight_places hSpacing vSpacing) rightC
              (- sumOver (subtreeHeight vSpacing h2) rightC / 2) h2) as [Hs3 Hf3].
  fold h3 in Hs3, Hf3.
  match goal with |- context [placeGroup _ _ xL leftC ?y h3] => set (yL := y) end.
  destruct (placeGroup_places (assignLeft hSpacing vSpacing) vSpacing xL
              (assignLeft_places hSpacing vSpacing) leftC yL h3) as [Hs4 Hf4].
  assert (Hrootx : nodeX h2 root = - nodeW h root / 2).
  { unfold nodeX, h2, h1, writeY, writeX. rewrite !upd_same. reflexivity. }
  assert (Hrootw : nodeW h2 root = nodeW h root) by (unfold nodeW; apply (Hs2 (n_ref root))).
  split; [|split].
  - unfold nodeX at 1. rewrite Hf4, Hf3 by tauto. exact Hrootx.
  - intros c Hc.
    assert (Hcx : nodeX h3 c = xR h2).
    { apply (placeGroup_x (assignRight hSpacing vSpacing) vSpacing xR (fun _ x => x)
               (assignRight_places hSpacing vSpacing)
               (fun node x y h0 => assignRight_x hSpacing vSpacing node x y h0)
               rightC _ h2 HndR); [|exact Hc].
      intros h' Hh'. unfold xR, nodeX, nodeW. rewrite Hh' by tauto. reflexivity. }
    unfold nodeX at 1. rewrite Hf4 by (apply Hdisj, in_refs_of_member, Hc).
    fold (nodeX h3 c). rewrite Hcx. unfold xR. rewrite Hrootx, Hrootw. reflexivity.
  - intros c Hc.
    assert (Hcx : nodeX (placeGroup (assignLeft hSpacing vSpacing) vSpacing xL leftC yL h3) c
                  = xL h3 - nodeW h3 c).
    { apply (placeGroup_x (assignLeft hSpacing vSpacing) vSpacing xL (fun w x => x - w)
               (assignLeft_places hSpacing vSpacing)
               (fun node x y h0 => assignLeft_x hSpacing vSpacing node x y h0)
               leftC yL h3 HndL); [|exact Hc].
      intros h' Hh'. unfold xL, nodeX. rewrite Hh' by tauto. reflexivity. }
    rewrite Hcx.
    assert (Hw : nodeW h3 c = nodeW h c).
    { unfold nodeW. destruct (Hs3 (n_ref c)) as [-> _]. apply (Hs2 (n_ref c)). }
    assert (Hx3 : xL h3 = - nodeW h root / 2 - hSpacing * (1 # 2)).
    { unfold xL. unfold nodeX at 1. rewrite Hf3 by tauto.
      fold (nodeX h2 root). rewrite Hrootx. reflexivity. }
    rewrite Hw, Hx3. reflexivity.
Qed.

(** ** Bounding box *)

Lemma computeBounds_step (h : Heap) (l : list LayoutNode) :
  forall seen mnx mny mxx mxy,
    seen <> [] ->
    boundsCover h seen mnx mny mxx mxy ->
    exists mnx' mny' mxx' mxy',
      fold_left (fun b n =>
        {| minX := extMin (minX b) (Fin (nodeX h n));
           minY := extMin (minY b) (Fin (nodeY h n));
           maxX := extMax (maxX b) (Fin (nodeX h n + nodeW h n));
           maxY := extMax (maxY b) (Fin (nodeY h n + nodeH h n)) |}) l
        {| minX := Fin mnx; minY := Fin mny; maxX := Fin mxx; maxY := Fin mxy |}
      = {| minX := Fin mnx'; minY := Fin mny'; maxX := Fin mxx'; maxY := Fin mxy' |}
      /\ boundsCover h (seen ++ l) mnx' mny' mxx' mxy'.
Proof.
  induction l as [|a l IH]; intros seen mnx mny mxx mxy Hne Hcov; cbn [fold_left].
  - exists mnx, mny, mxx, mxy. rewrite app_nil_r. auto.
  - cbn [minX minY maxX maxY extMin extMax].
    destruct (IH (seen ++ [a])
                (Qmin mnx (nodeX h a)) (Qmin mny (nodeY h a))
                (Qmax mxx (nodeX h a + nodeW h a))
                (Qmax mxy (nodeY h a + nodeH h a)))
      as (mnx' & mny' & mxx' & mxy' & Heq & Hcov').
    + destruct seen; discriminate.
    + intros n Hn. apply in_app_iff in Hn as [Hn | [<- | []]].
      * destruct (Hcov n Hn) as (H1 & H2 & H3 & H4).
        pose proof (Q.le_min_l mnx (nodeX h a)).
        pose proof (Q.le_min_l mny (nodeY h a)).
        pose proof (Q.le_max_l mxx (nodeX h a + nodeW h a)).
        pose proof (Q.le_max_l mxy (nodeY h a + nodeH h a)).
        repeat split; lra.
      * repeat split;
          [apply Q.le_min_r | apply Q.le_min_r | apply Q.le_max_r | apply Q.le_max_r].
    + exists mnx', mny', mxx', mxy'. rewrite <- app_assoc in Hcov'. auto.
Qed.

Lemma computeBounds_nonempty (h : Heap) (first : LayoutNode) (l : list LayoutNode) :
  exists mnx mny mxx mxy,
    computeBounds h (first :: l)
    = {| minX := Fin mnx; minY := Fin mny; maxX := Fin mxx; maxY := Fin mxy |}
    /\ boundsCover h (first :: l) mnx mny mxx mxy.
Proof.
  unfold computeBounds. cbn [fold_left minX minY maxX maxY extMin extMax].
  apply (computeBounds_step h l [first]); [discriminate|].
  intros n [<- | []]. repeat split; lra.
Qed.

(** C4.  With a non-negative padding, the result of a layout computation
    has finite [width], [height], [offsetX], [offsetY], equal to
    [(maxX - minX) + 2 padding], [(maxY - minY) + 2 padding],
    [-minX + padding], [-minY + padding] for the bounding box of its
    (non-empty) node list, and every point of every node's rectangle,
    translated by the offset, lies in [[0, width] x [0, height]]. *)
Theorem layout_bounds_contain_every_node
    (measureText : string -> option Q -> string -> string -> Q * Q)
    (cos sin : Q -> Q) (PI : Q)
    (rootNode : MindMapNode) (config : MindMapConfig) :
  0 <= padding (export config) ->
  let res := computeLayout measureText cos sin PI rootNode config in
  exists mnx mny mxx mxy,
    computeBounds (heap res) (nodes res)
    = {| minX := Fin mnx; minY := Fin mny; maxX := Fin mxx; maxY := Fin mxy |}
    /\ width res = Fin (mxx - mnx + padding (export config) * 2)
    /\ height res = Fin (mxy - mny + padding (export config) * 2)
    /\ offsetX res = Fin (- mnx + padding (export config))
    /\ offsetY res = Fin (- mny + padding (export config))
    /\ forall n, In n (nodes res) ->
       forall px py,
         nodeX (heap res) n <= px <= nodeX (heap res) n + nodeW (heap res) n ->
         nodeY (heap res) n <= py <= nodeY (heap res) n + nodeH (heap res) n ->
         0 <= px + (- mnx + padding (export config))
              <= mxx - mnx + padding (export config) * 2
         /\ 0 <= py + (- mny + padding (export config))
              <= mxy - mny + padding (export config) * 2.
Proof.
  intros Hpad. cbv zeta. unfold computeLayout.
  destruct (buildLayoutTree measureText rootNode 0 config (0%nat, emptyHeap))
    as [root [k h0]].
  cbv zeta. cbn [nodes heap width height offsetX offsetY].
  set (h2 := resolveCollisions cos sin (collectNodes root) _ _).
  assert (Hnodes : collectNodes root = root :: flat_map collectNodes (n_children root))
    by (destruct root; reflexivity).
  rewrite Hnodes.
  destruct (computeBounds_nonempty h2 root (flat_map collectNodes (n_children root)))
    as (mnx & mny & mxx & mxy & Heq & Hcov).
  exists mnx, mny, mxx, mxy. rewrite Heq.
  cbn [minX minY maxX maxY extSub extAdd extNeg].
  repeat split; try reflexivity;
    destruct (Hcov n H) as (H3 & H4 & H5 & H6); lra.
Qed.

(** ** Edge routing: marker gaps *)

Lemma anchorDirection_unit (a : Anchor) : unitAxis (anchorDirection a).
Proof. unfold unitAxis. destruct a; cbn; auto. Qed.

Lemma rectBoundaryPoint_unit (node : Geom) (tx ty ox oy : Q) :
  unitAxis {| dx := bp_dx (rectBoundaryPoint node tx ty ox oy);
              dy := bp_dy (rectBoundaryPoint node tx ty ox oy) |}.
Proof.
  unfold rectBoundaryPoint. cbv zeta.
  destruct (_ && _); [unfold unitAxis; cbn; auto|].
  match goal with |- context [match ?s with Some _ => _ | None => _ end] =>
    destruct s as [[t []]|] end; unfold unitAxis; cbn; auto.
Qed.

(** C9.  At both ends of every edge, the path endpoint is the anchor moved
    along the anchor's outward direction (one of the four unit directions
    of the node's sides) by a gap that equals [markerSize + 3] when a marker
    is configured at that end and 4 when none is. *)
Theorem edge_gap_is_marker_size_plus_3_or_4
    (source target : Geom) (config : MindMapConfig) (offsetX offsetY : Q) :
  let g := edgeGeometry source target config offsetX offsetY in
  let sa := sourceAnchorOf source target config offsetX offsetY in
  let ta := targetAnchorOf source target config offsetX offsetY in
  let size := markerSize (link config) in
  unitAxis (snd sa) /\ unitAxis (snd ta)
  /\ startDirX g = dx (snd sa) /\ startDirY g = dy (snd sa)
  /\ endDirX g = dx (snd ta) /\ endDirY g = dy (snd ta)
  /\ (markerStart (link config) <> MNone ->
        x1 g = pt_x (fst sa) + dx (snd sa) * (size + 3)
        /\ y1 g = pt_y (fst sa) + dy (snd sa) * (size + 3))
  /\ (markerStart (link config) = MNone ->
        x1 g = pt_x (fst sa) + dx (snd sa) * 4
        /\ y1 g = pt_y (fst sa) + dy (snd sa) * 4)
  /\ (markerEnd (link config) <> MNone ->
        x2 g = pt_x (fst ta) + dx (snd ta) * (size + 3)
        /\ y2 g = pt_y (fst ta) + dy (snd ta) * (size + 3))
  /\ (markerEnd (link config) = MNone ->
        x2 g = pt_x (fst ta) + dx (snd ta) * 4
        /\ y2 g = pt_y (fst ta) + dy (snd ta) * 4).
Proof.
  cbv zeta.
  assert (Hs : forall m, m <> MNone -> hasMarker m = true)
    by (intros []; [contradiction | reflexivity ..]).
  unfold edgeGeometry, sourceAnchorOf, targetAnchorOf, startGap, endGap.
  cbv zeta.
  destruct (layout (structure config)) eqn:El.
  1: {
    cbn [fst snd x1 y1 x2 y2 startDirX startDirY endDirX endDirY pt_x pt_y dx dy].
    split; [apply rectBoundaryPoint_unit|].
    split; [apply rectBoundaryPoint_unit|].
    repeat split; try reflexivity.
    all: try (rewrite (Hs _ H); reflexivity).
    all: rewrite H; reflexivity. }
  all: destruct (chooseFixedAnchors source target _ offsetX offsetY) as [a1 a2];
    cbn [fst snd x1 y1 x2 y2 startDirX startDirY endDirX endDirY];
    (split; [apply anchorDirection_unit|]);
    (split; [apply anchorDirection_unit|]);
    repeat split; try reflexivity;
    try (rewrite (Hs _ H); reflexivity); rewrite H; reflexivity.
Qed.

(** ** Radial layout: sector allocation *)

Lemma Qdiv_nonneg (a b : Q) : 0 <= a -> 0 <= b -> 0 <= a / b.
Proof.
  intros Ha Hb. unfold Qdiv. apply Qmult_le_0_compat; [exact Ha|].
  apply Qinv_le_0_compat. exact Hb.
Qed.

Lemma ofNat_nonneg (n : nat) : 0 <= ofNat n.
Proof.
  unfold ofNat. change 0 with (inject_Z 0). rewrite <- Zle_Qle. lia.
Qed.

Lemma sumQ_cons (a : Q) (l : list Q) : sumQ (a :: l) == a + sumQ l.
Proof. unfold sumQ at 1. cbn [fold_left]. rewrite fold_left_Qplus_acc. lra. Qed.

Lemma sumQ_scale (c : Q) (l : list Q) :
  sumQ (map (fun a => a * c) l) == sumQ l * c.
Proof.
  induction l as [|a l IH]; [unfold sumQ; cbn; lra|].
  cbn [map]. rewrite !sumQ_cons, IH. lra.
Qed.

Lemma sumQ_nonneg (l : list Q) : Forall (fun a => 0 <= a) l -> 0 <= sumQ l.
Proof.
  induction 1 as [|a l Ha _ IH]; [unfold sumQ; cbn; lra|].
  rewrite sumQ_cons. lra.
Qed.

Lemma flooredAngles_length (baseRing : Q) (h : Heap) (cs : list LayoutNode) (span : Q) :
  length (flooredAngles baseRing h cs span) = length cs.
Proof. unfold flooredAngles. cbv zeta. rewrite !length_map. reflexivity. Qed.

Lemma flooredAngles_nonneg (baseRing : Q) (h : Heap) (cs : list LayoutNode) (span : Q) :
  0 <= span -> Forall (fun a => 0 <= a) (flooredAngles baseRing h cs span).
Proof.
  intros Hspan. unfold flooredAngles. cbv zeta.
  apply List.Forall_forall. intros a Ha.
  apply in_map_iff in Ha as ([l m] & <- & _). cbn [fst snd].
  eapply Qle_trans; [|apply Q.le_max_l].
  apply Qmult_le_0_compat; [|exact Hspan].
  apply Qdiv_nonneg; apply ofNat_nonneg.
Qed.

Lemma flooredAngles_floor (baseRing : Q) (h : Heap) (cs : list LayoutNode) (span : Q) :
  Forall2 (fun child a => minSubtreeAngle baseRing h child <= a)
    cs (flooredAngles baseRing h cs span).
Proof.
  unfold flooredAngles. cbv zeta. rewrite map_map. cbn [fst snd].
  generalize (fold_left (fun s c => (s + fst c)%nat)
    (map (fun child => (computeSubtreeLeaves child, minSubtreeAngle baseRing h child)) cs)
    0%nat).
  intros total. induction cs as [|c cs IH]; cbn [map]; constructor.
  - apply Q.le_max_r.
  - exact IH.
Qed.

Lemma allocateAngles_length (baseRing : Q) (h : Heap) (cs : list LayoutNode) (span : Q) :
  length (allocateAngles baseRing h cs span) = length cs.
Proof.
  unfold allocateAngles. cbv zeta.
  destruct (Qgtb _ span); rewrite ?length_map; apply flooredAngles_length.
Qed.

Lemma allocateAngles_cases (baseRing : Q) (h : Heap) (cs : list LayoutNode) (span : Q) :
  let floored := flooredAngles baseRing h cs span in
  (span < sumQ floored /\
   allocateAngles baseRing h cs span
   = map (fun a => a * (span / sumQ floored)) floored)
  \/ (sumQ floored <= span /\ allocateAngles baseRing h cs span = floored).
Proof.
  cbv zeta. unfold allocateAngles. cbv zeta.
  fold (sumQ (flooredAngles baseRing h cs span)).
  destruct (Qgtb (sumQ (flooredAngles baseRing h cs span)) span) eqn:E.
  - left. apply Qgtb_lt in E. auto.
  - right. apply Qgtb_le in E. auto.
Qed.

Lemma allocateAngles_nonneg (baseRing : Q) (h : Heap) (cs : list LayoutNode) (span : Q) :
  0 <= span -> Forall (fun a => 0 <= a) (allocateAngles baseRing h cs span).
Proof.
  intros Hspan.
  pose proof (flooredAngles_nonneg baseRing h cs span Hspan) as Hfl.
  destruct (allocateAngles_cases baseRing h cs span) as [[Hlt ->] | [_ ->]];
    [|exact Hfl].
  apply List.Forall_forall. intros a Ha.
  apply in_map_iff in Ha as (a0 & <- & Ha0).
  rewrite List.Forall_forall in Hfl.
  apply Qmult_le_0_compat; [apply Hfl, Ha0|].
  apply Qdiv_nonneg; lra.
Qed.

Lemma allocateAngles_total (baseRing : Q) (h : Heap) (cs : list LayoutNode) (span : Q) :
  0 <= span ->
  sumQ (allocateAngles baseRing h cs span) <= span
  /\ (span < sumQ (flooredAngles baseRing h cs span) ->
      sumQ (allocateAngles baseRing h cs span) == span).
Proof.
  intros Hspan.
  destruct (allocateAngles_cases baseRing h cs span) as [[Hlt ->] | [Hle ->]].
  - assert (Heq : sumQ (map (fun a => a * (span / sumQ (flooredAngles baseRing h cs span)))
                          (flooredAngles baseRing h cs span)) == span).
    { rewrite sumQ_scale. field. lra. }
    split; [rewrite Heq; lra | intros _; exact Heq].
  - split; [exact Hle | intros Hlt; lra].
Qed.

(** ** Radial layout: sectors *)

Lemma sectorsOf_length (cur : Q) (angles : list Q) :
  length (sectorsOf cur angles) = length angles.
Proof.
  revert cur. induction angles as [|a l IH]; intros cur; cbn; [|rewrite IH]; reflexivity.
Qed.

Lemma sectorsOf_bounds (angles : list Q) :
  Forall (fun a => 0 <= a) angles ->
  forall cur s e, In (s, e) (sectorsOf cur angles) ->
    cur <= s /\ s <= e /\ e <= cur + sumQ angles.
Proof.
  induction 1 as [|a l Ha Hl IH]; intros cur s e Hin; [destruct Hin|].
  pose proof (sumQ_nonneg l Hl) as Hsum.
  cbn [sectorsOf] in Hin. rewrite sumQ_cons. destruct Hin as [Heq | Hin].
  - inversion Heq; subst. repeat split; lra.
  - destruct (IH _ _ _ Hin) as (H1 & H2 & H3). repeat split; lra.
Qed.

Lemma sectorsOf_consecutive (angles : list Q) :
  forall cur i s e s' e',
    sectorsOf cur angles !! i = Some (s, e) ->
    sectorsOf cur angles !! S i = Some (s', e') ->
    s' = e.
Proof.
  induction angles as [|a l IH]; intros cur i s e s' e' Hi HSi; [discriminate|].
  destruct i as [|i].
  - cbn in Hi. inversion Hi; subst.
    destruct l as [|b l]; [discriminate|]. cbn in HSi. inversion HSi. reflexivity.
  - cbn [sectorsOf] in Hi, HSi. apply (IH (cur + a) i s e s' e'); assumption.
Qed.

Lemma sectorsOf_ordered (angles : list Q) :
  Forall (fun a => 0 <= a) angles ->
  forall cur i j s e s' e',
    (i < j)%nat ->
    sectorsOf cur angles !! i = Some (s, e) ->
    sectorsOf cur angles !! j = Some (s', e') ->
    e <= s'.
Proof.
  induction 1 as [|a l Ha Hl IH]; intros cur i j s e s' e' Hij Hi Hj; [discriminate|].
  destruct j as [|j]; [lia|]. cbn [sectorsOf] in Hi, Hj.
  destruct i as [|i].
  - cbn in Hi. inversion Hi; subst. cbn in Hj.
    apply list_elem_of_lookup_2, list_elem_of_In in Hj.
    destruct (sectorsOf_bounds l Hl _ _ _ Hj) as (H1 & _). exact H1.
  - apply (IH (cur + a) i j s e s' e'); [lia | assumption | assumption].
Qed.

(** ** Radial layout: placement *)

Section RadialFacts.

Variables (cos sin : Q -> Q) (baseRing : Q).

Lemma positionChildren_eq (parent : LayoutNode) (startAngle endAngle : Q) (h : Heap) :
  positionChildren cos sin baseRing parent startAngle endAngle h
  = positionLoop cos sin baseRing (n_children parent)
      (allocateAngles baseRing h (n_children parent) (endAngle - startAngle))
      startAngle h.
Proof. destruct parent; reflexivity. Qed.

Lemma positionLoop_spec (cs : list LayoutNode) :
  Forall (placedWithin cos sin baseRing) cs ->
  forall angles cur h,
    length angles = length cs ->
    Forall (fun a => 0 <= a) angles ->
    NoDup (flat_map refsOf cs) ->
    let h' := positionLoop cos sin baseRing cs angles cur h in
    (forall r, ~ In r (flat_map refsOf cs) -> h' r = h r)
    /\ Forall2 (childPlaced h') cs (sectorsOf cur angles).
Proof.
  induction 1 as [|child cs Hchild _ IH]; intros angles cur h Hlen Hpos Hnd;
    destruct angles as [|a angles]; try discriminate; cbv zeta.
  - split; [reflexivity | constructor].
  - cbn [positionLoop sectorsOf].
    set (mid := (cur + (cur + a)) / 2).
    set (h1 := writeX child _ h).
    set (h2 := writeY child _ h1).
    set (h3 := writeAngle child mid h2).
    set (h4 := positionChildren cos sin baseRing child cur (cur + a) h3).
    apply Forall_cons in Hpos as [Ha Hpos].
    destruct (NoDup_flat_map_cons _ _ Hnd) as (Hndc & Hndcs & Hdisj).
    rewrite refsOf_children in Hndc. apply NoDup_cons in Hndc as [Hself Hndc].
    rewrite list_elem_of_In in Hself.
    destruct (Hchild cur (cur + a) h3 ltac:(lra) Hndc) as [Hfr4 Hin4].
    fold h4 in Hfr4, Hin4.
    destruct (IH angles (cur + a) h4 ltac:(cbn in Hlen; lia) Hpos Hndcs)
      as [Hfr Hrest].
    assert (Hkeep : forall r, In r (refsOf child) ->
              positionLoop cos sin baseRing cs angles (cur + a) h4 r = h4 r).
    { intros r Hr. apply Hfr. apply Hdisj. exact Hr. }
    assert (Hh3 : forall r, r <> n_ref child -> h3 r = h r).
    { intros r Hr. unfold h3, h2, h1, writeAngle, writeY, writeX.
      rewrite !upd_other by exact Hr. reflexivity. }
    split.
    + intros r Hr. cbn [flat_map] in Hr. rewrite in_app_iff in Hr.
      rewrite Hfr by tauto.
      rewrite refsOf_children in Hr. cbn [In] in Hr.
      rewrite Hfr4 by tauto. apply Hh3. intros ->. tauto.
    + constructor; [|exact Hrest].
      unfold childPlaced. cbn [fst snd].
      assert (Hmid : nodeA (positionLoop cos sin baseRing cs angles (cur + a) h4)
                       child = Some mid).
      { unfold nodeA. rewrite Hkeep by apply refsOf_head.
        rewrite Hfr4 by exact Hself.
        unfold h3, writeAngle. rewrite upd_same. reflexivity. }
      split; [exact Hmid|].
      intros m Hm. rewrite collectNodes_unfold in Hm. destruct Hm as [<- | Hm].
      * exists mid. split; [exact Hmid|]. unfold mid. split.
        -- apply Qle_shift_div_l; lra.
        -- apply Qle_shift_div_r; lra.
      * destruct (Hin4 m Hm) as (x & Hx & Hrange).
        exists x. split; [|exact Hrange].
        unfold nodeA. rewrite Hkeep; [exact Hx|].
        rewrite refsOf_children. right. apply in_refs_of_descendant, Hm.
Qed.

Lemma positionChildren_placedWithin (parent : LayoutNode) :
  placedWithin cos sin baseRing parent.
Proof.
  induction parent as [r i cs IH] using LayoutNode_nested_ind.
  intros startAngle endAngle h Hle Hnd. cbv zeta.
  rewrite positionChildren_eq. cbn [n_children] in *.
  set (angles := allocateAngles baseRing h cs (endAngle - startAngle)).
  assert (Hpos : Forall (fun a => 0 <= a) angles)
    by (apply allocateAngles_nonneg; lra).
  destruct (positionLoop_spec cs IH angles startAngle h
              (allocateAngles_length _ _ _ _) Hpos Hnd) as [Hfr Hall].
  split; [exact Hfr|].
  destruct (allocateAngles_total baseRing h cs (endAngle - startAngle) ltac:(lra))
    as [Htotal _].
  fold angles in Htotal.
  intros m Hm. apply in_flat_map in Hm as (c & Hc & Hm).
  apply list_elem_of_In, list_elem_of_lookup_1 in Hc as (k & Hk).
  destruct (Forall2_lookup_l _ _ _ _ _ Hall Hk) as ([s e] & Hse & _ & Hwithin).
  destruct (Hwithin m Hm) as (x & Hx & Hrange). cbn [fst snd] in Hrange.
  apply list_elem_of_lookup_2, list_elem_of_In in Hse.
  destruct (sectorsOf_bounds angles Hpos _ _ _ Hse) as (H1 & H2 & H3).
  exists x. split; [exact Hx | lra].
Qed.

End RadialFacts.

(** C5.  For every call [positionChildren(parent, startAngle, endAngle)]
    with [startAngle <= endAngle] on a tree of distinct node objects: the
    children get one sector each, the first starting at [startAngle] and
    each next one starting where the previous ends; every sector lies in
    [[startAngle, endAngle]] and an earlier sector ends before a later one
    starts; when the floored allocations add up to more than the span they
    are all multiplied by the same factor [span / total] and then add up to
    the span, otherwise they are kept and add up to at most the span; each
    child is given the midpoint of its sector as angle, and every node of
    the child's subtree is given an angle inside the child's sector. *)
Theorem radial_children_get_nested_disjoint_sectors
    (cos sin : Q -> Q) (baseRing : Q) (parent : LayoutNode)
    (startAngle endAngle : Q) (h : Heap) :
  startAngle <= endAngle ->
  NoDup (refsOf parent) ->
  let span := endAngle - startAngle in
  let floored := flooredAngles baseRing h (n_children parent) span in
  let angles := allocateAngles baseRing h (n_children parent) span in
  let sectors := sectorsOf startAngle angles in
  let h' := positionChildren cos sin baseRing parent startAngle endAngle h in
  length sectors = length (n_children parent)
  /\ (forall s e, sectors !! 0%nat = Some (s, e) -> s = startAngle)
  /\ (forall i s e s' e',
        sectors !! i = Some (s, e) -> sectors !! S i = Some (s', e') -> s' = e)
  /\ (forall s e, In (s, e) sectors ->
        startAngle <= s /\ s <= e /\ e <= endAngle)
  /\ (forall i j s e s' e',
        (i < j)%nat -> sectors !! i = Some (s, e) -> sectors !! j = Some (s', e') ->
        e <= s')
  /\ (span < sumQ floored ->
        angles = map (fun a => a * (span / sumQ floored)) floored
        /\ sumQ angles == span)
  /\ (sumQ floored <= span -> angles = floored)
  /\ sumQ angles <= span
  /\ Forall2 (childPlaced h') (n_children parent) sectors.
Proof.
  intros Hle Hnd. cbv zeta.
  set (span := endAngle - startAngle).
  set (angles := allocateAngles baseRing h (n_children parent) span).
  assert (Hspan : 0 <= span) by (unfold span; lra).
  assert (Hpos : Forall (fun a => 0 <= a) angles)
    by (apply allocateAngles_nonneg, Hspan).
  destruct (allocateAngles_total baseRing h (n_children parent) span Hspan)
    as [Htotal Hscaled].
  fold angles in Htotal, Hscaled.
  rewrite refsOf_children in Hnd. apply NoDup_cons in Hnd as [_ Hnd].
  split; [rewrite sectorsOf_length; apply allocateAngles_length|].
  split.
  { intros s e H0. destruct angles; [discriminate|]. cbn in H0. congruence. }
  split; [apply sectorsOf_consecutive|].
  split.
  { intros s e Hin. destruct (sectorsOf_bounds angles Hpos _ _ _ Hin) as (H1 & H2 & H3).
    unfold span in Htotal. repeat split; lra. }
  split; [apply sectorsOf_ordered, Hpos|].
  split.
  { intros Hlt. split; [|apply Hscaled, Hlt].
    destruct (allocateAngles_cases baseRing h (n_children parent) span)
      as [[_ Heq] | [Hge _]]; [exact Heq | lra]. }
  split.
  { intros Hge.
    destruct (allocateAngles_cases baseRing h (n_children parent) span)
      as [[Hlt _] | [_ Heq]]; [lra | exact Heq]. }
  split; [exact Htotal|].
  rewrite positionChildren_eq. fold span. fold angles.
  apply positionLoop_spec.
  - apply List.Forall_forall. intros c _. apply positionChildren_placedWithin.
  - apply allocateAngles_length.
  - exact Hpos.
  - exact Hnd.
Qed.

(** ** Radial layout: the minimum angle of a node *)

Lemma minSubtreeAngle_unfold (baseRing : Q) (h : Heap) (node : LayoutNode) :
  minSubtreeAngle baseRing h node
  = match n_children node with
    | [] => nodeArc baseRing h node
    | _ :: _ =>
        Qmax (nodeArc baseRing h node)
          (sumOver (minSubtreeAngle baseRing h) (n_children node))
    end.
Proof. destruct node as [r i [|c cs]]; reflexivity. Qed.

(** C6 (as amended).  The minimum angle used as floor when sectors are
    allocated is [minSubtreeAngle]: every floored allocation is at least
    the child's [minSubtreeAngle]; for a node without children it is the
    node's own arc, for a node with children the larger of the node's own
    arc and the sum of its children's minimum angles.  The node's own arc is
    [(max(width, height) + 20) / r] at a radius [r > 0], which is
    [max(dimension + 20, 0.3) / r] when the dimension is not negative, and
    it is the constant 0.3 (not divided by [r]) when [r <= 0]. *)
Theorem radial_floor_is_subtree_minimum_angle
    (baseRing : Q) (h : Heap) (node : LayoutNode) :
  let r := radiusForDepth baseRing (nodeD h node) in
  let dim := Qmax (nodeW h node) (nodeH h node) in
  minSubtreeAngle baseRing h node
  = match n_children node with
    | [] => nodeArc baseRing h node
    | _ :: _ =>
        Qmax (nodeArc baseRing h node)
          (sumOver (minSubtreeAngle baseRing h) (n_children node))
    end
  /\ (0 < r -> nodeArc baseRing h node = (dim + 20) / r)
  /\ (0 < r -> 0 <= dim -> nodeArc baseRing h node == Qmax (dim + 20) (3 # 10) / r)
  /\ (r <= 0 -> nodeArc baseRing h node = 3 # 10)
  /\ (forall cs span,
        Forall2 (fun child a => minSubtreeAngle baseRing h child <= a)
          cs (flooredAngles baseRing h cs span)).
Proof.
  cbv zeta. split; [apply minSubtreeAngle_unfold|].
  unfold nodeArc. cbv zeta.
  split; [intros Hr; apply Qgtb_lt in Hr; rewrite Hr; reflexivity|].
  split.
  { intros Hr Hdim. pose proof Hr as Hr'. apply Qgtb_lt in Hr'. rewrite Hr'.
    rewrite (Q.max_l (Qmax (nodeW h node) (nodeH h node) + 20) (3 # 10)); [reflexivity|].
    lra. }
  split; [intros Hr; apply Qgtb_le in Hr; rewrite Hr; reflexivity|].
  intros cs span. apply flooredAngles_floor.
Qed.

(** ** Drag handling: identifiers and lookup tables *)

Lemma collectNodes_length_le (root n : LayoutNode) :
  In n (collectNodes root) ->
  (length (collectNodes n) <= length (collectNodes root))%nat.
Proof.
  revert n. induction root as [r i cs IH] using LayoutNode_nested_ind.
  intros n Hn. rewrite collectNodes_unfold in Hn. destruct Hn as [<- | Hn]; [lia|].
  cbn [n_children] in Hn. apply in_flat_map in Hn as (c & Hc & Hn).
  rewrite List.Forall_forall in IH. specialize (IH c Hc n Hn).
  rewrite (collectNodes_unfold (LNode r i cs)). cbn [length n_children].
  apply in_split in Hc as (l1 & l2 & ->).
  rewrite flat_map_app, length_app. cbn [flat_map]. rewrite length_app. lia.
Qed.

Lemma NoDup_ids_child (cs : list LayoutNode) (c : LayoutNode) :
  In c cs ->
  NoDup (map n_id (flat_map collectNodes cs)) ->
  NoDup (idsOf c).
Proof.
  intros Hc Hnd. apply in_split in Hc as (l1 & l2 & ->).
  rewrite flat_map_app, map_app in Hnd. cbn [flat_map] in Hnd.
  rewrite map_app in Hnd.
  apply NoDup_app in Hnd as (_ & _ & Hnd).
  apply NoDup_app in Hnd as (Hnd & _ & _). exact Hnd.
Qed.

Lemma NoDup_ids_sub (root n : LayoutNode) :
  In n (collectNodes root) -> NoDup (idsOf root) -> NoDup (idsOf n).
Proof.
  revert n. induction root as [r i cs IH] using LayoutNode_nested_ind.
  intros n Hn Hnd. rewrite collectNodes_unfold in Hn. destruct Hn as [<- | Hn].
  - exact Hnd.
  - cbn [n_children] in Hn. apply in_flat_map in Hn as (c & Hc & Hn).
    rewrite List.Forall_forall in IH. apply (IH c Hc n Hn).
    unfold idsOf in Hnd. rewrite collectNodes_unfold in Hnd.
    cbn [map n_children] in Hnd. apply NoDup_cons in Hnd as [_ Hnd].
    eapply NoDup_ids_child; eauto.
Qed.

Lemma NoDup_ids_children (n : LayoutNode) :
  NoDup (idsOf n) -> NoDup (map n_id (n_children n)).
Proof.
  unfold idsOf. rewrite collectNodes_unfold. cbn [map].
  intros Hnd. apply NoDup_cons in Hnd as [_ Hnd].
  induction (n_children n) as [|c cs IH]; [constructor|].
  cbn [flat_map map] in *. rewrite map_app in Hnd.
  apply NoDup_app in Hnd as (Hc & Hdisj & Hcs).
  constructor; [|apply IH, Hcs].
  intros Hin. apply (Hdisj (n_id c)).
  - apply list_elem_of_In, in_map, collectNodes_self.
  - apply list_elem_of_In in Hin. apply in_map_iff in Hin as (c' & Heq & Hc').
    apply list_elem_of_In. rewrite <- Heq. apply in_map.
    apply in_flat_map. exists c'. split; [exact Hc' | apply collectNodes_self].
Qed.

Lemma self_not_descendant (n : LayoutNode) :
  NoDup (idsOf n) -> ~ In (n_id n) (descendantIds n).
Proof.
  unfold idsOf, descendantIds. rewrite collectNodes_unfold. cbn [map].
  intros Hnd Hin. apply NoDup_cons in Hnd as [Hnot _].
  apply Hnot, list_elem_of_In, Hin.
Qed.

(** Two nodes of a list with distinct identifiers are equal when their
    identifiers are. *)
Lemma same_id_same_node (l : list LayoutNode) (a b : LayoutNode) :
  NoDup (map n_id l) -> In a l -> In b l -> n_id a = n_id b -> a = b.
Proof.
  induction l as [|c l IH]; intros Hnd Ha Hb Heq; [destruct Ha|].
  cbn [map] in Hnd. apply NoDup_cons in Hnd as [Hc Hnd].
  destruct Ha as [<- | Ha], Hb as [<- | Hb]; try reflexivity.
  - exfalso. apply Hc. rewrite Heq. apply list_elem_of_In, in_map, Hb.
  - exfalso. apply Hc. rewrite <- Heq. apply list_elem_of_In, in_map, Ha.
  - apply IH; assumption.
Qed.

Lemma find_by_id (l : list LayoutNode) (n : LayoutNode) :
  NoDup (map n_id l) -> In n l ->
  find (fun m => String.eqb (n_id m) (n_id n)) l = Some n.
Proof.
  induction l as [|c l IH]; intros Hnd Hn; [destruct Hn|].
  cbn [map] in Hnd. apply NoDup_cons in Hnd as [Hc Hnd]. cbn [find].
  destruct (String.eqb (n_id c) (n_id n)) eqn:E.
  - apply String.eqb_eq in E. destruct Hn as [-> | Hn]; [reflexivity|].
    exfalso. apply Hc. rewrite E. apply list_elem_of_In, in_map, Hn.
  - destruct Hn as [-> | Hn]; [rewrite String.eqb_refl in E; discriminate|].
    apply IH; assumption.
Qed.

Lemma find_by_id_none (l : list LayoutNode) (k : string) :
  ~ In k (map n_id l) ->
  find (fun m => String.eqb (n_id m) k) l = None.
Proof.
  induction l as [|c l IH]; intros Hk; [reflexivity|].
  cbn [find map In] in *.
  destruct (String.eqb (n_id c) k) eqn:E.
  - apply String.eqb_eq in E. tauto.
  - apply IH. tauto.
Qed.

(** A table filled by one insertion per list element, under distinct
    keys, maps each element's key to that element's value. *)
Lemma fold_insert_lookup {A V : Type} (key : A -> string) (val : A -> option V)
    (f : gmap string V -> A -> gmap string V) (l : list A) :
  (forall m a, f m a = match val a with Some v => <[key a := v]> m | None => m end) ->
  forall m0,
    (forall k, ~ In k (map key l) -> fold_left f l m0 !! k = m0 !! k)
    /\ (NoDup (map key l) ->
        forall a, In a l ->
          fold_left f l m0 !! key a
          = match val a with Some v => Some v | None => m0 !! key a end).
Proof.
  intros Hf. induction l as [|b l IH]; intros m0.
  - split; [reflexivity | intros _ a []].
  - cbn [fold_left map]. destruct (IH (f m0 b)) as [IH1 IH2]. split.
    + intros k Hk. cbn [In] in Hk. rewrite IH1 by tauto.
      rewrite Hf. destruct (val b); [|reflexivity].
      apply lookup_insert_ne. tauto.
    + intros Hnd a Ha. apply NoDup_cons in Hnd as [Hb Hnd].
      rewrite list_elem_of_In in Hb.
      destruct Ha as [<- | Ha].
      * rewrite IH1 by exact Hb. rewrite Hf.
        destruct (val b); [apply lookup_insert_eq | reflexivity].
      * rewrite (IH2 Hnd a Ha). destruct (val a); [reflexivity|].
        rewrite Hf. destruct (val b); [|reflexivity].
        apply lookup_insert_ne. intros Heq. apply Hb. rewrite Heq.
        apply in_map, Ha.
Qed.

Lemma buildNodeMap_lookup (nodes : list LayoutNode) (h : Heap) :
  (forall k, ~ In k (map n_id nodes) -> buildNodeMap nodes h !! k = None)
  /\ (NoDup (map n_id nodes) ->
      forall n, In n nodes -> buildNodeMap nodes h !! n_id n = Some (infoOf h n)).
Proof.
  change (buildNodeMap nodes h)
    with (fold_left (fun m n => <[ n_id n := infoOf h n ]> m) nodes
            (∅ : gmap string NodeInfo)).
  destruct (fold_insert_lookup n_id (fun n => Some (infoOf h n))
              (fun m n => <[ n_id n := infoOf h n ]> m) nodes
              (fun _ _ => eq_refl) ∅) as [H1 H2].
  split.
  - intros k Hk. rewrite (H1 k Hk). apply lookup_empty.
  - intros Hnd n Hn. apply (H2 Hnd n Hn).
Qed.

Lemma collectDescendants_enough (nodes : list LayoutNode) :
  NoDup (map n_id nodes) ->
  (forall n c, In n nodes -> In c (n_children n) -> In c nodes) ->
  forall n fuel,
    In n nodes ->
    (length (collectNodes n) <= fuel)%nat ->
    collectDescendants fuel nodes (n_id n) = Some (descendantIds n).
Proof.
  intros Hnd Hclosed.
  induction n as [r i cs IH] using LayoutNode_nested_ind.
  intros fuel Hn Hfuel.
  destruct fuel as [|fuel];
    [rewrite collectNodes_unfold in Hfuel; cbn in Hfuel; lia|].
  cbn [collectDescendants]. rewrite (find_by_id nodes _ Hnd Hn).
  change (descendantsLoop fuel nodes (n_children (LNode r i cs))
          = Some (descendantIds (LNode r i cs))).
  unfold descendantIds. cbn [n_children].
  rewrite collectNodes_unfold in Hfuel. cbn [length n_children] in Hfuel.
  assert (Hcs : forall c, In c cs -> In c nodes).
  { intros c Hc. apply (Hclosed _ c Hn). exact Hc. }
  clear Hn. revert Hfuel Hcs.
  induction IH as [|c cs Hc _ IHcs]; intros Hfuel Hcs; [reflexivity|].
  cbn [descendantsLoop flat_map] in *. rewrite length_app in Hfuel.
  assert (Hcn : In c nodes) by (apply Hcs; left; reflexivity).
  assert (Hcf : (length (collectNodes c) <= fuel)%nat) by lia.
  rewrite (Hc fuel Hcn Hcf).
  fold (descendantsLoop fuel nodes).
  assert (Hrest : (S (length (flat_map collectNodes cs)) <= S fuel)%nat) by lia.
  rewrite (IHcs Hrest (fun c' Hc' => Hcs c' (or_intror Hc'))).
  rewrite map_app. unfold descendantIds.
  rewrite (collectNodes_unfold c). reflexivity.
Qed.

Lemma buildDescendantsMap_lookup (fuel : nat) (allNodes : list LayoutNode)
    (desc : LayoutNode -> list string) (nodes : list LayoutNode) :
  (forall n, In n nodes -> collectDescendants fuel allNodes (n_id n) = Some (desc n)) ->
  forall m0,
    exists dm,
      buildDescendantsMap fuel allNodes nodes m0 = Some dm
      /\ (forall k, ~ In k (map n_id nodes) -> dm !! k = m0 !! k)
      /\ (NoDup (map n_id nodes) ->
          forall n, In n nodes -> dm !! n_id n = Some (desc n)).
Proof.
  induction nodes as [|a nodes IH]; intros Hall m0; cbn [buildDescendantsMap].
  - exists m0. split; [reflexivity|]. split; [reflexivity | intros _ n []].
  - rewrite (Hall a) by (left; reflexivity).
    destruct (IH (fun n Hn => Hall n (or_intror Hn)) (<[ n_id a := desc a ]> m0))
      as (dm & Heq & Hout & Hin).
    exists dm. split; [exact Heq|]. split.
    + intros k Hk. cbn [map In] in Hk. rewrite Hout by tauto.
      apply lookup_insert_ne. tauto.
    + intros Hnd n Hn. cbn [map] in Hnd. apply NoDup_cons in Hnd as [Ha Hnd].
      rewrite list_elem_of_In in Ha.
      destruct Hn as [<- | Hn].
      * rewrite Hout by exact Ha. apply lookup_insert_eq.
      * apply Hin; assumption.
Qed.

Lemma descendantsMap_spec (root : LayoutNode) :
  NoDup (idsOf root) ->
  exists dm,
    descendantsMap (collectNodes root) = Some dm
    /\ (forall k, ~ In k (idsOf root) -> dm !! k = None)
    /\ (forall n, In n (collectNodes root) -> dm !! n_id n = Some (descendantIds n)).
Proof.
  intros Hnd. unfold descendantsMap.
  destruct (buildDescendantsMap_lookup (S (length (collectNodes root)))
              (collectNodes root) descendantIds (collectNodes root)) with (m0 := (∅ : gmap string (list string)))
    as (dm & Heq & Hout & Hin).
  - intros n Hn. apply collectDescendants_enough; try assumption.
    + intros n' c Hn' Hc. eapply collectNodes_trans; [exact Hn'|].
      eapply collectNodes_child; [exact Hc | apply collectNodes_self].
    + pose proof (collectNodes_length_le root n Hn). lia.
  - exists dm. split; [exact Heq|]. split.
    + intros k Hk. rewrite (Hout k Hk). apply lookup_empty.
    + intros n Hn. apply Hin; assumption.
Qed.

(** ** Drag handling: the candidate map *)

Lemma descend_fold_lookup (nm : gmap string NodeInfo)
    (g : string -> NodeInfo -> XY) (ds : list string) (k : string) :
  forall next0 : gmap string XY,
    let next :=
      fold_left (fun (next : gmap string XY) childId =>
        match nm !! childId with
        | None => next
        | Some cm => <[ childId := g childId cm ]> next
        end) ds next0 in
    (~ In k ds -> next !! k = next0 !! k)
    /\ (In k ds -> forall cm, nm !! k = Some cm -> next !! k = Some (g k cm)).
Proof.
  induction ds as [|d ds IH]; intros next0; cbv zeta; cbn [fold_left].
  - split; [reflexivity | intros []].
  - match goal with |- context [fold_left ?f ds ?n1] =>
      destruct (IH n1) as [IH1 IH2] end.
    split.
    + intros Hk. cbn [In] in Hk. rewrite IH1 by tauto.
      destruct (nm !! d); [apply lookup_insert_ne; tauto | reflexivity].
    + intros Hk cm Hcm. destruct (in_dec String.string_dec k ds) as [Hin | Hnin].
      * apply IH2; assumption.
      * destruct Hk as [-> | Hk]; [|contradiction].
        rewrite IH1 by exact Hnin. rewrite Hcm. apply lookup_insert_eq.
Qed.

Section DragFacts.

Variable atan2 : Q -> Q -> Q.
Variable PI : Q.

Lemma dragNext_fullMove (ctx : DragContext) (root n : LayoutNode) (h : Heap)
    (x y : Q) (prev : gmap string XY) :
  NoDup (idsOf root) ->
  In n (collectNodes root) ->
  ctx_nodeMap ctx = buildNodeMap (collectNodes root) h ->
  ctx_descendants ctx !! n_id n = Some (descendantIds n) ->
  fullMove h n x y prev (dragNext ctx (infoOf h n) (n_id n) x y prev).
Proof.
  intros Hnd Hn Hnm Hdm. unfold fullMove, dragNext. cbv zeta.
  rewrite Hdm. change (default [] (Some (descendantIds n))) with (descendantIds n).
  set (g := fun (childId : string) (cm : NodeInfo) =>
    {| ov_x := posX prev childId (ni_x cm)
               + (x - posX prev (n_id n) (ni_x (infoOf h n)));
       ov_y := posY prev childId (ni_y cm)
               + (y - posY prev (n_id n) (ni_y (infoOf h n))) |}).
  pose proof (fun k => descend_fold_lookup (ctx_nodeMap ctx) g (descendantIds n) k
                (<[ n_id n := {| ov_x := x; ov_y := y |} ]> prev)) as Hfold.
  cbv zeta in Hfold. unfold g in Hfold.
  split; [|split].
  - destruct (Hfold (n_id n)) as [H1 _].
    rewrite H1; [apply lookup_insert_eq|].
    apply self_not_descendant. eapply NoDup_ids_sub; eauto.
  - intros m Hm. destruct (Hfold (n_id m)) as [_ H2].
    assert (Hmr : In m (collectNodes root)).
    { eapply collectNodes_trans; [exact Hn|].
      rewrite collectNodes_unfold. right. exact Hm. }
    rewrite (H2 ltac:(unfold descendantIds; apply in_map; exact Hm) (infoOf h m)).
    + reflexivity.
    + rewrite Hnm. apply buildNodeMap_lookup; assumption.
  - intros k Hk Hnin. destruct (Hfold k) as [H1 _].
    rewrite (H1 Hnin). apply lookup_insert_ne. congruence.
Qed.

(** ** Drag handling: the crossing test *)

Lemma anyPairReversed_true (co : gmap string Q) (l : list (string * Q)) :
  anyPairReversed PI co l = true <->
  exists i j a b,
    (i < j)%nat /\ l !! i = Some a /\ l !! j = Some b
    /\ pairReversed PI co a b = true.
Proof.
  induction l as [|x l IH]; cbn [anyPairReversed].
  - split; [discriminate | intros (i & j & a & b & _ & Hi & _); discriminate].
  - rewrite orb_true_iff, IH, existsb_exists. split.
    + intros [(b & Hb & Hrev) | (i & j & a & b & Hij & Hi & Hj & Hrev)].
      * apply list_elem_of_In, list_elem_of_lookup_1 in Hb as (j & Hj).
        exists 0%nat, (S j), x, b. repeat split; [lia | exact Hj | exact Hrev].
      * exists (S i), (S j), a, b. repeat split; [lia | exact Hi | exact Hj | exact Hrev].
    + intros (i & j & a & b & Hij & Hi & Hj & Hrev).
      destruct j as [|j]; [lia|]. cbn in Hj.
      destruct i as [|i].
      * cbn in Hi. inversion Hi; subst. left. exists b. split; [|exact Hrev].
        apply list_elem_of_In. eapply list_elem_of_lookup_2. exact Hj.
      * right. exists i, j, a, b. repeat split; [lia | exact Hi | exact Hj | exact Hrev].
Qed.

Lemma originalSiblingOrder_lookup (root p : LayoutNode) (base : Heap) :
  NoDup (idsOf root) ->
  In p (collectNodes root) ->
  (2 <= length (n_children p))%nat ->
  exists co,
    originalSiblingOrder atan2 (collectNodes root) base !! n_id p = Some co
    /\ forall c, In c (n_children p) ->
         co !! n_id c = Some (baselineAngle atan2 base p c).
Proof.
  intros Hnd Hp Hlen.
  set (childOrders := fun node : LayoutNode =>
    fold_left (fun (co : gmap string Q) child =>
      <[ n_id child := baselineAngle atan2 base node child ]> co)
      (n_children node) (∅ : gmap string Q)).
  exists (childOrders p). split.
  - assert (Hf : forall (m : gmap string (gmap string Q)) (a : LayoutNode),
      (if Nat.ltb (length (n_children a)) 2 then m
       else <[ n_id a := childOrders a ]> m)
      = match (if Nat.ltb (length (n_children a)) 2 then None
               else Some (childOrders a)) with
        | Some v => <[ n_id a := v ]> m
        | None => m
        end).
    { intros m a. destruct (Nat.ltb (length (n_children a)) 2); reflexivity. }
    destruct (fold_insert_lookup n_id
      (fun node => if Nat.ltb (length (n_children node)) 2 then None
                   else Some (childOrders node))
      (fun orderMap node =>
         if Nat.ltb (length (n_children node)) 2 then orderMap
         else <[ n_id node := childOrders node ]> orderMap)
      (collectNodes root) Hf
      (∅ : gmap string (gmap string Q))) as [_ H2].
    specialize (H2 Hnd p Hp).
    apply Nat.ltb_ge in Hlen. rewrite Hlen in H2. exact H2.
  - intros c Hc.
    destruct (fold_insert_lookup n_id
      (fun child => Some (baselineAngle atan2 base p child))
      (fun (co : gmap string Q) child =>
         <[ n_id child := baselineAngle atan2 base p child ]> co)
      (n_children p) (fun _ _ => eq_refl) (∅ : gmap string Q)) as [_ H2].
    apply H2; [|exact Hc].
    apply NoDup_ids_children. eapply NoDup_ids_sub; eauto.
Qed.

Lemma newAnglesOf_all (ctx : DragContext) (root p : LayoutNode) (h : Heap)
    (proposed : gmap string XY) (cs : list LayoutNode) :
  NoDup (idsOf root) ->
  ctx_nodeMap ctx = buildNodeMap (collectNodes root) h ->
  (forall c, In c cs -> In c (collectNodes root)) ->
  newAnglesOf atan2 ctx proposed
    (candX h proposed p + nodeW h p / 2) (candY h proposed p + nodeH h p / 2) cs
  = map (fun c => (n_id c, candidateAngle atan2 h proposed p c)) cs.
Proof.
  intros Hnd Hnm. unfold newAnglesOf.
  induction cs as [|c cs IH]; intros Hcs; [reflexivity|].
  cbn [flat_map map]. rewrite IH by (intros c' Hc'; apply Hcs; right; exact Hc').
  rewrite Hnm.
  destruct (buildNodeMap_lookup (collectNodes root) h) as [_ Hlook].
  rewrite (Hlook Hnd c) by (apply Hcs; left; reflexivity).
  reflexivity.
Qed.

Lemma wouldCrossEdges_crosses (ctx : DragContext) (root : LayoutNode)
    (h base : Heap) (proposed : gmap string XY) :
  NoDup (idsOf root) ->
  ctx_nodes ctx = collectNodes root ->
  ctx_nodeMap ctx = buildNodeMap (collectNodes root) h ->
  ctx_orig ctx = originalSiblingOrder atan2 (collectNodes root) base ->
  wouldCrossEdges atan2 PI ctx proposed = true
  <-> crosses atan2 PI (collectNodes root) h base proposed.
Proof.
  intros Hnd Hnodes Hnm Horig. unfold wouldCrossEdges, crosses.
  rewrite existsb_exists, Hnodes.
  assert (Hpar : forall p, In p (collectNodes root) ->
    (2 <= length (n_children p))%nat ->
    parentCrossed atan2 PI ctx proposed p = true <->
    exists i j a b, (i < j)%nat /\ n_children p !! i = Some a
      /\ n_children p !! j = Some b /\ pairFlips atan2 PI h base proposed p a b).
  { intros p Hp Hlen. unfold parentCrossed.
    pose proof Hlen as Hlen'. apply Nat.ltb_ge in Hlen'. rewrite Hlen'.
    destruct (originalSiblingOrder_lookup root p base Hnd Hp Hlen) as (co & Hco & Hcs).
    rewrite Horig, Hco, Hnm.
    destruct (buildNodeMap_lookup (collectNodes root) h) as [_ Hlook].
    rewrite (Hlook Hnd p Hp).
    change (posX proposed (n_id p) (ni_x (infoOf h p)) + ni_w (infoOf h p) / 2)
      with (candX h proposed p + nodeW h p / 2).
    change (posY proposed (n_id p) (ni_y (infoOf h p)) + ni_h (infoOf h p) / 2)
      with (candY h proposed p + nodeH h p / 2).
    rewrite (newAnglesOf_all ctx root p h proposed (n_children p) Hnd Hnm).
    2: { intros c Hc. eapply collectNodes_trans; [exact Hp|].
         eapply collectNodes_child; [exact Hc | apply collectNodes_self]. }
    rewrite anyPairReversed_true.
    assert (Hpair : forall a b, In a (n_children p) -> In b (n_children p) ->
      pairReversed PI co (n_id a, candidateAngle atan2 h proposed p a)
        (n_id b, candidateAngle atan2 h proposed p b) = true
      <-> pairFlips atan2 PI h base proposed p a b).
    { intros a b Ha Hb. unfold pairReversed, pairFlips. cbn [fst snd].
      rewrite (Hcs a Ha), (Hcs b Hb).
      destruct (Qgtb (normalizeAngle PI _) 0), (Qgtb (normalizeAngle PI _) 0);
        cbn; split; congruence. }
    split.
    - intros (i & j & a & b & Hij & Hi & Hj & Hrev).
      rewrite list_lookup_fmap in Hi, Hj.
      destruct (n_children p !! i) as [a'|] eqn:Ea; [|discriminate].
      destruct (n_children p !! j) as [b'|] eqn:Eb; [|discriminate].
      cbn in Hi, Hj. inversion Hi; inversion Hj; subst.
      exists i, j, a', b'. repeat split; try assumption.
      apply Hpair; [| |exact Hrev]; apply list_elem_of_In;
        eapply list_elem_of_lookup_2; eauto.
    - intros (i & j & a & b & Hij & Hi & Hj & Hflip).
      exists i, j, (n_id a, candidateAngle atan2 h proposed p a),
        (n_id b, candidateAngle atan2 h proposed p b).
      rewrite !list_lookup_fmap, Hi, Hj. repeat split; try assumption.
      apply Hpair; [| |exact Hflip]; apply list_elem_of_In;
        eapply list_elem_of_lookup_2; eauto. }
  split.
  - intros (p & Hp & Hcr).
    assert (Hlen : (2 <= length (n_children p))%nat).
    { unfold parentCrossed in Hcr.
      destruct (Nat.ltb (length (n_children p)) 2) eqn:E; [discriminate|].
      apply Nat.ltb_ge in E. exact E. }
    apply (Hpar p Hp Hlen) in Hcr as (i & j & a & b & Hij & Hi & Hj & Hflip).
    exists p, a, b, i, j. auto 10.
  - intros (p & a & b & i & j & Hp & Hlen & Hij & Hi & Hj & Hflip).
    exists p. split; [exact Hp|]. apply (Hpar p Hp Hlen).
    exists i, j, a, b. auto.
Qed.

End DragFacts.

(** ** Drag handling: atomic accept or reject *)

(** C3.  With unique identifiers in the layout, the render context exists
    (the descendant table is computed within its call-depth bound), and for
    every prior override map and every proposed drag: if the dragged
    identifier is absent from the layout, the handler returns the prior map
    object; otherwise it either returns the prior map object, exactly when
    some parent with at least two children has a sibling pair whose
    normalised angular difference is positive in exactly one of the
    baseline and the candidate layouts, or else it returns the candidate
    map, in which the dragged node sits at the requested position, every
    proper descendant is moved by the same delta, and all other entries are
    those of the prior map. *)
Theorem handleNodeDrag_is_all_or_nothing
    (atan2 : Q -> Q -> Q) (PI : Q) (root : LayoutNode) (h base : Heap) :
  NoDup (idsOf root) ->
  exists ctx,
    dragContext atan2 root h base = Some ctx
    /\ forall nodeId x y prev,
         let u := handleNodeDrag atan2 PI ctx nodeId x y prev in
         (~ In nodeId (idsOf root) -> u = ReturnPrev)
         /\ (forall n, In n (collectNodes root) -> n_id n = nodeId ->
               exists next,
                 fullMove h n x y prev next
                 /\ ((u = ReturnPrev
                      /\ crosses atan2 PI (collectNodes root) h base next)
                     \/ (u = ReturnNext next
                         /\ ~ crosses atan2 PI (collectNodes root) h base next))).
Proof.
  intros Hnd.
  destruct (descendantsMap_spec root Hnd) as (dm & Hdm & Hdm_out & Hdm_in).
  unfold dragContext. cbv zeta. rewrite Hdm.
  eexists. split; [reflexivity|].
  intros nodeId x y prev. cbv zeta.
  set (ctx := {| ctx_nodes := collectNodes root;
                 ctx_nodeMap := buildNodeMap (collectNodes root) h;
                 ctx_descendants := dm;
                 ctx_orig := originalSiblingOrder atan2 (collectNodes root) base |}).
  destruct (buildNodeMap_lookup (collectNodes root) h) as [Hnm_out Hnm_in].
  split.
  - intros Habs. unfold handleNodeDrag. cbn [ctx_nodeMap ctx].
    rewrite (Hnm_out nodeId Habs). reflexivity.
  - intros n Hn <-.
    exists (dragNext ctx (infoOf h n) (n_id n) x y prev).
    split.
    + apply (dragNext_fullMove ctx root n h x y prev Hnd Hn eq_refl).
      apply Hdm_in, Hn.
    + unfold handleNodeDrag. cbn [ctx_nodeMap ctx].
      rewrite (Hnm_in Hnd n Hn). fold ctx.
      pose proof (wouldCrossEdges_crosses atan2 PI ctx root h base
                    (dragNext ctx (infoOf h n) (n_id n) x y prev)
                    Hnd eq_refl eq_refl eq_refl) as Hiff.
      destruct (wouldCrossEdges atan2 PI ctx _) eqn:E.
      * left. split; [reflexivity | apply Hiff; reflexivity].
      * right. split; [reflexivity|]. intros Hc. apply Hiff in Hc. discriminate.
Qed.

(** ** Angle normalisation terminates within its bound *)

Section NormalizeFacts.

Variable PI : Q.
Hypothesis PI_pos : 0 < PI.

Lemma ofNat_S (n : nat) : ofNat (S n) == ofNat n + 1.
Proof.
  unfold ofNat. rewrite Nat2Z.inj_succ, <- Z.add_1_r, inject_Z_plus. reflexivity.
Qed.





End NormalizeFacts.

(** ** Editing the source tree *)

Lemma map_id_on {A : Type} (f : A -> A) (l : list A) :
  Forall (fun a => f a = a) l -> map f l = l.
Proof. induction 1 as [|a l Ha _ IH]; cbn [map]; congruence. Qed.

Lemma map_ext_Forall' {A B : Type} (f g : A -> B) (l : list A) :
  Forall (fun a => f a = g a) l -> map f l = map g l.
Proof. induction 1 as [|a l Ha _ IH]; cbn [map]; congruence. Qed.

Lemma mmIds_unfold (n : MindMapNode) :
  mmIds n = mm_id n :: flat_map mmIds (mm_children n).
Proof. destruct n; reflexivity. Qed.

Lemma NoDup_mmIds_children (i : string) (cs : list MindMapNode) :
  NoDup (i :: flat_map mmIds cs) ->
  ~ In i (flat_map mmIds cs) /\ Forall (fun c => NoDup (mmIds c)) cs.
Proof.
  intros Hnd. apply NoDup_cons in Hnd as [Hi Hnd]. rewrite list_elem_of_In in Hi.
  split; [exact Hi|].
  clear Hi. induction cs as [|c cs IH]; constructor.
  - cbn [flat_map] in Hnd. apply NoDup_app in Hnd as (H1 & _ & _). exact H1.
  - apply IH. cbn [flat_map] in Hnd. apply NoDup_app in Hnd as (_ & _ & H3). exact H3.
Qed.

Lemma mapNodes_absent (f : string -> string * option bool -> string * option bool)
    (n : MindMapNode) :
  (forall i d, In i (mmIds n) -> f i d = d) -> mapNodes f n = n.
Proof.
  induction n as [i t ic c cs IH] using MindMapNode_nested_ind.
  intros Hf. cbn [mapNodes]. rewrite Hf by (left; reflexivity). cbn [fst snd].
  f_equal. apply map_id_on.
  rewrite List.Forall_forall in IH |- *. intros a Ha. apply IH; [exact Ha|].
  intros j d Hj. apply Hf. right. apply in_flat_map. exists a. split; assumption.
Qed.

Lemma toggleCollapse_ids (n : MindMapNode) (t : string) :
  mmIds (toggleCollapse n t) = mmIds n.
Proof.
  induction n as [i tx ic c cs IH] using MindMapNode_nested_ind.
  cbn [toggleCollapse]. destruct (String.eqb i t); [reflexivity|].
  cbn [mmIds]. f_equal.
  induction IH as [|a l Ha _ IHl]; [reflexivity|].
  cbn [map flat_map]. rewrite Ha, IHl. reflexivity.
Qed.

Lemma toggleCollapse_mapNodes (n : MindMapNode) (t : string) :
  NoDup (mmIds n) -> toggleCollapse n t = mapNodes (flipAt t) n.
Proof.
  induction n as [i tx ic c cs IH] using MindMapNode_nested_ind.
  intros Hnd. cbn [mmIds] in Hnd.
  destruct (NoDup_mmIds_children i cs Hnd) as [Hi Hcs].
  cbn [toggleCollapse mapNodes]. unfold flipAt at 1 2.
  destruct (String.eqb i t) eqn:E; cbn [fst snd].
  - apply String.eqb_eq in E. subst t. f_equal. symmetry. apply map_id_on.
    rewrite List.Forall_forall. intros a Ha. apply mapNodes_absent.
    intros j d Hj. unfold flipAt. destruct (String.eqb j i) eqn:Ej; [|reflexivity].
    apply String.eqb_eq in Ej. subst j. exfalso. apply Hi.
    apply in_flat_map. exists a. split; assumption.
  - f_equal. apply map_ext_Forall'.
    rewrite List.Forall_forall in IH, Hcs |- *. intros a Ha. apply IH; auto.
Qed.

(** X1.  [toggleCollapse] keeps the identifiers of the tree and their
    order; it returns the tree as it is when the target identifier does not
    occur in it; and when the identifiers are distinct it negates the
    collapsed flag of the target node and changes no other text, flag or
    child list. *)
Theorem toggleCollapse_flips_exactly_the_target (n : MindMapNode) (targetId : string) :
  mmIds (toggleCollapse n targetId) = mmIds n
  /\ (~ In targetId (mmIds n) -> toggleCollapse n targetId = n)
  /\ (NoDup (mmIds n) -> toggleCollapse n targetId = mapNodes (flipAt targetId) n).
Proof.
  split; [apply toggleCollapse_ids|]. split; [|apply toggleCollapse_mapNodes].
  induction n as [i tx ic c cs IH] using MindMapNode_nested_ind.
  intros Hnin. cbn [mmIds In] in Hnin. cbn [toggleCollapse].
  destruct (String.eqb i targetId) eqn:E.
  - apply String.eqb_eq in E. tauto.
  - f_equal. apply map_id_on. rewrite List.Forall_forall in IH |- *.
    intros a Ha. apply IH; [exact Ha|]. intros Hin. apply Hnin. right.
    apply in_flat_map. exists a. split; assumption.
Qed.

Section ToggleTwice.

Variable measureText : string -> option Q -> string -> string -> Q * Q.
Variable config : MindMapConfig.

Lemma sameView_refl (n : MindMapNode) : sameView n n.
Proof.
  induction n as [i t ic c cs IH] using MindMapNode_nested_ind.
  constructor; [reflexivity|].
  induction IH; constructor; assumption.
Qed.

Lemma toggle_twice_sameView (n : MindMapNode) (t : string) :
  sameView (toggleCollapse (toggleCollapse n t) t) n.
Proof.
  induction n as [i tx ic c cs IH] using MindMapNode_nested_ind.
  cbn [toggleCollapse]. destruct (String.eqb i t) eqn:E; cbn [toggleCollapse]; rewrite E.
  - constructor.
    + destruct c as [[|]|]; reflexivity.
    + clear IH. induction cs as [|a l IHl]; [constructor|].
      constructor; [apply sameView_refl | exact IHl].
  - constructor; [reflexivity|].
    induction IH as [|a l Ha _ IHl]; cbn [map]; constructor; assumption.
Qed.

Lemma sameView_build (n n' : MindMapNode) :
  sameView n n' ->
  forall depth st,
    buildLayoutTree measureText n depth config st
    = buildLayoutTree measureText n' depth config st.
Proof.
  revert n'. induction n as [i t ic c cs IH] using MindMapNode_nested_ind.
  intros n' Hv depth st. inversion Hv as [i0 t0 ic0 c0 c' cs0 cs' Hc Hcs]; subst.
  rewrite !buildLayoutTree_unfold. cbv zeta.
  unfold expands, calcNodeSize. cbn [mm_collapsed mm_text mm_icon mm_id mm_children].
  rewrite Hc.
  destruct (negb (truthyFlag c') && Nat.ltb depth (maxDepth (structure config)));
    [|reflexivity].
  match goal with |- context [buildChildren _ _ _ cs ?s] => generalize s end.
  intros s.
  assert (Hb : buildChildren measureText depth config cs s
               = buildChildren measureText depth config cs' s).
  { clear Hv. revert s. induction Hcs as [|a a' l l' Ha Hl IHl]; intros s; [reflexivity|].
    rewrite !buildChildren_cons.
    apply Forall_cons in IH as [IHa IHrest].
    rewrite (IHa a' Ha (S depth) s). rewrite (IHl IHrest). reflexivity. }
  rewrite Hb. reflexivity.
Qed.

End ToggleTwice.

(** X2.  Toggling the same identifier twice gives a tree that is laid
    out as the original one: [buildLayoutTree] and [computeLayout] return
    the same result for both.  (The trees themselves may differ: a flag
    that was absent comes back as [false].) *)
Theorem toggling_twice_restores_the_layout
    (measureText : string -> option Q -> string -> string -> Q * Q)
    (cos sin : Q -> Q) (PI : Q)
    (config : MindMapConfig) (n : MindMapNode) (targetId : string) :
  (forall depth st,
      buildLayoutTree measureText (toggleCollapse (toggleCollapse n targetId) targetId)
        depth config st
      = buildLayoutTree measureText n depth config st)
  /\ computeLayout measureText cos sin PI
       (toggleCollapse (toggleCollapse n targetId) targetId) config
     = computeLayout measureText cos sin PI n config.
Proof.
  assert (Hb : forall depth st,
      buildLayoutTree measureText (toggleCollapse (toggleCollapse n targetId) targetId)
        depth config st
      = buildLayoutTree measureText n depth config st).
  { intros depth st. apply sameView_build, toggle_twice_sameView. }
  split; [exact Hb|]. unfold computeLayout. rewrite Hb. reflexivity.
Qed.

Lemma fold_count (l : list MindMapNode) :
  Forall (fun c => countNodes c = length (mmIds c)) l ->
  forall acc,
    fold_left (fun sum c => (sum + countNodes c)%nat) l acc
    = (acc + length (flat_map mmIds l))%nat.
Proof.
  induction 1 as [|a l Ha _ IHl]; intros acc; cbn [fold_left flat_map length].
  - lia.
  - rewrite IHl, length_app, Ha. lia.
Qed.

Lemma countNodes_ids (n : MindMapNode) : countNodes n = length (mmIds n).
Proof.
  induction n as [i t ic c cs IH] using MindMapNode_nested_ind.
  cbn [countNodes mmIds length]. rewrite (fold_count cs IH). lia.
Qed.

Lemma updateNodeText_ids (n : MindMapNode) (k text : string) :
  mmIds (updateNodeText n k text) = mmIds n.
Proof.
  induction n as [i tx ic c cs IH] using MindMapNode_nested_ind.
  cbn [updateNodeText]. destruct (String.eqb i k); [reflexivity|].
  cbn [mmIds]. f_equal.
  induction IH as [|a l Ha _ IHl]; [reflexivity|].
  cbn [map flat_map]. rewrite Ha, IHl. reflexivity.
Qed.

(** X3.  [countNodes] counts every node of the source tree once,
    collapsed or not; toggling and renaming keep the count; and the nodes
    of the computed layout together with the source nodes hidden below a
    collapsed or depth-capped node add up to it. *)
Theorem countNodes_counts_every_source_node
    (measureText : string -> option Q -> string -> string -> Q * Q)
    (cos sin : Q -> Q) (PI : Q) (config : MindMapConfig) (n : MindMapNode) :
  countNodes n = length (mmIds n)
  /\ (forall k, countNodes (toggleCollapse n k) = countNodes n)
  /\ (forall k text, countNodes (updateNodeText n k text) = countNodes n)
  /\ (length (nodes (computeLayout measureText cos sin PI n config))
      + length (hiddenIds config n 0))%nat = countNodes n.
Proof.
  split; [apply countNodes_ids|]. split.
  { intros k. rewrite !countNodes_ids, toggleCollapse_ids. reflexivity. }
  split.
  { intros k text. rewrite !countNodes_ids, updateNodeText_ids. reflexivity. }
  rewrite countNodes_ids, (Permutation_length (mmIds_split config n 0)), length_app.
  f_equal. rewrite <- (build_ids measureText config n 0 (0%nat, emptyHeap)).
  rewrite length_map. unfold computeLayout.
  destruct (buildLayoutTree measureText n 0 config (0%nat, emptyHeap)) as [root [k h0]].
  reflexivity.
Qed.

Lemma updateNodeText_mapNodes (n : MindMapNode) (k text : string) :
  NoDup (mmIds n) -> updateNodeText n k text = mapNodes (retextAt k text) n.
Proof.
  induction n as [i tx ic c cs IH] using MindMapNode_nested_ind.
  intros Hnd. cbn [mmIds] in Hnd.
  destruct (NoDup_mmIds_children i cs Hnd) as [Hi Hcs].
  cbn [updateNodeText mapNodes]. unfold retextAt at 1 2.
  destruct (String.eqb i k) eqn:E; cbn [fst snd].
  - apply String.eqb_eq in E. subst k. f_equal. symmetry. apply map_id_on.
    rewrite List.Forall_forall. intros a Ha. apply mapNodes_absent.
    intros j d Hj. unfold retextAt. destruct (String.eqb j i) eqn:Ej; [|reflexivity].
    apply String.eqb_eq in Ej. subst j. exfalso. apply Hi.
    apply in_flat_map. exists a. split; assumption.
  - f_equal. apply map_ext_Forall'.
    rewrite List.Forall_forall in IH, Hcs |- *. intros a Ha. apply IH; auto.
Qed.

(** X4.  [updateNodeText] keeps the identifiers of the tree and their
    order; it returns the tree as it is when the identifier does not occur;
    and when the identifiers are distinct it replaces the text of the target
    node and changes nothing else. *)
Theorem updateNodeText_renames_exactly_the_target
    (n : MindMapNode) (nodeId text : string) :
  mmIds (updateNodeText n nodeId text) = mmIds n
  /\ (~ In nodeId (mmIds n) -> updateNodeText n nodeId text = n)
  /\ (NoDup (mmIds n) ->
      updateNodeText n nodeId text = mapNodes (retextAt nodeId text) n).
Proof.
  split; [apply updateNodeText_ids|]. split; [|apply updateNodeText_mapNodes].
  induction n as [i tx ic c cs IH] using MindMapNode_nested_ind.
  intros Hnin. cbn [mmIds In] in Hnin. cbn [updateNodeText].
  destruct (String.eqb i nodeId) eqn:E.
  - apply String.eqb_eq in E. tauto.
  - f_equal. apply map_id_on. rewrite List.Forall_forall in IH |- *.
    intros a Ha. apply IH; [exact Ha|]. intros Hin. apply Hnin. right.
    apply in_flat_map. exists a. split; assumption.
Qed.

Lemma removeNode_spec_aux (nodeId : string) (n : MindMapNode) :
  match removeNode n nodeId with
  | None => mm_id n = nodeId
  | Some n' =>
      mm_id n <> nodeId /\ mm_id n' = mm_id n
      /\ ~ In nodeId (mmIds n')
      /\ sublist (mmIds n') (mmIds n)
      /\ (~ In nodeId (mmIds n) -> n' = n)
  end.
Proof.
  induction n as [i t ic c cs IH] using MindMapNode_nested_ind.
  cbn [removeNode]. destruct (String.eqb i nodeId) eqn:E.
  - apply String.eqb_eq in E. exact E.
  - apply String.eqb_neq in E. cbn [mm_id mmIds].
    assert (Hcs : ~ In nodeId (flat_map mmIds (omap (fun c => removeNode c nodeId) cs))
                  /\ sublist (flat_map mmIds (omap (fun c => removeNode c nodeId) cs))
                       (flat_map mmIds cs)
                  /\ (~ In nodeId (flat_map mmIds cs) ->
                      omap (fun c => removeNode c nodeId) cs = cs)).
    { induction IH as [|a l Ha _ IHl]; cbn [omap list_omap flat_map].
      - repeat split; [intros [] | constructor].
      - destruct IHl as (Hn & Hs & Hid).
        destruct (removeNode a nodeId) as [a'|] eqn:Ea.
        + destruct Ha as (_ & _ & Hna & Hsa & Hida). cbn [flat_map].
          repeat split.
          * rewrite in_app_iff. tauto.
          * apply sublist_app; assumption.
          * intros Hnin. rewrite in_app_iff in Hnin.
            rewrite Hida, Hid by tauto. reflexivity.
        + repeat split.
          * exact Hn.
          * apply sublist_inserts_l. exact Hs.
          * intros Hnin. exfalso. apply Hnin. apply in_or_app. left.
            rewrite mmIds_unfold. left. exact Ha. }
    destruct Hcs as (Hn & Hs & Hid).
    repeat split; try assumption.
    + intros [? | ?]; tauto.
    + apply sublist_skip. exact Hs.
    + intros Hnin. cbn [In] in Hnin. rewrite Hid by tauto. reflexivity.
Qed.

Lemma omap_id_on {A : Type} (f : A -> option A) (l : list A) :
  Forall (fun a => f a = Some a) l -> omap f l = l.
Proof.
  induction 1 as [|a l Ha _ IH]; [reflexivity|].
  cbn [omap list_omap]. rewrite Ha. f_equal. exact IH.
Qed.

Lemma omap_app' {A B : Type} (f : A -> option B) (l1 l2 : list A) :
  omap f (l1 ++ l2) = omap f l1 ++ omap f l2.
Proof.
  induction l1 as [|a l1 IH]; [reflexivity|].
  cbn [app omap list_omap]. destruct (f a); cbn [app]; rewrite <- IH; reflexivity.
Qed.

Lemma removeNode_absent (nodeId : string) (n : MindMapNode) :
  ~ In nodeId (mmIds n) -> removeNode n nodeId = Some n.
Proof.
  intros Hnin. pose proof (removeNode_spec_aux nodeId n) as H.
  destruct (removeNode n nodeId) as [n'|].
  - destruct H as (_ & _ & _ & _ & Hid). rewrite Hid by exact Hnin. reflexivity.
  - exfalso. apply Hnin. rewrite mmIds_unfold. left. exact H.
Qed.

Lemma NoDup_mmIds_split (l1 l2 : list MindMapNode) (a : MindMapNode) :
  NoDup (flat_map mmIds (l1 ++ a :: l2)) ->
  NoDup (mmIds a)
  /\ (forall x, In x (mmIds a) -> ~ In x (flat_map mmIds l1) /\ ~ In x (flat_map mmIds l2)).
Proof.
  rewrite flat_map_app. cbn [flat_map]. intros Hnd.
  apply NoDup_app in Hnd as (_ & Hd1 & Hnd).
  apply NoDup_app in Hnd as (Ha & Hd2 & _).
  split; [exact Ha|]. intros x Hx. split.
  - intros H1. apply (Hd1 x); [apply list_elem_of_In; exact H1|].
    apply list_elem_of_In. apply in_or_app. left. exact Hx.
  - intros H2. apply (Hd2 x); apply list_elem_of_In; assumption.
Qed.

Lemma removeNode_subtree (nodeId : string) (n : MindMapNode) :
  NoDup (mmIds n) -> In nodeId (mmIds n) -> mm_id n <> nodeId ->
  forall d, exists s ds n',
    occursAt n d s ds /\ mm_id s = nodeId
    /\ removeNode n nodeId = Some n'
    /\ Permutation (mmIds n) (mmIds n' ++ mmIds s).
Proof.
  induction n as [i t ic c cs IH] using MindMapNode_nested_ind.
  intros Hnd Hin Hne d. cbn [mm_id] in Hne. cbn [mmIds] in Hnd, Hin.
  destruct Hin as [? | Hin]; [contradiction|].
  destruct (NoDup_mmIds_children i cs Hnd) as [Hi Hcs].
  apply in_flat_map in Hin as (a & Ha & Hin).
  destruct (in_split _ _ Ha) as (l1 & l2 & ->).
  apply NoDup_cons in Hnd as [_ Hnd].
  destruct (NoDup_mmIds_split l1 l2 a Hnd) as [Hnda Hdisj].
  destruct (Hdisj nodeId Hin) as [Hn1 Hn2].
  assert (Hrem : removeNode (MMNode i t ic c (l1 ++ a :: l2)) nodeId
                 = Some (MMNode i t ic c
                           (l1 ++ omap (fun c => removeNode c nodeId) [a] ++ l2))).
  { cbn [removeNode]. apply String.eqb_neq in Hne. rewrite Hne. do 2 f_equal.
    change (a :: l2) with ([a] ++ l2). rewrite !omap_app'.
    rewrite (omap_id_on _ l1), (omap_id_on _ l2); [reflexivity | |].
    - rewrite List.Forall_forall. intros x Hx. apply removeNode_absent.
      intros Hc. apply Hn2. apply in_flat_map. exists x. split; assumption.
    - rewrite List.Forall_forall. intros x Hx. apply removeNode_absent.
      intros Hc. apply Hn1. apply in_flat_map. exists x. split; assumption. }
  rewrite Hrem. cbn [omap list_omap].
  destruct (String.eqb (mm_id a) nodeId) eqn:Ea.
  - apply String.eqb_eq in Ea.
    exists a, (S d). eexists. split; [|split; [exact Ea | split; [reflexivity|]]].
    + eapply occ_child; [cbn [mm_children]; exact Ha | constructor].
    + assert (Hra : removeNode a nodeId = None).
      { destruct a as [ia ta ica ca csa]. cbn [mm_id] in Ea. cbn [removeNode].
        apply String.eqb_eq in Ea. rewrite Ea. reflexivity. }
      rewrite Hra. cbn [app mmIds]. rewrite !flat_map_app. cbn [flat_map].
      apply perm_skip. rewrite <- app_assoc. apply Permutation_app_head.
      apply Permutation_app_comm.
  - apply String.eqb_neq in Ea.
    rewrite List.Forall_forall in IH.
    destruct (IH a Ha Hnda Hin Ea (S d)) as (s & ds & a' & Hocc & Hs & Hra & Hperm).
    exists s, ds. eexists. split; [|split; [exact Hs | split; [reflexivity|]]].
    + eapply occ_child; [cbn [mm_children]; exact Ha | exact Hocc].
    + rewrite Hra. cbn [app mmIds]. rewrite !flat_map_app. cbn [flat_map].
      apply perm_skip. rewrite Hperm. rewrite <- !app_assoc.
      apply Permutation_app_head. apply Permutation_app_head.
      apply Permutation_app_comm.
Qed.

(** X5.  [removeNode] returns [null] exactly when the root carries the
    target identifier.  Otherwise the result keeps the root, no longer
    contains the target identifier, lists a subsequence of the original
    identifiers, and is the original tree when the target does not occur;
    with distinct identifiers, what disappears is exactly the subtree of the
    target.  The handler [deleteNode] never deletes the root: asked to, it
    keeps the tree as it is. *)
Theorem removeNode_deletes_the_subtree_of_the_target
    (tree : MindMapNode) (nodeId : string) :
  (removeNode tree nodeId = None <-> mm_id tree = nodeId)
  /\ (forall tree', removeNode tree nodeId = Some tree' ->
        mm_id tree' = mm_id tree
        /\ ~ In nodeId (mmIds tree')
        /\ sublist (mmIds tree') (mmIds tree)
        /\ (~ In nodeId (mmIds tree) -> tree' = tree))
  /\ (NoDup (mmIds tree) -> In nodeId (mmIds tree) -> mm_id tree <> nodeId ->
      exists s ds tree',
        occursAt tree 0 s ds /\ mm_id s = nodeId
        /\ removeNode tree nodeId = Some tree'
        /\ Permutation (mmIds tree) (mmIds tree' ++ mmIds s))
  /\ mm_id (deleteNode tree nodeId) = mm_id tree
  /\ (mm_id tree <> nodeId -> ~ In nodeId (mmIds (deleteNode tree nodeId)))
  /\ (mm_id tree = nodeId -> deleteNode tree nodeId = tree).
Proof.
  pose proof (removeNode_spec_aux nodeId tree) as H.
  split.
  { destruct (removeNode tree nodeId) as [t'|].
    - split; [discriminate | intros; tauto].
    - tauto. }
  split.
  { intros t' Ht'. rewrite Ht' in H. tauto. }
  split.
  { intros Hnd Hin Hne. apply removeNode_subtree; assumption. }
  unfold deleteNode.
  destruct (String.eqb nodeId (mm_id tree)) eqn:E.
  - apply String.eqb_eq in E. split; [reflexivity|].
    split; [intros Hne; congruence | reflexivity].
  - apply String.eqb_neq in E.
    destruct (removeNode tree nodeId) as [t'|].
    + destruct H as (_ & Hid & Hn & _). split; [exact Hid|].
      split; [intros _; exact Hn | intros Heq; congruence].
    + congruence.
Qed.

Lemma addChildToNode_absent (p : string) (c n : MindMapNode) :
  ~ In p (mmIds n) -> addChildToNode n p c = n.
Proof.
  induction n as [i t ic col cs IH] using MindMapNode_nested_ind.
  intros Hnin. cbn [mmIds In] in Hnin. cbn [addChildToNode].
  destruct (String.eqb i p) eqn:E.
  - apply String.eqb_eq in E. tauto.
  - f_equal. apply map_id_on. rewrite List.Forall_forall in IH |- *.
    intros a Ha. apply IH; [exact Ha|]. intros Hin. apply Hnin. right.
    apply in_flat_map. exists a. split; assumption.
Qed.

Lemma addChildToNode_grafts (p : string) (c : MindMapNode) :
  forall n d s ds,
    occursAt n d s ds -> NoDup (mmIds n) -> mm_id s = p ->
    occursAt (addChildToNode n p c) d (withChild s c) ds
    /\ Permutation (mmIds (addChildToNode n p c)) (mmIds n ++ mmIds c).
Proof.
  intros n d s ds Hocc.
  induction Hocc as [n d|n d a s ds Ha Hocc IH]; intros Hnd Hs.
  - destruct n as [i t ic col cs]. cbn [mm_id] in Hs. cbn [addChildToNode].
    apply String.eqb_eq in Hs. rewrite Hs. split; [constructor|].
    cbn [mmIds]. rewrite flat_map_app. cbn [flat_map]. rewrite app_nil_r. reflexivity.
  - destruct n as [i t ic col cs]. cbn [mm_children] in Ha. cbn [mmIds] in Hnd.
    destruct (NoDup_mmIds_children i cs Hnd) as [Hi Hcs].
    assert (Hin : In p (mmIds a)) by (rewrite <- Hs; eapply occursAt_mmIds; exact Hocc).
    destruct (in_split _ _ Ha) as (l1 & l2 & ->).
    apply NoDup_cons in Hnd as [_ Hnd].
    destruct (NoDup_mmIds_split l1 l2 a Hnd) as [Hnda Hdisj].
    destruct (Hdisj p Hin) as [Hn1 Hn2].
    destruct (IH Hnda Hs) as [IHocc IHperm].
    assert (Hne : String.eqb i p = false).
    { apply String.eqb_neq. intros ->. apply Hi. apply in_flat_map.
      exists a. split; [apply in_elt | exact Hin]. }
    cbn [addChildToNode]. rewrite Hne.
    assert (Hmap : map (fun x => addChildToNode x p c) (l1 ++ a :: l2)
                   = l1 ++ addChildToNode a p c :: l2).
    { rewrite map_app. cbn [map]. rewrite (map_id_on _ l1), (map_id_on _ l2); [reflexivity | |].
      - rewrite List.Forall_forall. intros x Hx. apply addChildToNode_absent.
        intros Hc. apply Hn2. apply in_flat_map. exists x. split; assumption.
      - rewrite List.Forall_forall. intros x Hx. apply addChildToNode_absent.
        intros Hc. apply Hn1. apply in_flat_map. exists x. split; assumption. }
    rewrite Hmap. split.
    + eapply occ_child; [cbn [mm_children]; apply in_elt | exact IHocc].
    + cbn [mmIds]. rewrite !flat_map_app. cbn [flat_map app].
      apply perm_skip. rewrite IHperm. rewrite <- !app_assoc.
      apply Permutation_app_head. apply Permutation_app_head.
      apply Permutation_app_comm.
Qed.

(** X6.  [addChildToNode] returns the tree as it is when the parent
    identifier does not occur.  With distinct identifiers, the parent gets
    the new child as its last child and stays at its depth, the identifiers
    of the result are those of the tree and of the new child, and the node
    count grows by that of the new child. *)
Theorem addChildToNode_appends_below_the_parent
    (tree : MindMapNode) (parentId : string) (newChild : MindMapNode) :
  (~ In parentId (mmIds tree) -> addChildToNode tree parentId newChild = tree)
  /\ (NoDup (mmIds tree) ->
      forall s ds, occursAt tree 0 s ds -> mm_id s = parentId ->
        occursAt (addChildToNode tree parentId newChild) 0 (withChild s newChild) ds
        /\ Permutation (mmIds (addChildToNode tree parentId newChild))
             (mmIds tree ++ mmIds newChild)
        /\ countNodes (addChildToNode tree parentId newChild)
           = (countNodes tree + countNodes newChild)%nat).
Proof.
  split; [apply addChildToNode_absent|].
  intros Hnd s ds Hocc Hs.
  destruct (addChildToNode_grafts parentId newChild tree 0 s ds Hocc Hnd Hs)
    as [H1 H2].
  split; [exact H1|]. split; [exact H2|].
  rewrite !countNodes_ids, (Permutation_length H2), length_app. reflexivity.
Qed.

(** ** Edges are the parent-child links *)

Lemma collectEdges_unfold (h : Heap) (root : LayoutNode) :
  collectEdges h root
  = flat_map (fun child =>
      {| e_id := edgeId (n_id root) (n_id child); e_source := root;
         e_target := child; e_depth := nodeD h child |} :: collectEdges h child)
      (n_children root).
Proof. destruct root; reflexivity. Qed.

Lemma collectEdges_targets (h : Heap) (root : LayoutNode) :
  map e_target (collectEdges h root) = flat_map collectNodes (n_children root).
Proof.
  induction root as [r i cs IH] using LayoutNode_nested_ind.
  rewrite collectEdges_unfold. cbn [n_children].
  generalize (LNode r i cs) at 1 2 as src. intros src.
  induction IH as [|c cs Hc _ IHcs]; [reflexivity|].
  cbn [flat_map]. rewrite map_app. cbn [map e_target].
  rewrite Hc, IHcs, (collectNodes_unfold c). reflexivity.
Qed.

Lemma collectEdges_links (h : Heap) (root : LayoutNode) :
  forall e, In e (collectEdges h root) ->
    In (e_source e) (collectNodes root)
    /\ In (e_target e) (n_children (e_source e))
    /\ e_id e = edgeId (n_id (e_source e)) (n_id (e_target e))
    /\ e_depth e = nodeD h (e_target e).
Proof.
  induction root as [r i cs IH] using LayoutNode_nested_ind.
  intros e He. rewrite collectEdges_unfold in He. cbn [n_children] in He.
  apply in_flat_map in He as (c & Hc & He).
  destruct He as [<- | He].
  - cbn [e_source e_target e_id e_depth n_children].
    split; [apply collectNodes_self|]. auto.
  - rewrite List.Forall_forall in IH. destruct (IH c Hc e He) as (Hs & Hrest).
    split; [|exact Hrest].
    eapply collectNodes_child; [exact Hc | exact Hs].
Qed.

(** X7.  [collectEdges] returns one edge for every node but the root,
    in the order of [collectNodes]: the target of an edge is a child of its
    source, which is a node of the tree; its identifier is made of the two
    identifiers and its depth is the depth of the target. *)
Theorem edges_are_the_parent_child_links (h : Heap) (root : LayoutNode) :
  map e_target (collectEdges h root) = tl (collectNodes root)
  /\ length (collectNodes root) = S (length (collectEdges h root))
  /\ forall e, In e (collectEdges h root) ->
       In (e_source e) (collectNodes root)
       /\ In (e_target e) (n_children (e_source e))
       /\ e_id e = edgeId (n_id (e_source e)) (n_id (e_target e))
       /\ e_depth e = nodeD h (e_target e).
Proof.
  pose proof (collectEdges_targets h root) as Ht.
  split; [rewrite Ht, collectNodes_unfold; reflexivity|].
  split; [|apply collectEdges_links].
  rewrite collectNodes_unfold. cbn [length]. f_equal.
  rewrite <- Ht, length_map. reflexivity.
Qed.

(** ** What [buildLayoutTree] records *)

Lemma depthsOK_agree (h h' : Heap) (root : LayoutNode) :
  (forall n, In n (collectNodes root) -> h' (n_ref n) = h (n_ref n)) ->
  depthsOK h root -> depthsOK h' root.
Proof.
  intros Hag Hok n Hn c Hc. unfold nodeD.
  rewrite (Hag n Hn), (Hag c).
  - apply (Hok n Hn c Hc).
  - eapply collectNodes_trans; [exact Hn|].
    eapply collectNodes_child; [exact Hc | apply collectNodes_self].
Qed.

Lemma depthsOK_node (h : Heap) (r : nat) (i : string) (cs : list LayoutNode) :
  (forall c, In c cs -> nodeD h c = S (n_depth (h r)) /\ depthsOK h c) ->
  depthsOK h (LNode r i cs).
Proof.
  intros Hcs n Hn c Hc. rewrite collectNodes_unfold in Hn. destruct Hn as [<- | Hn].
  - cbn [n_children] in Hc. destruct (Hcs c Hc) as [Hd _]. exact Hd.
  - cbn [n_children] in Hn. apply in_flat_map in Hn as (c0 & Hc0 & Hn).
    destruct (Hcs c0 Hc0) as [_ Hok]. apply (Hok n Hn c Hc).
Qed.

Section BuildGeometry.

Variable measureText : string -> option Q -> string -> string -> Q * Q.
Variable config : MindMapConfig.

Lemma in_refsOf_lt (node : MindMapNode) (depth : nat) (st : BuildState)
    (n : LayoutNode) :
  In n (collectNodes (fst (buildLayoutTree measureText node depth config st))) ->
  (fst st <= n_ref n
   < fst (snd (buildLayoutTree measureText node depth config st)))%nat.
Proof.
  intros Hn. destruct (build_refs measureText config node depth st) as [Hrefs Hnext].
  cbv zeta in Hrefs, Hnext. rewrite Hnext.
  assert (Hin : In (n_ref n) (seq (fst st)
             (length (collectNodes (fst (buildLayoutTree measureText node depth config st)))))).
  { rewrite <- Hrefs. unfold refsOf. apply in_map. exact Hn. }
  apply in_seq in Hin. lia.
Qed.

Lemma buildChildren_inv (depth : nat) (l : list MindMapNode) :
  Forall (buildInv measureText config) l ->
  forall s,
    let cs := fst (buildChildren measureText depth config l s) in
    let h' := snd (snd (buildChildren measureText depth config l s)) in
    (fst s <= fst (snd (buildChildren measureText depth config l s)))%nat
    /\ (forall r, (r < fst s)%nat -> h' r = snd s r)
    /\ map n_id cs = map mm_id l
    /\ (forall c, In c cs -> nodeD h' c = S depth /\ depthsOK h' c)
    /\ (forall n, In n (flat_map collectNodes cs) ->
          (fst s <= n_ref n)%nat
          /\ exists a s0 ds,
            In a l /\ occursAt a (S depth) s0 ds
            /\ builtFrom measureText config h' n s0 ds
            /\ (ds <= Nat.max (S depth) (maxDepth (structure config)))%nat).
Proof.
  induction 1 as [|a l Ha _ IHl]; intros s; cbv zeta.
  - cbn [buildChildren fst snd map flat_map].
    split; [lia|]. split; [reflexivity|]. split; [reflexivity|].
    split; intros ? [].
  - rewrite buildChildren_cons. cbn [fst snd map flat_map].
    destruct (Ha (S depth) s) as (Hfa & Hga & Hoka & Hda & Hida). cbv zeta in *.
    pose proof (in_refsOf_lt a (S depth) s) as Hrange.
    destruct (build_refs measureText config a (S depth) s) as [_ Hnext].
    cbv zeta in Hnext.
    set (ta := fst (buildLayoutTree measureText a (S depth) config s)) in *.
    set (sa := snd (buildLayoutTree measureText a (S depth) config s)) in *.
    destruct (IHl sa) as (Hle & Hfl & Hidl & Hcl & Hgl). cbv zeta in *.
    set (csl := fst (buildChildren measureText depth config l sa)) in *.
    set (hl := snd (snd (buildChildren measureText depth config l sa))) in *.
    assert (Hkeep : forall n, In n (collectNodes ta) -> hl (n_ref n) = snd sa (n_ref n)).
    { intros n Hn. apply Hfl. apply (Hrange n Hn). }
    split; [lia|]. split.
    { intros r Hr. rewrite Hfl by lia. apply Hfa. exact Hr. }
    split; [rewrite Hida, Hidl; reflexivity|]. split.
    { intros c [<- | Hc].
      - split.
        + unfold nodeD. rewrite (Hkeep ta (collectNodes_self ta)). exact Hda.
        + eapply depthsOK_agree; [exact Hkeep | exact Hoka].
      - apply Hcl. exact Hc. }
    intros n Hn. apply in_app_or in Hn as [Hn | Hn].
    + split; [apply (Hrange n Hn)|].
      destruct (Hga n Hn) as (s0 & ds & Hocc & (Hid & Hg & Hch) & Hds).
      exists a, s0, ds. split; [left; reflexivity|]. split; [exact Hocc|].
      split; [|exact Hds]. split; [exact Hid|]. split; [|exact Hch].
      rewrite (Hkeep n Hn). exact Hg.
    + destruct (Hgl n Hn) as (Hge & a' & s0 & ds & Ha' & Hrest).
      split; [lia|]. exists a', s0, ds. split; [right; exact Ha' | exact Hrest].
Qed.

Lemma build_inv (node : MindMapNode) : buildInv measureText config node.
Proof.
  induction node as [i t ic c cs IH] using MindMapNode_nested_ind.
  intros depth st. cbv zeta. rewrite buildLayoutTree_unfold. cbv zeta.
  set (node := MMNode i t ic c cs) in *.
  set (g := {| n_x := 0; n_y := 0;
               n_width := fst (calcNodeSize measureText node depth config);
               n_height := snd (calcNodeSize measureText node depth config);
               n_depth := depth; n_angle := None |}).
  destruct (expands config node depth) eqn:Hexp; cbn [fst snd].
  - destruct (buildChildren_inv depth cs IH (S (fst st), upd (snd st) (fst st) g))
      as (Hle & Hfr & Hids & Hcs & Hg). cbv zeta in *. cbn [fst snd] in *.
    set (cs' := fst (buildChildren measureText depth config (mm_children node) _)) in *.
    set (h' := snd (snd (buildChildren measureText depth config (mm_children node) _))) in *.
    assert (Hroot : h' (fst st) = g).
    { rewrite Hfr by lia. apply upd_same. }
    split.
    { intros r Hr. rewrite Hfr by lia. apply upd_other. lia. }
    split.
    { intros n Hn. rewrite collectNodes_unfold in Hn. cbn [n_children] in Hn.
      destruct Hn as [<- | Hn].
      - exists node, depth. split; [constructor|]. split; [|lia].
        unfold builtFrom. cbn [n_id n_ref n_children]. rewrite Hexp.
        split; [reflexivity|]. split; [exact Hroot | exact Hids].
      - destruct (Hg n Hn) as (_ & a & s0 & ds & Ha & Hocc & Hb & Hds).
        exists s0, ds. split; [eapply occ_child; [exact Ha | exact Hocc]|].
        split; [exact Hb|].
        unfold expands in Hexp. apply andb_true_iff in Hexp as [_ Hlt].
        apply Nat.ltb_lt in Hlt. lia. }
    split.
    { apply depthsOK_node. rewrite Hroot. cbn [n_depth]. exact Hcs. }
    split; [|reflexivity].
    unfold nodeD. cbn [n_ref]. rewrite Hroot. reflexivity.
  - split.
    { intros r Hr. apply upd_other. lia. }
    split.
    { intros n [<- | []]. exists node, depth. split; [constructor|]. split; [|lia].
      unfold builtFrom. cbn [n_id n_ref n_children map]. rewrite Hexp, upd_same.
      auto. }
    split.
    { intros n [<- | []] c0 []. }
    split; [|reflexivity].
    unfold nodeD. cbn [n_ref]. rewrite upd_same. reflexivity.
Qed.

End BuildGeometry.

(** X8.  Every node that [buildLayoutTree] builds comes from a node of
    the source tree: it carries the identifier of that node, the size
    [calcNodeSize] gives it at its depth, that depth (never beyond the
    depth cap, unless the build starts there), the position (0, 0) and no
    angle; its children are those of the source node, or none when that is
    collapsed or at the cap.  The depth fields follow the tree, the node
    objects are distinct, and the objects that existed before are left as
    they were. *)
Theorem built_nodes_record_their_source_node
    (measureText : string -> option Q -> string -> string -> Q * Q)
    (config : MindMapConfig) (rootNode : MindMapNode) (depth : nat)
    (st : BuildState) :
  let root := fst (buildLayoutTree measureText rootNode depth config st) in
  let h := snd (snd (buildLayoutTree measureText rootNode depth config st)) in
  (forall n, In n (collectNodes root) ->
      exists s ds,
        occursAt rootNode depth s ds /\ builtFrom measureText config h n s ds
        /\ (ds <= Nat.max depth (maxDepth (structure config)))%nat)
  /\ depthsOK h root
  /\ nodeD h root = depth
  /\ NoDup (refsOf root)
  /\ (forall r, (r < fst st)%nat -> h r = snd st r).
Proof.
  cbv zeta.
  destruct (build_inv measureText config rootNode depth st)
    as (Hfr & Hg & Hok & Hd & _).
  repeat split; try assumption. apply build_NoDup_refs.
Qed.

(** ** Layout and collision resolution keep sizes and depths *)

Lemma writeAngle_shape (n : LayoutNode) (v : Q) (h : Heap) :
  sameShape h (writeAngle n v h).
Proof.
  intros r. unfold writeAngle. destruct (Nat.eq_dec r (n_ref n)) as [-> | Hne].
  - rewrite upd_same. cbn. auto.
  - rewrite upd_other by exact Hne. auto.
Qed.

Lemma subtreeWidth_shape (hSpacing : Q) (h h' : Heap) :
  sameShape h h' ->
  forall node, subtreeWidth hSpacing h' node = subtreeWidth hSpacing h node.
Proof.
  intros Hs. induction node as [r i cs IH] using LayoutNode_nested_ind.
  assert (Hw : nodeW h' (LNode r i cs) = nodeW h (LNode r i cs)).
  { unfold nodeW. apply (Hs r). }
  destruct cs as [|c cs]; cbn [subtreeWidth]; rewrite Hw; [reflexivity|].
  f_equal. apply sumOver_ext. exact IH.
Qed.

Lemma assignDown_eq (hSpacing vSpacing : Q) (node : LayoutNode) (xStart y : Q)
    (h : Heap) :
  assignDown hSpacing vSpacing node xStart y h
  = let totalW := subtreeWidth hSpacing h node in
    let h1 := writeX node (xStart + totalW / 2 - nodeW h node / 2) h in
    let h2 := writeY node y h1 in
    assignDownLoop hSpacing vSpacing y (n_children node) xStart h2.
Proof. destruct node; reflexivity. Qed.

Lemma assignDown_places (hSpacing vSpacing : Q) :
  placesSubtree (assignDown hSpacing vSpacing).
Proof.
  intros node. induction node as [r i cs IH] using LayoutNode_nested_ind.
  intros x y h. rewrite assignDown_eq. cbv zeta. cbn [n_children].
  set (h2 := writeY _ _ (writeX _ _ h)).
  assert (Hs2 : sameShape h h2).
  { eapply sameShape_trans; [apply writeX_shape | apply writeY_shape]. }
  assert (Hf2 : forall r', r' <> r -> h2 r' = h r').
  { intros r' Hr'. apply writes_frame. exact Hr'. }
  rewrite refsOf_unfold.
  assert (Hloop : forall childX h0,
    sameShape h0 (assignDownLoop hSpacing vSpacing y cs childX h0)
    /\ forall r', ~ In r' (flat_map refsOf cs) ->
         assignDownLoop hSpacing vSpacing y cs childX h0 r' = h0 r').
  { clear h2 Hs2 Hf2. induction IH as [|c cs Hc _ IHcs]; intros childX h0.
    - split; [apply sameShape_refl | reflexivity].
    - cbn [assignDownLoop flat_map].
      destruct (Hc childX (y + vSpacing) h0) as [Hsc Hfc].
      destruct (IHcs (childX + subtreeWidth hSpacing h0 c)
                  (assignDown hSpacing vSpacing c childX (y + vSpacing) h0))
        as [Hsl Hfl].
      split; [eapply sameShape_trans; eauto|].
      intros r' Hr'. rewrite in_app_iff in Hr'.
      rewrite Hfl by tauto. apply Hfc. tauto. }
  destruct (Hloop x h2) as [Hsl Hfl].
  split; [eapply sameShape_trans; eauto|].
  intros r' Hr'. cbn [In] in Hr'. rewrite Hfl by tauto. apply Hf2. intros ->. tauto.
Qed.

Lemma fold_writeX_shape (f : Heap -> LayoutNode -> Q) (l : list LayoutNode) :
  forall h, sameShape h (fold_left (fun h n => writeX n (f h n) h) l h).
Proof.
  induction l as [|a l IH]; intros h; cbn [fold_left]; [apply sameShape_refl|].
  eapply sameShape_trans; [apply writeX_shape | apply IH].
Qed.

Lemma positionChildren_shape (cos sin : Q -> Q) (baseRing : Q) (parent : LayoutNode) :
  forall startAngle endAngle h,
    sameShape h (positionChildren cos sin baseRing parent startAngle endAngle h).
Proof.
  induction parent as [r i cs IH] using LayoutNode_nested_ind.
  intros startAngle endAngle h. rewrite positionChildren_eq. cbn [n_children].
  generalize (allocateAngles baseRing h cs (endAngle - startAngle)) as angles.
  generalize startAngle as cur. revert h.
  induction IH as [|c cs Hc _ IHcs]; intros h cur angles;
    destruct angles as [|a angles]; cbn [positionLoop]; try apply sameShape_refl.
  eapply sameShape_trans; [|apply IHcs].
  eapply sameShape_trans; [|apply Hc].
  eapply sameShape_trans; [apply writeX_shape|].
  eapply sameShape_trans; [apply writeY_shape | apply writeAngle_shape].
Qed.

Lemma layoutStep_shape (cos sin : Q -> Q) (PI : Q) (root : LayoutNode)
    (config : MindMapConfig) (h : Heap) :
  sameShape h (layoutStep cos sin PI root config h).
Proof.
  unfold layoutStep. destruct (layout (structure config)).
  - unfold layoutRadial. cbv zeta.
    eapply sameShape_trans; [|apply positionChildren_shape].
    eapply sameShape_trans; [apply writeX_shape | apply writeY_shape].
  - unfold layoutHorizontalRight. cbv zeta. apply assignRight_places.
  - unfold layoutHorizontalLeft. cbv zeta.
    eapply sameShape_trans; [|apply fold_writeX_shape].
    unfold layoutHorizontalRight. cbv zeta. apply assignRight_places.
  - unfold layoutVertical. cbv zeta. apply assignDown_places.
  - unfold layoutTree. cbv zeta.
    destruct (treeGroups _ _ root) as [rightChildren leftChildren].
    eapply sameShape_trans;
      [|apply placeGroup_places, assignLeft_places].
    eapply sameShape_trans;
      [|apply placeGroup_places, assignRight_places].
    eapply sameShape_trans; [apply writeX_shape | apply writeY_shape].
Qed.

Lemma shiftNode_shape (n : LayoutNode) (dx dy : Q) (h : Heap) :
  sameShape h (shiftNode n dx dy h).
Proof.
  unfold shiftNode. cbv zeta.
  eapply sameShape_trans; [apply writeX_shape | apply writeY_shape].
Qed.

Lemma shiftSubtreeXY_shape (dx dy : Q) (node : LayoutNode) :
  forall h, sameShape h (shiftSubtreeXY node dx dy h).
Proof.
  induction node as [r i cs IH] using LayoutNode_nested_ind.
  cbn [shiftSubtreeXY].
  induction IH as [|c cs Hc _ IHcs]; intros h; cbn [fold_left];
    [apply sameShape_refl|].
  eapply sameShape_trans; [|apply IHcs].
  eapply sameShape_trans; [apply shiftNode_shape | apply Hc].
Qed.

Lemma pushPair_shape (cos sin : Q -> Q) (a b : LayoutNode) (h : Heap) :
  sameShape h (pushPair cos sin a b h).
Proof.
  unfold pushPair. cbv zeta.
  destruct (_ && _); [|apply sameShape_refl].
  unfold shiftSubtree.
  eapply sameShape_trans; [|apply shiftSubtreeXY_shape].
  eapply sameShape_trans; [|apply writeY_shape].
  eapply sameShape_trans; [|apply writeX_shape].
  eapply sameShape_trans; [|apply shiftSubtreeXY_shape].
  eapply sameShape_trans; [apply writeX_shape | apply writeY_shape].
Qed.

Lemma adjacentPass_shape (cos sin : Q -> Q) (l : list LayoutNode) :
  forall h, sameShape h (adjacentPass cos sin l h).
Proof.
  induction l as [|a l IH]; intros h; [apply sameShape_refl|].
  destruct l as [|b l]; [apply sameShape_refl|].
  cbn [adjacentPass]. eapply sameShape_trans; [apply pushPair_shape | apply IH].
Qed.

Lemma heapForward_shape (ax : Axis) (h h' : Heap) :
  heapForward ax h h' -> sameShape h h'.
Proof.
  intros Hf r. destruct (Hf r) as (_ & Hw & Hh & Hd & _). auto.
Qed.

Lemma resolveCollisions_shape (cos sin : Q -> Q) (nodes : list LayoutNode)
    (layout : LayoutType) (h : Heap) :
  sameShape h (resolveCollisions cos sin nodes layout h).
Proof.
  destruct layout; cbn [resolveCollisions];
    try (eapply heapForward_shape; apply sweepLevels_forward).
  generalize (groupByDepth true h nodes) as groups. revert h.
  intros h groups. revert h.
  induction groups as [|g groups IH]; intros h; cbn [fold_left];
    [apply sameShape_refl|].
  eapply sameShape_trans; [|apply IH].
  unfold radialLevel. cbv zeta.
  eapply sameShape_trans; [|apply adjacentPass_shape].
  eapply sameShape_trans; [|apply adjacentPass_shape].
  apply adjacentPass_shape.
Qed.

Lemma computeLayout_steps
    (measureText : string -> option Q -> string -> string -> Q * Q)
    (cos sin : Q -> Q) (PI : Q) (rootNode : MindMapNode) (config : MindMapConfig) :
  let built := buildLayoutTree measureText rootNode 0 config (0%nat, emptyHeap) in
  let res := computeLayout measureText cos sin PI rootNode config in
  nodes res = collectNodes (fst built)
  /\ heap res
     = resolveCollisions cos sin (collectNodes (fst built)) (layout (structure config))
         (layoutStep cos sin PI (fst built) config (snd (snd built)))
  /\ edges res = collectEdges (heap res) (fst built).
Proof.
  cbv zeta. unfold computeLayout, layoutStep.
  destruct (buildLayoutTree measureText rootNode 0 config (0%nat, emptyHeap))
    as [root [k h0]].
  cbn [fst snd nodes heap edges]. auto.
Qed.

Lemma depthsOK_shape (h h' : Heap) (root : LayoutNode) :
  sameShape h h' -> depthsOK h root -> depthsOK h' root.
Proof.
  intros Hs Hok n Hn c Hc. unfold nodeD.
  destruct (Hs (n_ref n)) as (_ & _ & ->), (Hs (n_ref c)) as (_ & _ & ->).
  apply (Hok n Hn c Hc).
Qed.

(** X9.  Under every paradigm, [computeLayout] returns the nodes of the
    built tree, which are the visible source nodes in pre-order, as
    distinct objects; layout and collision resolution keep what
    [buildLayoutTree] recorded: every returned node has the depth of its
    source node, at most [maxDepth], and the size [calcNodeSize] gives that
    source node at that depth. *)
Theorem computeLayout_keeps_the_built_sizes_and_depths
    (measureText : string -> option Q -> string -> string -> Q * Q)
    (cos sin : Q -> Q) (PI : Q) (rootNode : MindMapNode) (config : MindMapConfig) :
  let res := computeLayout measureText cos sin PI rootNode config in
  let root := fst (buildLayoutTree measureText rootNode 0 config (0%nat, emptyHeap)) in
  nodes res = collectNodes root
  /\ map n_id (nodes res) = visibleIds config rootNode 0
  /\ NoDup (map n_ref (nodes res))
  /\ depthsOK (heap res) root
  /\ nodeD (heap res) root = 0%nat
  /\ (forall n, In n (nodes res) ->
        exists s ds,
          occursAt rootNode 0 s ds /\ n_id n = mm_id s
          /\ nodeD (heap res) n = ds
          /\ (ds <= maxDepth (structure config))%nat
          /\ nodeW (heap res) n = fst (calcNodeSize measureText s ds config)
          /\ nodeH (heap res) n = snd (calcNodeSize measureText s ds config)).
Proof.
  cbv zeta.
  destruct (computeLayout_steps measureText cos sin PI rootNode config)
    as (Hnodes & Hheap & _). cbv zeta in Hnodes, Hheap.
  destruct (build_inv measureText config rootNode 0%nat (0%nat, emptyHeap))
    as (_ & Hg & Hok & Hd & _). cbv zeta in Hg, Hok, Hd.
  set (root := fst (buildLayoutTree measureText rootNode 0 config (0%nat, emptyHeap))) in *.
  set (h0 := snd (snd (buildLayoutTree measureText rootNode 0 config (0%nat, emptyHeap)))) in *.
  assert (Hs : sameShape h0 (heap (computeLayout measureText cos sin PI rootNode config))).
  { rewrite Hheap. eapply sameShape_trans;
      [apply layoutStep_shape | apply resolveCollisions_shape]. }
  rewrite Hnodes.
  split; [reflexivity|].
  split; [apply build_ids|].
  split; [apply (build_NoDup_refs measureText config rootNode 0%nat (0%nat, emptyHeap))|].
  split; [eapply depthsOK_shape; eassumption|].
  split.
  { unfold nodeD. destruct (Hs (n_ref root)) as (_ & _ & ->). exact Hd. }
  intros n Hn. destruct (Hg n Hn) as (s & ds & Hocc & (Hid & Hgeom & _) & Hds).
  exists s, ds. unfold nodeD, nodeW, nodeH.
  destruct (Hs (n_ref n)) as (-> & -> & ->). rewrite Hgeom. cbn.
  repeat split; assumption.
Qed.

(** ** The bounding box is the least one *)

Lemma Qmin_either (p q : Q) : Qmin p q = p \/ Qmin p q = q.
Proof.
  unfold Qmin, GenericMinMax.gmin. destruct (p ?= q); auto.
Qed.

Lemma Qmax_either (p q : Q) : Qmax p q = p \/ Qmax p q = q.
Proof.
  unfold Qmax, GenericMinMax.gmax. destruct (p ?= q); auto.
Qed.

Lemma computeBounds_step_attained (h : Heap) (l : list LayoutNode) :
  forall seen mnx mny mxx mxy,
    boundsAttained h seen mnx mny mxx mxy ->
    forall mnx' mny' mxx' mxy',
      fold_left (fun b n =>
        {| minX := extMin (minX b) (Fin (nodeX h n));
           minY := extMin (minY b) (Fin (nodeY h n));
           maxX := extMax (maxX b) (Fin (nodeX h n + nodeW h n));
           maxY := extMax (maxY b) (Fin (nodeY h n + nodeH h n)) |}) l
        {| minX := Fin mnx; minY := Fin mny; maxX := Fin mxx; maxY := Fin mxy |}
      = {| minX := Fin mnx'; minY := Fin mny'; maxX := Fin mxx'; maxY := Fin mxy' |} ->
      boundsAttained h (seen ++ l) mnx' mny' mxx' mxy'.
Proof.
  induction l as [|a l IH]; intros seen mnx mny mxx mxy Hat mnx' mny' mxx' mxy' Heq;
    cbn [fold_left] in Heq.
  - inversion Heq; subst. rewrite app_nil_r. exact Hat.
  - cbn [minX minY maxX maxY extMin extMax] in Heq.
    replace (seen ++ a :: l) with ((seen ++ [a]) ++ l)
      by (rewrite <- app_assoc; reflexivity).
    eapply IH; [|exact Heq].
    destruct Hat as ((n1 & Hn1 & E1) & (n2 & Hn2 & E2) & (n3 & Hn3 & E3)
                     & (n4 & Hn4 & E4)).
    assert (Hlast : In a (seen ++ [a])) by (apply in_or_app; right; left; reflexivity).
    assert (Hold : forall n, In n seen -> In n (seen ++ [a]))
      by (intros n Hn; apply in_or_app; left; exact Hn).
    repeat split.
    + destruct (Qmin_either mnx (nodeX h a)) as [-> | ->];
        [exists n1 | exists a]; auto.
    + destruct (Qmin_either mny (nodeY h a)) as [-> | ->];
        [exists n2 | exists a]; auto.
    + destruct (Qmax_either mxx (nodeX h a + nodeW h a)) as [-> | ->];
        [exists n3 | exists a]; auto.
    + destruct (Qmax_either mxy (nodeY h a + nodeH h a)) as [-> | ->];
        [exists n4 | exists a]; auto.
Qed.

(** X10.  [computeBounds] of no node is the box from [Infinity] to
    [-Infinity]; of at least one node it is a finite box that contains the
    rectangle of every node and each side of which is touched by some node:
    the least such box. *)
Theorem computeBounds_is_the_least_box (h : Heap) :
  computeBounds h []
  = {| minX := PosInf; minY := PosInf; maxX := NegInf; maxY := NegInf |}
  /\ forall first rest,
       exists mnx mny mxx mxy,
         computeBounds h (first :: rest)
         = {| minX := Fin mnx; minY := Fin mny; maxX := Fin mxx; maxY := Fin mxy |}
         /\ boundsCover h (first :: rest) mnx mny mxx mxy
         /\ boundsAttained h (first :: rest) mnx mny mxx mxy.
Proof.
  split; [reflexivity|]. intros first rest.
  destruct (computeBounds_nonempty h first rest)
    as (mnx & mny & mxx & mxy & Heq & Hcov).
  exists mnx, mny, mxx, mxy. split; [exact Heq|]. split; [exact Hcov|].
  unfold computeBounds in Heq. cbn [fold_left minX minY maxX maxY extMin extMax] in Heq.
  apply (computeBounds_step_attained h rest [first] _ _ _ _
           ltac:(repeat split; exists first; (split; [left|]; reflexivity))
           _ _ _ _ Heq).
Qed.

(** ** Levels that are already apart are left alone *)

Lemma groupPush_keys_NoDup (d : nat) (n : LayoutNode) (m : list (nat * list LayoutNode)) :
  NoDup (map fst m) -> NoDup (map fst (groupPush d n m)).
Proof.
  intros Hnd. destruct (groupPush_keys d n m) as [Hin Hout].
  destruct (in_dec Nat.eq_dec d (map fst m)) as [Hd | Hd].
  - rewrite Hin by exact Hd. exact Hnd.
  - rewrite Hout by exact Hd. apply NoDup_app. split; [exact Hnd|]. split.
    + intros x Hx Hx'. apply list_elem_of_In in Hx, Hx'.
      destruct Hx' as [<- | []]. contradiction.
    + apply NoDup_singleton.
Qed.

Lemma groupByDepth_keys_NoDup (h : Heap) (l : list LayoutNode) :
  NoDup (map fst (groupByDepth false h l)).
Proof.
  rewrite groupByDepth_all.
  assert (H : forall m, NoDup (map fst m) ->
            NoDup (map fst (fold_left (fun m n => groupPush (nodeD h n) n m) l m))).
  { induction l as [|a l IH]; intros m Hm; cbn [fold_left]; [exact Hm|].
    apply IH, groupPush_keys_NoDup, Hm. }
  apply H. constructor.
Qed.

Lemma groupByDepth_entry (h : Heap) (l : list LayoutNode) (d : nat)
    (level : list LayoutNode) :
  In (d, level) (groupByDepth false h l) ->
  level = List.filter (fun n => Nat.eqb (nodeD h n) d) l.
Proof.
  intros Hin.
  rewrite <- (groupOf_member _ d level (groupByDepth_keys_NoDup h l) Hin).
  rewrite groupByDepth_all, groupOf_fold. reflexivity.
Qed.

Lemma groupOf_absent (d : nat) (m : list (nat * list LayoutNode)) :
  ~ In d (map fst m) -> groupOf d m = [].
Proof.
  induction m as [|[d' arr] m IH]; intros Hnin; [reflexivity|].
  cbn [groupOf map fst In] in *. destruct (Nat.eqb d' d) eqn:E.
  - apply Nat.eqb_eq in E. tauto.
  - apply IH. tauto.
Qed.

Lemma groupByDepth_has (h : Heap) (l : list LayoutNode) (n : LayoutNode) :
  In n l ->
  exists k level,
    groupByDepth false h l !! k = Some (nodeD h n, level) /\ In n level.
Proof.
  intros Hn.
  assert (Hf : In n (List.filter (fun m => Nat.eqb (nodeD h m) (nodeD h n)) l)).
  { apply List.filter_In. split; [exact Hn | apply Nat.eqb_refl]. }
  destruct (in_dec Nat.eq_dec (nodeD h n) (map fst (groupByDepth false h l)))
    as [Hd | Hd].
  - apply in_map_iff in Hd as ([d level] & Hfst & Hin). cbn [fst] in Hfst. subst d.
    pose proof (groupByDepth_entry h l _ _ Hin) as ->.
    apply list_elem_of_In, list_elem_of_lookup_1 in Hin as (k & Hk).
    exists k. eexists. split; [exact Hk | exact Hf].
  - exfalso. apply groupOf_absent in Hd.
    rewrite groupByDepth_all, groupOf_fold in Hd. cbn [groupOf app] in Hd.
    rewrite Hd in Hf. destruct Hf.
Qed.

Lemma sweepFrom_noop (ax : Axis) (h : Heap) (rest : list LayoutNode) :
  forall prev,
    Sorted (gapBefore ax collisionPadding h) (prev :: rest) ->
    sweepFrom ax prev rest h = h.
Proof.
  induction rest as [|curr rest IH]; intros prev Hs; [reflexivity|].
  cbn [sweepFrom]. apply Sorted_inv in Hs as [Hs Hhd].
  apply HdRel_inv in Hhd. unfold gapBefore in Hhd.
  assert (E : Qgtb (coord ax h prev + extent ax h prev + collisionPadding
                    - coord ax h curr) 0 = false).
  { apply Qgtb_le. lra. }
  rewrite E. apply IH. exact Hs.
Qed.

Lemma sorted_apart_gaps (ax : Axis) (gap : Q) (h : Heap) (l : list LayoutNode) :
  0 < gap ->
  Sorted (keyLe (coord ax h)) l ->
  NoDup (map n_ref l) ->
  (forall n, In n l -> 0 <= extent ax h n) ->
  (forall a b, In a l -> In b l -> n_ref a <> n_ref b -> apart ax gap h a b) ->
  Sorted (gapBefore ax gap h) l.
Proof.
  intros Hgap Hs. induction Hs as [|a l Hs IH Hhd]; intros Hnd Hext Hap;
    [constructor|].
  cbn [map] in Hnd. apply NoDup_cons in Hnd as [Ha Hnd].
  constructor.
  - apply IH; [exact Hnd | |].
    + intros n Hn. apply Hext. right. exact Hn.
    + intros x y Hx Hy. apply Hap; right; assumption.
  - destruct Hhd as [|b l Hab]; constructor.
    assert (Hne : n_ref a <> n_ref b).
    { intros Heq. apply Ha. rewrite Heq. left. }
    destruct (Hap a b (or_introl eq_refl) (or_intror (or_introl eq_refl)) Hne)
      as [H1 | H2]; [exact H1|].
    unfold gapBefore in H2. unfold keyLe in Hab.
    pose proof (Hext b (or_intror (or_introl eq_refl))). lra.
Qed.

Lemma sweepLevel_noop (ax : Axis) (h : Heap) (level : list LayoutNode) :
  NoDup (map n_ref level) ->
  (forall n, In n level -> 0 <= extent ax h n) ->
  (forall a b, In a level -> In b level -> n_ref a <> n_ref b ->
     apart ax collisionPadding h a b) ->
  sweepLevel ax level h = h.
Proof.
  intros Hnd Hext Hap. unfold sweepLevel.
  pose proof (sortBy_perm (coord ax h) level) as Hperm.
  pose proof (sortBy_sorted (coord ax h) level) as Hsorted.
  assert (Hg : Sorted (gapBefore ax collisionPadding h) (sortBy (coord ax h) level)).
  { apply sorted_apart_gaps.
    - reflexivity.
    - exact Hsorted.
    - rewrite Hperm. exact Hnd.
    - intros n Hn. apply Hext. eapply Permutation_in; [exact Hperm | exact Hn].
    - intros a b Ha Hb. apply Hap; eapply Permutation_in; try exact Hperm; assumption. }
  destruct (sortBy (coord ax h) level) as [|first rest]; [reflexivity|].
  apply sweepFrom_noop. exact Hg.
Qed.

Lemma NoDup_filter_refs (f : LayoutNode -> bool) (l : list LayoutNode) :
  NoDup (map n_ref l) -> NoDup (map n_ref (List.filter f l)).
Proof.
  induction l as [|a l IH]; intros Hnd; [constructor|].
  cbn [map] in Hnd. apply NoDup_cons in Hnd as [Ha Hnd].
  cbn [List.filter]. destruct (f a); [|apply IH, Hnd].
  cbn [map]. apply NoDup_cons. split; [|apply IH, Hnd].
  intros Hin. apply Ha. apply list_elem_of_In in Hin. apply list_elem_of_In.
  apply in_map_iff in Hin as (x & Hx & Hin). apply List.filter_In in Hin as [Hin _].
  apply in_map_iff. exists x. split; assumption.
Qed.

Lemma resolveCollisions_noop (cos sin : Q -> Q) (layout : LayoutType)
    (root : LayoutNode) (h : Heap) :
  layout <> Radial ->
  NoDup (refsOf root) ->
  (forall n, In n (collectNodes root) -> 0 <= extent (packingAxis layout) h n) ->
  levelsApart (packingAxis layout) collisionPadding h root ->
  resolveCollisions cos sin (collectNodes root) layout h = h.
Proof.
  intros Hl Hnd Hext Hap.
  rewrite (resolveCollisions_sweeps cos sin _ layout h Hl).
  set (ax := packingAxis layout) in *.
  assert (Hall : forall g, In g (groupByDepth false h (collectNodes root)) ->
            sweepLevel ax (snd g) h = h).
  { intros [d level] Hg. cbn [snd].
    pose proof (groupByDepth_entry h _ d level Hg) as ->.
    apply sweepLevel_noop.
    - apply NoDup_filter_refs. exact Hnd.
    - intros n Hn. apply List.filter_In in Hn as [Hn _]. apply Hext, Hn.
    - intros a b Ha Hb Hne.
      apply List.filter_In in Ha as [Ha Hda], Hb as [Hb Hdb].
      apply Nat.eqb_eq in Hda, Hdb. apply Hap; try assumption. congruence. }
  revert Hall. generalize (groupByDepth false h (collectNodes root)) as groups.
  induction groups as [|g groups IH]; intros Hall; cbn [fold_left]; [reflexivity|].
  rewrite (Hall g (or_introl eq_refl)). apply IH.
  intros g' Hg'. apply Hall. right. exact Hg'.
Qed.

(** ** Tidy layouts: bands *)

Lemma sumOver_acc {A : Type} (f : A -> Q) (l : list A) :
  forall acc, fold_left (fun acc c => acc + f c) l acc == acc + sumOver f l.
Proof.
  unfold sumOver. induction l as [|a l IH]; intros acc; cbn [fold_left].
  - lra.
  - rewrite (IH (acc + f a)), (IH (0 + f a)). lra.
Qed.

Lemma sumOver_cons {A : Type} (f : A -> Q) (a : A) (l : list A) :
  sumOver f (a :: l) == f a + sumOver f l.
Proof.
  unfold sumOver at 1. cbn [fold_left]. rewrite sumOver_acc. lra.
Qed.

Lemma sumOver_nonneg {A : Type} (f : A -> Q) (l : list A) :
  (forall a, In a l -> 0 <= f a) -> 0 <= sumOver f l.
Proof.
  induction l as [|a l IH]; intros Hall.
  - unfold sumOver. cbn. lra.
  - rewrite sumOver_cons.
    pose proof (Hall a (or_introl eq_refl)).
    assert (0 <= sumOver f l) by (apply IH; intros x Hx; apply Hall; right; exact Hx).
    lra.
Qed.

Lemma subtreeHeight_unfold (vSpacing : Q) (h : Heap) (node : LayoutNode) :
  subtreeHeight vSpacing h node
  = match n_children node with
    | [] => nodeH h node + vSpacing
    | _ :: _ =>
        Qmax (sumOver (subtreeHeight vSpacing h) (n_children node))
          (nodeH h node + vSpacing)
    end.
Proof. destruct node as [r i [|c cs]]; reflexivity. Qed.

Lemma subtreeHeight_ge (vSpacing : Q) (h : Heap) (node : LayoutNode) :
  nodeH h node + vSpacing <= subtreeHeight vSpacing h node.
Proof.
  rewrite subtreeHeight_unfold. destruct (n_children node); [lra|].
  apply Q.le_max_r.
Qed.

Lemma subtreeHeight_ge_children (vSpacing : Q) (h : Heap) (node : LayoutNode) :
  n_children node <> [] ->
  sumOver (subtreeHeight vSpacing h) (n_children node)
  <= subtreeHeight vSpacing h node.
Proof.
  intros Hne. rewrite subtreeHeight_unfold. destruct (n_children node);
    [contradiction|]. apply Q.le_max_l.
Qed.

Lemma assignRightLoop_places (hSpacing vSpacing x : Q) (cs : list LayoutNode) :
  forall childY h,
    sameShape h (assignRightLoop hSpacing vSpacing x cs childY h)
    /\ forall r, ~ In r (flat_map refsOf cs) ->
         assignRightLoop hSpacing vSpacing x cs childY h r = h r.
Proof.
  induction cs as [|c cs IH]; intros childY h.
  - split; [apply sameShape_refl | reflexivity].
  - cbn [assignRightLoop flat_map].
    destruct (assignRight_places hSpacing vSpacing c (x + hSpacing) childY h)
      as [Hsc Hfc].
    destruct (IH (childY + subtreeHeight vSpacing h c)
                (assignRight hSpacing vSpacing c (x + hSpacing) childY h))
      as [Hsl Hfl].
    split; [eapply sameShape_trans; eauto|].
    intros r Hr. rewrite in_app_iff in Hr. rewrite Hfl by tauto. apply Hfc. tauto.
Qed.

Lemma apart_agree (ax : Axis) (gap : Q) (h h' : Heap) (a b : LayoutNode) :
  h' (n_ref a) = h (n_ref a) -> h' (n_ref b) = h (n_ref b) ->
  apart ax gap h a b -> apart ax gap h' a b.
Proof.
  intros Ha Hb. unfold apart, gapBefore, coord, extent, nodeX, nodeY, nodeW, nodeH.
  rewrite Ha, Hb. tauto.
Qed.

Lemma inBand_agree (ax : Axis) (s : Q) (h0 h1 h h' : Heap) (lo hi lo' hi' : Q)
    (m : LayoutNode) :
  h' (n_ref m) = h (n_ref m) ->
  extent ax h1 m = extent ax h0 m ->
  lo' <= lo -> hi <= hi' ->
  inBand ax s h0 h lo hi m -> inBand ax s h1 h' lo' hi' m.
Proof.
  intros Hm He Hlo Hhi [H1 H2]. unfold inBand.
  assert (Hc : coord ax h' m = coord ax h m).
  { unfold coord, nodeX, nodeY. rewrite Hm. reflexivity. }
  rewrite Hc, He. split; lra.
Qed.

Lemma sameShape_extent (ax : Axis) (h h' : Heap) (m : LayoutNode) :
  sameShape h h' -> extent ax h' m = extent ax h m.
Proof.
  intros Hs. destruct (Hs (n_ref m)) as (Hw & Hh & _).
  unfold extent, nodeW, nodeH. destruct ax; assumption.
Qed.

Lemma sameShape_sym (h h' : Heap) : sameShape h h' -> sameShape h' h.
Proof.
  intros Hs r. destruct (Hs r) as (? & ? & ?). auto.
Qed.

Lemma assignRightLoop_tidy (hSpacing vSpacing x : Q) (cs : list LayoutNode) :
  Forall (tidyRight hSpacing vSpacing) cs ->
  forall childY h0,
    NoDup (flat_map refsOf cs) ->
    0 <= vSpacing ->
    (forall m, In m (flat_map collectNodes cs) -> 0 <= nodeH h0 m) ->
    let h' := assignRightLoop hSpacing vSpacing x cs childY h0 in
    (forall m, In m (flat_map collectNodes cs) ->
       inBand AxisY vSpacing h0 h' childY
         (childY + sumOver (subtreeHeight vSpacing h0) cs) m)
    /\ (forall a b, In a (flat_map collectNodes cs) -> In b (flat_map collectNodes cs) ->
          unrelated a b -> apart AxisY vSpacing h' a b).
Proof.
  induction 1 as [|c cs Hc _ IH]; intros childY h0 Hnd Hvs Hh; cbv zeta.
  - split; [intros ? [] | intros ? ? []].
  - cbn [assignRightLoop flat_map] in *.
    destruct (NoDup_flat_map_cons _ _ Hnd) as (Hndc & Hndcs & Hdisj).
    destruct (assignRight_places hSpacing vSpacing c (x + hSpacing) childY h0)
      as [Hsc Hfc].
    set (hc := assignRight hSpacing vSpacing c (x + hSpacing) childY h0) in *.
    destruct (assignRightLoop_places hSpacing vSpacing x cs
                (childY + subtreeHeight vSpacing h0 c) hc) as [Hsl Hfl].
    set (h' := assignRightLoop hSpacing vSpacing x cs
                 (childY + subtreeHeight vSpacing h0 c) hc) in *.
    destruct (Hc (x + hSpacing) childY h0 Hndc Hvs) as [Hbc Hac].
    { intros m Hm. apply Hh. apply in_or_app. left. exact Hm. }
    fold hc in Hbc, Hac.
    destruct (IH (childY + subtreeHeight vSpacing h0 c) hc Hndcs Hvs) as [Hbl Hal].
    { intros m Hm. unfold nodeH. destruct (Hsc (n_ref m)) as (_ & -> & _).
      apply Hh. apply in_or_app. right. exact Hm. }
    fold h' in Hbl, Hal.
    assert (Hkeep : forall m, In m (collectNodes c) -> h' (n_ref m) = hc (n_ref m)).
    { intros m Hm. apply Hfl. apply Hdisj. unfold refsOf. apply in_map. exact Hm. }
    assert (Hsum : sumOver (subtreeHeight vSpacing hc) cs
                   = sumOver (subtreeHeight vSpacing h0) cs).
    { apply sumOver_ext. apply List.Forall_forall. intros a _.
      apply subtreeHeight_shape. exact Hsc. }
    assert (Hsc0 : 0 <= subtreeHeight vSpacing h0 c).
    { pose proof (subtreeHeight_ge vSpacing h0 c).
      pose proof (Hh c (in_or_app _ _ _ (or_introl (collectNodes_self c)))). lra. }
    assert (Hrest0 : 0 <= sumOver (subtreeHeight vSpacing h0) cs).
    { apply sumOver_nonneg. intros a Ha.
      pose proof (subtreeHeight_ge vSpacing h0 a).
      assert (0 <= nodeH h0 a).
      { apply Hh. apply in_or_app. right. apply in_flat_map.
        exists a. split; [exact Ha | apply collectNodes_self]. }
      lra. }
    pose proof (sumOver_cons (subtreeHeight vSpacing h0) c cs) as Hcons.
    assert (HbandC : forall m, In m (collectNodes c) ->
              inBand AxisY vSpacing h0 h' childY
                (childY + subtreeHeight vSpacing h0 c) m).
    { intros m Hm. eapply inBand_agree; [apply Hkeep, Hm | reflexivity | | |
                                          apply Hbc, Hm]; lra. }
    assert (HbandL : forall m, In m (flat_map collectNodes cs) ->
              inBand AxisY vSpacing h0 h' (childY + subtreeHeight vSpacing h0 c)
                (childY + subtreeHeight vSpacing h0 c
                 + sumOver (subtreeHeight vSpacing h0) cs) m).
    { intros m Hm. eapply inBand_agree; [reflexivity | | | | apply Hbl, Hm].
      - symmetry. apply sameShape_extent. exact Hsc.
      - lra.
      - rewrite Hsum. lra. }
    assert (Hcross : forall a b, In a (collectNodes c) ->
              In b (flat_map collectNodes cs) -> gapBefore AxisY vSpacing h' a b).
    { intros a b Ha Hb. destruct (HbandC a Ha) as [_ Hu], (HbandL b Hb) as [Hl _].
      unfold gapBefore.
      assert (He : extent AxisY h' a = extent AxisY h0 a).
      { apply sameShape_extent. eapply sameShape_trans; eassumption. }
      rewrite He. lra. }
    split.
    + intros m Hm. apply in_app_or in Hm as [Hm | Hm].
      * eapply inBand_agree; [reflexivity | reflexivity | | | apply HbandC, Hm]; lra.
      * eapply inBand_agree; [reflexivity | reflexivity | | | apply HbandL, Hm]; lra.
    + intros a b Ha Hb Hun.
      apply in_app_or in Ha as [Ha | Ha]; apply in_app_or in Hb as [Hb | Hb].
      * eapply apart_agree; [apply Hkeep, Ha | apply Hkeep, Hb | apply Hac; assumption].
      * left. apply Hcross; assumption.
      * right. apply Hcross; assumption.
      * apply Hal; assumption.
Qed.

Lemma assignRight_tidy (hSpacing vSpacing : Q) (node : LayoutNode) :
  tidyRight hSpacing vSpacing node.
Proof.
  induction node as [r i cs IH] using LayoutNode_nested_ind.
  intros x yStart h Hnd Hvs Hh. cbv zeta.
  rewrite assignRight_eq. cbv zeta. cbn [n_children].
  set (node := LNode r i cs) in *.
  set (h1 := writeX node x h).
  set (totalH := subtreeHeight vSpacing h1 node).
  set (h2 := writeY node (yStart + totalH / 2 - nodeH h1 node / 2) h1).
  assert (Hs2 : sameShape h h2).
  { eapply sameShape_trans; [apply writeX_shape | apply writeY_shape]. }
  assert (Htot : totalH = subtreeHeight vSpacing h node).
  { apply subtreeHeight_shape, writeX_shape. }
  assert (Hh1 : nodeH h1 node = nodeH h node).
  { unfold nodeH. apply (writeX_shape node x h (n_ref node)). }
  rewrite refsOf_children in Hnd. cbn [n_children] in Hnd.
  apply NoDup_cons in Hnd as [Hself Hndcs]. rewrite list_elem_of_In in Hself.
  destruct (assignRightLoop_places hSpacing vSpacing x cs yStart h2) as [Hsl Hfl].
  destruct (assignRightLoop_tidy hSpacing vSpacing x cs IH yStart h2 Hndcs Hvs)
    as [Hband Hap].
  { intros m Hm. unfold nodeH. destruct (Hs2 (n_ref m)) as (_ & -> & _).
    apply Hh. right. exact Hm. }
  set (h' := assignRightLoop hSpacing vSpacing x cs yStart h2) in *.
  assert (Hy : nodeY h' node = yStart + totalH / 2 - nodeH h node / 2).
  { unfold nodeY. rewrite Hfl by exact Hself. unfold h2, writeY.
    rewrite upd_same. cbn [n_y setY]. rewrite Hh1. reflexivity. }
  pose proof (subtreeHeight_ge vSpacing h node) as Hge.
  pose proof (Hh node (collectNodes_self node)) as Hh0.
  split.
  - intros m Hm. rewrite collectNodes_unfold in Hm. destruct Hm as [<- | Hm].
    + unfold inBand. cbn [coord extent]. rewrite Hy, Htot. halves. split; lra.
    + change (n_children node) with cs in Hm.
      assert (Hne : n_children node <> []).
      { unfold node. cbn [n_children]. intros Hnil. rewrite Hnil in Hm. destruct Hm. }
      pose proof (subtreeHeight_ge_children vSpacing h node Hne) as Hgc.
      change (n_children node) with cs in Hgc.
      assert (Hsum : sumOver (subtreeHeight vSpacing h2) cs
                     = sumOver (subtreeHeight vSpacing h) cs).
      { apply sumOver_ext. apply List.Forall_forall. intros a _.
        apply subtreeHeight_shape. exact Hs2. }
      eapply inBand_agree; [reflexivity | | | | apply Hband, Hm].
      * symmetry. apply sameShape_extent. exact Hs2.
      * lra.
      * rewrite Hsum. lra.
  - intros a b Ha Hb [Hab Hba].
    rewrite collectNodes_unfold in Ha, Hb.
    change (n_children node) with cs in Ha, Hb.
    destruct Ha as [<- | Ha].
    { exfalso. apply Hba. rewrite collectNodes_unfold. exact Hb. }
    destruct Hb as [<- | Hb].
    { exfalso. apply Hab. rewrite collectNodes_unfold. right. exact Ha. }
    apply Hap; [exact Ha | exact Hb | split; assumption].
Qed.

Lemma same_depth_unrelated (h : Heap) (root a b : LayoutNode) :
  depthsOK h root ->
  In a (collectNodes root) -> In b (collectNodes root) ->
  n_ref a <> n_ref b -> nodeD h a = nodeD h b ->
  unrelated a b.
Proof.
  intros Hok Ha Hb Hne Hd. split; intros Hin.
  - destruct (depth_of_descendant h root Hok b Hb a Hin) as [-> | Hlt];
      [contradiction | lia].
  - destruct (depth_of_descendant h root Hok a Ha b Hin) as [-> | Hlt];
      [contradiction | lia].
Qed.

Lemma depthsOK_sub (h : Heap) (root n : LayoutNode) :
  In n (collectNodes root) -> depthsOK h root -> depthsOK h n.
Proof.
  intros Hn Hok m Hm c Hc. apply (Hok m); [|exact Hc].
  eapply collectNodes_trans; eassumption.
Qed.

Lemma assignRightLoop_columns (hSpacing vSpacing x : Q) (cs : list LayoutNode) :
  Forall (inColumns hSpacing vSpacing) cs ->
  forall childY h0,
    NoDup (flat_map refsOf cs) ->
    (forall c, In c cs -> depthsOK h0 c) ->
    forall c m, In c cs -> In m (collectNodes c) ->
      nodeX (assignRightLoop hSpacing vSpacing x cs childY h0) m
      == x + hSpacing + ofNat (nodeD h0 m - nodeD h0 c) * hSpacing.
Proof.
  induction 1 as [|c0 cs Hc0 _ IH]; intros childY h0 Hnd Hok c m Hc Hm;
    [destruct Hc|].
  cbn [assignRightLoop].
  destruct (NoDup_flat_map_cons _ _ Hnd) as (Hndc & Hndcs & Hdisj).
  destruct (assignRight_places hSpacing vSpacing c0 (x + hSpacing) childY h0)
    as [Hsc Hfc].
  set (hc := assignRight hSpacing vSpacing c0 (x + hSpacing) childY h0) in *.
  destruct (assignRightLoop_places hSpacing vSpacing x cs
              (childY + subtreeHeight vSpacing h0 c0) hc) as [Hsl Hfl].
  destruct Hc as [<- | Hc].
  - unfold nodeX. rewrite Hfl.
    + apply (Hc0 (x + hSpacing) childY h0 Hndc (Hok c0 (or_introl eq_refl)) m Hm).
    + apply Hdisj. unfold refsOf. apply in_map. exact Hm.
  - rewrite (IH (childY + subtreeHeight vSpacing h0 c0) hc Hndcs) with (c := c);
      try assumption.
    + unfold nodeD. destruct (Hsc (n_ref m)) as (_ & _ & ->).
      destruct (Hsc (n_ref c)) as (_ & _ & ->). reflexivity.
    + intros c' Hc'. eapply depthsOK_shape; [exact Hsc|]. apply Hok. right. exact Hc'.
Qed.

Lemma assignRight_columns (hSpacing vSpacing : Q) (node : LayoutNode) :
  inColumns hSpacing vSpacing node.
Proof.
  induction node as [r i cs IH] using LayoutNode_nested_ind.
  intros x yStart h Hnd Hok m Hm.
  rewrite collectNodes_unfold in Hm. destruct Hm as [<- | Hm].
  - rewrite (assignRight_x hSpacing vSpacing _ x yStart h Hnd).
    rewrite Nat.sub_diag. change (ofNat 0) with 0. lra.
  - cbn [n_children] in Hm. apply in_flat_map in Hm as (c & Hc & Hm).
    rewrite assignRight_eq. cbv zeta. cbn [n_children].
    set (node := LNode r i cs) in *.
    set (h2 := writeY node _ (writeX node x h)).
    assert (Hs2 : sameShape h h2).
    { eapply sameShape_trans; [apply writeX_shape | apply writeY_shape]. }
    rewrite refsOf_children in Hnd. apply NoDup_cons in Hnd as [_ Hndcs].
    change (n_children node) with cs in Hndcs.
    rewrite (assignRightLoop_columns hSpacing vSpacing x cs IH yStart h2 Hndcs)
      with (c := c); try assumption.
    + assert (Hdc : nodeD h c = S (nodeD h node)).
      { apply (Hok node (collectNodes_self node) c Hc). }
      assert (Hdm : (nodeD h c <= nodeD h m)%nat).
      { assert (Hcn : In c (collectNodes node)).
        { eapply collectNodes_child; [exact Hc | apply collectNodes_self]. }
        destruct (depth_of_descendant h node Hok c Hcn m Hm) as [-> | Hlt]; lia. }
      unfold nodeD in *. destruct (Hs2 (n_ref m)) as (_ & _ & ->).
      destruct (Hs2 (n_ref c)) as (_ & _ & ->).
      replace (n_depth (h (n_ref m)) - n_depth (h (n_ref node)))%nat
        with (S (n_depth (h (n_ref m)) - n_depth (h (n_ref c))))%nat by lia.
      rewrite ofNat_S. lra.
    + intros c' Hc'. eapply depthsOK_shape; [exact Hs2|].
      eapply depthsOK_sub; [|exact Hok].
      eapply collectNodes_child; [exact Hc' | apply collectNodes_self].
Qed.

Lemma assignRight_y (hSpacing vSpacing : Q) (node : LayoutNode) (x yStart : Q)
    (h : Heap) :
  NoDup (refsOf node) ->
  nodeY (assignRight hSpacing vSpacing node x yStart h) node
  = yStart + subtreeHeight vSpacing h node / 2 - nodeH h node / 2.
Proof.
  intros Hnd. rewrite refsOf_children in Hnd. apply NoDup_cons in Hnd as [Hself _].
  rewrite list_elem_of_In in Hself.
  rewrite assignRight_eq. cbv zeta.
  destruct (assignRightLoop_places hSpacing vSpacing x (n_children node) yStart
              (writeY node
                 (yStart + subtreeHeight vSpacing (writeX node x h) node / 2
                  - nodeH (writeX node x h) node / 2) (writeX node x h)))
    as [_ Hfl].
  unfold nodeY. rewrite Hfl by exact Hself.
  unfold writeY. rewrite upd_same. cbn [n_y setY].
  rewrite (subtreeHeight_shape vSpacing h _ (writeX_shape node x h)).
  replace (nodeH (writeX node x h) node) with (nodeH h node); [reflexivity|].
  unfold nodeH. symmetry. apply (writeX_shape node x h (n_ref node)).
Qed.

Lemma apart_weaken (ax : Axis) (gap gap' : Q) (h : Heap) (a b : LayoutNode) :
  gap' <= gap -> apart ax gap h a b -> apart ax gap' h a b.
Proof.
  intros Hle [H | H]; [left | right]; unfold gapBefore in *; lra.
Qed.

Lemma unrelated_apart_levels (ax : Axis) (gap : Q) (h0 h : Heap) (root : LayoutNode) :
  depthsOK h0 root -> sameShape h0 h ->
  (forall a b, In a (collectNodes root) -> In b (collectNodes root) ->
     unrelated a b -> apart ax gap h a b) ->
  levelsApart ax gap h root.
Proof.
  intros Hok Hs Hap a b Ha Hb Hne Hd. apply Hap; try assumption.
  apply (same_depth_unrelated h root); try assumption.
  eapply depthsOK_shape; eassumption.
Qed.

(** X11.  In the horizontal-right layout of a tree of distinct node objects
    whose depth fields follow the tree and whose heights are not negative
    (the vertical spacing used, [verticalSpacing + 8], being not negative
    either): every node sits in the column of its depth, one
    [horizontalSpacing + 80] per level; the root is centred on y = 0; every
    node lies in the band of half the root's subtree height around 0; and
    two nodes of which neither is an ancestor of the other, in particular
    two nodes of the same depth, are at least the vertical spacing apart. *)
Theorem horizontal_right_layout_is_tidy
    (root : LayoutNode) (config : MindMapConfig) (h : Heap) :
  NoDup (refsOf root) ->
  depthsOK h root ->
  0 <= verticalSpacing (structure config) + 8 ->
  (forall m, In m (collectNodes root) -> 0 <= nodeH h m) ->
  let hSpacing := horizontalSpacing (structure config) + 80 in
  let vSpacing := verticalSpacing (structure config) + 8 in
  let total := subtreeHeight vSpacing h root in
  let h' := layoutHorizontalRight root config h in
  (forall m, In m (collectNodes root) ->
     nodeX h' m == ofNat (nodeD h m - nodeD h root) * hSpacing)
  /\ nodeY h' root + nodeH h root * (1 # 2) == 0
  /\ (forall m, In m (collectNodes root) ->
        - total * (1 # 2) + vSpacing * (1 # 2) <= nodeY h' m
        /\ nodeY h' m + nodeH h m + vSpacing * (1 # 2) <= total * (1 # 2))
  /\ (forall a b, In a (collectNodes root) -> In b (collectNodes root) ->
        unrelated a b -> apart AxisY vSpacing h' a b)
  /\ levelsApart AxisY vSpacing h' root.
Proof.
  intros Hnd Hok Hvs Hh. cbv zeta. unfold layoutHorizontalRight. cbv zeta.
  set (hs := horizontalSpacing (structure config) + 80).
  set (vs := verticalSpacing (structure config) + 8) in *.
  set (total := subtreeHeight vs h root).
  destruct (assignRight_tidy hs vs root 0 (- total / 2) h Hnd Hvs Hh) as [Hband Hap].
  split.
  { intros m Hm.
    rewrite (assignRight_columns hs vs root 0 (- total / 2) h Hnd Hok m Hm). lra. }
  split.
  { rewrite (assignRight_y hs vs root 0 (- total / 2) h Hnd). fold total.
    halves. lra. }
  split.
  { intros m Hm. destruct (Hband m Hm) as [H1 H2]. cbn [coord extent] in H1, H2.
    fold total in H2. halves. split; lra. }
  split; [exact Hap|].
  apply (unrelated_apart_levels AxisY vs h); try assumption.
  apply assignRight_places.
Qed.

Lemma levelsApart_agree (ax : Axis) (gap : Q) (h h' : Heap) (root : LayoutNode) :
  (forall n, In n (collectNodes root) ->
     coord ax h' n = coord ax h n /\ extent ax h' n = extent ax h n
     /\ nodeD h' n = nodeD h n) ->
  levelsApart ax gap h root -> levelsApart ax gap h' root.
Proof.
  intros Hag Hap a b Ha Hb Hne Hd.
  destruct (Hag a Ha) as (Hca & Hea & Hda), (Hag b Hb) as (Hcb & Heb & Hdb).
  unfold apart, gapBefore. rewrite Hca, Hea, Hcb, Heb.
  apply Hap; try assumption. congruence.
Qed.

Lemma horizontal_layouts_noop (cos sin : Q -> Q) (root : LayoutNode)
    (config : MindMapConfig) (h : Heap) :
  NoDup (refsOf root) ->
  depthsOK h root ->
  6 <= verticalSpacing (structure config) ->
  (forall m, In m (collectNodes root) -> 0 <= nodeH h m) ->
  resolveCollisions cos sin (collectNodes root) HorizontalRight
    (layoutHorizontalRight root config h)
  = layoutHorizontalRight root config h
  /\ resolveCollisions cos sin (collectNodes root) HorizontalLeft
       (layoutHorizontalLeft root config h)
     = layoutHorizontalLeft root config h.
Proof.
  intros Hnd Hok Hvs Hh.
  assert (Hvs0 : 0 <= verticalSpacing (structure config) + 8) by lra.
  assert (Hsr : sameShape h (layoutHorizontalRight root config h)).
  { unfold layoutHorizontalRight. cbv zeta. apply assignRight_places. }
  assert (Hap : levelsApart AxisY collisionPadding
                  (layoutHorizontalRight root config h) root).
  { unfold layoutHorizontalRight. cbv zeta.
    set (vs := verticalSpacing (structure config) + 8) in *.
    destruct (assignRight_tidy (horizontalSpacing (structure config) + 80) vs root 0
                (- subtreeHeight vs h root / 2) h Hnd Hvs0 Hh) as [_ Hun].
    apply (unrelated_apart_levels AxisY collisionPadding h);
      [exact Hok | exact Hsr |].
    intros a b Ha Hb Hab. apply (apart_weaken AxisY vs); [|apply Hun; assumption].
    unfold vs, collisionPadding. lra. }
  assert (Hext : forall n, In n (collectNodes root) ->
            0 <= extent AxisY (layoutHorizontalRight root config h) n).
  { intros n Hn. rewrite (sameShape_extent AxisY h _ n Hsr). apply Hh, Hn. }
  split.
  - apply resolveCollisions_noop; [discriminate | exact Hnd | exact Hext | exact Hap].
  - assert (Hmir : forall n, In n (collectNodes root) ->
              layoutHorizontalLeft root config h (n_ref n)
              = mirrorX (layoutHorizontalRight root config h (n_ref n))).
    { intros n Hn. rewrite (layoutHorizontalLeft_mirrors root config h Hnd).
      unfold mirroredRightLayout. rewrite bool_decide_eq_true_2; [reflexivity|].
      apply list_elem_of_In. unfold refsOf. apply in_map. exact Hn. }
    apply resolveCollisions_noop; [discriminate | exact Hnd | |].
    + intros n Hn. cbn [packingAxis extent]. unfold nodeH. rewrite (Hmir n Hn).
      cbn [mirrorX setX n_height]. apply (Hext n Hn).
    + apply (levelsApart_agree AxisY collisionPadding
               (layoutHorizontalRight root config h)); [|exact Hap].
      intros n Hn. unfold coord, extent, nodeY, nodeH, nodeD. rewrite (Hmir n Hn).
      cbn. auto.
Qed.

Lemma built_heights_nonneg
    (measureText : string -> option Q -> string -> string -> Q * Q)
    (config : MindMapConfig) (rootNode : MindMapNode) (depth : nat) (st : BuildState) :
  0 <= nodePaddingY (style config) ->
  (forall t fs ff fw, 0 <= snd (measureText t fs ff fw)) ->
  forall m,
    In m (collectNodes (fst (buildLayoutTree measureText rootNode depth config st))) ->
    0 <= nodeH (snd (snd (buildLayoutTree measureText rootNode depth config st))) m.
Proof.
  intros Hpad Hmeasure m Hm.
  destruct (build_inv measureText config rootNode depth st) as (_ & Hg & _).
  cbv zeta in Hg. destruct (Hg m Hm) as (s & ds & _ & (_ & Hgeom & _) & _).
  unfold nodeH. rewrite Hgeom. cbn [n_height]. unfold calcNodeSize. cbv zeta.
  cbn [snd]. match goal with |- 0 <= snd ?e + _ => pose proof (Hmeasure
    (mm_text s)
    (if Nat.eqb ds 0 then Some (rootFontSize (style config))
     else nth_error (levelFontSizes (typography config))
            (Nat.min ds (length (levelFontSizes (typography config)) - 1)))
    (fontFamily (typography config))
    (if Nat.eqb ds 0 then "bold"%string else fontWeight (typography config))) end.
  lra.
Qed.

(** X12.  Under the horizontal-right and horizontal-left paradigms, with a
    vertical spacing of at least 6 and node heights that are not negative
    (text heights and vertical padding not negative), collision resolution
    changes nothing: the layout that [computeLayout] returns is the one the
    layout strategy produced. *)
Theorem horizontal_layouts_need_no_collision_resolution
    (measureText : string -> option Q -> string -> string -> Q * Q)
    (cos sin : Q -> Q) (PI : Q) (rootNode : MindMapNode) (config : MindMapConfig) :
  layout (structure config) = HorizontalRight
  \/ layout (structure config) = HorizontalLeft ->
  6 <= verticalSpacing (structure config) ->
  0 <= nodePaddingY (style config) ->
  (forall t fs ff fw, 0 <= snd (measureText t fs ff fw)) ->
  let built := buildLayoutTree measureText rootNode 0 config (0%nat, emptyHeap) in
  heap (computeLayout measureText cos sin PI rootNode config)
  = layoutStep cos sin PI (fst built) config (snd (snd built)).
Proof.
  intros Hlayout Hvs Hpad Hmeasure. cbv zeta.
  destruct (computeLayout_steps measureText cos sin PI rootNode config)
    as (_ & Hheap & _). cbv zeta in Hheap. rewrite Hheap.
  pose proof (build_NoDup_refs measureText config rootNode 0%nat (0%nat, emptyHeap))
    as Hnd.
  destruct (build_inv measureText config rootNode 0%nat (0%nat, emptyHeap))
    as (_ & _ & Hok & _). cbv zeta in Hok.
  pose proof (built_heights_nonneg measureText config rootNode 0%nat
                (0%nat, emptyHeap) Hpad Hmeasure) as Hh.
  destruct (horizontal_layouts_noop cos sin _ config _ Hnd Hok Hvs Hh) as [Hr Hl].
  unfold layoutStep. destruct Hlayout as [-> | ->]; assumption.
Qed.

(** ** Vertical layout: bands *)

Lemma subtreeWidth_unfold (hSpacing : Q) (h : Heap) (node : LayoutNode) :
  subtreeWidth hSpacing h node
  = match n_children node with
    | [] => nodeW h node + hSpacing
    | _ :: _ =>
        Qmax (sumOver (subtreeWidth hSpacing h) (n_children node))
          (nodeW h node + hSpacing)
    end.
Proof. destruct node as [r i [|c cs]]; reflexivity. Qed.

Lemma subtreeWidth_ge (hSpacing : Q) (h : Heap) (node : LayoutNode) :
  nodeW h node + hSpacing <= subtreeWidth hSpacing h node.
Proof.
  rewrite subtreeWidth_unfold. destruct (n_children node); [lra|].
  apply Q.le_max_r.
Qed.

Lemma subtreeWidth_ge_children (hSpacing : Q) (h : Heap) (node : LayoutNode) :
  n_children node <> [] ->
  sumOver (subtreeWidth hSpacing h) (n_children node)
  <= subtreeWidth hSpacing h node.
Proof.
  intros Hne. rewrite subtreeWidth_unfold. destruct (n_children node);
    [contradiction|]. apply Q.le_max_l.
Qed.

Lemma assignDownLoop_places (hSpacing vSpacing y : Q) (cs : list LayoutNode) :
  forall childX h,
    sameShape h (assignDownLoop hSpacing vSpacing y cs childX h)
    /\ forall r, ~ In r (flat_map refsOf cs) ->
         assignDownLoop hSpacing vSpacing y cs childX h r = h r.
Proof.
  induction cs as [|c cs IH]; intros childX h.
  - split; [apply sameShape_refl | reflexivity].
  - cbn [assignDownLoop flat_map].
    destruct (assignDown_places hSpacing vSpacing c childX (y + vSpacing) h)
      as [Hsc Hfc].
    destruct (IH (childX + subtreeWidth hSpacing h c)
                (assignDown hSpacing vSpacing c childX (y + vSpacing) h))
      as [Hsl Hfl].
    split; [eapply sameShape_trans; eauto|].
    intros r Hr. rewrite in_app_iff in Hr. rewrite Hfl by tauto. apply Hfc. tauto.
Qed.

Lemma assignDownLoop_tidy (hSpacing vSpacing y : Q) (cs : list LayoutNode) :
  Forall (tidyDown hSpacing vSpacing) cs ->
  forall childX h0,
    NoDup (flat_map refsOf cs) ->
    0 <= hSpacing ->
    (forall m, In m (flat_map collectNodes cs) -> 0 <= nodeW h0 m) ->
    let h' := assignDownLoop hSpacing vSpacing y cs childX h0 in
    (forall m, In m (flat_map collectNodes cs) ->
       inBand AxisX hSpacing h0 h' childX
         (childX + sumOver (subtreeWidth hSpacing h0) cs) m)
    /\ (forall a b, In a (flat_map collectNodes cs) -> In b (flat_map collectNodes cs) ->
          unrelated a b -> apart AxisX hSpacing h' a b).
Proof.
  induction 1 as [|c cs Hc _ IH]; intros childX h0 Hnd Hhs Hw; cbv zeta.
  - split; [intros ? [] | intros ? ? []].
  - cbn [assignDownLoop flat_map] in *.
    destruct (NoDup_flat_map_cons _ _ Hnd) as (Hndc & Hndcs & Hdisj).
    destruct (assignDown_places hSpacing vSpacing c childX (y + vSpacing) h0)
      as [Hsc Hfc].
    set (hc := assignDown hSpacing vSpacing c childX (y + vSpacing) h0) in *.
    destruct (assignDownLoop_places hSpacing vSpacing y cs
                (childX + subtreeWidth hSpacing h0 c) hc) as [Hsl Hfl].
    set (h' := assignDownLoop hSpacing vSpacing y cs
                 (childX + subtreeWidth hSpacing h0 c) hc) in *.
    destruct (Hc childX (y + vSpacing) h0 Hndc Hhs) as [Hbc Hac].
    { intros m Hm. apply Hw. apply in_or_app. left. exact Hm. }
    fold hc in Hbc, Hac.
    destruct (IH (childX + subtreeWidth hSpacing h0 c) hc Hndcs Hhs) as [Hbl Hal].
    { intros m Hm. unfold nodeW. destruct (Hsc (n_ref m)) as (-> & _ & _).
      apply Hw. apply in_or_app. right. exact Hm. }
    fold h' in Hbl, Hal.
    assert (Hkeep : forall m, In m (collectNodes c) -> h' (n_ref m) = hc (n_ref m)).
    { intros m Hm. apply Hfl. apply Hdisj. unfold refsOf. apply in_map. exact Hm. }
    assert (Hsum : sumOver (subtreeWidth hSpacing hc) cs
                   = sumOver (subtreeWidth hSpacing h0) cs).
    { apply sumOver_ext. apply List.Forall_forall. intros a _.
      apply subtreeWidth_shape. exact Hsc. }
    assert (Hsc0 : 0 <= subtreeWidth hSpacing h0 c).
    { pose proof (subtreeWidth_ge hSpacing h0 c).
      pose proof (Hw c (in_or_app _ _ _ (or_introl (collectNodes_self c)))). lra. }
    assert (Hrest0 : 0 <= sumOver (subtreeWidth hSpacing h0) cs).
    { apply sumOver_nonneg. intros a Ha.
      pose proof (subtreeWidth_ge hSpacing h0 a).
      assert (0 <= nodeW h0 a).
      { apply Hw. apply in_or_app. right. apply in_flat_map.
        exists a. split; [exact Ha | apply collectNodes_self]. }
      lra. }
    pose proof (sumOver_cons (subtreeWidth hSpacing h0) c cs) as Hcons.
    assert (HbandC : forall m, In m (collectNodes c) ->
              inBand AxisX hSpacing h0 h' childX
                (childX + subtreeWidth hSpacing h0 c) m).
    { intros m Hm. eapply inBand_agree; [apply Hkeep, Hm | reflexivity | | |
                                          apply Hbc, Hm]; lra. }
    assert (HbandL : forall m, In m (flat_map collectNodes cs) ->
              inBand AxisX hSpacing h0 h' (childX + subtreeWidth hSpacing h0 c)
                (childX + subtreeWidth hSpacing h0 c
                 + sumOver (subtreeWidth hSpacing h0) cs) m).
    { intros m Hm. eapply inBand_agree; [reflexivity | | | | apply Hbl, Hm].
      - symmetry. apply sameShape_extent. exact Hsc.
      - lra.
      - rewrite Hsum. lra. }
    assert (Hcross : forall a b, In a (collectNodes c) ->
              In b (flat_map collectNodes cs) -> gapBefore AxisX hSpacing h' a b).
    { intros a b Ha Hb. destruct (HbandC a Ha) as [_ Hu], (HbandL b Hb) as [Hl _].
      unfold gapBefore.
      assert (He : extent AxisX h' a = extent AxisX h0 a).
      { apply sameShape_extent. eapply sameShape_trans; eassumption. }
      rewrite He. lra. }
    split.
    + intros m Hm. apply in_app_or in Hm as [Hm | Hm].
      * eapply inBand_agree; [reflexivity | reflexivity | | | apply HbandC, Hm]; lra.
      * eapply inBand_agree; [reflexivity | reflexivity | | | apply HbandL, Hm]; lra.
    + intros a b Ha Hb Hun.
      apply in_app_or in Ha as [Ha | Ha]; apply in_app_or in Hb as [Hb | Hb].
      * eapply apart_agree; [apply Hkeep, Ha | apply Hkeep, Hb | apply Hac; assumption].
      * left. apply Hcross; assumption.
      * right. apply Hcross; assumption.
      * apply Hal; assumption.
Qed.

Lemma assignDown_x (hSpacing vSpacing : Q) (node : LayoutNode) (xStart y : Q)
    (h : Heap) :
  NoDup (refsOf node) ->
  nodeX (assignDown hSpacing vSpacing node xStart y h) node
  = xStart + subtreeWidth hSpacing h node / 2 - nodeW h node / 2
  /\ nodeY (assignDown hSpacing vSpacing node xStart y h) node = y.
Proof.
  intros Hnd. rewrite refsOf_children in Hnd. apply NoDup_cons in Hnd as [Hself _].
  rewrite list_elem_of_In in Hself.
  rewrite assignDown_eq. cbv zeta.
  match goal with |- context [assignDownLoop _ _ _ _ _ ?h2] =>
    destruct (assignDownLoop_places hSpacing vSpacing y (n_children node) xStart h2)
      as [_ Hfl] end.
  unfold nodeX, nodeY. rewrite !Hfl by exact Hself.
  unfold writeY, writeX. rewrite !upd_same. cbn. split; reflexivity.
Qed.

Lemma assignDown_tidy (hSpacing vSpacing : Q) (node : LayoutNode) :
  tidyDown hSpacing vSpacing node.
Proof.
  induction node as [r i cs IH] using LayoutNode_nested_ind.
  intros xStart y h Hnd Hhs Hw. cbv zeta.
  destruct (assignDown_x hSpacing vSpacing _ xStart y h Hnd) as [Hx _].
  revert Hx. rewrite assignDown_eq. cbv zeta. cbn [n_children].
  set (node := LNode r i cs) in *.
  set (totalW := subtreeWidth hSpacing h node).
  set (h2 := writeY node y (writeX node _ h)).
  intros Hx.
  assert (Hs2 : sameShape h h2).
  { eapply sameShape_trans; [apply writeX_shape | apply writeY_shape]. }
  rewrite refsOf_children in Hnd. change (n_children node) with cs in Hnd.
  apply NoDup_cons in Hnd as [Hself Hndcs]. rewrite list_elem_of_In in Hself.
  destruct (assignDownLoop_tidy hSpacing vSpacing y cs IH xStart h2 Hndcs Hhs)
    as [Hband Hap].
  { intros m Hm. unfold nodeW. destruct (Hs2 (n_ref m)) as (-> & _ & _).
    apply Hw. right. exact Hm. }
  set (h' := assignDownLoop hSpacing vSpacing y cs xStart h2) in *.
  pose proof (subtreeWidth_ge hSpacing h node) as Hge. fold totalW in Hge.
  pose proof (Hw node (collectNodes_self node)) as Hw0.
  split.
  - intros m Hm. rewrite collectNodes_unfold in Hm. destruct Hm as [<- | Hm].
    + unfold inBand. cbn [coord extent]. rewrite Hx. fold totalW. halves.
      split; lra.
    + change (n_children node) with cs in Hm.
      assert (Hne : n_children node <> []).
      { unfold node. cbn [n_children]. intros Hnil. rewrite Hnil in Hm. destruct Hm. }
      pose proof (subtreeWidth_ge_children hSpacing h node Hne) as Hgc.
      change (n_children node) with cs in Hgc. fold totalW in Hgc.
      assert (Hsum : sumOver (subtreeWidth hSpacing h2) cs
                     = sumOver (subtreeWidth hSpacing h) cs).
      { apply sumOver_ext. apply List.Forall_forall. intros a _.
        apply subtreeWidth_shape. exact Hs2. }
      eapply inBand_agree; [reflexivity | | | | apply Hband, Hm].
      * symmetry. apply sameShape_extent. exact Hs2.
      * lra.
      * rewrite Hsum. fold totalW. lra.
  - intros a b Ha Hb [Hab Hba].
    rewrite collectNodes_unfold in Ha, Hb.
    change (n_children node) with cs in Ha, Hb.
    destruct Ha as [<- | Ha].
    { exfalso. apply Hba. rewrite collectNodes_unfold. exact Hb. }
    destruct Hb as [<- | Hb].
    { exfalso. apply Hab. rewrite collectNodes_unfold. right. exact Ha. }
    apply Hap; [exact Ha | exact Hb | split; assumption].
Qed.

Lemma assignDownLoop_rows (hSpacing vSpacing y : Q) (cs : list LayoutNode) :
  Forall (inRows hSpacing vSpacing) cs ->
  forall childX h0,
    NoDup (flat_map refsOf cs) ->
    (forall c, In c cs -> depthsOK h0 c) ->
    forall c m, In c cs -> In m (collectNodes c) ->
      nodeY (assignDownLoop hSpacing vSpacing y cs childX h0) m
      == y + vSpacing + ofNat (nodeD h0 m - nodeD h0 c) * vSpacing.
Proof.
  induction 1 as [|c0 cs Hc0 _ IH]; intros childX h0 Hnd Hok c m Hc Hm;
    [destruct Hc|].
  cbn [assignDownLoop].
  destruct (NoDup_flat_map_cons _ _ Hnd) as (Hndc & Hndcs & Hdisj).
  destruct (assignDown_places hSpacing vSpacing c0 childX (y + vSpacing) h0)
    as [Hsc Hfc].
  set (hc := assignDown hSpacing vSpacing c0 childX (y + vSpacing) h0) in *.
  destruct (assignDownLoop_places hSpacing vSpacing y cs
              (childX + subtreeWidth hSpacing h0 c0) hc) as [Hsl Hfl].
  destruct Hc as [<- | Hc].
  - unfold nodeY. rewrite Hfl.
    + apply (Hc0 childX (y + vSpacing) h0 Hndc (Hok c0 (or_introl eq_refl)) m Hm).
    + apply Hdisj. unfold refsOf. apply in_map. exact Hm.
  - rewrite (IH (childX + subtreeWidth hSpacing h0 c0) hc Hndcs) with (c := c);
      try assumption.
    + unfold nodeD. destruct (Hsc (n_ref m)) as (_ & _ & ->).
      destruct (Hsc (n_ref c)) as (_ & _ & ->). reflexivity.
    + intros c' Hc'. eapply depthsOK_shape; [exact Hsc|]. apply Hok. right. exact Hc'.
Qed.

Lemma assignDown_rows (hSpacing vSpacing : Q) (node : LayoutNode) :
  inRows hSpacing vSpacing node.
Proof.
  induction node as [r i cs IH] using LayoutNode_nested_ind.
  intros xStart y h Hnd Hok m Hm.
  rewrite collectNodes_unfold in Hm. destruct Hm as [<- | Hm].
  - destruct (assignDown_x hSpacing vSpacing _ xStart y h Hnd) as [_ ->].
    rewrite Nat.sub_diag. change (ofNat 0) with 0. lra.
  - cbn [n_children] in Hm. apply in_flat_map in Hm as (c & Hc & Hm).
    rewrite assignDown_eq. cbv zeta. cbn [n_children].
    set (node := LNode r i cs) in *.
    set (h2 := writeY node y (writeX node _ h)).
    assert (Hs2 : sameShape h h2).
    { eapply sameShape_trans; [apply writeX_shape | apply writeY_shape]. }
    rewrite refsOf_children in Hnd. apply NoDup_cons in Hnd as [_ Hndcs].
    change (n_children node) with cs in Hndcs.
    rewrite (assignDownLoop_rows hSpacing vSpacing y cs IH xStart h2 Hndcs)
      with (c := c); try assumption.
    + assert (Hdc : nodeD h c = S (nodeD h node)).
      { apply (Hok node (collectNodes_self node) c Hc). }
      assert (Hdm : (nodeD h c <= nodeD h m)%nat).
      { assert (Hcn : In c (collectNodes node)).
        { eapply collectNodes_child; [exact Hc | apply collectNodes_self]. }
        destruct (depth_of_descendant h node Hok c Hcn m Hm) as [-> | Hlt]; lia. }
      unfold nodeD in *. destruct (Hs2 (n_ref m)) as (_ & _ & ->).
      destruct (Hs2 (n_ref c)) as (_ & _ & ->).
      replace (n_depth (h (n_ref m)) - n_depth (h (n_ref node)))%nat
        with (S (n_depth (h (n_ref m)) - n_depth (h (n_ref c))))%nat by lia.
      rewrite ofNat_S. lra.
    + intros c' Hc'. eapply depthsOK_shape; [exact Hs2|].
      eapply depthsOK_sub; [|exact Hok].
      eapply collectNodes_child; [exact Hc' | apply collectNodes_self].
Qed.

(** X13.  In the vertical layout of a tree of distinct node objects whose depth
    fields follow the tree and whose widths are not negative (the
    horizontal spacing used, [horizontalSpacing + 10], being not negative
    either): every node sits in the row of its depth, one
    [verticalSpacing + 40] per level; the root is centred on x = 0; two
    nodes of which neither is an ancestor of the other, in particular two
    nodes of the same depth, are at least the horizontal spacing apart; and
    when [horizontalSpacing] is at least 4, collision resolution changes
    nothing. *)
Theorem vertical_layout_is_tidy
    (cos sin : Q -> Q) (root : LayoutNode) (config : MindMapConfig) (h : Heap) :
  NoDup (refsOf root) ->
  depthsOK h root ->
  0 <= horizontalSpacing (structure config) + 10 ->
  (forall m, In m (collectNodes root) -> 0 <= nodeW h m) ->
  let hSpacing := horizontalSpacing (structure config) + 10 in
  let vSpacing := verticalSpacing (structure config) + 40 in
  let h' := layoutVertical root config h in
  (forall m, In m (collectNodes root) ->
     nodeY h' m == ofNat (nodeD h m - nodeD h root) * vSpacing)
  /\ nodeX h' root + nodeW h root * (1 # 2) == 0
  /\ (forall a b, In a (collectNodes root) -> In b (collectNodes root) ->
        unrelated a b -> apart AxisX hSpacing h' a b)
  /\ levelsApart AxisX hSpacing h' root
  /\ (4 <= horizontalSpacing (structure config) ->
      resolveCollisions cos sin (collectNodes root) Vertical h' = h').
Proof.
  intros Hnd Hok Hhs Hw. cbv zeta. unfold layoutVertical. cbv zeta.
  set (hs := horizontalSpacing (structure config) + 10) in *.
  set (vs := verticalSpacing (structure config) + 40).
  set (total := subtreeWidth hs h root).
  destruct (assignDown_tidy hs vs root (- total / 2) 0 h Hnd Hhs Hw) as [_ Hap].
  destruct (assignDown_places hs vs root (- total / 2) 0 h) as [Hs _].
  assert (Hlev : levelsApart AxisX hs (assignDown hs vs root (- total / 2) 0 h) root).
  { apply (unrelated_apart_levels AxisX hs h); assumption. }
  split.
  { intros m Hm.
    rewrite (assignDown_rows hs vs root (- total / 2) 0 h Hnd Hok m Hm). lra. }
  split.
  { destruct (assignDown_x hs vs root (- total / 2) 0 h Hnd) as [-> _].
    fold total. halves. lra. }
  split; [exact Hap|]. split; [exact Hlev|].
  intros H4. apply resolveCollisions_noop; [discriminate | exact Hnd | |].
  - intros n Hn. cbn [packingAxis]. rewrite (sameShape_extent AxisX h _ n Hs).
    apply Hw, Hn.
  - cbn [packingAxis]. intros a b Ha Hb Hne Hd.
    apply (apart_weaken AxisX hs); [unfold hs, collisionPadding; lra|].
    apply Hlev; assumption.
Qed.

(** ** After collision resolution every level is apart *)

Lemma sweepFrom_gaps (ax : Axis) (rest : list LayoutNode) :
  forall prev h,
    NoDup (flat_map refsOf (prev :: rest)) ->
    (forall n, In n (prev :: rest) -> 0 <= extent ax h n) ->
    Sorted (gapBefore ax collisionPadding (sweepFrom ax prev rest h)) (prev :: rest).
Proof.
  induction rest as [|curr rest IH]; intros prev h Hnd Hext; cbn [sweepFrom].
  - repeat constructor.
  - set (overlap := coord ax h prev + extent ax h prev + collisionPadding
                    - coord ax h curr).
    set (h1 := if Qgtb overlap 0 then pushForward ax curr overlap h else h).
    destruct (NoDup_flat_map_cons _ _ Hnd) as (Hprev & Hnd' & Hdisj).
    destruct (NoDup_flat_map_cons _ _ Hnd') as (Hcurr & Hnd'' & Hdisj').
    assert (Hfw : heapForward ax h h1).
    { unfold h1. destruct (Qgtb overlap 0) eqn:E.
      - apply pushForward_forward. apply Qgtb_lt in E. lra.
      - apply heapForward_refl. }
    assert (Hfr1 : forall r, ~ In r (refsOf curr) -> h1 r = h r).
    { intros r Hr. unfold h1. destruct (Qgtb overlap 0); [|reflexivity].
      apply pushForward_frame, Hr. }
    assert (Hgap : coord ax h1 prev + extent ax h prev + collisionPadding
                   <= coord ax h1 curr).
    { assert (Hp : coord ax h1 prev = coord ax h prev).
      { unfold coord, nodeX, nodeY. rewrite Hfr1; [reflexivity|].
        intros Hin. apply (Hdisj (n_ref prev)); [apply refsOf_head|].
        cbn [flat_map]. apply in_or_app. left. exact Hin. }
      rewrite Hp. unfold h1. destruct (Qgtb overlap 0) eqn:E.
      - rewrite pushForward_self by exact Hcurr. unfold overlap. lra.
      - apply Qgtb_le in E. unfold overlap in E. lra. }
    assert (Hsorted : Sorted (gapBefore ax collisionPadding
                                (sweepFrom ax curr rest h1)) (curr :: rest)).
    { apply IH; [exact Hnd'|]. intros n Hn.
      rewrite (extent_forward ax ax h h1 n Hfw). apply Hext. right. exact Hn. }
    constructor; [exact Hsorted|]. constructor. unfold gapBefore.
    pose proof (sweepFrom_frame ax rest curr h1) as Hfr.
    assert (Hp' : coord ax (sweepFrom ax curr rest h1) prev = coord ax h1 prev).
    { unfold coord, nodeX, nodeY. rewrite Hfr; [reflexivity|].
      intros Hin. apply (Hdisj (n_ref prev)); [apply refsOf_head|].
      cbn [flat_map]. apply in_or_app. right. exact Hin. }
    assert (Hc' : coord ax (sweepFrom ax curr rest h1) curr = coord ax h1 curr).
    { unfold coord, nodeX, nodeY. rewrite Hfr; [reflexivity|].
      intros Hin. apply (Hdisj' (n_ref curr)); [apply refsOf_head | exact Hin]. }
    assert (He : extent ax (sweepFrom ax curr rest h1) prev = extent ax h prev).
    { rewrite (extent_forward ax ax h1 _ prev (sweepFrom_forward ax rest curr h1)).
      apply (extent_forward ax ax h h1 prev Hfw). }
    rewrite Hp', Hc', He. exact Hgap.
Qed.

Lemma solidGap_trans (ax : Axis) (gap : Q) (h : Heap) :
  0 <= gap -> Transitive (solidGap ax gap h).
Proof.
  intros Hg a b c (H1 & Ha & Hb) (H2 & _ & Hc). unfold solidGap, gapBefore in *.
  repeat split; lra.
Qed.

Lemma Sorted_solid (ax : Axis) (gap : Q) (h : Heap) (l : list LayoutNode) :
  (forall n, In n l -> 0 <= extent ax h n) ->
  Sorted (gapBefore ax gap h) l -> Sorted (solidGap ax gap h) l.
Proof.
  intros Hext Hs. induction Hs as [|a l Hs IH Hhd]; [constructor|].
  constructor.
  - apply IH. intros n Hn. apply Hext. right. exact Hn.
  - destruct Hhd as [|b l Hab]; constructor. unfold solidGap.
    split; [exact Hab|]. split; apply Hext; [left | right; left]; reflexivity.
Qed.

Lemma StronglySorted_either {A : Type} (R : A -> A -> Prop) (l : list A) :
  StronglySorted R l ->
  forall a b, In a l -> In b l -> a <> b -> R a b \/ R b a.
Proof.
  induction 1 as [|x l Hs IH Hall]; intros a b Ha Hb Hne; [destruct Ha|].
  rewrite List.Forall_forall in Hall.
  destruct Ha as [<- | Ha], Hb as [<- | Hb].
  - contradiction.
  - left. apply Hall, Hb.
  - right. apply Hall, Ha.
  - apply IH; assumption.
Qed.

Lemma sweepLevel_apart (ax : Axis) (level : list LayoutNode) (h : Heap) :
  NoDup (flat_map refsOf level) ->
  (forall n, In n level -> 0 <= extent ax h n) ->
  forall a b, In a level -> In b level -> a <> b ->
    apart ax collisionPadding (sweepLevel ax level h) a b.
Proof.
  intros Hnd Hext a b Ha Hb Hne.
  pose proof (sweepLevel_forward ax level h) as Hfw.
  unfold sweepLevel in *.
  pose proof (sortBy_perm (coord ax h) level) as Hperm.
  destruct (sortBy (coord ax h) level) as [|first rest] eqn:Es.
  - apply Permutation_nil in Hperm. subst level. destruct Ha.
  - assert (Hs : Sorted (gapBefore ax collisionPadding (sweepFrom ax first rest h))
                   (first :: rest)).
    { apply sweepFrom_gaps.
      - rewrite (Permutation_flat_map refsOf Hperm). exact Hnd.
      - intros n Hn. apply Hext. eapply Permutation_in; [exact Hperm | exact Hn]. }
    apply Sorted_solid in Hs.
    + apply Sorted_StronglySorted in Hs;
        [|apply solidGap_trans; unfold collisionPadding; lra].
      destruct (StronglySorted_either _ _ Hs a b) as [(H & _) | (H & _)];
        try assumption.
      * eapply Permutation_in; [symmetry; exact Hperm | exact Ha].
      * eapply Permutation_in; [symmetry; exact Hperm | exact Hb].
      * left. exact H.
      * right. exact H.
    + intros n Hn. rewrite (extent_forward ax ax h _ n Hfw).
      apply Hext. eapply Permutation_in; [exact Hperm | exact Hn].
Qed.

Lemma resolve_level_final (cos sin : Q -> Q) (layout : LayoutType)
    (root : LayoutNode) (h : Heap) :
  layout <> Radial ->
  NoDup (refsOf root) ->
  depthsOK h root ->
  forall k d level,
    groupByDepth false h (collectNodes root) !! k = Some (d, level) ->
    forall n, In n level ->
      resolveCollisions cos sin (collectNodes root) layout h (n_ref n)
      = sweepLevel (packingAxis layout) level
          (sweptLevels (packingAxis layout)
             (groupByDepth false h (collectNodes root)) k h) (n_ref n).
Proof.
  intros Hlayout Hnd Hok k d level Hk n Hn.
  rewrite (resolveCollisions_sweeps cos sin _ layout h Hlayout).
  set (ax := packingAxis layout).
  set (nodes := collectNodes root) in *.
  set (groups := groupByDepth false h nodes) in *.
  destruct (groupByDepth_keys h root Hok) as (len & Hkeys).
  fold nodes groups in Hkeys.
  assert (Hcontent : forall k d level, groups !! k = Some (d, level) ->
            level = List.filter (fun n => Nat.eqb (nodeD h n) d) nodes
            /\ d = (nodeD h root + k)%nat).
  { intros k0 d0 level0 Hk0. split.
    - apply groupByDepth_entry. apply list_elem_of_In.
      eapply list_elem_of_lookup_2. exact Hk0.
    - assert (Hd : map fst groups !! k0 = Some d0)
        by (rewrite list_lookup_fmap, Hk0; reflexivity).
      rewrite Hkeys in Hd. apply lookup_seq in Hd as [Hd _]. lia. }
  destruct (Hcontent k d level Hk) as [Hlevel Hd].
  assert (Hnn : In n nodes /\ nodeD h n = d).
  { rewrite Hlevel in Hn. apply List.filter_In in Hn as [Hn Hdn].
    apply Nat.eqb_eq in Hdn. auto. }
  destruct Hnn as [Hnn Hdn].
  rewrite <- (take_drop_middle groups k (d, level) Hk) at 1.
  rewrite fold_left_app. cbn [fold_left snd].
  fold (sweptLevels ax groups k h).
  apply sweepLevels_frame.
  intros [d' level'] Hg Hin. cbn [snd] in Hin.
  apply list_elem_of_In, list_elem_of_lookup_1 in Hg as (j & Hj).
  rewrite lookup_drop in Hj.
  destruct (Hcontent _ _ _ Hj) as [Hlevel' Hd'].
  apply in_flat_map in Hin as (m & Hm & Hin).
  rewrite Hlevel' in Hm. apply List.filter_In in Hm as [Hm Hdm].
  apply Nat.eqb_eq in Hdm.
  unfold refsOf in Hin. apply in_map_iff in Hin as (x & Hrx & Hx).
  assert (Hxn : x = n).
  { apply (same_ref_same_node nodes); try assumption.
    eapply collectNodes_trans; [exact Hm | exact Hx]. }
  subst x.
  destruct (depth_of_descendant h root Hok m Hm n Hx) as [-> | Hlt]; lia.
Qed.

Lemma levels_apart_after (cos sin : Q -> Q) (layout : LayoutType)
    (root : LayoutNode) (h : Heap) :
  layout <> Radial ->
  NoDup (refsOf root) ->
  depthsOK h root ->
  (forall n, In n (collectNodes root) -> 0 <= extent (packingAxis layout) h n) ->
  levelsApart (packingAxis layout) collisionPadding
    (resolveCollisions cos sin (collectNodes root) layout h) root.
Proof.
  intros Hlayout Hnd Hok Hext a b Ha Hb Hne Hd.
  pose proof (resolveCollisions_shape cos sin (collectNodes root) layout h) as Hshape.
  assert (Hd0 : nodeD h a = nodeD h b).
  { unfold nodeD in *. destruct (Hshape (n_ref a)) as (_ & _ & <-).
    destruct (Hshape (n_ref b)) as (_ & _ & <-). exact Hd. }
  destruct (groupByDepth_has h (collectNodes root) a Ha) as (k & level & Hk & Hal).
  assert (Hlevel : level = List.filter (fun n => Nat.eqb (nodeD h n) (nodeD h a))
                             (collectNodes root)).
  { apply groupByDepth_entry. apply list_elem_of_In.
    eapply list_elem_of_lookup_2. exact Hk. }
  assert (Hbl : In b level).
  { rewrite Hlevel. apply List.filter_In. split; [exact Hb|].
    apply Nat.eqb_eq. congruence. }
  set (ax := packingAxis layout) in *.
  set (before := sweptLevels ax (groupByDepth false h (collectNodes root)) k h).
  assert (Hfw : heapForward ax h before) by apply sweepLevels_forward.
  assert (Hafter : apart ax collisionPadding (sweepLevel ax level before) a b).
  { apply sweepLevel_apart.
    - rewrite Hlevel.
      apply (level_subtrees_disjoint h root _ Hok root (collectNodes_self root) Hnd).
    - intros n Hn. rewrite (extent_forward ax ax h before n Hfw). apply Hext.
      rewrite Hlevel in Hn. apply List.filter_In in Hn as [Hn _]. exact Hn.
    - exact Hal.
    - exact Hbl.
    - intros ->. contradiction. }
  revert Hafter. apply apart_agree.
  - exact (resolve_level_final cos sin layout root h Hlayout Hnd Hok k _ level Hk a Hal).
  - exact (resolve_level_final cos sin layout root h Hlayout Hnd Hok k _ level Hk b Hbl).
Qed.

(** X14.  Outside the radial paradigm, on a tree of distinct node objects whose
    depth fields follow the tree and whose extents along the packing axis
    are not negative: after collision resolution any two different nodes of
    the same depth are at least the padding of 14 apart along the packing
    axis, and resolving collisions a second time changes nothing. *)
Theorem resolveCollisions_separates_every_level
    (cos sin : Q -> Q) (layout : LayoutType) (root : LayoutNode) (h : Heap) :
  layout <> Radial ->
  NoDup (refsOf root) ->
  depthsOK h root ->
  (forall n, In n (collectNodes root) -> 0 <= extent (packingAxis layout) h n) ->
  let resolved := resolveCollisions cos sin (collectNodes root) layout h in
  levelsApart (packingAxis layout) collisionPadding resolved root
  /\ resolveCollisions cos sin (collectNodes root) layout resolved = resolved.
Proof.
  intros Hlayout Hnd Hok Hext. cbv zeta.
  pose proof (levels_apart_after cos sin layout root h Hlayout Hnd Hok Hext) as Hap.
  split; [exact Hap|].
  apply resolveCollisions_noop; [exact Hlayout | exact Hnd | | exact Hap].
  intros n Hn.
  rewrite (sameShape_extent _ h _ n
             (resolveCollisions_shape cos sin (collectNodes root) layout h)).
  apply Hext, Hn.
Qed.

(** ** Radial layout: rings *)

Lemma positionChildren_frame (cos sin : Q -> Q) (baseRing : Q) (parent : LayoutNode) :
  forall startAngle endAngle h r,
    ~ In r (flat_map refsOf (n_children parent)) ->
    positionChildren cos sin baseRing parent startAngle endAngle h r = h r.
Proof.
  induction parent as [r0 i cs IH] using LayoutNode_nested_ind.
  intros startAngle endAngle h r. rewrite positionChildren_eq. cbn [n_children].
  generalize (allocateAngles baseRing h cs (endAngle - startAngle)) as angles.
  generalize startAngle as cur. revert h.
  induction IH as [|c cs Hc _ IHcs]; intros h cur angles Hr;
    destruct angles as [|a angles]; cbn [positionLoop]; try reflexivity.
  cbn [flat_map] in Hr. rewrite in_app_iff in Hr.
  rewrite IHcs by tauto.
  rewrite refsOf_children in Hr. cbn [In] in Hr.
  rewrite Hc by tauto.
  unfold writeAngle, writeY, writeX. rewrite !upd_other; [reflexivity | | |];
    intros ->; tauto.
Qed.

Lemma positionLoop_frame (cos sin : Q -> Q) (baseRing : Q) (cs : list LayoutNode) :
  forall angles cur h r,
    ~ In r (flat_map refsOf cs) ->
    positionLoop cos sin baseRing cs angles cur h r = h r.
Proof.
  induction cs as [|c cs IH]; intros angles cur h r Hr;
    destruct angles as [|a angles]; cbn [positionLoop]; try reflexivity.
  cbn [flat_map] in Hr. rewrite in_app_iff in Hr.
  rewrite IH by tauto.
  rewrite refsOf_children in Hr. cbn [In] in Hr.
  rewrite positionChildren_frame by tauto.
  unfold writeAngle, writeY, writeX. rewrite !upd_other; [reflexivity | | |];
    intros ->; tauto.
Qed.

Lemma positionLoop_onRing (cos sin : Q -> Q) (baseRing : Q) (h : Heap)
    (cs : list LayoutNode) :
  Forall (ringsBelow cos sin baseRing) cs ->
  forall h0 cur angles,
    sameShape h h0 ->
    length angles = length cs ->
    NoDup (flat_map refsOf cs) ->
    forall m, In m (flat_map collectNodes cs) ->
      onRing cos sin baseRing h (positionLoop cos sin baseRing cs angles cur h0) m.
Proof.
  induction 1 as [|c cs Hc _ IHcs]; intros h0 cur angles Hs Hlen Hnd m Hm;
    [destruct Hm|].
  destruct angles as [|a angles]; [discriminate|].
  cbn [positionLoop].
  set (mid := (cur + (cur + a)) / 2).
  set (h1 := writeX c _ h0).
  set (h2 := writeY c _ h1).
  set (h3 := writeAngle c mid h2).
  set (h4 := positionChildren cos sin baseRing c cur (cur + a) h3).
  destruct (NoDup_flat_map_cons _ _ Hnd) as (Hndc & Hndcs & Hdisj).
  rewrite refsOf_children in Hndc. apply NoDup_cons in Hndc as [Hself Hndc].
  rewrite list_elem_of_In in Hself.
  assert (Hs3 : sameShape h0 h3).
  { eapply sameShape_trans; [apply writeX_shape|].
    eapply sameShape_trans; [apply writeY_shape | apply writeAngle_shape]. }
  assert (Hs4 : sameShape h h4).
  { eapply sameShape_trans; [exact Hs|].
    eapply sameShape_trans; [exact Hs3 | apply positionChildren_shape]. }
  pose proof (positionChildren_frame cos sin baseRing c cur (cur + a) h3) as Hf4.
  fold h4 in Hf4.
  assert (Hloopframe : forall r, In r (refsOf c) ->
            positionLoop cos sin baseRing cs angles (cur + a) h4 r = h4 r).
  { intros r Hr. apply positionLoop_frame. apply Hdisj. exact Hr. }
  cbn [flat_map] in Hm. apply in_app_or in Hm as [Hm | Hm].
  - rewrite collectNodes_unfold in Hm. destruct Hm as [<- | Hm].
    + exists mid. unfold nodeA, nodeX, nodeY.
      rewrite !Hloopframe by apply refsOf_head.
      rewrite !Hf4 by exact Hself.
      unfold h3, h2, h1, writeAngle, writeY, writeX. rewrite !upd_same.
      cbn [n_angle n_x n_y setAngle setY setX].
      unfold nodeD, nodeW, nodeH. rewrite !upd_same. cbn [n_height setX].
      destruct (Hs (n_ref c)) as (-> & -> & ->). auto.
    + assert (Hr : In (n_ref m) (refsOf c)).
      { rewrite refsOf_children. right. apply in_refs_of_descendant, Hm. }
      destruct (Hc cur (cur + a) h3 Hndc m Hm) as (x & Hx & HX & HY).
      fold h4 in Hx, HX, HY.
      exists x. unfold nodeA, nodeX, nodeY in *.
      rewrite !Hloopframe by exact Hr.
      unfold nodeD, nodeW, nodeH in *.
      destruct (Hs (n_ref m)) as (Hw & Hh & Hd).
      destruct (Hs3 (n_ref m)) as (Hw3 & Hh3 & Hd3).
      rewrite Hx, HX, HY, Hw3, Hh3, Hd3, Hw, Hh, Hd. auto.
  - apply IHcs; try assumption.
    cbn [length] in Hlen. lia.
Qed.

Lemma positionChildren_onRing (cos sin : Q -> Q) (baseRing : Q) (parent : LayoutNode) :
  ringsBelow cos sin baseRing parent.
Proof.
  induction parent as [r0 i cs IH] using LayoutNode_nested_ind.
  intros startAngle endAngle h Hnd m Hm.
  rewrite positionChildren_eq. cbn [n_children] in *.
  apply (positionLoop_onRing cos sin baseRing h cs IH); try assumption.
  - apply sameShape_refl.
  - apply allocateAngles_length.
Qed.

Lemma radiusForDepth_step (baseRing : Q) (d : nat) :
  0 < baseRing -> radiusForDepth baseRing d < radiusForDepth baseRing (S d).
Proof.
  intros Hb. unfold radiusForDepth.
  pose proof (ofNat_S d) as HS. pose proof (ofNat_nonneg d) as H0.
  destruct d as [|[|d]].
  - cbn [Nat.ltb Nat.leb]. change (ofNat 0) with 0. change (ofNat 1) with 1. lra.
  - cbn [Nat.ltb Nat.leb]. change (ofNat 1) with 1. change (ofNat 2) with 2. lra.
  - replace (Nat.ltb 1 (S (S d))) with true by reflexivity.
    replace (Nat.ltb 1 (S (S (S d)))) with true by reflexivity.
    rewrite HS. nra.
Qed.

(** X15.  In the radial layout of a tree of distinct node objects: the root is
    centred on the origin and keeps its angle field; every other node gets
    an angle and is centred on the point of that direction on the ring of
    its depth, [radiusForDepth(depth)]; sizes and depths are kept and no
    object outside the tree is touched.  The ring of depth 0 has radius 0
    and, the base ring being positive, every ring is wider than the one
    before. *)
Theorem radial_layout_puts_every_node_on_its_ring
    (cos sin : Q -> Q) (PI : Q) (root : LayoutNode) (config : MindMapConfig)
    (h : Heap) :
  NoDup (refsOf root) ->
  let baseRing := horizontalSpacing (structure config) + 120 in
  let h' := layoutRadial cos sin PI root config h in
  nodeX h' root = - nodeW h root / 2
  /\ nodeY h' root = - nodeH h root / 2
  /\ nodeA h' root = nodeA h root
  /\ (forall m, In m (flat_map collectNodes (n_children root)) ->
        onRing cos sin baseRing h h' m)
  /\ sameShape h h'
  /\ (forall r, ~ In r (refsOf root) -> h' r = h r)
  /\ radiusForDepth baseRing 0 == 0
  /\ (0 < baseRing ->
      forall d, radiusForDepth baseRing d < radiusForDepth baseRing (S d)).
Proof.
  intros Hnd. cbv zeta. unfold layoutRadial. cbv zeta.
  set (baseRing := horizontalSpacing (structure config) + 120).
  set (h1 := writeX root (- nodeW h root / 2) h).
  set (h2 := writeY root (- nodeH h1 root / 2) h1).
  rewrite refsOf_children in Hnd. apply NoDup_cons in Hnd as [Hself Hndcs].
  rewrite list_elem_of_In in Hself.
  assert (Hs2 : sameShape h h2).
  { eapply sameShape_trans; [apply writeX_shape | apply writeY_shape]. }
  pose proof (positionChildren_frame cos sin baseRing root 0 (PI * 2) h2) as Hfr.
  assert (Hroot : positionChildren cos sin baseRing root 0 (PI * 2) h2 (n_ref root)
                  = h2 (n_ref root)) by (apply Hfr, Hself).
  assert (Hh1 : nodeH h1 root = nodeH h root).
  { unfold nodeH. apply (writeX_shape root _ h (n_ref root)). }
  split.
  { unfold nodeX. rewrite Hroot. unfold h2, h1, writeY, writeX.
    rewrite !upd_same. reflexivity. }
  split.
  { unfold nodeY. rewrite Hroot. unfold h2, writeY. rewrite upd_same.
    cbn [n_y setY]. rewrite Hh1. reflexivity. }
  split.
  { unfold nodeA. rewrite Hroot. unfold h2, h1, writeY, writeX.
    rewrite !upd_same. reflexivity. }
  split.
  { intros m Hm.
    destruct (positionChildren_onRing cos sin baseRing root 0 (PI * 2) h2 Hndcs m Hm)
      as (a & Ha & HX & HY).
    exists a. unfold nodeD, nodeW, nodeH in *.
    destruct (Hs2 (n_ref m)) as (Hw & Hh & Hd).
    rewrite Ha, HX, HY, Hw, Hh, Hd. auto. }
  split.
  { eapply sameShape_trans; [exact Hs2 | apply positionChildren_shape]. }
  split.
  { intros r Hr. rewrite refsOf_children in Hr. cbn [In] in Hr.
    rewrite Hfr by tauto. unfold h2, h1. apply writes_frame. intros ->. tauto. }
  split.
  { unfold radiusForDepth. cbn [Nat.ltb Nat.leb]. change (ofNat 0) with 0. lra. }
  intros Hb d. apply radiusForDepth_step, Hb.
Qed.

(** ** Collision resolution only moves nodes, and never the radial root *)

Lemma onlyMoves_refl (h : Heap) : onlyMoves h h.
Proof. intros r. auto. Qed.

Lemma onlyMoves_trans (h1 h2 h3 : Heap) :
  onlyMoves h1 h2 -> onlyMoves h2 h3 -> onlyMoves h1 h3.
Proof.
  intros H12 H23 r.
  destruct (H12 r) as (? & ? & ? & ?), (H23 r) as (? & ? & ? & ?).
  repeat split; congruence.
Qed.

Lemma writeX_moves (n : LayoutNode) (v : Q) (h : Heap) : onlyMoves h (writeX n v h).
Proof.
  intros r. unfold writeX. destruct (Nat.eq_dec r (n_ref n)) as [-> | Hne].
  - rewrite upd_same. cbn. auto.
  - rewrite upd_other by exact Hne. auto.
Qed.

Lemma writeY_moves (n : LayoutNode) (v : Q) (h : Heap) : onlyMoves h (writeY n v h).
Proof.
  intros r. unfold writeY. destruct (Nat.eq_dec r (n_ref n)) as [-> | Hne].
  - rewrite upd_same. cbn. auto.
  - rewrite upd_other by exact Hne. auto.
Qed.

Lemma shiftSubtreeXY_moves (dx dy : Q) (node : LayoutNode) :
  forall h, onlyMoves h (shiftSubtreeXY node dx dy h).
Proof.
  induction node as [r i cs IH] using LayoutNode_nested_ind.
  cbn [shiftSubtreeXY].
  induction IH as [|c cs Hc _ IHcs]; intros h; cbn [fold_left];
    [apply onlyMoves_refl|].
  eapply onlyMoves_trans; [|apply IHcs].
  eapply onlyMoves_trans; [|apply Hc].
  unfold shiftNode. cbv zeta.
  eapply onlyMoves_trans; [apply writeX_moves | apply writeY_moves].
Qed.

Lemma pushPair_moves (cos sin : Q -> Q) (a b : LayoutNode) (h : Heap) :
  onlyMoves h (pushPair cos sin a b h).
Proof.
  unfold pushPair. cbv zeta.
  destruct (_ && _); [|apply onlyMoves_refl].
  unfold shiftSubtree.
  eapply onlyMoves_trans; [|apply shiftSubtreeXY_moves].
  eapply onlyMoves_trans; [|apply writeY_moves].
  eapply onlyMoves_trans; [|apply writeX_moves].
  eapply onlyMoves_trans; [|apply shiftSubtreeXY_moves].
  eapply onlyMoves_trans; [apply writeX_moves | apply writeY_moves].
Qed.

Lemma pushPair_frame (cos sin : Q -> Q) (a b : LayoutNode) (h : Heap) (r : nat) :
  ~ In r (refsOf a) -> ~ In r (refsOf b) -> pushPair cos sin a b h r = h r.
Proof.
  intros Ha Hb. unfold pushPair. cbv zeta.
  destruct (_ && _); [|reflexivity].
  rewrite refsOf_children in Ha, Hb. cbn [In] in Ha, Hb.
  unfold shiftSubtree.
  rewrite shiftSubtreeXY_frame by tauto.
  unfold writeY at 1. rewrite upd_other by (intros ->; tauto).
  unfold writeX at 1. rewrite upd_other by (intros ->; tauto).
  rewrite shiftSubtreeXY_frame by tauto.
  unfold writeY, writeX. rewrite !upd_other by (intros ->; tauto). reflexivity.
Qed.

Lemma adjacentPass_moves (cos sin : Q -> Q) (l : list LayoutNode) :
  forall h, onlyMoves h (adjacentPass cos sin l h).
Proof.
  induction l as [|a l IH]; intros h; [apply onlyMoves_refl|].
  destruct l as [|b l]; [apply onlyMoves_refl|].
  cbn [adjacentPass]. eapply onlyMoves_trans; [apply pushPair_moves | apply IH].
Qed.

Lemma adjacentPass_frame (cos sin : Q -> Q) (l : list LayoutNode) (r : nat) :
  ~ In r (flat_map refsOf l) ->
  forall h, adjacentPass cos sin l h r = h r.
Proof.
  induction l as [|a l IH]; intros Hr h; [reflexivity|].
  destruct l as [|b l]; [reflexivity|].
  change (adjacentPass cos sin (a :: b :: l) h)
    with (adjacentPass cos sin (b :: l) (pushPair cos sin a b h)).
  cbn [flat_map] in Hr, IH. rewrite !in_app_iff in Hr.
  rewrite IH by (rewrite in_app_iff; tauto).
  apply pushPair_frame; tauto.
Qed.

Lemma radialLevel_frame (cos sin : Q -> Q) (level : list LayoutNode) (h : Heap)
    (r : nat) :
  ~ In r (flat_map refsOf level) -> radialLevel cos sin level h r = h r.
Proof.
  intros Hr. unfold radialLevel. cbv zeta.
  assert (Hr' : ~ In r (flat_map refsOf (sortBy (angleOrZero h) level))).
  { intros Hin. apply Hr.
    eapply Permutation_in;
      [apply (Permutation_flat_map refsOf (sortBy_perm (angleOrZero h) level))|].
    exact Hin. }
  rewrite !adjacentPass_frame by exact Hr'. reflexivity.
Qed.

Lemma groupPush_member (d0 : nat) (n0 : LayoutNode) (m : list (nat * list LayoutNode))
    (d : nat) (level : list LayoutNode) (n : LayoutNode) :
  In (d, level) (groupPush d0 n0 m) -> In n level ->
  (n = n0 /\ d = d0) \/ (exists level0, In (d, level0) m /\ In n level0).
Proof.
  induction m as [|[d' arr] m IH]; cbn [groupPush]; intros Hin Hn.
  - destruct Hin as [Heq | []]. inversion Heq; subst.
    destruct Hn as [<- | []]. left. auto.
  - destruct (Nat.eqb d' d0) eqn:E.
    + apply Nat.eqb_eq in E. subst d'. destruct Hin as [Heq | Hin].
      * inversion Heq; subst. apply in_app_or in Hn as [Hn | [<- | []]].
        -- right. exists arr. split; [left; reflexivity | exact Hn].
        -- left. auto.
      * right. exists level. split; [right; exact Hin | exact Hn].
    + destruct Hin as [Heq | Hin].
      * inversion Heq; subst. right. exists level.
        split; [left; reflexivity | exact Hn].
      * destruct (IH Hin Hn) as [Hl | (level0 & Hl0 & Hn0)]; [left; exact Hl|].
        right. exists level0. split; [right; exact Hl0 | exact Hn0].
Qed.

Lemma groupByDepth_members (skipRoot : bool) (h : Heap) (l : list LayoutNode) :
  forall d level n,
    In (d, level) (groupByDepth skipRoot h l) -> In n level ->
    In n l /\ nodeD h n = d /\ (skipRoot = true -> nodeD h n <> 0%nat).
Proof.
  unfold groupByDepth.
  assert (H : forall seen m,
    (forall d level n, In (d, level) m -> In n level ->
       In n seen /\ nodeD h n = d /\ (skipRoot = true -> nodeD h n <> 0%nat)) ->
    forall d level n,
      In (d, level)
        (fold_left (fun m n =>
           if skipRoot && Nat.eqb (nodeD h n) 0 then m
           else groupPush (nodeD h n) n m) l m) ->
      In n level ->
      In n (seen ++ l) /\ nodeD h n = d /\ (skipRoot = true -> nodeD h n <> 0%nat)).
  { induction l as [|a l IH]; intros seen m Hm d level n Hin Hn; cbn [fold_left] in Hin.
    - rewrite app_nil_r. eapply Hm; eassumption.
    - replace (seen ++ a :: l) with ((seen ++ [a]) ++ l)
        by (rewrite <- app_assoc; reflexivity).
      eapply IH; [|exact Hin | exact Hn].
      intros d' level' n' Hin' Hn'.
      destruct (skipRoot && Nat.eqb (nodeD h a) 0) eqn:E.
      + destruct (Hm d' level' n' Hin' Hn') as (H1 & H2 & H3).
        split; [apply in_or_app; left; exact H1 | auto].
      + destruct (groupPush_member _ _ _ _ _ _ Hin' Hn')
          as [[-> ->] | (level0 & Hl0 & Hn0)].
        * split; [apply in_or_app; right; left; reflexivity|].
          split; [reflexivity|]. intros ->. cbn [andb] in E.
          apply Nat.eqb_neq in E. exact E.
        * destruct (Hm d' level0 n' Hl0 Hn0) as (H1 & H2 & H3).
          split; [apply in_or_app; left; exact H1 | auto]. }
  intros d level n Hin Hn. apply (H [] [] ltac:(intros ? ? ? []) d level n Hin Hn).
Qed.

Lemma heapForward_moves (ax : Axis) (h h' : Heap) :
  heapForward ax h h' -> onlyMoves h h'.
Proof.
  intros Hf r. destruct (Hf r) as (_ & Hw & Hh & Hd & Ha). auto.
Qed.

Lemma resolveCollisions_moves (cos sin : Q -> Q) (nodes : list LayoutNode)
    (layout : LayoutType) (h : Heap) :
  onlyMoves h (resolveCollisions cos sin nodes layout h).
Proof.
  destruct layout; cbn [resolveCollisions];
    try (eapply heapForward_moves; apply sweepLevels_forward).
  generalize (groupByDepth true h nodes) as groups. intros groups. revert h.
  induction groups as [|g groups IH]; intros h; cbn [fold_left];
    [apply onlyMoves_refl|].
  eapply onlyMoves_trans; [|apply IH].
  unfold radialLevel. cbv zeta.
  eapply onlyMoves_trans; [|apply adjacentPass_moves].
  eapply onlyMoves_trans; [|apply adjacentPass_moves].
  apply adjacentPass_moves.
Qed.

Lemma radialLevels_frame (cos sin : Q -> Q) (groups : list (nat * list LayoutNode))
    (r : nat) :
  (forall g, In g groups -> ~ In r (flat_map refsOf (snd g))) ->
  forall h, fold_left (fun h grp => radialLevel cos sin (snd grp) h) groups h r = h r.
Proof.
  induction groups as [|g groups IH]; intros Hall h; cbn [fold_left]; [reflexivity|].
  rewrite IH by (intros g' Hg'; apply Hall; right; exact Hg').
  apply radialLevel_frame, Hall. left. reflexivity.
Qed.

(** X16.  Under every paradigm collision resolution changes positions only:
    width, height, depth and angle of every object are kept.  Under the
    radial paradigm, on a tree of distinct node objects whose depth fields
    follow the tree from a root of depth 0, the root is never moved, and no
    object outside the tree is touched. *)
Theorem collision_resolution_only_moves_and_keeps_the_radial_root
    (cos sin : Q -> Q) (root : LayoutNode) (h : Heap) :
  NoDup (refsOf root) ->
  depthsOK h root ->
  nodeD h root = 0%nat ->
  (forall layout,
      onlyMoves h (resolveCollisions cos sin (collectNodes root) layout h))
  /\ resolveCollisions cos sin (collectNodes root) Radial h (n_ref root)
     = h (n_ref root)
  /\ (forall r, ~ In r (refsOf root) ->
        resolveCollisions cos sin (collectNodes root) Radial h r = h r).
Proof.
  intros Hnd Hok Hd0.
  split; [intros layout; apply resolveCollisions_moves|].
  assert (Hlevels : forall g, In g (groupByDepth true h (collectNodes root)) ->
            forall n, In n (snd g) ->
              In n (collectNodes root) /\ nodeD h n <> 0%nat).
  { intros [d level] Hg n Hn. cbn [snd] in Hn.
    destruct (groupByDepth_members true h _ d level n Hg Hn) as (H1 & _ & H3).
    split; [exact H1 | apply H3; reflexivity]. }
  cbn [resolveCollisions]. split.
  - apply radialLevels_frame. intros g Hg Hin.
    apply in_flat_map in Hin as (n & Hn & Hin).
    destruct (Hlevels g Hg n Hn) as [Hnn Hdn].
    unfold refsOf in Hin. apply in_map_iff in Hin as (x & Hrx & Hx).
    assert (Hxr : x = root).
    { apply (same_ref_same_node (collectNodes root)); try assumption.
      - eapply collectNodes_trans; [exact Hnn | exact Hx].
      - apply collectNodes_self. }
    subst x.
    destruct (depth_of_descendant h root Hok n Hnn root Hx) as [-> | Hlt];
      [contradiction | lia].
  - intros r Hr. apply radialLevels_frame. intros g Hg Hin.
    apply Hr. apply in_flat_map in Hin as (n & Hn & Hin).
    destruct (Hlevels g Hg n Hn) as [Hnn _].
    unfold refsOf in *. apply in_map_iff in Hin as (x & Hrx & Hx).
    apply in_map_iff. exists x. split; [exact Hrx|].
    eapply collectNodes_trans; [exact Hnn | exact Hx].
Qed.

(** ** The canvas view *)

(** X17.  Starting a drag on a node of the layout and then moving the pointer,
    with the view box and the (non-degenerate) container rectangle unchanged
    in between,
    proposes for the node its position plus the pointer's displacement in
    SVG units; without displacement it proposes the node's own position. *)
Theorem dragged_node_follows_the_pointer
    (viewBox : ViewBox) (rect : DOMRect) (nodes : list LayoutNode) (h : Heap)
    (offsetX offsetY : Q) (nodeId : string) (node : LayoutNode)
    (clientX clientY clientX' clientY' : Q) (st : DragState) :
  find (fun n => String.eqb (n_id n) nodeId) nodes = Some node ->
  nodeId <> EmptyString ->
  ~ rect_width rect == 0 ->
  ~ rect_height rect == 0 ->
  let st' :=
    handleNodeDragStart viewBox (Some rect) nodes h offsetX offsetY nodeId
      clientX clientY st in
  exists newX newY,
    dragMove viewBox (Some rect) offsetX offsetY st' clientX' clientY'
    = Some (nodeId, newX, newY)
    /\ newX == nodeX h node + (clientX' - clientX) * (vb_w viewBox / rect_width rect)
    /\ newY == nodeY h node + (clientY' - clientY) * (vb_h viewBox / rect_height rect)
    /\ (clientX' = clientX -> newX == nodeX h node)
    /\ (clientY' = clientY -> newY == nodeY h node).
Proof.
  intros Hfind Hne _ _. cbv zeta. unfold handleNodeDragStart. cbv zeta.
  rewrite Hfind. unfold dragMove. cbn [dragNodeId dragOffset].
  assert (Ht : truthyString (Some nodeId) = true).
  { destruct nodeId; [contradiction | reflexivity]. }
  rewrite Ht. cbv zeta. cbn [screenToSvg pt_x pt_y].
  eexists. eexists. split; [reflexivity|].
  split; [ring|]. split; [ring|].
  split; intros ->; ring.
Qed.

(** X18.  A wheel event over a non-degenerate container leaves the zoom factor
    between 0.1 and 5, and the point of the drawing under the pointer stays
    under the pointer; the new view box width is the layout width times the
    unclamped factor.  The zoom
    buttons scale the view box about its centre; "+" followed by "-" does
    not restore the view box but leaves 96% of its size. *)
Theorem zooming_keeps_the_anchor_point
    (zoom : Q) (viewBox : ViewBox) (layoutWidth layoutHeight : Q)
    (rect : DOMRect) (deltaY clientX clientY s : Q) :
  ~ rect_width rect == 0 ->
  ~ rect_height rect == 0 ->
  let wheel :=
    handleWheel zoom viewBox layoutWidth layoutHeight (Some rect)
      deltaY clientX clientY in
  let button := zoomButton s viewBox zoom in
  (1 # 10 <= snd wheel <= 5)
  /\ pt_x (screenToSvg (fst wheel) (Some rect) clientX clientY)
     == pt_x (screenToSvg viewBox (Some rect) clientX clientY)
  /\ pt_y (screenToSvg (fst wheel) (Some rect) clientX clientY)
     == pt_y (screenToSvg viewBox (Some rect) clientX clientY)
  /\ vb_w (fst wheel)
     == layoutWidth * zoom * (if Qgtb deltaY 0 then 11 # 10 else 9 # 10)
  /\ vb_x (fst button) + vb_w (fst button) * (1 # 2)
     == vb_x viewBox + vb_w viewBox * (1 # 2)
  /\ vb_y (fst button) + vb_h (fst button) * (1 # 2)
     == vb_y viewBox + vb_h viewBox * (1 # 2)
  /\ vb_w (fst (zoomOut (fst (zoomIn viewBox zoom)) (snd (zoomIn viewBox zoom))))
     == vb_w viewBox * (96 # 100)
  /\ snd (zoomOut (fst (zoomIn viewBox zoom)) (snd (zoomIn viewBox zoom)))
     == zoom * (96 # 100).
Proof.
  intros _ _. cbv zeta. unfold handleWheel, zoomIn, zoomOut, zoomButton. cbv zeta.
  cbn [fst snd screenToSvg pt_x pt_y vb_x vb_y vb_w vb_h].
  split.
  { split; [apply Q.le_max_l|].
    apply Q.max_lub; [lra | apply Q.le_min_l]. }
  split; [unfold Qdiv; ring|]. split; [unfold Qdiv; ring|].
  split; [ring|].
  split; [halves; ring|]. split; [halves; ring|].
  split; ring.
Qed.

(** ** Edge routing: the boundary point of the radial paradigm *)

Lemma Qdiv_cancel (a d : Q) : ~ d == 0 -> d * (a / d) == a.
Proof. intros Hd. field. exact Hd. Qed.

Lemma Qle_div_mult_pos (t a d : Q) : 0 < d -> t <= a / d -> d * t <= a.
Proof.
  intros Hd Ht. rewrite <- (Qdiv_cancel a d) by lra.
  rewrite !(Qmult_comm d). apply Qmult_le_compat_r; lra.
Qed.

Lemma Qle_div_mult_neg (t a d : Q) : d < 0 -> t <= a / d -> a <= d * t.
Proof.
  intros Hd Ht. rewrite <- (Qdiv_cancel a d) by lra.
  assert (H : (- d) * t <= (- d) * (a / d)).
  { rewrite !(Qmult_comm (- d)). apply Qmult_le_compat_r; lra. }
  lra.
Qed.

Lemma Qdiv_pos_nonneg (a d : Q) : 0 <= a -> 0 < d -> 0 <= a / d.
Proof. intros Ha Hd. apply Qle_shift_div_l; lra. Qed.

Lemma Qdiv_neg_nonneg (a d : Q) : 0 <= a -> d < 0 -> 0 <= - a / d.
Proof.
  intros Ha Hd. assert (E : - a / d == a / - d) by (field; lra).
  rewrite E. apply Qle_shift_div_l; lra.
Qed.

Lemma rectBoundaryPoint_spec
    (node : Geom) (targetX targetY offsetX offsetY : Q) :
  0 <= n_width node ->
  0 <= n_height node ->
  let bp := rectBoundaryPoint node targetX targetY offsetX offsetY in
  let nx := n_x node + offsetX in
  let ny := n_y node + offsetY in
  let cx := nx + n_width node / 2 in
  let cy := ny + n_height node / 2 in
  onSide nx ny (n_width node) (n_height node)
    (bp_x bp) (bp_y bp) (bp_dx bp) (bp_dy bp)
  /\ (atCentre (targetX - cx) (targetY - cy) = false ->
      exists t,
        0 <= t
        /\ bp_x bp == cx + (targetX - cx) * t
        /\ bp_y bp == cy + (targetY - cy) * t).
Proof.
  intros Hw Hh. cbv zeta. unfold rectBoundaryPoint, atCentre. cbv zeta.
  set (nx := n_x node + offsetX). set (ny := n_y node + offsetY).
  set (cx := nx + n_width node / 2). set (cy := ny + n_height node / 2).
  set (dirX := targetX - cx). set (dirY := targetY - cy).
  set (halfW := n_width node / 2). set (halfH := n_height node / 2).
  assert (HhalfW : 0 <= halfW /\ n_width node == halfW + halfW).
  { unfold halfW. halves. split; lra. }
  assert (HhalfH : 0 <= halfH /\ n_height node == halfH + halfH).
  { unfold halfH. halves. split; lra. }
  assert (Hcx : cx == nx + halfW) by (unfold cx, halfW; reflexivity).
  assert (Hcy : cy == ny + halfH) by (unfold cy, halfH; reflexivity).
  destruct (Qltb (Qabs dirX) (1 # 100) && Qltb (Qabs dirY) (1 # 100)) eqn:Ecentre.
  { cbn [bp_x bp_y bp_dx bp_dy]. split; [|discriminate].
    unfold onSide. split; [lra|]. split; [lra|].
    right. right. right. repeat split; lra. }
  assert (Hnz : ~ (dirX == 0 /\ dirY == 0)).
  { intros [HX HY]. apply andb_false_iff in Ecentre.
    destruct Ecentre as [E | E]; apply Qltb_le in E.
    - assert (H0 : Qabs dirX == 0) by (rewrite HX; reflexivity). lra.
    - assert (H0 : Qabs dirY == 0) by (rewrite HY; reflexivity). lra. }
  set (ttR := halfW / dirX). set (ttL := - halfW / dirX).
  set (ttB := halfH / dirY). set (ttT := - halfH / dirY).
  assert (HR : 0 < dirX -> 0 <= ttR /\ dirX * ttR == halfW).
  { intros Hd. split; [apply Qdiv_pos_nonneg; lra | apply Qdiv_cancel; lra]. }
  assert (HL : dirX < 0 -> 0 <= ttL /\ dirX * ttL == - halfW).
  { intros Hd. split; [apply Qdiv_neg_nonneg; lra | apply Qdiv_cancel; lra]. }
  assert (HB : 0 < dirY -> 0 <= ttB /\ dirY * ttB == halfH).
  { intros Hd. split; [apply Qdiv_pos_nonneg; lra | apply Qdiv_cancel; lra]. }
  assert (HT : dirY < 0 -> 0 <= ttT /\ dirY * ttT == - halfH).
  { intros Hd. split; [apply Qdiv_neg_nonneg; lra | apply Qdiv_cancel; lra]. }
  assert (HRle : forall t, 0 < dirX -> 0 <= t -> t <= ttR -> 0 <= dirX * t <= halfW).
  { intros t Hd H0 Ht. split; [apply Qmult_le_0_compat; lra|].
    apply Qle_div_mult_pos; assumption. }
  assert (HLle : forall t, dirX < 0 -> 0 <= t -> t <= ttL -> - halfW <= dirX * t <= 0).
  { intros t Hd H0 Ht. split; [apply Qle_div_mult_neg; assumption|].
    assert (0 <= (- dirX) * t) by (apply Qmult_le_0_compat; lra). lra. }
  assert (HBle : forall t, 0 < dirY -> 0 <= t -> t <= ttB -> 0 <= dirY * t <= halfH).
  { intros t Hd H0 Ht. split; [apply Qmult_le_0_compat; lra|].
    apply Qle_div_mult_pos; assumption. }
  assert (HTle : forall t, dirY < 0 -> 0 <= t -> t <= ttT -> - halfH <= dirY * t <= 0).
  { intros t Hd H0 Ht. split; [apply Qle_div_mult_neg; assumption|].
    assert (0 <= (- dirY) * t) by (apply Qmult_le_0_compat; lra). lra. }
  assert (HX0 : forall t, dirX == 0 -> dirX * t == 0) by (intros t ->; ring).
  assert (HY0 : forall t, dirY == 0 -> dirY * t == 0) by (intros t ->; ring).
  clearbody ttR ttL ttB ttT.
  unfold hitTest.
  destruct (Qgtb dirX 0) eqn:EX1; [apply Qgtb_lt in EX1 | apply Qgtb_le in EX1];
  destruct (Qltb dirX 0) eqn:EX2; [apply Qltb_lt in EX2 | apply Qltb_le in EX2
                                  | apply Qltb_lt in EX2 | apply Qltb_le in EX2];
  try (exfalso; lra);
  destruct (Qgtb dirY 0) eqn:EY1; [apply Qgtb_lt in EY1 | apply Qgtb_le in EY1
                                  | apply Qgtb_lt in EY1 | apply Qgtb_le in EY1
                                  | apply Qgtb_lt in EY1 | apply Qgtb_le in EY1];
  destruct (Qltb dirY 0) eqn:EY2;
  try (apply Qltb_lt in EY2); try (apply Qltb_le in EY2);
  try (exfalso; lra);
  repeat match goal with
         | |- context [Qltb ?a ?b] =>
             let E := fresh "E" in
             destruct (Qltb a b) eqn:E;
             [apply Qltb_lt in E | apply Qltb_le in E]
         end;
  cbn [bp_x bp_y bp_dx bp_dy];
  try (exfalso; apply Hnz; split; lra);
  match goal with
  | |- onSide _ _ _ _ (_ + _ * ?t) _ _ _ /\ _ =>
      pose proof (HRle t) as HtR; pose proof (HLle t) as HtL;
      pose proof (HBle t) as HtB; pose proof (HTle t) as HtT;
      pose proof (HX0 t) as HtX; pose proof (HY0 t) as HtY;
      clear HRle HLle HBle HTle HX0 HY0;
      (split;
       [ unfold onSide; split; [lra|]; split; [lra|];
         first [ left; split; [reflexivity|]; split; [reflexivity|]; lra
               | right; left; split; [reflexivity|]; split; [reflexivity|]; lra
               | right; right; left; split; [reflexivity|]; split; [reflexivity|]; lra
               | right; right; right; split; [reflexivity|]; split; [reflexivity|]; lra ]
       | intros _; exists t; split; [lra|]; split; reflexivity ])
  end.
Qed.

(** X19.  The boundary point that [rectBoundaryPoint] returns for a node of
    non-negative size lies on the node's rectangle, on the side whose
    outward normal is returned with it; unless the target is at the centre
    (up to 0.01), it is the point where the ray from the centre towards the
    target leaves the rectangle. *)
Theorem rectBoundaryPoint_lies_on_the_boundary
    (node : Geom) (targetX targetY offsetX offsetY : Q) :
  0 <= n_width node ->
  0 <= n_height node ->
  let bp := rectBoundaryPoint node targetX targetY offsetX offsetY in
  let nx := n_x node + offsetX in
  let ny := n_y node + offsetY in
  let cx := nx + n_width node / 2 in
  let cy := ny + n_height node / 2 in
  onSide nx ny (n_width node) (n_height node)
    (bp_x bp) (bp_y bp) (bp_dx bp) (bp_dy bp)
  /\ (atCentre (targetX - cx) (targetY - cy) = false ->
      exists t,
        0 <= t
        /\ bp_x bp == cx + (targetX - cx) * t
        /\ bp_y bp == cy + (targetY - cy) * t).
Proof.
  intros Hw Hh. cbv zeta.
  destruct (rectBoundaryPoint_spec node targetX targetY offsetX offsetY Hw Hh)
    as [Hside Hray].
  split; [exact Hside|]. intros Hfar.
  destruct (Hray Hfar) as (t & Ht & Hx & Hy).
  exists t. split; [exact Ht|]. split; [exact Hx | exact Hy].
Qed.




(** ** Angle normalisation and the descendants map of the drag guard *)




(** X21.  In a layout tree whose identifiers are distinct, the descendants map
    has an entry exactly for the identifiers of the tree, and the entry of
    a node lists the identifiers of its proper descendants: those of each
    child's subtree, and never the node's own. *)
Theorem descendantsMap_lists_the_proper_descendants (root : LayoutNode) :
  NoDup (idsOf root) ->
  exists dm,
    descendantsMap (collectNodes root) = Some dm
    /\ (forall k, In k (idsOf root) <-> is_Some (dm !! k))
    /\ (forall n, In n (collectNodes root) ->
        exists ds,
          dm !! n_id n = Some ds
          /\ ~ In (n_id n) ds
          /\ (forall k, In k ds <->
                exists c, In c (n_children n) /\ In k (idsOf c))).
Proof.
  intros Hnd. destruct (descendantsMap_spec root Hnd) as (dm & Hdm & Hout & Hin).
  exists dm. split; [exact Hdm|]. split.
  - intros k. split.
    + intros Hk. unfold idsOf in Hk. apply in_map_iff in Hk.
      destruct Hk as (n & <- & Hn). rewrite (Hin n Hn). eexists; reflexivity.
    + intros [ds Hds]. destruct (in_dec String.string_dec k (idsOf root)) as [Hk | Hk];
        [exact Hk|]. rewrite (Hout k Hk) in Hds. discriminate.
  - intros n Hn. exists (descendantIds n). split; [apply Hin, Hn|]. split.
    + apply self_not_descendant.
      eapply NoDup_ids_sub; [exact Hn | exact Hnd].
    + intros k. unfold descendantIds, idsOf. rewrite in_map_iff. split.
      * intros (m & <- & Hm). apply in_flat_map in Hm.
        destruct Hm as (c & Hc & Hm). exists c. split; [exact Hc|].
        apply in_map. exact Hm.
      * intros (c & Hc & Hk). apply in_map_iff in Hk.
        destruct Hk as (m & <- & Hm). exists m. split; [reflexivity|].
        apply in_flat_map. exists c. split; assumption.
Qed.

(** ** The layout memo: manual positions written over the computed layout *)



(** ** Leaf counts of the radial layout *)

Lemma fold_add_acc {A : Type} (f : A -> nat) (l : list A) (a : nat) :
  fold_left (fun s c => (s + f c)%nat) l a
  = (a + fold_left (fun s c => (s + f c)%nat) l 0)%nat.
Proof.
  revert a. induction l as [|x l IH]; intros a; cbn [fold_left].
  - lia.
  - rewrite IH, (IH (0 + f x)%nat). lia.
Qed.

Lemma computeSubtreeLeaves_unfold (node : LayoutNode) :
  computeSubtreeLeaves node
  = if isLeaf node then 1%nat
    else fold_left (fun total c => (total + computeSubtreeLeaves c)%nat)
           (n_children node) 0%nat.
Proof. destruct node as [r i [|c cs]]; reflexivity. Qed.

Lemma leaves_of_children (cs : list LayoutNode) :
  Forall (fun c => computeSubtreeLeaves c
                   = length (List.filter isLeaf (collectNodes c))) cs ->
  fold_left (fun total c => (total + computeSubtreeLeaves c)%nat) cs 0%nat
  = length (List.filter isLeaf (flat_map collectNodes cs)).
Proof.
  induction 1 as [|c cs Hc _ IH]; [reflexivity|].
  cbn [fold_left flat_map]. rewrite fold_add_acc, IH, Hc.
  rewrite List.filter_app, length_app. lia.
Qed.

Lemma computeSubtreeLeaves_count (node : LayoutNode) :
  computeSubtreeLeaves node = length (List.filter isLeaf (collectNodes node)).
Proof.
  induction node as [r i cs IH] using LayoutNode_nested_ind.
  rewrite computeSubtreeLeaves_unfold, collectNodes_unfold. cbn [n_children List.filter].
  destruct (isLeaf (LNode r i cs)) eqn:E.
  - destruct cs; [reflexivity | discriminate].
  - apply leaves_of_children. exact IH.
Qed.

Lemma computeSubtreeLeaves_pos (node : LayoutNode) :
  (1 <= computeSubtreeLeaves node)%nat.
Proof.
  induction node as [r i cs IH] using LayoutNode_nested_ind.
  rewrite computeSubtreeLeaves_unfold. cbn [n_children].
  destruct (isLeaf (LNode r i cs)) eqn:E; [lia|].
  destruct cs as [|c cs]; [discriminate|].
  cbn [fold_left]. rewrite fold_add_acc.
  apply Forall_cons_iff in IH as [Hc _]. lia.
Qed.

Lemma sumQ_shares (ls : list nat) (total span : Q) :
  sumQ (map (fun l => (ofNat l / total) * span) ls)
  == ofNat (fold_left (fun s c => (s + c)%nat) ls 0%nat) / total * span.
Proof.
  induction ls as [|l ls IH].
  - unfold sumQ. cbn. unfold Qdiv. change (ofNat 0) with 0. ring.
  - cbn [map fold_left]. rewrite sumQ_cons, IH.
    rewrite (fold_add_acc (fun c => c) ls (0 + l)).
    unfold ofNat. rewrite !Nat2Z.inj_add, !inject_Z_plus. cbn [Z.of_nat].
    unfold Qdiv. change (inject_Z 0) with 0. ring.
Qed.

Lemma flooredAngles_shares (baseRing : Q) (h : Heap) (cs : list LayoutNode)
    (angleSpan : Q) :
  flooredAngles baseRing h cs angleSpan
  = zip_with Qmax (proportionalShares cs angleSpan)
      (map (minSubtreeAngle baseRing h) cs).
Proof.
  unfold flooredAngles, proportionalShares. cbv zeta.
  assert (Htotal : forall a,
            fold_left (fun s c => (s + fst c)%nat)
              (map (fun child => (computeSubtreeLeaves child,
                                  minSubtreeAngle baseRing h child)) cs) a
            = fold_left (fun s c => (s + c)%nat) (map computeSubtreeLeaves cs) a).
  { induction cs as [|c cs IH]; intros a; [reflexivity|].
    cbn [map fold_left fst]. apply IH. }
  rewrite Htotal. clear Htotal.
  generalize (fold_left (fun s c => (s + c)%nat) (map computeSubtreeLeaves cs) 0%nat)
    as total.
  intros total. induction cs as [|c cs IH]; [reflexivity|].
  cbn [map zip_with fst snd]. rewrite IH. reflexivity.
Qed.

(** X23.  [computeSubtreeLeaves] returns the number of childless nodes of the
    subtree, which is at least 1; so the total by which [positionChildren]
    divides is positive whenever there are children, and the proportional
    shares of the children, which it raises to their minimum angles, add up
    to the whole span. *)
Theorem computeSubtreeLeaves_counts_the_leaves (node : LayoutNode) :
  computeSubtreeLeaves node = length (List.filter isLeaf (collectNodes node))
  /\ (1 <= computeSubtreeLeaves node <= length (collectNodes node))%nat
  /\ (forall angleSpan,
        n_children node <> [] ->
        sumQ (proportionalShares (n_children node) angleSpan) == angleSpan)
  /\ (forall baseRing h angleSpan,
        flooredAngles baseRing h (n_children node) angleSpan
        = zip_with Qmax (proportionalShares (n_children node) angleSpan)
            (map (minSubtreeAngle baseRing h) (n_children node))).
Proof.
  split; [apply computeSubtreeLeaves_count|]. split.
  - split; [apply computeSubtreeLeaves_pos|].
    rewrite computeSubtreeLeaves_count. apply filter_length_le.
  - split; [|intros; apply flooredAngles_shares].
    intros angleSpan Hne. unfold proportionalShares. cbv zeta.
    rewrite sumQ_shares.
    set (total := fold_left (fun s c => (s + c)%nat)
                    (map computeSubtreeLeaves (n_children node)) 0%nat).
    assert (Hpos : (1 <= total)%nat).
    { unfold total. destruct (n_children node) as [|c cs]; [contradiction|].
      cbn [map fold_left]. rewrite (fold_add_acc (fun c => c)).
      pose proof (computeSubtreeLeaves_pos c). lia. }
    assert (Hq : 0 < ofNat total).
    { unfold ofNat. change 0 with (inject_Z 0). rewrite <- Zlt_Qlt. lia. }
    field. lra.
Qed.

(** ** Wrapping text *)

Lemma append_nonempty_r (a b : string) :
  b <> EmptyString -> (a ++ b)%string <> EmptyString.
Proof. destruct a; [intros H; exact H | discriminate]. Qed.

Lemma truthyString_false (s : string) :
  truthyString (Some s) = false <-> s = EmptyString.
Proof. destruct s; cbn; split; intros H; try reflexivity; discriminate. Qed.

Lemma truthyString_true (s : string) :
  truthyString (Some s) = true <-> s <> EmptyString.
Proof.
  destruct s; cbn; split; intros H; try reflexivity; try discriminate.
  contradiction.
Qed.

Section WrapFacts.

Variable lineWidth : string -> Q.
Variable maxWidth : Q.

Lemma wrapLoop_lines (words ws : list string) :
  incl ws words ->
  forall st,
    Forall (lineOK lineWidth maxWidth words) (fst st) ->
    (snd st = EmptyString \/ lineOK lineWidth maxWidth words (snd st)) ->
    Forall (lineOK lineWidth maxWidth words)
      (fst (fold_left (wrapStep lineWidth maxWidth) ws st))
    /\ (snd (fold_left (wrapStep lineWidth maxWidth) ws st) = EmptyString
        \/ lineOK lineWidth maxWidth words
             (snd (fold_left (wrapStep lineWidth maxWidth) ws st))).
Proof.
  induction ws as [|w ws IH]; intros Hsub [lines cur] Hlines Hcur;
    cbn [fold_left fst snd] in *.
  - split; assumption.
  - assert (Hw : In w words) by (apply Hsub; left; reflexivity).
    assert (Hsub' : incl ws words) by (intros x Hx; apply Hsub; right; exact Hx).
    apply (IH Hsub'); unfold wrapStep;
      destruct (truthyString (Some cur)) eqn:Et;
      rewrite ?andb_true_r, ?andb_false_r.
    + destruct (Qgtb _ maxWidth) eqn:Eg; cbn [fst]; [|exact Hlines].
      apply Forall_app. split; [exact Hlines|]. constructor; [|constructor].
      destruct Hcur as [-> | Hcur]; [discriminate | exact Hcur].
    + exact Hlines.
    + destruct (Qgtb _ maxWidth) eqn:Eg; cbn [snd].
      * destruct w; [left; reflexivity|].
        right. split; [discriminate | right; exact Hw].
      * right. apply Qgtb_le in Eg. split; [|left; exact Eg].
        apply append_nonempty_r. discriminate.
    + cbn [snd]. destruct w; [left; reflexivity|].
      right. split; [discriminate | right; exact Hw].
Qed.

Lemma joinSpaces_snoc (g : list string) (w : string) :
  g <> [] -> joinSpaces (g ++ [w]) = (joinSpaces g ++ " " ++ w)%string.
Proof.
  destruct g as [|a g]; [contradiction|]. intros _.
  cbn [joinSpaces app]. rewrite fold_left_app. reflexivity.
Qed.

Lemma joinSpaces_nonempty (g : list string) :
  g <> [] -> Forall (fun w => w <> EmptyString) g -> joinSpaces g <> EmptyString.
Proof.
  destruct g as [|a g]; [contradiction|]. intros _ Hall.
  apply Forall_cons_iff in Hall as [Ha _]. cbn [joinSpaces].
  revert a Ha. induction g as [|b g IH]; intros a Ha; cbn [fold_left]; [exact Ha|].
  apply IH. destruct a; [contradiction | discriminate].
Qed.

Lemma breaksNeeded_extend (gs : list (list string)) (g : list string) (w : string) :
  g <> [] ->
  breaksNeeded lineWidth maxWidth (gs ++ [g]) ->
  breaksNeeded lineWidth maxWidth (gs ++ [g ++ [w]]).
Proof.
  intros Hg. induction gs as [|a gs IH]; cbn [app breaksNeeded].
  - intros _. split; exact I.
  - intros [Hhead Hrest]. split; [|apply IH; exact Hrest].
    destruct gs as [|b gs]; cbn [app] in *; [|exact Hhead].
    destruct g as [|x g]; [contradiction | exact Hhead].
Qed.

Lemma breaksNeeded_snoc (gs : list (list string)) (g : list string) (w : string) :
  breaksNeeded lineWidth maxWidth (gs ++ [g]) ->
  maxWidth < lineWidth (joinSpaces g ++ " " ++ w)%string ->
  breaksNeeded lineWidth maxWidth ((gs ++ [g]) ++ [[w]]).
Proof.
  intros Hb Hw. induction gs as [|a gs IH]; cbn [app breaksNeeded] in *.
  - split; [exact Hw | split; exact I].
  - destruct Hb as [Hhead Hrest]. split; [|apply IH; exact Hrest].
    destruct gs as [|b gs]; cbn [app] in *; exact Hhead.
Qed.

Lemma wrapLoop_groups (ws : list string) :
  Forall (fun w => w <> EmptyString) ws ->
  forall (done : list string) (groups : list (list string)) (gcur : list string),
    Forall (fun w => w <> EmptyString) gcur ->
    concat groups ++ gcur = done ->
    Forall (fun g => g <> []) groups ->
    (gcur = [] -> groups = []) ->
    breaksNeeded lineWidth maxWidth (groups ++ [gcur]) ->
    exists groups' gcur',
      fold_left (wrapStep lineWidth maxWidth) ws
        (map joinSpaces groups, joinSpaces gcur)
      = (map joinSpaces groups', joinSpaces gcur')
      /\ Forall (fun w => w <> EmptyString) gcur'
      /\ concat groups' ++ gcur' = done ++ ws
      /\ Forall (fun g => g <> []) groups'
      /\ (gcur' = [] -> groups' = [] /\ ws = [])
      /\ breaksNeeded lineWidth maxWidth (groups' ++ [gcur']).
Proof.
  induction 1 as [|w ws Hw Hws IH]; intros done groups gcur Hne Hcat Hgs Hemp Hb.
  - exists groups, gcur. rewrite app_nil_r. cbn [fold_left].
    repeat split; try assumption. apply Hemp; assumption.
  - cbn [fold_left]. unfold wrapStep at 2.
    destruct (truthyString (Some (joinSpaces gcur))) eqn:Et.
    + apply truthyString_true in Et.
      assert (Hg : gcur <> []) by (intros ->; apply Et; reflexivity).
      rewrite andb_true_r.
      destruct (Qgtb _ maxWidth) eqn:Eg.
      * apply Qgtb_lt in Eg.
        destruct (IH (done ++ [w]) (groups ++ [gcur]) [w]) as (gs' & gc' & H1 & H2 & H3 & H4 & H5 & H6).
        -- constructor; [exact Hw | constructor].
        -- rewrite concat_app. cbn [concat]. rewrite app_nil_r, Hcat. reflexivity.
        -- apply Forall_app. split; [exact Hgs | constructor; [exact Hg | constructor]].
        -- discriminate.
        -- apply breaksNeeded_snoc; assumption.
        -- exists gs', gc'. rewrite map_app in H1. cbn [map joinSpaces fold_left] in H1.
           rewrite <- app_assoc in H3. cbn [app] in H3.
           split; [exact H1|]. split; [exact H2|]. split; [exact H3|].
           split; [exact H4|]. split; [|exact H6].
           intros E. exfalso. destruct (H5 E) as [E1 _]. rewrite E, E1 in H3.
           cbn in H3. destruct done; discriminate.
      * destruct (IH (done ++ [w]) groups (gcur ++ [w])) as (gs' & gc' & H1 & H2 & H3 & H4 & H5 & H6).
        -- apply Forall_app. split; [exact Hne | constructor; [exact Hw | constructor]].
        -- rewrite app_assoc, Hcat. reflexivity.
        -- exact Hgs.
        -- intros E. destruct gcur; discriminate.
        -- apply breaksNeeded_extend; assumption.
        -- exists gs', gc'. rewrite joinSpaces_snoc in H1 by exact Hg.
           rewrite <- app_assoc in H3. cbn [app] in H3.
           split; [exact H1|]. split; [exact H2|]. split; [exact H3|].
           split; [exact H4|]. split; [|exact H6].
           intros E. exfalso. destruct (H5 E) as [E1 _]. rewrite E, E1 in H3.
           cbn in H3. destruct done; discriminate.
    + apply truthyString_false in Et. rewrite andb_false_r.
      assert (Hg : gcur = []).
      { destruct gcur as [|a g]; [reflexivity|]. exfalso.
        apply (joinSpaces_nonempty (a :: g)); [discriminate | exact Hne | exact Et]. }
      subst gcur. rewrite (Hemp eq_refl) in *. cbn [concat app] in Hcat. subst done.
      destruct (IH [w] [] [w]) as (gs' & gc' & H1 & H2 & H3 & H4 & H5 & H6).
      * constructor; [exact Hw | constructor].
      * reflexivity.
      * constructor.
      * discriminate.
      * cbn. split; exact I.
      * exists gs', gc'. cbn [map joinSpaces fold_left app] in *.
        split; [exact H1|]. split; [exact H2|]. split; [exact H3|].
        split; [exact H4|]. split; [|exact H6].
        intros E. exfalso. destruct (H5 E) as [E1 _]. rewrite E, E1 in H3.
        discriminate.
Qed.

End WrapFacts.

Lemma string_append_assoc (p a b : string) :
  ((p ++ a) ++ b)%string = (p ++ (a ++ b))%string.
Proof.
  induction p as [|c p IH]; [reflexivity|].
  change (String c ((p ++ a) ++ b) = String c (p ++ (a ++ b)))%string.
  f_equal. exact IH.
Qed.

Lemma joinSpaces_prefix (p a : string) (ws : list string) :
  fold_left (fun acc w => (acc ++ " " ++ w)%string) ws (p ++ a)%string
  = (p ++ fold_left (fun acc w => (acc ++ " " ++ w)%string) ws a)%string.
Proof.
  revert a. induction ws as [|w ws IH]; intros a; cbn [fold_left]; [reflexivity|].
  rewrite <- IH, string_append_assoc. reflexivity.
Qed.

Lemma splitSpaces_nonempty (text : string) : splitSpaces text <> [].
Proof.
  destruct text as [|c rest]; cbn [splitSpaces]; [discriminate|].
  destruct (String.eqb _ _); [discriminate|].
  destruct (splitSpaces rest); discriminate.
Qed.

Lemma splitSpaces_join (text : string) : joinSpaces (splitSpaces text) = text.
Proof.
  induction text as [|c rest IH]; [reflexivity|]. cbn [splitSpaces].
  pose proof (splitSpaces_nonempty rest) as Hne.
  destruct (splitSpaces rest) as [|w ws]; [contradiction|].
  cbn [joinSpaces] in IH.
  destruct (String.eqb (String c EmptyString) " ") eqn:E.
  - apply String.eqb_eq in E. injection E as ->.
    cbn [joinSpaces fold_left].
    change (EmptyString ++ " " ++ w)%string with (" " ++ w)%string.
    rewrite joinSpaces_prefix, IH. reflexivity.
  - cbn [joinSpaces].
    change (String c w) with (String c EmptyString ++ w)%string.
    rewrite joinSpaces_prefix, IH. reflexivity.
Qed.

(** X24.  [wrapText] returns no empty line, and every line it returns fits
    into [maxWidth] unless it is a single word of the text.  The words,
    joined by single spaces, are the text; and when none of them is empty
    (no leading, trailing or doubled space), the lines are the words in
    their order, cut into groups and joined by single spaces, such that no
    break could be left out: each line would be too wide with the first
    word of the next line added. *)
Theorem wrapText_breaks_only_where_needed
    (canvasWidth : string -> Q -> string -> string -> Q)
    (text : string) (maxWidth fontSize : Q) (fontFamily fontWeight : string) :
  let lineWidth := fun line => canvasWidth line fontSize fontFamily fontWeight in
  let words := splitSpaces text in
  let lines := wrapText canvasWidth text maxWidth fontSize fontFamily fontWeight in
  Forall (lineOK lineWidth maxWidth words) lines
  /\ joinSpaces words = text
  /\ (Forall (fun w => w <> EmptyString) words ->
      exists groups,
        concat groups = words
        /\ Forall (fun g => g <> []) groups
        /\ lines = map joinSpaces groups
        /\ breaksNeeded lineWidth maxWidth groups).
Proof.
  cbv zeta. unfold wrapText. cbv zeta.
  set (lineWidth := fun line => canvasWidth line fontSize fontFamily fontWeight).
  set (words := splitSpaces text).
  split; [|split; [apply splitSpaces_join|]].
  - destruct (wrapLoop_lines lineWidth maxWidth words words (incl_refl _)
                ([], EmptyString)) as [Hl Hc];
      [constructor | left; reflexivity |].
    destruct (fold_left _ words _) as [lines cur]. cbn [fst snd] in Hl, Hc.
    destruct (truthyString (Some cur)) eqn:Et; [|exact Hl].
    apply Forall_app. split; [exact Hl|]. constructor; [|constructor].
    destruct Hc as [-> | Hc]; [discriminate | exact Hc].
  - intros Hwords.
    destruct (wrapLoop_groups lineWidth maxWidth words Hwords [] [] [])
      as (gs & gc & H1 & H2 & H3 & H4 & H5 & H6);
      [constructor | reflexivity | constructor | reflexivity | cbn; split; exact I |].
    cbn [map joinSpaces] in H1. rewrite H1. cbn [app] in H3.
    destruct (truthyString (Some (joinSpaces gc))) eqn:Et.
    + apply truthyString_true in Et.
      assert (Hg : gc <> []) by (intros ->; apply Et; reflexivity).
      exists (gs ++ [gc]). split.
      * rewrite concat_app. cbn [concat]. rewrite app_nil_r. exact H3.
      * split; [apply Forall_app; split; [exact H4 | constructor; [exact Hg | constructor]]|].
        split; [rewrite map_app; reflexivity | exact H6].
    + apply truthyString_false in Et.
      assert (Hg : gc = []).
      { destruct gc as [|a g]; [reflexivity|]. exfalso.
        apply (joinSpaces_nonempty (a :: g)); [discriminate | exact H2 | exact Et]. }
      destruct (H5 Hg) as [-> Hw]. exists []. subst gc. cbn [concat app] in H3.
      split; [exact H3|]. split; [constructor|]. split; [reflexivity | exact I].
Qed.

(** ** The two sides of the balanced tree *)

Lemma sameButX_refl (h : Heap) : sameButX h h.
Proof. intros r. reflexivity. Qed.

Lemma sameButX_sym (h h' : Heap) : sameButX h h' -> sameButX h' h.
Proof. intros H r. symmetry. apply H. Qed.

Lemma sameButX_trans (h1 h2 h3 : Heap) :
  sameButX h1 h2 -> sameButX h2 h3 -> sameButX h1 h3.
Proof. intros H12 H23 r. rewrite (H12 r). apply H23. Qed.

Lemma sameButX_fields (h h' : Heap) (m : LayoutNode) :
  sameButX h h' ->
  nodeY h' m = nodeY h m /\ nodeW h' m = nodeW h m /\ nodeH h' m = nodeH h m
  /\ nodeD h' m = nodeD h m.
Proof.
  intros H. specialize (H (n_ref m)). unfold nodeY, nodeW, nodeH, nodeD.
  repeat split.
  - apply (f_equal n_y) in H. symmetry. exact H.
  - apply (f_equal n_width) in H. symmetry. exact H.
  - apply (f_equal n_height) in H. symmetry. exact H.
  - apply (f_equal n_depth) in H. symmetry. exact H.
Qed.

Lemma sameButX_shape (h h' : Heap) : sameButX h h' -> sameShape h h'.
Proof.
  intros H r. specialize (H r). repeat split.
  - apply (f_equal n_width) in H. symmetry. exact H.
  - apply (f_equal n_height) in H. symmetry. exact H.
  - apply (f_equal n_depth) in H. symmetry. exact H.
Qed.

Lemma writeX_sameButX (n : LayoutNode) (v v' : Q) (h h' : Heap) :
  sameButX h h' -> sameButX (writeX n v h) (writeX n v' h').
Proof.
  intros H r. unfold writeX. destruct (Nat.eq_dec r (n_ref n)) as [-> | Hne].
  - rewrite !upd_same. specialize (H (n_ref n)). unfold setX in *. cbn in *.
    injection H as H1 H2 H3 H4 H5. rewrite H1, H2, H3, H4, H5. reflexivity.
  - rewrite !upd_other by exact Hne. apply H.
Qed.

Lemma writeY_sameButX (n : LayoutNode) (v : Q) (h h' : Heap) :
  sameButX h h' -> sameButX (writeY n v h) (writeY n v h').
Proof.
  intros H r. unfold writeY. destruct (Nat.eq_dec r (n_ref n)) as [-> | Hne].
  - rewrite !upd_same. specialize (H (n_ref n)). unfold setX, setY in *. cbn in *.
    injection H as H1 H2 H3 H4 H5. rewrite H2, H3, H4, H5. reflexivity.
  - rewrite !upd_other by exact Hne. apply H.
Qed.

Lemma apart_sameButX (gap : Q) (h h' : Heap) (a b : LayoutNode) :
  sameButX h h' -> apart AxisY gap h a b -> apart AxisY gap h' a b.
Proof.
  intros H. destruct (sameButX_fields h h' a H) as (Hya & _ & Hha & _).
  destruct (sameButX_fields h h' b H) as (Hyb & _ & Hhb & _).
  unfold apart, gapBefore, coord, extent. rewrite Hya, Hyb, Hha, Hhb. tauto.
Qed.

Lemma inBand_sameButX (s : Q) (h0 h h' : Heap) (lo hi : Q) (m : LayoutNode) :
  sameButX h h' -> inBand AxisY s h0 h lo hi m -> inBand AxisY s h0 h' lo hi m.
Proof.
  intros H. destruct (sameButX_fields h h' m H) as (Hy & _).
  unfold inBand, coord. rewrite Hy. tauto.
Qed.

Section Sides.

Variables (hSpacing vSpacing : Q).

(** Along y, [assignLeft] places a subtree as [assignRight] does. *)
Lemma assignLoops_sameButX (cs : list LayoutNode) :
  Forall (fun c => forall x x' y h h',
            sameButX h h' ->
            sameButX (assignLeft hSpacing vSpacing c x y h)
              (assignRight hSpacing vSpacing c x' y h')) cs ->
  forall x x' y h h',
    sameButX h h' ->
    sameButX (assignLeftLoop hSpacing vSpacing x cs y h)
      (assignRightLoop hSpacing vSpacing x' cs y h').
Proof.
  induction 1 as [|c cs Hc _ IH]; intros x x' y h h' Hh;
    cbn [assignLeftLoop assignRightLoop]; [exact Hh|].
  rewrite (subtreeHeight_shape vSpacing h h' (sameButX_shape h h' Hh) c).
  apply IH, Hc, Hh.
Qed.

Lemma assignLeft_sameButX (node : LayoutNode) :
  forall x x' y h h',
    sameButX h h' ->
    sameButX (assignLeft hSpacing vSpacing node x y h)
      (assignRight hSpacing vSpacing node x' y h').
Proof.
  induction node as [r i cs IH] using LayoutNode_nested_ind.
  intros x x' y h h' Hh. rewrite assignLeft_eq, assignRight_eq. cbv zeta.
  cbn [n_children]. set (node := LNode r i cs).
  assert (H1 : sameButX (writeX node (x - nodeW h node) h) (writeX node x' h'))
    by (apply writeX_sameButX, Hh).
  rewrite (subtreeHeight_shape vSpacing _ _ (sameButX_shape _ _ H1) node).
  destruct (sameButX_fields _ _ node H1) as (_ & _ & -> & _).
  apply assignLoops_sameButX; [exact IH|].
  apply writeY_sameButX, H1.
Qed.

Lemma assignRight_sameButX (node : LayoutNode) (x x' y : Q) (h h' : Heap) :
  sameButX h h' ->
  sameButX (assignRight hSpacing vSpacing node x y h)
    (assignRight hSpacing vSpacing node x' y h').
Proof.
  intros Hh. eapply sameButX_trans.
  - apply sameButX_sym. apply (assignLeft_sameButX node 0 x y h h). apply sameButX_refl.
  - apply assignLeft_sameButX. exact Hh.
Qed.

(** Along y, a side of [layoutTree] is placed as the children of a node
    are by [assignRight]. *)
Lemma placeGroup_sameButX (assignSide : LayoutNode -> Q -> Q -> Heap -> Heap)
    (xOf : Heap -> Q) (x0 : Q) :
  placesSubtree assignSide ->
  (forall node x x' y h h',
      sameButX h h' ->
      sameButX (assignSide node x y h) (assignRight hSpacing vSpacing node x' y h')) ->
  forall group y h h',
    sameButX h h' ->
    sameButX (placeGroup assignSide vSpacing xOf group y h)
      (assignRightLoop hSpacing vSpacing x0 group y h').
Proof.
  intros Hp Hside. induction group as [|c group IH]; intros y h h' Hh;
    cbn [placeGroup assignRightLoop]; [exact Hh|]. cbv zeta.
  destruct (Hp c (xOf h) y h) as [Hs1 _].
  rewrite (subtreeHeight_shape vSpacing h _ Hs1 c).
  rewrite <- (subtreeHeight_shape vSpacing h h' (sameButX_shape h h' Hh) c).
  apply IH, Hside, Hh.
Qed.

End Sides.

Lemma assignLeftLoop_places (hSpacing vSpacing x : Q) (cs : list LayoutNode) :
  forall childY h,
    sameShape h (assignLeftLoop hSpacing vSpacing x cs childY h)
    /\ forall r, ~ In r (flat_map refsOf cs) ->
         assignLeftLoop hSpacing vSpacing x cs childY h r = h r.
Proof.
  induction cs as [|c cs IH]; intros childY h.
  - split; [apply sameShape_refl | reflexivity].
  - cbn [assignLeftLoop flat_map].
    destruct (assignLeft_places hSpacing vSpacing c (x - hSpacing) childY h)
      as [Hsc Hfc].
    destruct (IH (childY + subtreeHeight vSpacing h c)
                (assignLeft hSpacing vSpacing c (x - hSpacing) childY h))
      as [Hsl Hfl].
    split; [eapply sameShape_trans; eauto|].
    intros r Hr. rewrite in_app_iff in Hr. rewrite Hfl by tauto. apply Hfc. tauto.
Qed.

Lemma assignLeftLoop_columns (hSpacing vSpacing x : Q) (cs : list LayoutNode) :
  Forall (inColumnsOf (assignLeft hSpacing vSpacing) (columnLeft hSpacing)) cs ->
  forall childY h0,
    NoDup (flat_map refsOf cs) ->
    (forall c, In c cs -> depthsOK h0 c) ->
    forall c m, In c cs -> In m (collectNodes c) ->
      nodeX (assignLeftLoop hSpacing vSpacing x cs childY h0) m
      == columnLeft hSpacing h0 m (x - hSpacing) (nodeD h0 m - nodeD h0 c)%nat.
Proof.
  induction 1 as [|c0 cs Hc0 _ IH]; intros childY h0 Hnd Hok c m Hc Hm;
    [destruct Hc|].
  cbn [assignLeftLoop].
  destruct (NoDup_flat_map_cons _ _ Hnd) as (Hndc & Hndcs & Hdisj).
  destruct (assignLeft_places hSpacing vSpacing c0 (x - hSpacing) childY h0)
    as [Hsc Hfc].
  set (hc := assignLeft hSpacing vSpacing c0 (x - hSpacing) childY h0) in *.
  destruct (assignLeftLoop_places hSpacing vSpacing x cs
              (childY + subtreeHeight vSpacing h0 c0) hc) as [Hsl Hfl].
  destruct Hc as [<- | Hc].
  - unfold nodeX. rewrite Hfl.
    + apply (Hc0 (x - hSpacing) childY h0 Hndc (Hok c0 (or_introl eq_refl)) m Hm).
    + apply Hdisj. unfold refsOf. apply in_map. exact Hm.
  - rewrite (IH (childY + subtreeHeight vSpacing h0 c0) hc Hndcs) with (c := c);
      try assumption.
    + unfold columnLeft, nodeD, nodeW. destruct (Hsc (n_ref m)) as (-> & _ & ->).
      destruct (Hsc (n_ref c)) as (_ & _ & ->). reflexivity.
    + intros c' Hc'. eapply depthsOK_shape; [exact Hsc|]. apply Hok. right. exact Hc'.
Qed.

Lemma assignLeft_columns (hSpacing vSpacing : Q) (node : LayoutNode) :
  inColumnsOf (assignLeft hSpacing vSpacing) (columnLeft hSpacing) node.
Proof.
  induction node as [r i cs IH] using LayoutNode_nested_ind.
  intros x yStart h Hnd Hok m Hm.
  rewrite collectNodes_unfold in Hm. destruct Hm as [<- | Hm].
  - rewrite (assignLeft_x hSpacing vSpacing _ x yStart h Hnd).
    rewrite Nat.sub_diag. unfold columnLeft. change (ofNat 0) with 0. lra.
  - cbn [n_children] in Hm. apply in_flat_map in Hm as (c & Hc & Hm).
    rewrite assignLeft_eq. cbv zeta. cbn [n_children].
    set (node := LNode r i cs) in *.
    set (h2 := writeY node _ (writeX node (x - nodeW h node) h)).
    assert (Hs2 : sameShape h h2).
    { eapply sameShape_trans; [apply writeX_shape | apply writeY_shape]. }
    rewrite refsOf_children in Hnd. apply NoDup_cons in Hnd as [_ Hndcs].
    change (n_children node) with cs in Hndcs.
    rewrite (assignLeftLoop_columns hSpacing vSpacing x cs IH yStart h2 Hndcs)
      with (c := c); try assumption.
    + assert (Hdc : nodeD h c = S (nodeD h node)).
      { apply (Hok node (collectNodes_self node) c Hc). }
      assert (Hdm : (nodeD h c <= nodeD h m)%nat).
      { assert (Hcn : In c (collectNodes node)).
        { eapply collectNodes_child; [exact Hc | apply collectNodes_self]. }
        destruct (depth_of_descendant h node Hok c Hcn m Hm) as [-> | Hlt]; lia. }
      unfold columnLeft, nodeD, nodeW in *.
      destruct (Hs2 (n_ref m)) as (-> & _ & ->).
      destruct (Hs2 (n_ref c)) as (_ & _ & ->).
      replace (n_depth (h (n_ref m)) - n_depth (h (n_ref node)))%nat
        with (S (n_depth (h (n_ref m)) - n_depth (h (n_ref c))))%nat by lia.
      rewrite ofNat_S. lra.
    + intros c' Hc'. eapply depthsOK_shape; [exact Hs2|].
      eapply depthsOK_sub; [|exact Hok].
      eapply collectNodes_child; [exact Hc' | apply collectNodes_self].
Qed.

Lemma assignRight_columnsOf (hSpacing vSpacing : Q) (node : LayoutNode) :
  inColumnsOf (assignRight hSpacing vSpacing) (columnRight hSpacing) node.
Proof. exact (assignRight_columns hSpacing vSpacing node). Qed.

(** The columns of a whole side. *)
Lemma placeGroup_columns (assignSide : LayoutNode -> Q -> Q -> Heap -> Heap)
    (col : Heap -> LayoutNode -> Q -> nat -> Q) (vSpacing : Q) (xOf : Heap -> Q) :
  placesSubtree assignSide ->
  (forall node, inColumnsOf assignSide col node) ->
  (forall h h' m x k, sameShape h h' -> col h' m x k = col h m x k) ->
  forall group y h,
    NoDup (flat_map refsOf group) ->
    (forall c, In c group -> depthsOK h c) ->
    (forall h', (forall r, ~ In r (flat_map refsOf group) -> h' r = h r) ->
       xOf h' = xOf h) ->
    forall c m, In c group -> In m (collectNodes c) ->
      nodeX (placeGroup assignSide vSpacing xOf group y h) m
      == col h m (xOf h) (nodeD h m - nodeD h c)%nat.
Proof.
  intros Hp Hcol Hshape. induction group as [|c0 group IH];
    intros y h Hnd Hok HxOf c m Hc Hm; [destruct Hc|].
  cbn [placeGroup]. cbv zeta.
  destruct (NoDup_flat_map_cons _ _ Hnd) as (Hnd0 & Hndg & Hdisj).
  destruct (Hp c0 (xOf h) y h) as [Hs0 Hf0].
  set (h1 := assignSide c0 (xOf h) y h) in *.
  destruct Hc as [<- | Hc].
  - destruct (placeGroup_places assignSide vSpacing xOf Hp group
                (y + subtreeHeight vSpacing h1 c0) h1) as [_ Hfl].
    unfold nodeX. rewrite Hfl.
    + apply (Hcol c0 (xOf h) y h Hnd0 (Hok c0 (or_introl eq_refl)) m Hm).
    + apply Hdisj. unfold refsOf. apply in_map. exact Hm.
  - assert (HxOf1 : xOf h1 = xOf h).
    { apply HxOf. intros r Hr. cbn [flat_map] in Hr. rewrite in_app_iff in Hr.
      apply Hf0. tauto. }
    rewrite (IH (y + subtreeHeight vSpacing h1 c0) h1 Hndg) with (c := c);
      try assumption.
    + rewrite HxOf1, (Hshape h h1 m _ _ Hs0). unfold nodeD.
      destruct (Hs0 (n_ref m)) as (_ & _ & ->).
      destruct (Hs0 (n_ref c)) as (_ & _ & ->). reflexivity.
    + intros c' Hc'. eapply depthsOK_shape; [exact Hs0|]. apply Hok. right. exact Hc'.
    + intros h' Hh'. rewrite HxOf1. apply HxOf.
      intros r Hr. cbn [flat_map] in Hr. rewrite in_app_iff in Hr.
      rewrite Hh' by tauto. apply Hf0. tauto.
Qed.

Lemma placeGroup_tidy (hSpacing vSpacing : Q)
    (assignSide : LayoutNode -> Q -> Q -> Heap -> Heap) (xOf : Heap -> Q) :
  placesSubtree assignSide ->
  (forall node x x' y h h',
      sameButX h h' ->
      sameButX (assignSide node x y h) (assignRight hSpacing vSpacing node x' y h')) ->
  forall group y h,
    NoDup (flat_map refsOf group) ->
    0 <= vSpacing ->
    (forall m, In m (flat_map collectNodes group) -> 0 <= nodeH h m) ->
    let h' := placeGroup assignSide vSpacing xOf group y h in
    (forall m, In m (flat_map collectNodes group) ->
       inBand AxisY vSpacing h h' y (y + sumOver (subtreeHeight vSpacing h) group) m)
    /\ (forall a b, In a (flat_map collectNodes group) ->
          In b (flat_map collectNodes group) ->
          unrelated a b -> apart AxisY vSpacing h' a b).
Proof.
  intros Hp Hside group y h Hnd Hvs Hh. cbv zeta.
  assert (Htidy : Forall (tidyRight hSpacing vSpacing) group).
  { apply List.Forall_forall. intros c _. apply assignRight_tidy. }
  destruct (assignRightLoop_tidy hSpacing vSpacing 0 group Htidy y h Hnd Hvs Hh)
    as [Hband Hap].
  pose proof (placeGroup_sameButX hSpacing vSpacing assignSide xOf 0 Hp Hside
                group y h h (sameButX_refl h)) as Hsame.
  apply sameButX_sym in Hsame.
  split.
  - intros m Hm. eapply inBand_sameButX; [exact Hsame | apply Hband, Hm].
  - intros a b Ha Hb Hun. eapply apart_sameButX; [exact Hsame | apply Hap; assumption].
Qed.

Lemma treeGroups_shape (vSpacing : Q) (h h' : Heap) (root : LayoutNode) :
  sameShape h h' -> treeGroups vSpacing h' root = treeGroups vSpacing h root.
Proof.
  intros Hs. unfold treeGroups. cbv zeta.
  assert (Hmap : map (subtreeHeight vSpacing h') (n_children root)
                 = map (subtreeHeight vSpacing h) (n_children root)).
  { apply map_ext. intros c. apply subtreeHeight_shape, Hs. }
  rewrite Hmap. reflexivity.
Qed.

(** X25.  In the balanced-tree layout of a tree of distinct node objects
    whose depth fields follow the tree and whose heights are not negative
    (the vertical spacing used, [verticalSpacing + 12], being not negative
    either): every node below a child of the right group has its left side
    in the column of its depth, half a step and then one
    [horizontalSpacing + 80] per level to the right of the root's right
    side, and every node below a child of the left group has its right side
    in the mirrored column left of the root; each group lies in the band of
    half its total subtree height around y = 0; and on either side two
    nodes of which neither is an ancestor of the other are at least the
    vertical spacing apart. *)
Theorem tree_layout_is_tidy_on_each_side
    (root : LayoutNode) (config : MindMapConfig) (h : Heap) :
  NoDup (refsOf root) ->
  depthsOK h root ->
  0 <= verticalSpacing (structure config) + 12 ->
  (forall m, In m (collectNodes root) -> 0 <= nodeH h m) ->
  let hSpacing := horizontalSpacing (structure config) + 80 in
  let vSpacing := verticalSpacing (structure config) + 12 in
  let rightChildren := fst (treeGroups vSpacing h root) in
  let leftChildren := snd (treeGroups vSpacing h root) in
  let rightTotalH := sumOver (subtreeHeight vSpacing h) rightChildren in
  let leftTotalH := sumOver (subtreeHeight vSpacing h) leftChildren in
  let h' := layoutTree root config h in
  (forall c m, In c rightChildren -> In m (collectNodes c) ->
     nodeX h' m
     == nodeW h root * (1 # 2) + hSpacing * (1 # 2)
        + ofNat (nodeD h m - nodeD h c) * hSpacing)
  /\ (forall c m, In c leftChildren -> In m (collectNodes c) ->
        nodeX h' m + nodeW h m
        == - (nodeW h root * (1 # 2)) - hSpacing * (1 # 2)
           - ofNat (nodeD h m - nodeD h c) * hSpacing)
  /\ (forall m, In m (flat_map collectNodes rightChildren) ->
        inBand AxisY vSpacing h h' (- rightTotalH * (1 # 2)) (rightTotalH * (1 # 2)) m)
  /\ (forall m, In m (flat_map collectNodes leftChildren) ->
        inBand AxisY vSpacing h h' (- leftTotalH * (1 # 2)) (leftTotalH * (1 # 2)) m)
  /\ (forall a b, In a (flat_map collectNodes rightChildren) ->
        In b (flat_map collectNodes rightChildren) ->
        unrelated a b -> apart AxisY vSpacing h' a b)
  /\ (forall a b, In a (flat_map collectNodes leftChildren) ->
        In b (flat_map collectNodes leftChildren) ->
        unrelated a b -> apart AxisY vSpacing h' a b).
Proof.
  intros Hnd Hok Hvs Hh. cbv zeta.
  set (hSpacing := horizontalSpacing (structure config) + 80).
  set (vSpacing := verticalSpacing (structure config) + 12) in *.
  unfold layoutTree. cbv zeta. fold hSpacing vSpacing.
  set (h1 := writeX root (- nodeW h root / 2) h).
  set (h2 := writeY root (- nodeH h1 root / 2) h1).
  assert (Hs2 : sameShape h h2).
  { eapply sameShape_trans; [apply writeX_shape | apply writeY_shape]. }
  rewrite (treeGroups_shape vSpacing h h2 root Hs2).
  assert (Hsplit : fst (treeGroups vSpacing h root) ++ snd (treeGroups vSpacing h root)
                   = n_children root).
  { unfold treeGroups. cbv zeta. cbn [fst snd]. apply take_drop. }
  destruct (treeGroups vSpacing h root) as [rightC leftC]. cbn [fst snd] in *.
  assert (HinR : forall c, In c rightC -> In c (n_children root)).
  { intros c Hc. rewrite <- Hsplit. apply in_or_app. left. exact Hc. }
  assert (HinL : forall c, In c leftC -> In c (n_children root)).
  { intros c Hc. rewrite <- Hsplit. apply in_or_app. right. exact Hc. }
  assert (HnodesR : forall m, In m (flat_map collectNodes rightC) ->
                      In m (collectNodes root)).
  { intros m Hm. apply in_flat_map in Hm as (c & Hc & Hm).
    eapply collectNodes_child; [apply HinR, Hc | exact Hm]. }
  assert (HnodesL : forall m, In m (flat_map collectNodes leftC) ->
                      In m (collectNodes root)).
  { intros m Hm. apply in_flat_map in Hm as (c & Hc & Hm).
    eapply collectNodes_child; [apply HinL, Hc | exact Hm]. }
  rewrite refsOf_children in Hnd. apply NoDup_cons in Hnd as [Hroot Hnd].
  rewrite list_elem_of_In in Hroot.
  rewrite <- Hsplit in Hnd, Hroot.
  destruct (NoDup_flat_map_app _ _ Hnd) as (HndR & HndL & Hdisj).
  rewrite flat_map_app, in_app_iff in Hroot.
  set (xR := fun h0 : Heap => nodeX h0 root + nodeW h0 root + hSpacing * (1 # 2)).
  set (xL := fun h0 : Heap => nodeX h0 root - hSpacing * (1 # 2)).
  set (yR := - sumOver (subtreeHeight vSpacing h2) rightC / 2).
  set (h3 := placeGroup (assignRight hSpacing vSpacing) vSpacing xR rightC yR h2).
  destruct (placeGroup_places (assignRight hSpacing vSpacing) vSpacing xR
              (assignRight_places hSpacing vSpacing) rightC yR h2) as [Hs3 Hf3].
  fold h3 in Hs3, Hf3.
  set (yL := - sumOver (subtreeHeight vSpacing h3) leftC / 2).
  set (h4 := placeGroup (assignLeft hSpacing vSpacing) vSpacing xL leftC yL h3).
  destruct (placeGroup_places (assignLeft hSpacing vSpacing) vSpacing xL
              (assignLeft_places hSpacing vSpacing) leftC yL h3) as [Hs4 Hf4].
  fold h4 in Hs4, Hf4.
  assert (Hs3' : sameShape h h3) by (eapply sameShape_trans; eassumption).
  assert (Hrootx : nodeX h2 root = - nodeW h root / 2).
  { unfold nodeX, h2, h1, writeY, writeX. rewrite !upd_same. reflexivity. }
  assert (Hrootw : nodeW h2 root = nodeW h root)
    by (unfold nodeW; apply (Hs2 (n_ref root))).
  assert (HyR : yR = - sumOver (subtreeHeight vSpacing h) rightC / 2).
  { unfold yR. f_equal. f_equal. apply sumOver_ext, List.Forall_forall.
    intros c _. apply subtreeHeight_shape, Hs2. }
  assert (HyL : yL = - sumOver (subtreeHeight vSpacing h) leftC / 2).
  { unfold yL. f_equal. f_equal. apply sumOver_ext, List.Forall_forall.
    intros c _. apply subtreeHeight_shape, Hs3'. }
  assert (HkeepR : forall m, In m (flat_map collectNodes rightC) ->
                     h4 (n_ref m) = h3 (n_ref m)).
  { intros m Hm. apply Hf4, Hdisj, in_refs_of_descendant, Hm. }
  (* the right group, along y *)
  destruct (placeGroup_tidy hSpacing vSpacing (assignRight hSpacing vSpacing) xR
              (assignRight_places hSpacing vSpacing)
              (fun node x x' y h0 h0' => assignRight_sameButX hSpacing vSpacing
                                          node x x' y h0 h0')
              rightC yR h2 HndR Hvs) as [HbandR HapR].
  { intros m Hm. unfold nodeH. destruct (Hs2 (n_ref m)) as (_ & -> & _).
    apply Hh, HnodesR, Hm. }
  fold h3 in HbandR, HapR.
  (* the left group, along y *)
  destruct (placeGroup_tidy hSpacing vSpacing (assignLeft hSpacing vSpacing) xL
              (assignLeft_places hSpacing vSpacing)
              (assignLeft_sameButX hSpacing vSpacing)
              leftC yL h3 HndL Hvs) as [HbandL HapL].
  { intros m Hm. unfold nodeH. destruct (Hs3' (n_ref m)) as (_ & -> & _).
    apply Hh, HnodesL, Hm. }
  fold h4 in HbandL, HapL.
  assert (HsumR : sumOver (subtreeHeight vSpacing h2) rightC
                  = sumOver (subtreeHeight vSpacing h) rightC).
  { apply sumOver_ext, List.Forall_forall. intros c _. apply subtreeHeight_shape, Hs2. }
  assert (HsumL : sumOver (subtreeHeight vSpacing h3) leftC
                  = sumOver (subtreeHeight vSpacing h) leftC).
  { apply sumOver_ext, List.Forall_forall. intros c _. apply subtreeHeight_shape, Hs3'. }
  split; [|split; [|split; [|split; [|split]]]].
  - intros c m Hc Hm.
    assert (Hmr : In m (flat_map collectNodes rightC))
      by (apply in_flat_map; exists c; split; assumption).
    unfold nodeX at 1. rewrite (HkeepR m Hmr). fold (nodeX h3 m).
    unfold h3.
    rewrite (placeGroup_columns (assignRight hSpacing vSpacing) (columnRight hSpacing)
               vSpacing xR (assignRight_places hSpacing vSpacing)
               (assignRight_columnsOf hSpacing vSpacing)
               (fun _ _ _ _ _ _ => eq_refl) rightC yR h2 HndR) with (c := c);
      try assumption.
    + unfold columnRight, xR. rewrite Hrootx, Hrootw. unfold nodeD.
      destruct (Hs2 (n_ref m)) as (_ & _ & ->).
      destruct (Hs2 (n_ref c)) as (_ & _ & ->). halves. lra.
    + intros c' Hc'. eapply depthsOK_shape; [exact Hs2|].
      eapply depthsOK_sub; [|exact Hok].
      eapply collectNodes_child; [apply HinR, Hc' | apply collectNodes_self].
    + intros h0 Hh0. unfold xR, nodeX, nodeW. rewrite Hh0 by tauto. reflexivity.
  - intros c m Hc Hm. fold h4. unfold h4.
    rewrite (placeGroup_columns (assignLeft hSpacing vSpacing) (columnLeft hSpacing)
               vSpacing xL (assignLeft_places hSpacing vSpacing)
               (assignLeft_columns hSpacing vSpacing)) with (c := c);
      try assumption.
    + unfold columnLeft, xL. unfold nodeX at 1. rewrite Hf3 by tauto.
      fold (nodeX h2 root). rewrite Hrootx. unfold nodeD, nodeW.
      destruct (Hs3' (n_ref m)) as (-> & _ & ->).
      destruct (Hs3' (n_ref c)) as (_ & _ & ->). halves. lra.
    + intros h0 h0' m0 x k Hs0. unfold columnLeft, nodeW.
      destruct (Hs0 (n_ref m0)) as (-> & _). reflexivity.
    + intros c' Hc'. eapply depthsOK_shape; [exact Hs3'|].
      eapply depthsOK_sub; [|exact Hok].
      eapply collectNodes_child; [apply HinL, Hc' | apply collectNodes_self].
    + intros h0 Hh0. unfold xL, nodeX. rewrite Hh0 by tauto. reflexivity.
  - intros m Hm. fold h4.
    eapply inBand_agree; [apply HkeepR, Hm | | | | apply HbandR, Hm].
    + symmetry. apply sameShape_extent. exact Hs2.
    + rewrite HyR. halves. lra.
    + rewrite HyR, HsumR. halves. lra.
  - intros m Hm. fold h4.
    eapply inBand_agree; [reflexivity | | | | apply HbandL, Hm].
    + symmetry. apply sameShape_extent. exact Hs3'.
    + rewrite HyL. halves. lra.
    + rewrite HyL, HsumL. halves. lra.
  - intros a b Ha Hb Hun. fold h4.
    eapply apart_agree; [apply HkeepR, Ha | apply HkeepR, Hb | apply HapR; assumption].
  - intros a b Ha Hb Hun. fold h4. apply HapL; assumption.
Qed.

(** ** Importing an outline *)

Lemma RTree_nested_ind (P : RTree -> Prop) :
  (forall r cs, Forall P cs -> P (RNode r cs)) ->
  forall t, P t.
Proof.
  intros Hstep. fix IH 1. intros [r cs]. apply Hstep.
  induction cs as [|a cs IHcs]; constructor; [apply IH | exact IHcs].
Qed.

Lemma nodesPre_refs (t : RTree) : map fst (nodesPre t) = refsPre t.
Proof.
  induction t as [r cs IH] using RTree_nested_ind.
  cbn [nodesPre refsPre map fst]. f_equal.
  induction IH as [|c cs Hc _ IHcs]; [reflexivity|].
  cbn [flat_map]. rewrite map_app, Hc, IHcs. reflexivity.
Qed.

Lemma refsPre_head (t : RTree) : exists l, refsPre t = rootRef t :: l.
Proof. destruct t as [r cs]. eexists. reflexivity. Qed.

Lemma plug_refs (below : list Frame) :
  forall t, refsPre (plug t below) = belowRefs below ++ refsPre t.
Proof.
  induction below as [|[[r d] done] below IH]; intros t; cbn [plug belowRefs].
  - reflexivity.
  - rewrite IH. cbn [refsPre]. rewrite flat_map_app. cbn [flat_map].
    rewrite app_nil_r, <- app_assoc. reflexivity.
Qed.

Lemma plug_nodes (below : list Frame) :
  forall t, nodesPre (plug t below) = belowNodes (rootRef t) below ++ nodesPre t.
Proof.
  induction below as [|[[r d] done] below IH]; intros t; cbn [plug belowNodes].
  - reflexivity.
  - rewrite IH. cbn [nodesPre rootRef]. rewrite flat_map_app, map_app. cbn [flat_map map].
    rewrite app_nil_r, <- app_assoc. reflexivity.
Qed.

Lemma popFrames_stack (indent : Z) (below : list Frame) :
  forall top,
    stackOf (fst (popFrames indent top below)) (snd (popFrames indent top below))
    = popStack indent (stackOf top below).
Proof.
  unfold stackOf.
  induction below as [|[[r' d'] done'] below IH]; intros [[r d] done];
    cbn [popFrames map fst snd popStack]; [reflexivity|].
  destruct (indent <=? d)%Z; [|reflexivity].
  specialize (IH (r', d', done' ++ [RNode r done])).
  cbn [map fst snd] in IH. exact IH.
Qed.

Lemma popFrames_plug (indent : Z) (below : list Frame) :
  forall top,
    plugFrames (fst (popFrames indent top below)) (snd (popFrames indent top below))
    = plugFrames top below.
Proof.
  induction below as [|[[r' d'] done'] below IH]; intros [[r d] done];
    cbn [popFrames fst snd]; [reflexivity|].
  destruct (indent <=? d)%Z; [|reflexivity].
  rewrite IH. reflexivity.
Qed.

Lemma pushFrame_refs (n : nat) (d : Z) (top : Frame) (below : list Frame) :
  refsPre (plugFrames (n, d, []) (top :: below))
  = refsPre (plugFrames top below) ++ [n].
Proof.
  destruct top as [[r dr] done]. unfold plugFrames. cbn [plug fst snd].
  rewrite !plug_refs. cbn [refsPre]. rewrite flat_map_app. cbn [flat_map refsPre].
  rewrite app_nil_r, <- app_assoc. reflexivity.
Qed.

Lemma pushFrame_nodes (n : nat) (d : Z) (top : Frame) (below : list Frame) :
  nodesPre (plugFrames top below)
  = belowNodes (fst (fst top)) below
    ++ (fst (fst top), map rootRef (snd top)) :: flat_map nodesPre (snd top)
  /\ nodesPre (plugFrames (n, d, []) (top :: below))
     = belowNodes (fst (fst top)) below
       ++ (fst (fst top), map rootRef (snd top) ++ [n])
          :: flat_map nodesPre (snd top) ++ [(n, [])].
Proof.
  destruct top as [[r dr] done]. unfold plugFrames. cbn [plug fst snd].
  rewrite !plug_nodes. cbn [nodesPre rootRef]. split; [reflexivity|].
  rewrite flat_map_app, map_app. cbn [flat_map map nodesPre rootRef].
  rewrite app_nil_r. reflexivity.
Qed.

Lemma pushChild_length (store : Store) (p c : nat) :
  length (pushChild store p c) = length store.
Proof.
  unfold pushChild. destruct (store !! p) as [[t cs]|]; [|reflexivity].
  apply length_insert.
Qed.

Lemma pushChild_texts (store : Store) (p c : nat) :
  map fst (pushChild store p c) = map fst store.
Proof.
  unfold pushChild. destruct (store !! p) as [[t cs]|] eqn:E; [|reflexivity].
  change (fst <$> <[p := (t, cs ++ [c])]> store = fst <$> store).
  rewrite list_fmap_insert. apply list_insert_id.
  rewrite list_lookup_fmap, E. reflexivity.
Qed.

Lemma pushChild_other (store : Store) (p c r : nat) :
  r <> p -> pushChild store p c !! r = store !! r.
Proof.
  intros Hne. unfold pushChild. destruct (store !! p) as [[t cs]|]; [|reflexivity].
  apply list_lookup_insert_ne. congruence.
Qed.

Lemma pushChild_same (store : Store) (p c : nat) (t : string) (cs : list nat) :
  store !! p = Some (t, cs) -> pushChild store p c !! p = Some (t, cs ++ [c]).
Proof.
  intros E. unfold pushChild. rewrite E.
  apply list_lookup_insert_eq. eapply lookup_lt_Some. exact E.
Qed.

Lemma push_stored (store : Store) (top : Frame) (below : list Frame)
    (text : string) (d : Z) :
  storedIn store (plugFrames top below) ->
  refsPre (plugFrames top below) = seq 0 (length store) ->
  storedIn (pushChild (store ++ [(text, [])]) (fst (fst top)) (length store))
    (plugFrames (length store, d, []) (top :: below)).
Proof.
  intros Hst Hrefs. unfold storedIn in *.
  destruct (pushFrame_nodes (length store) d top below) as [Hold Hnew].
  assert (Hnd : NoDup (map fst (nodesPre (plugFrames top below)))).
  { rewrite nodesPre_refs, Hrefs. apply NoDup_seq. }
  assert (Hlt : forall e, In e (nodesPre (plugFrames top below)) ->
                  (fst e < length store)%nat).
  { intros e He. apply (in_map fst) in He. rewrite nodesPre_refs, Hrefs in He.
    apply in_seq in He. lia. }
  rewrite Hnew. rewrite Hold in Hst, Hnd, Hlt. clear Hold Hnew.
  set (r := fst (fst top)) in *.
  set (A := belowNodes r below) in *. set (B := flat_map nodesPre (snd top)) in *.
  rewrite map_app in Hnd. cbn [map fst] in Hnd.
  apply NoDup_app in Hnd as (_ & HA & HB). apply NoDup_cons in HB as [HB _].
  apply Forall_app in Hst as [HstA Hst]. apply Forall_cons_iff in Hst as [Hr HstB].
  cbn [fst snd] in Hr. destruct Hr as [tr Hr].
  assert (Hrl : (r < length store)%nat) by (eapply lookup_lt_Some; exact Hr).
  assert (Hkeep : forall e, fst e <> r -> (fst e < length store)%nat ->
            (exists t, store !! fst e = Some (t, snd e)) ->
            exists t, pushChild (store ++ [(text, [])]) r (length store) !! fst e
                      = Some (t, snd e)).
  { intros e Hne He [t Ht]. exists t.
    rewrite pushChild_other by exact Hne. rewrite lookup_app_l by exact He. exact Ht. }
  apply Forall_app. split.
  - apply List.Forall_forall. intros e He. apply Hkeep.
    + intros E. apply (HA (fst e)); [apply list_elem_of_In, in_map, He|].
      rewrite E. left.
    + apply Hlt. apply in_or_app. left. exact He.
    + revert e He. apply List.Forall_forall. exact HstA.
  - constructor.
    + cbn [fst snd]. exists tr. apply pushChild_same.
      rewrite lookup_app_l by exact Hrl. exact Hr.
    + apply Forall_app. split.
      * apply List.Forall_forall. intros e He. apply Hkeep.
        -- intros E. apply HB. rewrite <- E. apply list_elem_of_In, in_map, He.
        -- apply Hlt. apply in_or_app. right. right. exact He.
        -- revert e He. apply List.Forall_forall. exact HstB.
      * constructor; [|constructor]. cbn [fst snd]. exists text.
        rewrite pushChild_other by lia.
        rewrite lookup_app_r by lia. rewrite Nat.sub_diag. reflexivity.
Qed.

Lemma read_stored (store : Store) (t : RTree) :
  storedIn store t ->
  forall fuel, (length (refsPre t) <= fuel)%nat ->
    readNode store fuel (rootRef t) = toTree store t.
Proof.
  unfold storedIn. induction t as [r cs IH] using RTree_nested_ind.
  intros Hst fuel Hfuel. cbn [nodesPre refsPre rootRef length] in *.
  apply Forall_cons_iff in Hst as [[text Hr] Hst]. cbn [fst snd] in Hr.
  destruct fuel as [|fuel]; [lia|]. cbn [readNode toTree]. rewrite Hr.
  unfold textAt. rewrite Hr. f_equal.
  assert (Hlen : (length (flat_map refsPre cs) <= fuel)%nat) by lia.
  clear Hr Hfuel. rewrite map_map.
  induction IH as [|c cs Hc _ IHcs]; [reflexivity|].
  cbn [flat_map map] in *. rewrite length_app in Hlen.
  apply Forall_app in Hst as [Hstc Hst].
  f_equal; [apply Hc; [exact Hstc | lia] | apply IHcs; [exact Hst | lia]].
Qed.

Lemma toTree_ids (store : Store) (t : RTree) :
  mmIds (toTree store t) = map genId (refsPre t).
Proof.
  induction t as [r cs IH] using RTree_nested_ind.
  cbn [toTree mmIds refsPre map]. f_equal.
  induction IH as [|c cs Hc _ IHcs]; [reflexivity|].
  cbn [flat_map map]. rewrite map_app, Hc, IHcs. reflexivity.
Qed.

Lemma toTree_texts (store : Store) (t : RTree) :
  mmTexts (toTree store t) = map (textAt store) (refsPre t).
Proof.
  induction t as [r cs IH] using RTree_nested_ind.
  cbn [toTree mmTexts refsPre map]. f_equal.
  induction IH as [|c cs Hc _ IHcs]; [reflexivity|].
  cbn [flat_map map]. rewrite map_app, Hc, IHcs. reflexivity.
Qed.

Lemma textAt_all (store : Store) :
  map (textAt store) (seq 0 (length store)) = map fst store.
Proof.
  induction store as [|x store IH] using rev_ind; [reflexivity|].
  rewrite length_app, Nat.add_1_r, seq_S, !map_app. cbn [map Nat.add].
  f_equal.
  - rewrite <- IH. apply map_ext_in. intros i Hi. apply in_seq in Hi.
    unfold textAt. rewrite lookup_app_l by lia. reflexivity.
  - unfold textAt. rewrite lookup_app_r by lia. rewrite Nat.sub_diag.
    destruct x. reflexivity.
Qed.

Lemma toTree_id (store : Store) (t : RTree) :
  mm_id (toTree store t) = genId (rootRef t).
Proof. destruct t. reflexivity. Qed.

Lemma toTree_child (store : Store) (t : RTree) :
  forall d0 e c,
    In e (nodesPre t) -> In c (snd e) ->
    exists s d ch,
      occursAt (toTree store t) d0 s d /\ mm_id s = genId (fst e)
      /\ In ch (mm_children s) /\ mm_id ch = genId c.
Proof.
  induction t as [r cs IH] using RTree_nested_ind.
  intros d0 e c He Hc. cbn [nodesPre] in He. destruct He as [<- | He].
  - cbn [snd fst] in *. apply in_map_iff in Hc as (c' & <- & Hc').
    exists (toTree store (RNode r cs)), d0, (toTree store c').
    split; [apply occ_here|]. split; [reflexivity|]. split.
    + cbn [toTree mm_children]. apply in_map. exact Hc'.
    + apply toTree_id.
  - apply in_flat_map in He as (c' & Hc' & He).
    rewrite List.Forall_forall in IH.
    destruct (IH c' Hc' (S d0) e c He Hc) as (s & d & ch & Hocc & H1 & H2 & H3).
    exists s, d, ch. split; [|repeat split; assumption].
    eapply occ_child; [|exact Hocc]. cbn [toTree mm_children]. apply in_map. exact Hc'.
Qed.

Lemma genId_inj (a b : nat) : genId a = genId b -> a = b.
Proof.
  unfold genId. intros H. cbn in H. injection H as H.
  exact (pretty_nat_inj a b H).
Qed.

Lemma popStack_cons (d : Z) (top next : nat * Z) (stack : list (nat * Z)) :
  popStack d (top :: next :: stack)
  = if (d <=? snd top)%Z then popStack d (next :: stack) else top :: next :: stack.
Proof. reflexivity. Qed.

Lemma popStack_nonempty (d : Z) (stack : list (nat * Z)) :
  stack <> [] -> popStack d stack <> [].
Proof.
  induction stack as [|top stack IH]; [contradiction|]. intros _.
  cbn [popStack]. destruct stack as [|next stack]; [discriminate|].
  destruct (d <=? snd top)%Z; [apply IH; discriminate | discriminate].
Qed.

Lemma popStack_popStack (d d' : Z) (stack : list (nat * Z)) :
  (d' <= d)%Z -> popStack d' (popStack d stack) = popStack d' stack.
Proof.
  intros Hle. induction stack as [|top stack IH]; [reflexivity|].
  cbn [popStack]. destruct stack as [|next stack]; [reflexivity|].
  destruct (d <=? snd top)%Z eqn:E.
  - rewrite IH. apply Z.leb_le in E.
    assert (E' : (d' <=? snd top)%Z = true) by (apply Z.leb_le; lia).
    rewrite E'. reflexivity.
  - reflexivity.
Qed.

Lemma pushFrame_entries (n : nat) (d : Z) (top : Frame) (below : list Frame) :
  (forall e, In e (nodesPre (plugFrames (n, d, []) (top :: below))) ->
     e = (n, [])
     \/ exists e', In e' (nodesPre (plugFrames top below)) /\ fst e = fst e'
                  /\ (snd e = snd e'
                      \/ (fst e = fst (fst top) /\ snd e = snd e' ++ [n])))
  /\ (forall e', In e' (nodesPre (plugFrames top below)) ->
        exists e, In e (nodesPre (plugFrames (n, d, []) (top :: below)))
                  /\ fst e = fst e' /\ (forall c, In c (snd e') -> In c (snd e)))
  /\ (exists e, In e (nodesPre (plugFrames (n, d, []) (top :: below)))
                /\ fst e = fst (fst top) /\ In n (snd e)).
Proof.
  destruct (pushFrame_nodes n d top below) as [-> ->].
  set (r := fst (fst top)). set (X := map rootRef (snd top)).
  set (A := belowNodes r below). set (B := flat_map nodesPre (snd top)).
  split; [|split].
  - intros e He. rewrite in_app_iff in He. cbn [In] in He. rewrite in_app_iff in He.
    cbn [In] in He.
    destruct He as [He | [<- | [He | [<- | []]]]].
    + right. exists e. rewrite in_app_iff. tauto.
    + right. exists (r, X). rewrite in_app_iff. cbn [In fst snd]. tauto.
    + right. exists e. rewrite in_app_iff. cbn [In]. tauto.
    + left. reflexivity.
  - intros e' He'. rewrite in_app_iff in He'. cbn [In] in He'.
    destruct He' as [He' | [<- | He']].
    + exists e'. rewrite in_app_iff. tauto.
    + exists (r, X ++ [n]). rewrite in_app_iff. cbn [In fst snd].
      split; [tauto|]. split; [reflexivity|]. intros c Hc. apply in_or_app. tauto.
    + exists e'. rewrite in_app_iff. cbn [In]. rewrite in_app_iff. tauto.
  - exists (r, X ++ [n]). rewrite in_app_iff. cbn [In fst snd].
    split; [tauto|]. split; [reflexivity|]. apply in_or_app. right. left. reflexivity.
Qed.

Section ParseFacts.

Variable trim : string -> string.
Variable stripBullet : string -> string.
Variable indentOf : string -> Z.

Lemma parseLine_inv (line : string) (store : Store) (stack : list (nat * Z))
    (top : Frame) (below : list Frame) (history : list (nat * Z))
    (parents : list nat) :
  parseInv store stack top below history parents ->
  exists top' below',
    parseInv (fst (parseLine trim stripBullet indentOf (store, stack) line))
      (snd (parseLine trim stripBullet indentOf (store, stack) line))
      top' below' ((length store, indentOf line) :: history)
      (parents ++ [nearestSmaller (indentOf line) history])
    /\ length (fst (parseLine trim stripBullet indentOf (store, stack) line))
       = S (length store)
    /\ map fst (fst (parseLine trim stripBullet indentOf (store, stack) line))
       = map fst store ++ [trim (stripBullet line)].
Proof.
  intros (Hstack & Hst & Hrefs & Hnear & Hpar & Hall & Hlen).
  set (d := indentOf line). set (n := length store).
  pose proof (popFrames_stack d below top) as Hpop.
  pose proof (popFrames_plug d below top) as Hplug.
  destruct (popFrames d top below) as [top1 below1] eqn:Epop. cbn [fst snd] in Hpop, Hplug.
  rewrite <- Hstack in Hpop.
  destruct top1 as [[r1 d1] done1].
  assert (Estep : parseLine trim stripBullet indentOf (store, stack) line
                  = (pushChild (store ++ [(trim (stripBullet line), [])]) r1 n,
                     (n, d) :: stackOf (r1, d1, done1) below1)).
  { unfold parseLine. fold d n. rewrite <- Hpop. reflexivity. }
  rewrite Estep. cbn [fst snd]. clear Estep.
  rewrite <- Hplug in Hst, Hrefs, Hpar, Hall.
  assert (Hr1 : r1 = nearestSmaller d history).
  { rewrite <- (Hnear d), <- Hpop. reflexivity. }
  exists (n, d, []), ((r1, d1, done1) :: below1).
  split; [|split].
  - split; [reflexivity|]. split; [|split; [|split; [|split; [|split]]]].
    + apply (push_stored store (r1, d1, done1) below1 _ d Hst Hrefs).
    + rewrite pushFrame_refs, Hrefs, pushChild_length, length_app. cbn [length].
      rewrite Nat.add_1_r, seq_S. reflexivity.
    + intros d'. rewrite Hpop. cbn [nearestSmaller].
      assert (Hne : popStack d stack <> []).
      { apply popStack_nonempty. rewrite Hstack. discriminate. }
      destruct (popStack d stack) as [|s1 stack1] eqn:Es; [contradiction|].
      rewrite (popStack_cons d' (n, d) s1 stack1).
      cbn [snd]. destruct (d' <=? d)%Z eqn:E.
      * apply Z.leb_le in E. rewrite <- Es, popStack_popStack by exact E.
        rewrite Hnear. assert (E' : (d <? d')%Z = false) by (apply Z.ltb_ge; lia).
        rewrite E'. reflexivity.
      * apply Z.leb_gt in E. assert (E' : (d <? d')%Z = true) by (apply Z.ltb_lt; lia).
        rewrite E'. reflexivity.
    + intros e c He Hc.
      destruct (proj1 (pushFrame_entries n d (r1, d1, done1) below1) e He)
        as [-> | (e' & He' & Hfst & Hsnd)]; [destruct Hc|].
      assert (Hold : forall c0, In c0 (snd e') ->
                (parents ++ [nearestSmaller d history]) !! (c0 - 1)%nat = Some (fst e)
                /\ (1 <= c0)%nat).
      { intros c0 Hc0. destruct (Hpar e' c0 He' Hc0) as [Hp H1]. split; [|exact H1].
        rewrite lookup_app_l by (eapply lookup_lt_Some; exact Hp).
        rewrite Hfst. exact Hp. }
      destruct Hsnd as [Hsnd | [Hr Hsnd]]; rewrite Hsnd in Hc; [apply Hold, Hc|].
      apply in_app_or in Hc as [Hc | [<- | []]]; [apply Hold, Hc|].
      cbn [fst] in Hr. split; [|unfold n; lia].
      rewrite lookup_app_r by (unfold n; lia).
      replace (n - 1 - length parents)%nat with 0%nat by (unfold n; lia).
      cbn. rewrite Hr, Hr1. reflexivity.
    + intros k Hk. rewrite length_app in Hk. cbn [length] in Hk.
      destruct (Nat.eq_dec k (length parents)) as [-> | Hne].
      * destruct (proj2 (proj2 (pushFrame_entries n d (r1, d1, done1) below1)))
          as (e & He & _ & Hn).
        exists e. split; [exact He|]. rewrite Hlen. exact Hn.
      * destruct (Hall k ltac:(lia)) as (e' & He' & Hk').
        destruct (proj1 (proj2 (pushFrame_entries n d (r1, d1, done1) below1)) e' He')
          as (e & He & _ & Hsub).
        exists e. split; [exact He | apply Hsub, Hk'].
    + rewrite length_app, pushChild_length, length_app. cbn [length]. lia.
  - rewrite pushChild_length, length_app. cbn [length]. lia.
  - rewrite pushChild_texts, map_app. reflexivity.
Qed.

Lemma parseLoop_inv (rest : list string) :
  forall store stack top below history parents,
    parseInv store stack top below history parents ->
    exists top' below' history',
      parseInv (fst (fold_left (parseLine trim stripBullet indentOf) rest (store, stack)))
        (snd (fold_left (parseLine trim stripBullet indentOf) rest (store, stack)))
        top' below' history'
        (parents ++ parentsFrom history (length store) (map indentOf rest))
      /\ map fst (fst (fold_left (parseLine trim stripBullet indentOf) rest (store, stack)))
         = map fst store ++ map (fun l => trim (stripBullet l)) rest.
Proof.
  induction rest as [|line rest IH]; intros store stack top below history parents Hinv.
  - exists top, below, history. cbn [fold_left map parentsFrom fst snd].
    rewrite !app_nil_r. split; [exact Hinv | reflexivity].
  - cbn [fold_left map parentsFrom].
    destruct (parseLine_inv line store stack top below history parents Hinv)
      as (top1 & below1 & Hinv1 & Hlen1 & Htexts1).
    destruct (parseLine trim stripBullet indentOf (store, stack) line)
      as [store1 stack1]. cbn [fst snd] in *.
    destruct (IH store1 stack1 top1 below1 _ _ Hinv1) as (top' & below' & history' & Hinv' & Htexts').
    exists top', below', history'. rewrite Hlen1 in Hinv'.
    rewrite <- app_assoc in Hinv'. cbn [app] in Hinv'.
    split; [exact Hinv'|]. rewrite Htexts', Htexts1, <- app_assoc. reflexivity.
Qed.

End ParseFacts.

(** X26.  [parseTextToMindMap] of a text without a non-blank line is the
    node [root] with the text [Empty].  Otherwise the tree has one node for
    every non-blank line: in pre-order the nodes are the lines in their
    order, with the ids [node-0], [node-1], ... (all different) and the
    trimmed lines as texts, the bullet being stripped from every line but
    the first; and the node of each line after the first is a child of the
    node of the nearest line before it, the first line apart, that has a
    smaller indent, and of the root when there is none. *)
Theorem parseTextToMindMap_nests_lines_by_indent
    (trim stripBullet : string -> string) (indentOf : string -> Z)
    (text : string) :
  let lines := nonBlankLines trim text in
  let tree := parseTextToMindMap trim stripBullet indentOf text in
  (lines = [] -> tree = MMNode "root" "Empty" None None [])
  /\ (forall first rest,
        lines = first :: rest ->
        mmIds tree = map genId (seq 0 (length lines))
        /\ NoDup (mmIds tree)
        /\ countNodes tree = length lines
        /\ mmTexts tree = trim first :: map (fun l => trim (stripBullet l)) rest
        /\ (forall k p,
              parentsFrom [] 1 (map indentOf rest) !! k = Some p ->
              childOf tree (genId p) (genId (S k)))).
Proof.
  cbv zeta. unfold parseTextToMindMap. split.
  - intros ->. reflexivity.
  - intros first rest ->. cbv zeta.
    assert (Hinit : parseInv [(trim first, [])] [(0%nat, (-1)%Z)]
                      (0%nat, (-1)%Z, []) [] [] []).
    { split; [reflexivity|]. split; [|split; [reflexivity|]].
      - constructor; [|constructor]. exists (trim first). reflexivity.
      - split; [intros d; reflexivity|]. split; [|split; [|reflexivity]].
        + intros e c [<- | []] [].
        + intros k Hk. cbn in Hk. lia. }
    destruct (parseLoop_inv trim stripBullet indentOf rest _ _ _ _ _ _ Hinit)
      as (top & below & history & Hinv & Htexts).
    destruct (fold_left _ rest _) as [store stack]. cbn [fst snd length app] in *.
    destruct Hinv as (_ & Hst & Hrefs & _ & Hpar & Hall & Hlen).
    set (t := plugFrames top below) in *.
    assert (Hn : length store = S (length rest)).
    { rewrite <- (length_map fst store), Htexts, length_app, !length_map.
      reflexivity. }
    assert (Hroot : rootRef t = 0%nat).
    { destruct (refsPre_head t) as [l Hl]. rewrite Hrefs, Hn in Hl.
      cbn [seq] in Hl. injection Hl as Hl _. symmetry. exact Hl. }
    assert (Hread : readNode store (length store) 0 = toTree store t).
    { rewrite <- Hroot. apply read_stored; [exact Hst|].
      rewrite Hrefs, length_seq. lia. }
    rewrite Hread.
    assert (Hids : mmIds (toTree store t) = map genId (seq 0 (S (length rest)))).
    { rewrite toTree_ids, Hrefs, Hn. reflexivity. }
    split; [exact Hids|]. split; [|split; [|split]].
    + rewrite Hids. apply (@NoDup_fmap_2 _ _ genId genId_inj). apply NoDup_seq.
    + rewrite countNodes_ids, Hids, length_map, length_seq. reflexivity.
    + rewrite toTree_texts, Hrefs, textAt_all, Htexts. reflexivity.
    + intros k p Hk.
      destruct (Hall k ltac:(eapply lookup_lt_Some; exact Hk)) as (e & He & Hke).
      destruct (Hpar e (S k) He Hke) as [Hp _].
      replace (S k - 1)%nat with k in Hp by lia. rewrite Hk in Hp.
      injection Hp as ->.
      destruct (toTree_child store t 0 e (S k) He Hke) as (s & d & ch & H1 & H2 & H3 & H4).
      exists s, d, ch. repeat split; assumption.
Qed.

(** ** Rigid moves *)

Lemma shiftNode_translated (n : LayoutNode) (dx dy : Q) (h : Heap) :
  translated dx dy h (shiftNode n dx dy h) n.
Proof.
  unfold translated, shiftNode, writeX, writeY, nodeX, nodeY. cbv zeta.
  rewrite !upd_same. cbn. repeat split; reflexivity.
Qed.

Lemma translated_agree (dx dy : Q) (h0 h h' h1 : Heap) (m : LayoutNode) :
  h (n_ref m) = h0 (n_ref m) -> h1 (n_ref m) = h' (n_ref m) ->
  translated dx dy h h' m -> translated dx dy h0 h1 m.
Proof.
  unfold translated, nodeX, nodeY. intros H0 H1 H. rewrite H1, <- H0. exact H.
Qed.

Lemma shiftLoop_translated (dx dy : Q) (cs : list LayoutNode) :
  Forall (shiftsBelow dx dy) cs ->
  forall h,
    NoDup (flat_map refsOf cs) ->
    forall m, In m (flat_map collectNodes cs) ->
      translated dx dy h
        (fold_left (fun h child => shiftSubtreeXY child dx dy (shiftNode child dx dy h))
           cs h) m.
Proof.
  induction 1 as [|c cs Hc _ IH]; intros h Hnd m Hm; [destruct Hm|].
  cbn [fold_left flat_map] in *.
  destruct (NoDup_flat_map_cons _ _ Hnd) as (Hndc & Hndcs & Hdisj).
  set (h1 := shiftNode c dx dy h).
  set (h2 := shiftSubtreeXY c dx dy h1).
  assert (Hframe : forall r, ~ In r (flat_map refsOf cs) ->
            fold_left (fun h child =>
                         shiftSubtreeXY child dx dy (shiftNode child dx dy h)) cs h2 r
            = h2 r).
  { intros r Hr.
    change (shiftSubtreeXY (LNode 0 EmptyString cs) dx dy h2 r = h2 r).
    apply shiftSubtreeXY_frame. exact Hr. }
  assert (Hndc' := Hndc). rewrite refsOf_children in Hndc'.
  apply NoDup_cons in Hndc' as [Hself Hndch]. rewrite list_elem_of_In in Hself.
  apply in_app_or in Hm as [Hm | Hm].
  - assert (Hmr : In (n_ref m) (refsOf c)) by (unfold refsOf; apply in_map, Hm).
    rewrite collectNodes_unfold in Hm. destruct Hm as [<- | Hm].
    + eapply translated_agree; [reflexivity | | apply shiftNode_translated].
      rewrite Hframe by (apply Hdisj, Hmr). unfold h2.
      apply shiftSubtreeXY_frame. exact Hself.
    + assert (Hne : n_ref m <> n_ref c).
      { intros E. apply Hself. rewrite <- E. apply in_refs_of_descendant, Hm. }
      eapply translated_agree; [| | apply (Hc h1 Hndch m Hm)].
      * apply shiftNode_frame. exact Hne.
      * rewrite Hframe by (apply Hdisj, Hmr). reflexivity.
  - assert (Hmr : In (n_ref m) (flat_map refsOf cs)) by (apply in_refs_of_descendant, Hm).
    eapply translated_agree; [| reflexivity | apply (IH h2 Hndcs m Hm)].
    assert (Hnc : ~ In (n_ref m) (refsOf c)).
    { intros Hin. apply (Hdisj _ Hin Hmr). }
    unfold h2. rewrite shiftSubtreeXY_frame.
    + apply shiftNode_frame. intros E. apply Hnc. rewrite E. apply refsOf_head.
    + intros Hin. apply Hnc. rewrite refsOf_children. right. exact Hin.
Qed.

Lemma shiftSubtreeXY_translated (dx dy : Q) (node : LayoutNode) :
  shiftsBelow dx dy node.
Proof.
  induction node as [r i cs IH] using LayoutNode_nested_ind.
  intros h Hnd m Hm. cbn [shiftSubtreeXY n_children] in *.
  apply shiftLoop_translated; assumption.
Qed.

(** X27.  A pushed node takes its subtree along: in a subtree of distinct
    node objects, [shiftSubtreeXY] moves every proper descendant by exactly
    [(dx, dy)] and changes nothing else; so the push of collision
    resolution moves the node and every descendant by the overlap along the
    packing axis, keeps their offsets to each other, and touches no object
    outside the subtree. *)
Theorem pushed_subtree_moves_rigidly
    (node : LayoutNode) (dx dy overlap : Q) (h : Heap) :
  NoDup (refsOf node) ->
  (forall m, In m (flat_map collectNodes (n_children node)) ->
     translated dx dy h (shiftSubtreeXY node dx dy h) m)
  /\ (forall r, ~ In r (flat_map refsOf (n_children node)) ->
        shiftSubtreeXY node dx dy h r = h r)
  /\ (forall m, In m (collectNodes node) ->
        translated overlap 0 h (pushForward AxisX node overlap h) m
        /\ translated 0 overlap h (pushForward AxisY node overlap h) m)
  /\ (forall ax a b, In a (collectNodes node) -> In b (collectNodes node) ->
        coord ax (pushForward ax node overlap h) b
        - coord ax (pushForward ax node overlap h) a
        == coord ax h b - coord ax h a)
  /\ (forall ax r, ~ In r (refsOf node) -> pushForward ax node overlap h r = h r).
Proof.
  intros Hnd. assert (Hnd' := Hnd). rewrite refsOf_children in Hnd'.
  apply NoDup_cons in Hnd' as [Hself Hndcs]. rewrite list_elem_of_In in Hself.
  assert (Hpush : forall m, In m (collectNodes node) ->
            translated overlap 0 h (pushForward AxisX node overlap h) m
            /\ translated 0 overlap h (pushForward AxisY node overlap h) m).
  { intros m Hm. rewrite collectNodes_unfold in Hm. unfold pushForward.
    destruct Hm as [<- | Hm].
    - split; unfold translated, nodeX, nodeY;
        rewrite shiftSubtreeXY_frame by exact Hself;
        unfold writeX, writeY; rewrite upd_same; cbn;
        (split; [lra | split; [lra | reflexivity]]).
    - assert (Hne : n_ref m <> n_ref node).
      { intros E. apply Hself. rewrite <- E. apply in_refs_of_descendant, Hm. }
      split.
      + eapply translated_agree;
          [| reflexivity | apply (shiftSubtreeXY_translated overlap 0 node _ Hndcs m Hm)].
        unfold writeX. apply upd_other. exact Hne.
      + eapply translated_agree;
          [| reflexivity | apply (shiftSubtreeXY_translated 0 overlap node _ Hndcs m Hm)].
        unfold writeY. apply upd_other. exact Hne. }
  split; [intros m Hm; apply shiftSubtreeXY_translated; assumption|].
  split; [intros r Hr; apply shiftSubtreeXY_frame; exact Hr|].
  split; [exact Hpush|]. split.
  - intros ax a b Ha Hb.
    destruct (Hpush a Ha) as [(Hax & _) (_ & Hay & _)].
    destruct (Hpush b Hb) as [(Hbx & _) (_ & Hby & _)].
    destruct ax; unfold coord; lra.
  - intros ax r Hr. apply pushForward_frame. exact Hr.
Qed.

(** * The properties on the sample inputs *)

Lemma collapsed_node_witness :
  occursAt collapsedTree 0 collapsedA 1
  /\ (truthyFlag (mm_collapsed collapsedA) = true
      \/ (maxDepth (structure (sampleConfig Tree)) <= 1)%nat)
  /\ n_children
       (fst (buildLayoutTree sampleMeasure collapsedA 1 (sampleConfig Tree)
               (1%nat, emptyHeap))) = []
  /\ (forall e,
        In e (collectEdges emptyHeap
                (fst (buildLayoutTree sampleMeasure collapsedTree 0
                        (sampleConfig Tree) (0%nat, emptyHeap)))) ->
        n_id (e_source e) <> "a1"%string /\ n_id (e_target e) <> "a1"%string).
Proof.
  assert (Hocc : occursAt collapsedTree 0 collapsedA 1).
  { eapply occ_child; [left; reflexivity | apply occ_here]. }
  assert (Hcut : truthyFlag (mm_collapsed collapsedA) = true
                 \/ (maxDepth (structure (sampleConfig Tree)) <= 1)%nat)
    by (left; reflexivity).
  destruct (collapsed_or_capped_node_is_laid_out_childless sampleMeasure
              (sampleConfig Tree) collapsedTree collapsedA 1 Hocc Hcut)
    as [Hleaf Hedges].
  split; [exact Hocc|]. split; [exact Hcut|]. split.
  - exact (proj1 (Hleaf (1%nat, emptyHeap) emptyHeap)).
  - intros e He.
    assert (Hnd : NoDup (mmIds collapsedTree))
      by (apply (bool_decide_unpack _); vm_compute; exact I).
    apply (Hedges Hnd (leaf "a1") (leaf "a1") 2%nat (0%nat, emptyHeap) emptyHeap e);
      [left; reflexivity | apply occ_here | exact He].
Defined.

Lemma tree_split_witness :
  n_children sampleRoot <> []
  /\ NoDup (refsOf sampleRoot)
  /\ (let weights := map (subtreeHeight (30 + 12) sampleBuilt) (n_children sampleRoot) in
      let k := bestSplit weights in
      take k (n_children sampleRoot) ++ drop k (n_children sampleRoot)
      = n_children sampleRoot
      /\ (1 <= k <= length (n_children sampleRoot))%nat
      /\ (forall j, (j <= length (n_children sampleRoot))%nat ->
            imbalance weights k <= imbalance weights j)
      /\ (forall c, In c (take k (n_children sampleRoot)) ->
            nodeX sampleLaidOut c
            = - nodeW sampleBuilt sampleRoot / 2 + nodeW sampleBuilt sampleRoot
              + (60 + 80) * (1 # 2))).
Proof.
  assert (Hne : n_children sampleRoot <> []) by (vm_compute; discriminate).
  assert (Hnd : NoDup (refsOf sampleRoot))
    by (apply (bool_decide_unpack _); vm_compute; exact I).
  split; [exact Hne|]. split; [exact Hnd|].
  destruct (tree_groups_split_where_imbalance_is_least (sampleConfig Tree)
              sampleBuilt sampleRoot Hne Hnd)
    as (H1 & H2 & H3 & _ & _ & H6 & _).
  cbv zeta. split; [exact H1|]. split; [exact H2|]. split; [exact H3 | exact H6].
Defined.

(** C2, as stated, fails on the sample tree under the balanced-tree
    paradigm with the default spacing: at depth 2 the nodes sorted by y are
    c1, a1, c2, a2, c3, b1 before collision resolution and
    a1, c1, a2, c2, b1, c3 after it, with pairwise different y on both
    sides. *)
Lemma resolveCollisions_reorders_a_deeper_level :
  map (fun n => (n_id n, Qred (nodeY sampleLaidOut n)))
    (levelOrder AxisY sampleLaidOut (collectNodes sampleRoot) 2)
  = [("c1", -143); ("a1", -102); ("c2", -61); ("a2", -20); ("c3", 21); ("b1", 62)]%string
  /\ map (fun n => (n_id n, Qred (nodeY sampleResolved n)))
       (levelOrder AxisY sampleResolved (collectNodes sampleRoot) 2)
     = [("a1", -102); ("c1", -48); ("a2", 6); ("c2", 60); ("b1", 114); ("c3", 168)]%string
  /\ ~ (forall d,
          levelOrder AxisY sampleResolved (collectNodes sampleRoot) d
          = levelOrder AxisY sampleLaidOut (collectNodes sampleRoot) d).
Proof.
  split; [vm_compute; reflexivity|]. split; [vm_compute; reflexivity|].
  assert (H1 : map n_id (levelOrder AxisY sampleLaidOut (collectNodes sampleRoot) 2)
               = ["c1"; "a1"; "c2"; "a2"; "c3"; "b1"]%string)
    by (vm_compute; reflexivity).
  assert (H2 : map n_id (levelOrder AxisY sampleResolved (collectNodes sampleRoot) 2)
               = ["a1"; "c1"; "a2"; "c2"; "b1"; "c3"]%string)
    by (vm_compute; reflexivity).
  intros Hall. specialize (Hall 2%nat).
  rewrite Hall, H1 in H2. discriminate H2.
Qed.

Lemma level_order_witness :
  Tree <> Radial
  /\ NoDup (refsOf sampleRoot)
  /\ depthsOK sampleLaidOut sampleRoot
  /\ (forall n, In n (collectNodes sampleRoot) ->
        0 <= extent (packingAxis Tree) sampleLaidOut n)
  /\ (let ax := packingAxis Tree in
      let nodes := collectNodes sampleRoot in
      let groups := groupByDepth false sampleLaidOut nodes in
      let final := resolveCollisions sampleCos sampleSin nodes Tree sampleLaidOut in
      (forall k d level,
          groups !! k = Some (d, level) ->
          level = List.filter (fun n => Nat.eqb (nodeD sampleLaidOut n) d) nodes
          /\ sortBy (coord ax final) level
             = sortBy (coord ax (sweptLevels ax groups k sampleLaidOut)) level)
      /\ (forall k d level,
            (k <= 1)%nat ->
            groups !! k = Some (d, level) ->
            sortBy (coord ax final) level = sortBy (coord ax sampleLaidOut) level)).
Proof.
  assert (Hl : Tree <> Radial) by discriminate.
  assert (Hnd : NoDup (refsOf sampleRoot))
    by (apply (bool_decide_unpack _); vm_compute; exact I).
  assert (Hok : depthsOK sampleLaidOut sampleRoot).
  { intros n Hn. vm_compute in Hn.
    repeat (destruct Hn as [<- | Hn];
            [intros c Hc; vm_compute in Hc;
             repeat (destruct Hc as [<- | Hc]; [vm_compute; reflexivity|]);
             destruct Hc|]).
    destruct Hn. }
  assert (Hext : forall n, In n (collectNodes sampleRoot) ->
                   0 <= extent (packingAxis Tree) sampleLaidOut n).
  { intros n Hn. vm_compute in Hn.
    repeat (destruct Hn as [<- | Hn]; [vm_compute; discriminate|]).
    destruct Hn. }
  split; [exact Hl|]. split; [exact Hnd|]. split; [exact Hok|]. split; [exact Hext|].
  exact (resolveCollisions_keeps_each_level_in_its_swept_order
           sampleCos sampleSin Tree sampleRoot sampleLaidOut Hl Hnd Hok Hext).
Defined.

Lemma drag_witness :
  NoDup (idsOf sampleRoot)
  /\ exists ctx,
       dragContext sampleAtan2 sampleRoot sampleResolved sampleResolved = Some ctx
       /\ handleNodeDrag sampleAtan2 samplePI ctx "missing" 0 0 ∅ = ReturnPrev
       /\ exists next,
            fullMove sampleResolved sampleRoot 5 7 ∅ next
            /\ ((handleNodeDrag sampleAtan2 samplePI ctx "r" 5 7 ∅ = ReturnPrev
                 /\ crosses sampleAtan2 samplePI (collectNodes sampleRoot)
                      sampleResolved sampleResolved next)
                \/ (handleNodeDrag sampleAtan2 samplePI ctx "r" 5 7 ∅ = ReturnNext next
                    /\ ~ crosses sampleAtan2 samplePI (collectNodes sampleRoot)
                           sampleResolved sampleResolved next)).
Proof.
  assert (Hnd : NoDup (idsOf sampleRoot))
    by (apply (bool_decide_unpack _); vm_compute; exact I).
  split; [exact Hnd|].
  destruct (handleNodeDrag_is_all_or_nothing sampleAtan2 samplePI sampleRoot
              sampleResolved sampleResolved Hnd) as (ctx & Hctx & Hdrag).
  exists ctx. split; [exact Hctx|]. split.
  - apply (proj1 (Hdrag "missing"%string 0 0 ∅)).
    vm_compute. intros Hin.
    repeat (destruct Hin as [Hin | Hin]; [discriminate|]). destruct Hin.
  - apply (proj2 (Hdrag "r"%string 5 7 ∅) sampleRoot).
    + apply collectNodes_self.
    + reflexivity.
Defined.

Lemma bounds_witness :
  0 <= padding (export (sampleConfig Tree))
  /\ (let res := computeLayout sampleMeasure sampleCos sampleSin samplePI
                   sampleTree (sampleConfig Tree) in
      exists mnx mny mxx mxy,
        computeBounds (heap res) (nodes res)
        = {| minX := Fin mnx; minY := Fin mny; maxX := Fin mxx; maxY := Fin mxy |}
        /\ width res = Fin (mxx - mnx + padding (export (sampleConfig Tree)) * 2)
        /\ height res = Fin (mxy - mny + padding (export (sampleConfig Tree)) * 2)
        /\ offsetX res = Fin (- mnx + padding (export (sampleConfig Tree)))
        /\ offsetY res = Fin (- mny + padding (export (sampleConfig Tree)))
        /\ forall n, In n (nodes res) ->
           forall px py,
             nodeX (heap res) n <= px <= nodeX (heap res) n + nodeW (heap res) n ->
             nodeY (heap res) n <= py <= nodeY (heap res) n + nodeH (heap res) n ->
             0 <= px + (- mnx + padding (export (sampleConfig Tree)))
                  <= mxx - mnx + padding (export (sampleConfig Tree)) * 2
             /\ 0 <= py + (- mny + padding (export (sampleConfig Tree)))
                  <= mxy - mny + padding (export (sampleConfig Tree)) * 2).
Proof.
  assert (Hpad : 0 <= padding (export (sampleConfig Tree)))
    by (vm_compute; discriminate).
  split; [exact Hpad|].
  exact (layout_bounds_contain_every_node sampleMeasure sampleCos sampleSin
           samplePI sampleTree (sampleConfig Tree) Hpad).
Defined.

Lemma radial_sectors_witness :
  0 <= samplePI * 2
  /\ NoDup (refsOf wideRoot)
  /\ (let span := samplePI * 2 - 0 in
      let angles := allocateAngles 180 wideBuilt (n_children wideRoot) span in
      let sectors := sectorsOf 0 angles in
      let h' := positionChildren sampleCos sampleSin 180 wideRoot 0 (samplePI * 2)
                  wideBuilt in
      length sectors = length (n_children wideRoot)
      /\ (forall s e, In (s, e) sectors -> 0 <= s /\ s <= e /\ e <= samplePI * 2)
      /\ sumQ angles <= span
      /\ Forall2 (childPlaced h') (n_children wideRoot) sectors).
Proof.
  assert (Hle : 0 <= samplePI * 2) by (vm_compute; discriminate).
  assert (Hnd : NoDup (refsOf wideRoot))
    by (apply (bool_decide_unpack _); vm_compute; exact I).
  split; [exact Hle|]. split; [exact Hnd|].
  destruct (radial_children_get_nested_disjoint_sectors sampleCos sampleSin 180
              wideRoot 0 (samplePI * 2) wideBuilt Hle Hnd)
    as (H1 & _ & _ & H4 & _ & _ & _ & H8 & H9).
  cbv zeta. split; [exact H1|]. split; [exact H4|]. split; [exact H8 | exact H9].
Defined.

(** C6, as stated, fails on the sample tree [wideTree]: its nodes [a] and
    [b] have the same width, height and radius, so the stated formula gives
    them the same floor whatever the margin, but the floor of [a] is 3/2
    (the sum of its children's minimum angles) and that of [b] is 17/45. *)
Lemma radial_floor_is_not_a_function_of_size_and_radius :
  ~ (exists margin,
       forall n, In n (collectNodes wideRoot) ->
         0 < radiusForDepth 180 (nodeD wideBuilt n) ->
         minSubtreeAngle 180 wideBuilt n == claimedFloor margin 180 wideBuilt n).
Proof.
  intros (margin & Hall).
  set (a := nth 0 (n_children wideRoot) wideRoot).
  set (b := nth 1 (n_children wideRoot) wideRoot).
  assert (Ha : minSubtreeAngle 180 wideBuilt a == claimedFloor margin 180 wideBuilt a).
  { apply Hall; [vm_compute; auto | vm_compute; reflexivity]. }
  assert (Hb : minSubtreeAngle 180 wideBuilt b == claimedFloor margin 180 wideBuilt b).
  { apply Hall; [vm_compute; auto 10 | vm_compute; reflexivity]. }
  assert (Hsame : claimedFloor margin 180 wideBuilt a
                  = claimedFloor margin 180 wideBuilt b).
  { unfold claimedFloor.
    assert (Hw : nodeW wideBuilt a = nodeW wideBuilt b) by (vm_compute; reflexivity).
    assert (Hh : nodeH wideBuilt a = nodeH wideBuilt b) by (vm_compute; reflexivity).
    assert (Hd : nodeD wideBuilt a = nodeD wideBuilt b) by (vm_compute; reflexivity).
    rewrite Hw, Hh, Hd. reflexivity. }
  rewrite Hsame, <- Hb in Ha.
  assert (Hva : minSubtreeAngle 180 wideBuilt a == 3 # 2) by (vm_compute; reflexivity).
  assert (Hvb : minSubtreeAngle 180 wideBuilt b == 17 # 45) by (vm_compute; reflexivity).
  rewrite Hva, Hvb in Ha. vm_compute in Ha. discriminate Ha.
Qed.

Lemma radial_floor_witness :
  let b := nth 1 (n_children wideRoot) wideRoot in
  let r := radiusForDepth 180 (nodeD wideBuilt b) in
  let dim := Qmax (nodeW wideBuilt b) (nodeH wideBuilt b) in
  0 < r /\ 0 <= dim
  /\ nodeArc 180 wideBuilt b == Qmax (dim + 20) (3 # 10) / r
  /\ minSubtreeAngle 180 wideBuilt b = nodeArc 180 wideBuilt b.
Proof.
  cbv zeta.
  set (b := nth 1 (n_children wideRoot) wideRoot).
  assert (Hr : 0 < radiusForDepth 180 (nodeD wideBuilt b)) by (vm_compute; reflexivity).
  assert (Hdim : 0 <= Qmax (nodeW wideBuilt b) (nodeH wideBuilt b))
    by (vm_compute; discriminate).
  destruct (radial_floor_is_subtree_minimum_angle 180 wideBuilt b)
    as (Hunf & _ & Hmax & _ & _).
  split; [exact Hr|]. split; [exact Hdim|]. split; [exact (Hmax Hr Hdim)|].
  exact Hunf.
Defined.

Lemma mirror_witness :
  let cfg := sampleConfig HorizontalLeft in
  let built := buildLayoutTree sampleMeasure sampleTree 0 cfg (0%nat, emptyHeap) in
  let root := fst built in
  let left := layoutHorizontalLeft root cfg (snd (snd built)) in
  let right := layoutHorizontalRight root cfg (snd (snd built)) in
  In root (collectNodes root)
  /\ nodeX left root = - nodeX right root - nodeW right root
  /\ nodeY left root = nodeY right root.
Proof.
  cbv zeta.
  pose proof (collectNodes_self
    (fst (buildLayoutTree sampleMeasure sampleTree 0 (sampleConfig HorizontalLeft)
            (0%nat, emptyHeap)))) as Hin.
  destruct (horizontal_left_is_mirrored_horizontal_right sampleMeasure
              (sampleConfig HorizontalLeft) sampleTree (0%nat, emptyHeap))
    as [_ Hnodes].
  destruct (Hnodes _ Hin) as (Hx & Hy & _).
  split; [exact Hin|]. split; [exact Hx | exact Hy].
Defined.

Lemma edge_gap_witness :
  let cfg := sampleConfig Tree in
  let source := sampleResolved (n_ref sampleRoot) in
  let target := sampleResolved (n_ref (nth 0 (n_children sampleRoot) sampleRoot)) in
  let g := edgeGeometry source target cfg 0 0 in
  markerEnd (link cfg) <> MNone /\ markerStart (link cfg) = MNone
  /\ x2 g = pt_x (fst (targetAnchorOf source target cfg 0 0))
            + dx (snd (targetAnchorOf source target cfg 0 0)) * (8 + 3)
  /\ x1 g = pt_x (fst (sourceAnchorOf source target cfg 0 0))
            + dx (snd (sourceAnchorOf source target cfg 0 0)) * 4.
Proof.
  cbv zeta.
  assert (He : markerEnd (link (sampleConfig Tree)) <> MNone) by discriminate.
  assert (Hs : markerStart (link (sampleConfig Tree)) = MNone) by reflexivity.
  destruct (edge_gap_is_marker_size_plus_3_or_4
              (sampleResolved (n_ref sampleRoot))
              (sampleResolved (n_ref (nth 0 (n_children sampleRoot) sampleRoot)))
              (sampleConfig Tree) 0 0)
    as (_ & _ & _ & _ & _ & _ & _ & Hstart & Hend & _).
  split; [exact He|]. split; [exact Hs|].
  split; [exact (proj1 (Hend He)) | exact (proj1 (Hstart Hs))].
Defined.

(** ** Facts about the sample tree *)

Lemma sampleRoot_refs_distinct : NoDup (refsOf sampleRoot).
Proof. apply (bool_decide_unpack _); vm_compute; exact I. Qed.

Lemma sampleRoot_ids_distinct : NoDup (idsOf sampleRoot).
Proof. apply (bool_decide_unpack _); vm_compute; exact I. Qed.

Lemma sampleBuilt_depths : depthsOK sampleBuilt sampleRoot.
Proof.
  intros n Hn. vm_compute in Hn.
  repeat (destruct Hn as [<- | Hn];
          [intros c Hc; vm_compute in Hc;
           repeat (destruct Hc as [<- | Hc]; [vm_compute; reflexivity|]);
           destruct Hc|]).
  destruct Hn.
Qed.

Lemma sampleLaidOut_depths : depthsOK sampleLaidOut sampleRoot.
Proof.
  intros n Hn. vm_compute in Hn.
  repeat (destruct Hn as [<- | Hn];
          [intros c Hc; vm_compute in Hc;
           repeat (destruct Hc as [<- | Hc]; [vm_compute; reflexivity|]);
           destruct Hc|]).
  destruct Hn.
Qed.

Lemma sampleBuilt_widths :
  forall m, In m (collectNodes sampleRoot) -> 0 <= nodeW sampleBuilt m.
Proof.
  intros n Hn. vm_compute in Hn.
  repeat (destruct Hn as [<- | Hn]; [vm_compute; discriminate|]).
  destruct Hn.
Qed.

Lemma sampleBuilt_heights :
  forall m, In m (collectNodes sampleRoot) -> 0 <= nodeH sampleBuilt m.
Proof.
  intros n Hn. vm_compute in Hn.
  repeat (destruct Hn as [<- | Hn]; [vm_compute; discriminate|]).
  destruct Hn.
Qed.

Lemma sampleLaidOut_extents (layout : LayoutType) :
  forall n, In n (collectNodes sampleRoot) ->
    0 <= extent (packingAxis layout) sampleLaidOut n.
Proof.
  intros n Hn. vm_compute in Hn. destruct layout;
  repeat (destruct Hn as [<- | Hn]; [vm_compute; discriminate|]);
  destruct Hn.
Qed.

Lemma sampleMeasure_heights :
  forall t fs ff fw, 0 <= snd (sampleMeasure t fs ff fw).
Proof. intros. cbn. discriminate. Qed.

(** ** The further properties on the sample inputs *)

Lemma horizontal_right_witness :
  NoDup (refsOf sampleRoot)
  /\ depthsOK sampleBuilt sampleRoot
  /\ 0 <= verticalSpacing (structure (sampleConfig HorizontalRight)) + 8
  /\ (forall m, In m (collectNodes sampleRoot) -> 0 <= nodeH sampleBuilt m)
  /\ levelsApart AxisY
       (verticalSpacing (structure (sampleConfig HorizontalRight)) + 8)
       (layoutHorizontalRight sampleRoot (sampleConfig HorizontalRight) sampleBuilt)
       sampleRoot.
Proof.
  assert (Hv : 0 <= verticalSpacing (structure (sampleConfig HorizontalRight)) + 8)
    by (vm_compute; discriminate).
  split; [exact sampleRoot_refs_distinct|]. split; [exact sampleBuilt_depths|].
  split; [exact Hv|]. split; [exact sampleBuilt_heights|].
  pose proof (horizontal_right_layout_is_tidy sampleRoot
                (sampleConfig HorizontalRight) sampleBuilt
                sampleRoot_refs_distinct sampleBuilt_depths Hv sampleBuilt_heights)
    as H.
  cbv zeta in H. destruct H as (_ & _ & _ & _ & H). exact H.
Defined.

Lemma horizontal_no_resolution_witness :
  (layout (structure (sampleConfig HorizontalLeft)) = HorizontalRight
   \/ layout (structure (sampleConfig HorizontalLeft)) = HorizontalLeft)
  /\ 6 <= verticalSpacing (structure (sampleConfig HorizontalLeft))
  /\ 0 <= nodePaddingY (style (sampleConfig HorizontalLeft))
  /\ (forall t fs ff fw, 0 <= snd (sampleMeasure t fs ff fw))
  /\ (let built :=
        buildLayoutTree sampleMeasure sampleTree 0 (sampleConfig HorizontalLeft)
          (0%nat, emptyHeap) in
      heap (computeLayout sampleMeasure sampleCos sampleSin samplePI sampleTree
              (sampleConfig HorizontalLeft))
      = layoutStep sampleCos sampleSin samplePI (fst built)
          (sampleConfig HorizontalLeft) (snd (snd built))).
Proof.
  assert (Hl : layout (structure (sampleConfig HorizontalLeft)) = HorizontalRight
               \/ layout (structure (sampleConfig HorizontalLeft)) = HorizontalLeft)
    by (right; reflexivity).
  assert (Hv : 6 <= verticalSpacing (structure (sampleConfig HorizontalLeft)))
    by (vm_compute; discriminate).
  assert (Hp : 0 <= nodePaddingY (style (sampleConfig HorizontalLeft)))
    by (vm_compute; discriminate).
  split; [exact Hl|]. split; [exact Hv|]. split; [exact Hp|].
  split; [exact sampleMeasure_heights|].
  exact (horizontal_layouts_need_no_collision_resolution sampleMeasure sampleCos
           sampleSin samplePI sampleTree (sampleConfig HorizontalLeft)
           Hl Hv Hp sampleMeasure_heights).
Defined.

Lemma vertical_witness :
  NoDup (refsOf sampleRoot)
  /\ depthsOK sampleBuilt sampleRoot
  /\ 0 <= horizontalSpacing (structure (sampleConfig Vertical)) + 10
  /\ (forall m, In m (collectNodes sampleRoot) -> 0 <= nodeW sampleBuilt m)
  /\ levelsApart AxisX
       (horizontalSpacing (structure (sampleConfig Vertical)) + 10)
       (layoutVertical sampleRoot (sampleConfig Vertical) sampleBuilt)
       sampleRoot.
Proof.
  assert (Hs : 0 <= horizontalSpacing (structure (sampleConfig Vertical)) + 10)
    by (vm_compute; discriminate).
  split; [exact sampleRoot_refs_distinct|]. split; [exact sampleBuilt_depths|].
  split; [exact Hs|]. split; [exact sampleBuilt_widths|].
  pose proof (vertical_layout_is_tidy sampleCos sampleSin sampleRoot
                (sampleConfig Vertical) sampleBuilt
                sampleRoot_refs_distinct sampleBuilt_depths Hs sampleBuilt_widths)
    as H.
  cbv zeta in H. destruct H as (_ & _ & _ & H & _). exact H.
Defined.

Lemma separated_levels_witness :
  Tree <> Radial
  /\ NoDup (refsOf sampleRoot)
  /\ depthsOK sampleLaidOut sampleRoot
  /\ (forall n, In n (collectNodes sampleRoot) ->
        0 <= extent (packingAxis Tree) sampleLaidOut n)
  /\ (let resolved :=
        resolveCollisions sampleCos sampleSin (collectNodes sampleRoot) Tree
          sampleLaidOut in
      levelsApart (packingAxis Tree) collisionPadding resolved sampleRoot
      /\ resolveCollisions sampleCos sampleSin (collectNodes sampleRoot) Tree resolved
         = resolved).
Proof.
  assert (Hl : Tree <> Radial) by discriminate.
  split; [exact Hl|]. split; [exact sampleRoot_refs_distinct|].
  split; [exact sampleLaidOut_depths|]. split; [exact (sampleLaidOut_extents Tree)|].
  exact (resolveCollisions_separates_every_level sampleCos sampleSin Tree
           sampleRoot sampleLaidOut Hl sampleRoot_refs_distinct
           sampleLaidOut_depths (sampleLaidOut_extents Tree)).
Defined.

Lemma radial_rings_witness :
  NoDup (refsOf sampleRoot)
  /\ (let baseRing := horizontalSpacing (structure (sampleConfig Radial)) + 120 in
      let h' := layoutRadial sampleCos sampleSin samplePI sampleRoot
                  (sampleConfig Radial) sampleBuilt in
      forall m, In m (flat_map collectNodes (n_children sampleRoot)) ->
        onRing sampleCos sampleSin baseRing sampleBuilt h' m).
Proof.
  split; [exact sampleRoot_refs_distinct|].
  pose proof (radial_layout_puts_every_node_on_its_ring sampleCos sampleSin
                samplePI sampleRoot (sampleConfig Radial) sampleBuilt
                sampleRoot_refs_distinct) as H.
  cbv zeta in H. destruct H as (_ & _ & _ & H & _). cbv zeta. exact H.
Defined.

Lemma only_moves_witness :
  NoDup (refsOf sampleRoot)
  /\ depthsOK sampleBuilt sampleRoot
  /\ nodeD sampleBuilt sampleRoot = 0%nat
  /\ (forall layout,
        onlyMoves sampleBuilt
          (resolveCollisions sampleCos sampleSin (collectNodes sampleRoot) layout
             sampleBuilt)).
Proof.
  assert (Hd : nodeD sampleBuilt sampleRoot = 0%nat) by (vm_compute; reflexivity).
  split; [exact sampleRoot_refs_distinct|]. split; [exact sampleBuilt_depths|].
  split; [exact Hd|].
  exact (proj1 (collision_resolution_only_moves_and_keeps_the_radial_root
                  sampleCos sampleSin sampleRoot sampleBuilt
                  sampleRoot_refs_distinct sampleBuilt_depths Hd)).
Defined.

Lemma drag_follows_witness :
  find (fun n => String.eqb (n_id n) "r") (collectNodes sampleRoot)
  = Some sampleRoot
  /\ "r"%string <> EmptyString
  /\ ~ rect_width sampleRect == 0
  /\ ~ rect_height sampleRect == 0
  /\ (let st' :=
        handleNodeDragStart sampleViewBox (Some sampleRect)
          (collectNodes sampleRoot) sampleBuilt 40 40 "r" 110 120 idleDrag in
      exists newX newY,
        dragMove sampleViewBox (Some sampleRect) 40 40 st' 160 120
        = Some ("r"%string, newX, newY)
        /\ newX == nodeX sampleBuilt sampleRoot
                   + (160 - 110) * (vb_w sampleViewBox / rect_width sampleRect)
        /\ newY == nodeY sampleBuilt sampleRoot
                   + (120 - 120) * (vb_h sampleViewBox / rect_height sampleRect)).
Proof.
  assert (Hf : find (fun n => String.eqb (n_id n) "r") (collectNodes sampleRoot)
               = Some sampleRoot) by (vm_compute; reflexivity).
  assert (Hne : "r"%string <> EmptyString) by discriminate.
  assert (Hw : ~ rect_width sampleRect == 0) by (vm_compute; discriminate).
  assert (Hh : ~ rect_height sampleRect == 0) by (vm_compute; discriminate).
  split; [exact Hf|]. split; [exact Hne|]. split; [exact Hw|]. split; [exact Hh|].
  pose proof (dragged_node_follows_the_pointer sampleViewBox sampleRect
                (collectNodes sampleRoot) sampleBuilt 40 40 "r" sampleRoot
                110 120 160 120 idleDrag Hf Hne Hw Hh) as H.
  cbv zeta in H. destruct H as (newX & newY & H1 & H2 & H3 & _).
  cbv zeta. exists newX, newY. split; [exact H1|]. split; [exact H2 | exact H3].
Defined.

Lemma zoom_anchor_witness :
  ~ rect_width sampleRect == 0
  /\ ~ rect_height sampleRect == 0
  /\ (let wheel :=
        handleWheel 1 sampleViewBox 800 600 (Some sampleRect) (- 100) 110 120 in
      pt_x (screenToSvg (fst wheel) (Some sampleRect) 110 120)
      == pt_x (screenToSvg sampleViewBox (Some sampleRect) 110 120)
      /\ pt_y (screenToSvg (fst wheel) (Some sampleRect) 110 120)
         == pt_y (screenToSvg sampleViewBox (Some sampleRect) 110 120)).
Proof.
  assert (Hw : ~ rect_width sampleRect == 0) by (vm_compute; discriminate).
  assert (Hh : ~ rect_height sampleRect == 0) by (vm_compute; discriminate).
  split; [exact Hw|]. split; [exact Hh|].
  pose proof (zooming_keeps_the_anchor_point 1 sampleViewBox 800 600 sampleRect
                (- 100) 110 120 (8 # 10) Hw Hh) as H.
  cbv zeta in H. destruct H as (_ & H1 & H2 & _).
  cbv zeta. split; [exact H1 | exact H2].
Defined.

Lemma boundary_point_witness :
  0 <= n_width sampleGeom
  /\ 0 <= n_height sampleGeom
  /\ (let bp := rectBoundaryPoint sampleGeom 300 50 0 0 in
      onSide (n_x sampleGeom + 0) (n_y sampleGeom + 0)
        (n_width sampleGeom) (n_height sampleGeom)
        (bp_x bp) (bp_y bp) (bp_dx bp) (bp_dy bp)).
Proof.
  assert (Hw : 0 <= n_width sampleGeom) by (vm_compute; discriminate).
  assert (Hh : 0 <= n_height sampleGeom) by (vm_compute; discriminate).
  split; [exact Hw|]. split; [exact Hh|].
  exact (proj1 (rectBoundaryPoint_lies_on_the_boundary sampleGeom 300 50 0 0 Hw Hh)).
Defined.


Lemma descendantsMap_witness :
  NoDup (idsOf sampleRoot)
  /\ exists dm,
       descendantsMap (collectNodes sampleRoot) = Some dm
       /\ (forall k, In k (idsOf sampleRoot) <-> is_Some (dm !! k)).
Proof.
  split; [exact sampleRoot_ids_distinct|].
  destruct (descendantsMap_lists_the_proper_descendants sampleRoot
              sampleRoot_ids_distinct) as (dm & H1 & H2 & _).
  exists dm. split; [exact H1 | exact H2].
Defined.


Lemma tree_sides_witness :
  NoDup (refsOf sampleRoot)
  /\ depthsOK sampleBuilt sampleRoot
  /\ 0 <= verticalSpacing (structure (sampleConfig Tree)) + 12
  /\ (forall m, In m (collectNodes sampleRoot) -> 0 <= nodeH sampleBuilt m)
  /\ (let vSpacing := verticalSpacing (structure (sampleConfig Tree)) + 12 in
      let rightChildren := fst (treeGroups vSpacing sampleBuilt sampleRoot) in
      forall a b,
        In a (flat_map collectNodes rightChildren) ->
        In b (flat_map collectNodes rightChildren) ->
        unrelated a b ->
        apart AxisY vSpacing (layoutTree sampleRoot (sampleConfig Tree) sampleBuilt) a b).
Proof.
  assert (Hv : 0 <= verticalSpacing (structure (sampleConfig Tree)) + 12)
    by (vm_compute; discriminate).
  split; [exact sampleRoot_refs_distinct|]. split; [exact sampleBuilt_depths|].
  split; [exact Hv|]. split; [exact sampleBuilt_heights|].
  pose proof (tree_layout_is_tidy_on_each_side sampleRoot (sampleConfig Tree)
                sampleBuilt sampleRoot_refs_distinct sampleBuilt_depths Hv
                sampleBuilt_heights) as H.
  cbv zeta in H. destruct H as (_ & _ & _ & _ & H & _). cbv zeta. exact H.
Defined.

Lemma rigid_push_witness :
  NoDup (refsOf sampleRoot)
  /\ (forall m, In m (flat_map collectNodes (n_children sampleRoot)) ->
        translated 5 7 sampleBuilt (shiftSubtreeXY sampleRoot 5 7 sampleBuilt) m)
  /\ (forall ax r, ~ In r (refsOf sampleRoot) ->
        pushForward ax sampleRoot 9 sampleBuilt r = sampleBuilt r).
Proof.
  split; [exact sampleRoot_refs_distinct|].
  destruct (pushed_subtree_moves_rigidly sampleRoot 5 7 9 sampleBuilt
              sampleRoot_refs_distinct) as (H1 & _ & _ & _ & H5).
  split; [exact H1 | exact H5].
Defined.

